(** * oxn: parser-combinator front end, registry tree, symbol table, resolver

    A shallow embedding of [src/oxn.c].  Every definition below follows one
    function of the C source and keeps its name.  The conventions are:

    - [char] is the signed 8-bit type of x86-64 Linux (the program includes
      [execinfo.h] and links libgccjit); a [char] value is a [Z] in
      [-128, 127].
    - [size_t] is 64 bits wide.  The hash accumulator wraps and is reduced
      modulo [2^64].  Sizes, capacities and file positions count allocated
      objects or bytes of an existing file and are kept as [nat].
    - [int] is 32 bits wide.  Keys, heights and binding identifiers are
      [Z]; the UID counter wraps from [INT_MAX] to [INT_MIN], as the
      increment of a [volatile int] does in the compiled program.
    - Memory that the C code shares through pointers (the key texts of the
      symbol table) lives in an explicit heap; reading or freeing a block
      that was already freed is a fault.
    - Loops and recursion that the C code does not bound take a fuel
      argument; running out of fuel is [None], never a result. *)

From Stdlib Require Import Ascii String ZArith Lia Sorted.
From stdpp Require Import base numbers option list strings gmap sorting.

Set Warnings "-register-all".

Open Scope Z_scope.

(* ===================================================================== *)
(** * Faults and the state monad of the C code *)
(* ===================================================================== *)

Inductive fault :=
| OutOfBounds    (* array access outside the allocated block *)
| NullDeref      (* read through a NULL pointer *)
| UseAfterFree   (* read of a block that was freed *)
| InvalidFree    (* free of a block that is not allocated *)
| DivByZero      (* [h % 0] *)
| Panic.         (* [panic] / [unreachable]: prints and exits 1 *)

Inductive Res (A : Type) :=
| Ok (a : A)
| Fault (f : fault).
Arguments Ok {A} a.
Arguments Fault {A} f.

Definition M (S A : Type) : Type := S → Res (A * S).

Definition ret {S A} (a : A) : M S A := λ s, Ok (a, s).
Definition bind {S A B} (m : M S A) (k : A → M S B) : M S B :=
  λ s, match m s with
       | Ok (a, s') => k a s'
       | Fault f => Fault f
       end.
Definition raise {S A} (f : fault) : M S A := λ _, Fault f.

#[global] Instance M_ret {S} : MRet (M S) := λ A, @ret S A.
#[global] Instance M_bind {S} : MBind (M S) := λ A B k m, bind m k.

(* ===================================================================== *)
(** * Ordered registry: [struct node], [tree_Insert], [tree_Iter] *)
(* ===================================================================== *)

(** [struct node] is embedded as first member of [struct Param] and
    [struct Def]; the rest of the enclosing struct is the payload [A].
    [Null] is the NULL pointer. *)
Inductive node (A : Type) :=
| Null
| Node (Left : node A) (Key Height : Z) (payload : A) (Right : node A).
Arguments Null {A}.
Arguments Node {A} Left Key Height payload Right.

Section Tree.
Context {A : Type}.

(** A freshly allocated entry after [node_Default] and the assignment of
    its [Key]: no children, height 1. *)
Definition node_Default (key : Z) (a : A) : node A := Node Null key 1 a Null.

Definition node_height (n : node A) : Z :=
  match n with
  | Null => 0
  | Node _ _ h _ _ => h
  end.

(** [n->Key].  [other] is always the address of a new struct.  A child
    is read under a balance test; on a tree with right stored heights the
    test makes the child non-NULL.  On a NULL child, where the C code
    reads through NULL, the value is 0; [tree_Insert_checked] below is the
    run in which every such read is checked. *)
Definition node_Key (n : node A) : Z :=
  match n with
  | Null => 0
  | Node _ k _ _ _ => k
  end.

(** On a tree with right stored heights the rotations are reached only
    under a balance test that makes the lifted child non-NULL; on a NULL
    child, where the C code reads through NULL, the node is returned as
    it is.  Statements about these functions are for trees that satisfy
    [avl], on which they agree with [node_rightRotate_checked] and
    [node_leftRotate_checked]. *)
Definition node_rightRotate (x : node A) : node A :=
  match x with
  | Node (Node yl yk _ ya z) xk _ xa xr =>
      let x' := Node z xk (Z.max (node_height z) (node_height xr) + 1) xa xr in
      Node yl yk (Z.max (node_height yl) (node_height x') + 1) ya x'
  | _ => x
  end.

Definition node_leftRotate (x : node A) : node A :=
  match x with
  | Node xl xk _ xa (Node z yk _ ya yr) =>
      let x' := Node xl xk (Z.max (node_height xl) (node_height z) + 1) xa z in
      Node x' yk (Z.max (node_height x') (node_height yr) + 1) ya yr
  | _ => x
  end.

Definition node_balance (n : node A) : Z :=
  match n with
  | Null => 0
  | Node l _ _ _ r => node_height l - node_height r
  end.

(** The part of [tree_Insert] after the recursive call: height update and
    the four imbalance cases, tested in the order of the source. *)
Definition tree_rebalance (root : node A) (okey : Z) : node A :=
  match root with
  | Null => Null
  | Node l k _ a r =>
      let root := Node l k (Z.max (node_height l) (node_height r) + 1) a r in
      let balance := node_balance root in
      if (1 <? balance) && (okey <? node_Key l) then node_rightRotate root
      else if (balance <? -1) && (node_Key r <? okey) then node_leftRotate root
      else if (1 <? balance) && (node_Key l <? okey) then
        node_rightRotate
          (Node (node_leftRotate l) k (node_height root) a r)
      else if (balance <? -1) && (okey <? node_Key r) then
        node_leftRotate
          (Node l k (node_height root) a (node_rightRotate r))
      else root
  end.

Fixpoint tree_Insert (root other : node A) : node A :=
  match root with
  | Null => other
  | Node l k h a r =>
      if node_Key other <? k then
        tree_rebalance (Node (tree_Insert l other) k h a r) (node_Key other)
      else if k <? node_Key other then
        tree_rebalance (Node l k h a (tree_Insert r other)) (node_Key other)
      else root
  end.

(** [tree_Iter(data, root, f)]: in-order walk.  The callback receives the
    node's key and payload and may rewrite the payload (the resolver
    rewrites a definition's body in place). *)
Fixpoint tree_Iter {S D} (f : D → Z → A → M S (D * A))
    (data : D) (root : node A) : M S (D * node A) :=
  match root with
  | Null => mret (data, Null)
  | Node l k h a r =>
      '(data, l') ← tree_Iter f data l;
      '(data, a') ← f data k a;
      '(data, r') ← tree_Iter f data r;
      mret (data, Node l' k h a' r')
  end.

(** The entries of a tree, left to right. *)
Fixpoint inorder (t : node A) : list (Z * A) :=
  match t with
  | Null => []
  | Node l k _ a r => inorder l ++ (k, a) :: inorder r
  end.

(** A callback that only records what it is shown. *)
Definition visit {S} (seen : list (Z * A)) (k : Z) (a : A)
  : M S (list (Z * A) * A) := mret (seen ++ [(k, a)], a).

(** The registry built by the parser: entries inserted one by one, each
    a fresh node. *)
Definition tree_of_entries (es : list (Z * A)) : node A :=
  fold_left (λ t e, tree_Insert t (node_Default e.1 e.2)) es Null.
End Tree.

(* ===================================================================== *)
(** * Characters and C strings *)
(* ===================================================================== *)

(** [(char)c] for an [int] in [0, 255]. *)
Definition to_char (c : Z) : Z := if 128 <=? c then c - 256 else c.

Definition char_of_ascii (a : ascii) : Z := to_char (Z.of_nat (nat_of_ascii a)).

(** [c++] on a [char]: computed in [int], converted back to [char]. *)
Definition char_succ (c : Z) : Z := if 127 <? c + 1 then c + 1 - 256 else c + 1.

Definition size_t_max : Z := 2 ^ 64.

(** The largest size [malloc] can serve. *)
Definition ptrdiff_max : Z := 2 ^ 63 - 1.

(** A value brought into the range of [int], as a conversion to [int] or
    an increment of an [int] leaves it. *)
Definition to_int (n : Z) : Z := (n + 2 ^ 31) `mod` 2 ^ 32 - 2 ^ 31.

(** [(size_t)c]: a negative [char] is sign-extended. *)
Definition size_t_of_char (c : Z) : Z := c `mod` size_t_max.

(** [*key]: the first character of a C string, [0] for the empty one. *)
Definition first_char (s : string) : Z :=
  match s with
  | EmptyString => 0
  | String a _ => char_of_ascii a
  end.

(** The characters of a buffer before its first NUL. *)
Fixpoint c_str (s : string) : string :=
  match s with
  | EmptyString => EmptyString
  | String a rest =>
      if Ascii.eqb a zero then EmptyString else String a (c_str rest)
  end.

(* ===================================================================== *)
(** * The heap of key texts *)
(* ===================================================================== *)

(** Blocks returned by [allocate] in [source_Text].  Addresses are never
    reused, so a block that was freed stays recognisable. *)
Record Heap := mkHeap { cells : gmap nat string; next : nat }.

(** A [const char *]: [None] is NULL. *)
Abbreviation cptr := (option nat).

Definition heap_empty : Heap := mkHeap ∅ 0.

Definition alloc_str (s : string) : M Heap cptr :=
  λ h, Ok (Some (next h), mkHeap (<[next h := s]> (cells h)) (S (next h))).

Definition load (p : cptr) : M Heap string :=
  λ h, match p with
       | None => Fault NullDeref
       | Some a => match cells h !! a with
                   | Some s => Ok (s, h)
                   | None => Fault UseAfterFree
                   end
       end.

(** [free(p)]; [free(NULL)] does nothing. *)
Definition free (p : cptr) : M Heap unit :=
  λ h, match p with
       | None => Ok (tt, h)
       | Some a => match cells h !! a with
                   | Some _ => Ok (tt, mkHeap (delete a (cells h)) (next h))
                   | None => Fault InvalidFree
                   end
       end.

(* ===================================================================== *)
(** * Symbol table: [struct entry], [struct map] *)
(* ===================================================================== *)

(** A chain is the [Next]-linked list of a bucket, head first. *)
Record entry := mkEntry { entry_Key : cptr; entry_Val : Z }.

(** [Buckets] is the allocated array with its real length, or [None] for
    NULL. [Cap] is the field the code indexes with; nothing ties it to the
    length of the array. *)
Record map := mkMap {
  map_Buckets : option (list (list entry));
  map_Size : nat;
  map_Cap : nat
}.

(** [a[i]] on a [struct entry **]. *)
Definition array_get (a : option (list (list entry))) (i : nat)
  : M Heap (list entry) :=
  match a with
  | None => raise NullDeref
  | Some bs => match bs !! i with
               | Some c => mret c
               | None => raise OutOfBounds
               end
  end.

(** [a[i] = c]. *)
Definition array_set (a : option (list (list entry))) (i : nat)
    (c : list entry) : M Heap (option (list (list entry))) :=
  match a with
  | None => raise NullDeref
  | Some bs => if decide (i < length bs)%nat then mret (Some (<[i := c]> bs))
               else raise OutOfBounds
  end.

(** [map_Default]: the array is allocated from the [Cap] field as it is on
    entry; [Cap] is assigned afterwards. *)
Definition map_Default (m : map) : map :=
  mkMap (Some (replicate (map_Cap m) [])) 0 8.

(** The loop of [map_hash]: [c] starts at the first character and is
    incremented as a [char] until it is [0]; the key pointer never moves.
    At most 255 steps. *)
Fixpoint map_hash_loop (fuel : nat) (c h : Z) : Z :=
  match fuel with
  | O => h
  | S n => if c =? 0 then h
           else map_hash_loop n (char_succ c)
                  ((h * 31 + size_t_of_char c) `mod` size_t_max)
  end.

Definition hash_value (key : string) : Z :=
  map_hash_loop 256 (first_char key) 0.

Definition map_hash (key : cptr) (cap : nat) : M Heap nat :=
  s ← load key;
  if decide (cap = 0%nat) then raise DivByZero
  else mret (Z.to_nat (hash_value s `mod` Z.of_nat cap)).

(** The base-31 polynomial over all bytes of the key, as the specification
    words it; kept apart from [map_hash] to compare the two. *)
Definition poly31 (key : string) : Z :=
  fold_left (λ h a, (h * 31 + size_t_of_char (char_of_ascii a)) `mod` size_t_max)
            (list_ascii_of_string key) 0.

Definition spec_hash (key : string) (cap : nat) : nat :=
  Z.to_nat (poly31 key `mod` Z.of_nat cap).

(** Inner [while (e)] of [map_rehash]: each entry is pushed on the front of
    its new bucket. *)
Fixpoint rehash_chain (chain : list entry) (newCap : nat)
    (newBuckets : option (list (list entry)))
  : M Heap (option (list (list entry))) :=
  match chain with
  | [] => mret newBuckets
  | e :: rest =>
      index ← map_hash (entry_Key e) newCap;
      old ← array_get newBuckets index;
      newBuckets ← array_set newBuckets index (e :: old);
      rehash_chain rest newCap newBuckets
  end.

Fixpoint rehash_buckets (ixs : list nat) (m : map) (newCap : nat)
    (newBuckets : option (list (list entry)))
  : M Heap (option (list (list entry))) :=
  match ixs with
  | [] => mret newBuckets
  | i :: rest =>
      chain ← array_get (map_Buckets m) i;
      newBuckets ← rehash_chain chain newCap newBuckets;
      rehash_buckets rest m newCap newBuckets
  end.

Definition map_rehash (m : map) : M Heap map :=
  let newCap := (map_Cap m * 2)%nat in
  newBuckets ← rehash_buckets (seq 0 (map_Cap m)) m newCap
                 (Some (replicate newCap []));
  mret (mkMap newBuckets (map_Size m) newCap).

(** [(double)Size / (double)Cap >= 1.0]: with [Cap = 0] the quotient is
    NaN for [Size = 0] (false) and infinite otherwise (true). *)
Definition load_factor_ge_1 (size cap : nat) : bool :=
  if decide (cap = 0%nat) then bool_decide (0 < size)%nat
  else bool_decide (cap ≤ size)%nat.

(** [strcmp(a, b) == 0]: the two blocks are compared up to their first
    NUL. *)
Definition strcmp_eq (a b : cptr) : M Heap bool :=
  x ← load a; y ← load b; mret (bool_decide (c_str x = c_str y)).

(** The [while (e)] of [map_Set]: overwrite the value of the first entry
    whose key text equals [key]; [None] when the chain has none. *)
Fixpoint chain_assign (chain : list entry) (key : cptr) (val : Z)
  : M Heap (option (list entry)) :=
  match chain with
  | [] => mret None
  | e :: rest =>
      same ← strcmp_eq (entry_Key e) key;
      if same : bool then mret (Some (mkEntry (entry_Key e) val :: rest))
      else r ← chain_assign rest key val; mret ((e ::.) <$> r)
  end.

Definition map_Set (m : map) (key : cptr) (val : Z) : M Heap (bool * map) :=
  m ← (if load_factor_ge_1 (map_Size m) (map_Cap m) then map_rehash m
       else mret m);
  index ← map_hash key (map_Cap m);
  chain ← array_get (map_Buckets m) index;
  found ← chain_assign chain key val;
  match found with
  | Some chain' =>
      bs ← array_set (map_Buckets m) index chain';
      mret (true, mkMap bs (map_Size m) (map_Cap m))
  | None =>
      bs ← array_set (map_Buckets m) index (mkEntry key val :: chain);
      mret (false, mkMap bs (S (map_Size m)) (map_Cap m))
  end.

(** The [while (e)] of [map_Get]. *)
Fixpoint chain_find (chain : list entry) (key : cptr) : M Heap (option Z) :=
  match chain with
  | [] => mret None
  | e :: rest =>
      same ← strcmp_eq (entry_Key e) key;
      if same : bool then mret (Some (entry_Val e)) else chain_find rest key
  end.

(** [map_Get]: [Some v] for [true] with [*val = v], [None] for [false]. *)
Definition map_Get (m : map) (key : cptr) : M Heap (option Z) :=
  index ← map_hash key (map_Cap m);
  chain ← array_get (map_Buckets m) index;
  chain_find chain key.

Fixpoint free_chain (chain : list entry) : M Heap unit :=
  match chain with
  | [] => mret tt
  | e :: rest => free (entry_Key e);; free_chain rest
  end.

Fixpoint free_buckets (ixs : list nat) (m : map) : M Heap unit :=
  match ixs with
  | [] => mret tt
  | i :: rest =>
      chain ← array_get (map_Buckets m) i;
      free_chain chain;;
      free_buckets rest m
  end.

Definition map_Free (m : map) : M Heap map :=
  free_buckets (seq 0 (map_Cap m)) m;;
  mret (mkMap None (map_Size m) (map_Cap m)).

(** Inner [while (rhs_e)] of [map_Merge].  Returns the destination and the
    chain of [rhs] as the loop leaves it (keys that collided are NULL). *)
Fixpoint merge_chain (lhs : map) (chain : list entry)
  : M Heap (map * list entry) :=
  match chain with
  | [] => mret (lhs, [])
  | rhs_e :: rest =>
      '(existed, lhs) ← map_Set lhs (entry_Key rhs_e) (entry_Val rhs_e);
      rhs_e ← (if existed : bool then
                 free (entry_Key rhs_e);; mret (mkEntry None (entry_Val rhs_e))
               else mret rhs_e);
      '(lhs, rest) ← merge_chain lhs rest;
      mret (lhs, rhs_e :: rest)
  end.

Fixpoint merge_buckets (ixs : list nat) (lhs rhs : map) : M Heap (map * map) :=
  match ixs with
  | [] => mret (lhs, rhs)
  | i :: rest =>
      chain ← array_get (map_Buckets rhs) i;
      '(lhs, chain) ← merge_chain lhs chain;
      bs ← array_set (map_Buckets rhs) i chain;
      merge_buckets rest lhs (mkMap bs (map_Size rhs) (map_Cap rhs))
  end.

Definition map_Merge (lhs rhs : map) : M Heap (map * map) :=
  '(lhs, rhs) ← merge_buckets (seq 0 (map_Cap rhs)) lhs rhs;
  rhs ← map_Free rhs;
  mret (lhs, rhs).

(* ===================================================================== *)
(** * Cursor: [struct loc], [struct span], [struct Source] *)
(* ===================================================================== *)

Record loc := mkLoc { loc_Pos : nat; loc_Ln : nat; loc_Col : nat }.

Definition loc_Default : loc := mkLoc 0 1 1.
Definition loc_NextLine (l : loc) : loc := mkLoc (S (loc_Pos l)) (S (loc_Ln l)) 1.
Definition loc_NextColumn (l : loc) : loc :=
  mkLoc (S (loc_Pos l)) (loc_Ln l) (S (loc_Col l)).

Record span := mkSpan { span_Start : loc; span_End : loc }.

(** [File] is the content of the opened file; it is only read. *)
Record Source := mkSource {
  src_Loc : loc;
  src_File : string;
  src_Failed : bool;
  src_Atom : bool;
  src_NewlineSensitive : bool
}.

Definition set_Loc (l : loc) (s : Source) : Source :=
  mkSource l (src_File s) (src_Failed s) (src_Atom s) (src_NewlineSensitive s).
Definition set_Failed (b : bool) (s : Source) : Source :=
  mkSource (src_Loc s) (src_File s) b (src_Atom s) (src_NewlineSensitive s).
Definition set_Atom (b : bool) (s : Source) : Source :=
  mkSource (src_Loc s) (src_File s) (src_Failed s) b (src_NewlineSensitive s).
Definition set_NewlineSensitive (b : bool) (s : Source) : Source :=
  mkSource (src_Loc s) (src_File s) (src_Failed s) (src_Atom s) b.

Definition source_Init (f : string) : Source :=
  mkSource loc_Default f false false false.

Definition source_Size (s : Source) : nat := String.length (src_File s).

(** [fseek] to [pos] then [fgetc]: the byte as an [int] in [0, 255], or
    [EOF = -1]. *)
Definition fgetc_at (f : string) (pos : nat) : Z :=
  match String.get pos f with
  | Some a => Z.of_nat (nat_of_ascii a)
  | None => -1
  end.

Definition source_Peek (s : Source) : Z :=
  let c := fgetc_at (src_File s) (loc_Pos (src_Loc s)) in
  if c =? -1 then -1 else to_char c.

Definition source_Next (s : Source) : Z * Source :=
  let next := source_Peek s in
  if next <? 0 then (-1, s)
  else if next =? 10 then (next, set_Loc (loc_NextLine (src_Loc s)) s)
  else (next, set_Loc (loc_NextColumn (src_Loc s)) s).

Definition source_Back (s : Source) (l : loc) : Source :=
  set_Failed false (set_Loc l s).

Definition source_Eat (s : Source) (c : Z) : Source :=
  let '(next, s) := source_Next s in
  if next =? c then s else set_Failed true s.

(** [isspace], [islower && isalpha] in the C locale. *)
Definition isspace (c : Z) : bool := (c =? 32) || ((9 <=? c) && (c <=? 13)).
Definition is_lower_alpha (c : Z) : bool := (97 <=? c) && (c <=? 122).

(** The loop of [source_SkipSpaces].  Every turn consumes one byte, so the
    number of bytes left bounds it; with none left [source_Peek] is
    negative and the loop stops. *)
Fixpoint skipSpaces_loop (left : nat) (s : Source) : Source :=
  match left with
  | O => s
  | S n =>
      let c := source_Peek s in
      if (c <? 0) || (src_NewlineSensitive s && (c =? 10)) || negb (isspace c)
      then s
      else skipSpaces_loop n (source_Eat s c)
  end.

Definition source_SkipSpaces (s : Source) : Source :=
  skipSpaces_loop (source_Size s - loc_Pos (src_Loc s)) s.

(** [fgets(text, n, f)] from [pos]: at most [n - 1] bytes, stopping after
    a newline. *)
Fixpoint fgets_from (s : string) (count : nat) : string :=
  match count, s with
  | S n, String a rest =>
      if Ascii.eqb a "010" then String a EmptyString
      else String a (fgets_from rest n)
  | _, _ => EmptyString
  end.

Fixpoint string_drop (n : nat) (s : string) : string :=
  match n, s with
  | S n', String _ rest => string_drop n' rest
  | _, _ => s
  end.

(** [source_Text]: a new block holding the text of the span.
    [size = End.Pos - Start.Pos + 1] is computed in [size_t]; [allocate]
    panics when [malloc] cannot serve it; [fgets] is given [(int)size],
    returns NULL for a count that is not positive, reads at most
    [size - 1] bytes otherwise, and returns NULL when it is asked for
    bytes and the file has none left. *)
Definition span_size (sp : span) : Z :=
  (Z.of_nat (loc_Pos (span_End sp)) - Z.of_nat (loc_Pos (span_Start sp)) + 1)
  `mod` size_t_max.

Definition source_Text (s : Source) (sp : span) : M Heap cptr :=
  let size := span_size sp in
  if ptrdiff_max <? size then raise Panic
  else
    let n := to_int size in
    let count := Z.to_nat (n - 1) in
    let text := fgets_from (string_drop (loc_Pos (span_Start sp)) (src_File s))
                  count in
    p ← alloc_str (c_str text);
    if decide (n ≤ 0 ∨ (text = EmptyString ∧ count ≠ 0%nat)) then mret None
    else mret p.

(* ===================================================================== *)
(** * Combinator engine *)
(* ===================================================================== *)

(** What a parser can change: the cursor and the process-wide UID
    counter. *)
Record State := mkState { st_Src : Source; st_nextUID : Z }.

Definition on_Src (f : Source → Source) (st : State) : State :=
  mkState (f (st_Src st)) (st_nextUID st).

Definition failed (st : State) : bool := src_Failed (st_Src st).
Definition st_Loc (st : State) : loc := src_Loc (st_Src st).

(** [struct Parser]: a behaviour with its context.  The context points at
    an output slot of type [A] in the caller's frame; the parser gets the
    slot's content and returns the new one.  [None]: out of fuel. *)
Definition Parser (A : Type) : Type := A → State → option (A * State).

(** A parser whose context points at a member of the frame. *)
Definition at_field {A B} (get : A → B) (set : B → A → A) (p : Parser B)
  : Parser A :=
  λ a st, match p (get a) st with
          | Some (b, st') => Some (set b a, st')
          | None => None
          end.

Section Combinators.
Context {A : Type}.

Definition soi : Parser A :=
  λ a st, Some (a, if decide (loc_Pos (st_Loc st) = 0%nat) then st
                   else on_Src (set_Failed true) st).

Definition eoi : Parser A :=
  λ a st, Some (a, if decide (loc_Pos (st_Loc st) = source_Size (st_Src st))
                   then st else on_Src (set_Failed true) st).

Definition parseAtom (parser : Parser A) : Parser A :=
  λ a st,
    let atom := src_Atom (st_Src st) in
    match parser a (on_Src (set_Atom true) st) with
    | Some (a, st) => Some (a, on_Src (set_Atom atom) st)
    | None => None
    end.

Fixpoint word_loop (w : string) (s : Source) : Source :=
  match w with
  | EmptyString => s
  | String c rest =>
      let s := source_Eat s (char_of_ascii c) in
      if src_Failed s then s else word_loop rest s
  end.

Definition word (w : string) : Parser A :=
  λ a st, Some (a, on_Src (word_loop w) st).

Definition range (from to : Z) : Parser A :=
  λ a st,
    let c := source_Peek (st_Src st) in
    if (c <? from) || (to <? c) then Some (a, on_Src (set_Failed true) st)
    else Some (a, on_Src (λ s, source_Eat s c) st).

(** [parseAll]: stop at the first failing step; skip spaces between two
    steps unless the cursor is atomic. *)
Fixpoint parseAll (parsers : list (Parser A)) : Parser A :=
  λ a st,
    match parsers with
    | [] => Some (a, st)
    | parser :: rest =>
        match parser a st with
        | None => None
        | Some (a, st) =>
            if failed st then Some (a, st)
            else
              let st := if negb (src_Atom (st_Src st))
                           && bool_decide (rest ≠ [])
                        then on_Src source_SkipSpaces st else st in
              parseAll rest a st
        end
    end.

Definition all (parsers : list (Parser A)) : Parser A := parseAll parsers.

(** The [for] loop of [parseAny], entered with the position saved in
    [l]. *)
Fixpoint parseAny_loop (l : loc) (parsers : list (Parser A)) : Parser A :=
  λ a st,
    match parsers with
    | [] => Some (a, on_Src (set_Failed true) st)
    | parser :: rest =>
        match parser a st with
        | None => None
        | Some (a, st) =>
            if negb (failed st) then Some (a, st)
            else parseAny_loop l rest a (on_Src (λ s, source_Back s l) st)
        end
    end.

Definition parseAny (parsers : list (Parser A)) : Parser A :=
  λ a st, parseAny_loop (st_Loc st) parsers a st.

Definition any (parsers : list (Parser A)) : Parser A := parseAny parsers.

(** [many]: [while (true)], left only when the repeated parser fails. *)
Fixpoint many (fuel : nat) (p : Parser A) : Parser A :=
  λ a st,
    match fuel with
    | O => None
    | S n =>
        let l := st_Loc st in
        match p a st with
        | None => None
        | Some (a, st) =>
            if failed st then Some (a, on_Src (λ s, source_Back s l) st)
            else many n p a (if negb (src_Atom (st_Src st))
                             then on_Src source_SkipSpaces st else st)
        end
    end.

(** [option] of the source. *)
Definition option_ (p : Parser A) : Parser A :=
  λ a st,
    let l := st_Loc st in
    match p a st with
    | None => None
    | Some (a, st) =>
        if failed st then Some (a, on_Src (λ s, source_Back s l) st)
        else Some (a, st)
    end.

Definition LParen : Parser A := word "(".
Definition RParen : Parser A := word ")".
Definition Comma : Parser A := word ",".
Definition Under : Parser A := word "_".
Definition Newline : Parser A := word (String "010" EmptyString).
Definition Semicolon : Parser A := word ";".
Definition Assign : Parser A := word "=".
Definition If : Parser A := word "if".
Definition Then : Parser A := word "then".
Definition Else : Parser A := word "else".
Definition Arrow : Parser A := word "=>".
Definition Unit_ : Parser A := word "()".
Definition False_ : Parser A := word "false".
Definition True_ : Parser A := word "true".
Definition AsciiDigit : Parser A := range 48 57.

Definition End_ : Parser A := any [Semicolon; Newline].

Definition parseEnd : Parser A :=
  λ a st,
    let sensitive := src_NewlineSensitive (st_Src st) in
    let st := on_Src (set_NewlineSensitive true) st in
    let st := on_Src source_SkipSpaces st in
    match End_ a st with
    | Some (a, st) => Some (a, on_Src (set_NewlineSensitive sensitive) st)
    | None => None
    end.
End Combinators.

(** The loop of [parseLowercase] after the first letter; bounded like
    [skipSpaces_loop]. *)
Fixpoint lowercase_loop (left : nat) (s : Source) : Source :=
  match left with
  | O => s
  | S n =>
      let c := source_Peek s in
      if negb (is_lower_alpha c) && negb (c =? 95) then s
      else lowercase_loop n (source_Eat s c)
  end.

Definition parseLowercase : Parser span :=
  λ sp st,
    let s := st_Src st in
    let start := src_Loc s in
    let first := source_Peek s in
    if (first <? 0) || negb (is_lower_alpha first) then
      Some (sp, on_Src (set_Failed true) st)
    else
      let s := source_Eat s first in
      let s := lowercase_loop (source_Size s - loc_Pos (src_Loc s)) s in
      Some (mkSpan start (src_Loc s), mkState s (st_nextUID st)).

Definition lowercase : Parser span := parseLowercase.

(* ===================================================================== *)
(** * AST and grammar *)
(* ===================================================================== *)

(** [struct Param] without its [AsNode] member. *)
Record Param := mkParam { Param_Name : span }.

(** [struct Expr]: [kind] with the member of [data] that goes with it. *)
Inductive Expr :=
| Expr_App (F : Expr) (Args : list Expr)
| Expr_Ite (i t e : Expr)
| Expr_Lam (Params : node Param) (Body : Expr)
| Expr_Num (Span : span)
| Expr_Unit
| Expr_False
| Expr_True
| Expr_Unresolved (Span : span)
| Expr_Resolved (ID : Z).

(** The value of [enum ExprKind]. *)
Definition ExprKind (e : Expr) : Z :=
  match e with
  | Expr_App _ _ => 1
  | Expr_Ite _ _ _ => 2
  | Expr_Lam _ _ => 3
  | Expr_Num _ => 4
  | Expr_Unit => 5
  | Expr_False => 6
  | Expr_True => 7
  | Expr_Unresolved _ => 8
  | Expr_Resolved _ => 9
  end.

Record App := mkApp { App_F : Expr; App_Args : list Expr }.
Record Ite := mkIte { Ite_i : Expr; Ite_t : Expr; Ite_e : Expr }.
Record Lambda := mkLambda { Lambda_Params : node Param; Lambda_Body : Expr }.

Inductive BodyKind := Body_Fn | Body_Val.

Definition BodyKind_value (k : BodyKind) : Z :=
  match k with Body_Fn => 1 | Body_Val => 2 end.

(** [struct Def] without its [AsNode] member. *)
Record Def := mkDef {
  Def_Name : span;
  Def_Params : node Param;
  Def_Kind : BodyKind;
  Def_Body : Expr
}.

(** Content of memory that was allocated and not yet written.  The parser
    writes every member it later reads, so the choice is never observed in
    a successful parse. *)
Definition indeterminate_span : span := mkSpan loc_Default loc_Default.
Definition indeterminate_Expr : Expr := Expr_Unit.
Definition indeterminate_BodyKind : BodyKind := Body_Fn.

(** [newUID]: [nextUID++] on the [volatile int], then its value. *)
Definition newUID (st : State) : Z * State :=
  let uid := to_int (st_nextUID st + 1) in
  (uid, mkState (st_Src st) uid).

Section Grammar.
(** [Expr]: the parser that calls [ParseExpr]; [fuel] bounds the [many]
    loops of the rules. *)
Variable (Expr_ : Parser Expr) (fuel : nat).

Definition Arg : Parser (list Expr) :=
  λ slice st,
    match Expr_ indeterminate_Expr st with
    | None => None
    | Some (a, st) =>
        if failed st then Some (slice, st) else Some (slice ++ [a], st)
    end.

Definition Args : Parser (list Expr) :=
  let all_no_args := all [LParen; RParen] in
  let one_arg := Arg in
  let all_other_args := all [Comma; one_arg] in
  let many_other_args := many fuel all_other_args in
  let all_multi_args := all [LParen; one_arg; many_other_args; RParen] in
  parseAny [all_no_args; all_multi_args].

Definition Expr_ref : Parser Expr :=
  λ e st,
    match parseLowercase indeterminate_span st with
    | None => None
    | Some (ref, st) =>
        if failed st then Some (e, st) else Some (Expr_Unresolved ref, st)
    end.

Definition Expr_paren : Parser Expr := parseAll [LParen; Expr_; RParen].

Definition Expr_app : Parser Expr :=
  λ e st,
    let app := mkApp indeterminate_Expr [] in
    let at_F := at_field App_F (λ f a, mkApp f (App_Args a)) in
    let fnRef := at_F Expr_ref in
    let fnExpr := at_F Expr_paren in
    let f := any [fnRef; fnExpr] in
    let xs := at_field App_Args (λ xs a, mkApp (App_F a) xs) Args in
    match parseAll [f; xs] app st with
    | None => None
    | Some (app, st) =>
        if failed st then Some (e, st)
        else Some (Expr_App (App_F app) (App_Args app), st)
    end.

Definition Expr_ite : Parser Expr :=
  λ e0 st,
    let ite := mkIte indeterminate_Expr indeterminate_Expr indeterminate_Expr in
    let i := at_field Ite_i (λ x f, mkIte x (Ite_t f) (Ite_e f)) Expr_ in
    let t := at_field Ite_t (λ x f, mkIte (Ite_i f) x (Ite_e f)) Expr_ in
    let e := at_field Ite_e (λ x f, mkIte (Ite_i f) (Ite_t f) x) Expr_ in
    match parseAll [If; i; Then; t; Else; e] ite st with
    | None => None
    | Some (ite, st) =>
        if failed st then Some (e0, st)
        else Some (Expr_Ite (Ite_i ite) (Ite_t ite) (Ite_e ite), st)
    end.

Definition Param_ : Parser (node Param) :=
  λ nodes st,
    match parseLowercase indeterminate_span st with
    | None => None
    | Some (name, st) =>
        if failed st then Some (nodes, st)
        else
          let '(uid, st) := newUID st in
          Some (tree_Insert nodes (node_Default uid (mkParam name)), st)
    end.

Definition Params : Parser (node Param) :=
  let allNoParams := all [LParen; RParen] in
  let oneParam := Param_ in
  let allOtherParams := all [Comma; oneParam] in
  let manyOtherParams := many fuel allOtherParams in
  let allMultiParams := all [LParen; oneParam; manyOtherParams; RParen] in
  parseAny [allNoParams; allMultiParams].

Definition Expr_lambda : Parser Expr :=
  λ e st,
    let lam := mkLambda Null indeterminate_Expr in
    let ps := at_field Lambda_Params (λ x f, mkLambda x (Lambda_Body f))
                Params in
    let body := at_field Lambda_Body (λ x f, mkLambda (Lambda_Params f) x)
                  Expr_ in
    match parseAll [ps; Arrow; body] lam st with
    | None => None
    | Some (lam, st) =>
        if failed st then Some (e, st)
        else Some (Expr_Lam (Lambda_Params lam) (Lambda_Body lam), st)
    end.

Definition decimalDigits : Parser span :=
  λ sp st,
    let l := st_Loc st in
    let optionalUnder := option_ Under in
    let allOtherDigits := all [optionalUnder; AsciiDigit] in
    let manyOtherDigits := many fuel allOtherDigits in
    match parseAll [AsciiDigit; manyOtherDigits] sp st with
    | None => None
    | Some (sp, st) =>
        if failed st then Some (sp, st) else Some (mkSpan l (st_Loc st), st)
    end.

Definition decimalNumber : Parser span := parseAtom decimalDigits.

Definition Number : Parser span := decimalNumber.

Definition Expr_number : Parser Expr :=
  λ e st,
    match Number indeterminate_span st with
    | None => None
    | Some (num, st) =>
        if failed st then Some (e, st) else Some (Expr_Num num, st)
    end.

(** [Expr_unit], [Expr_false], [Expr_true]: a word, then the kind. *)
Definition Expr_const (w : Parser Expr) (k : Expr) : Parser Expr :=
  λ e st,
    match w e st with
    | None => None
    | Some (e, st) => if failed st then Some (e, st) else Some (k, st)
    end.

Definition Expr_unit : Parser Expr := Expr_const Unit_ Expr_Unit.
Definition Expr_false : Parser Expr := Expr_const False_ Expr_False.
Definition Expr_true : Parser Expr := Expr_const True_ Expr_True.

Definition ParseExpr_branches : list (Parser Expr) :=
  [Expr_app; Expr_ite; Expr_lambda; Expr_number; Expr_unit; Expr_false;
   Expr_true; Expr_ref; Expr_paren].
End Grammar.

(** [ParseExpr]; one unit of fuel per nesting level. *)
Fixpoint ParseExpr (fuel : nat) : Parser Expr :=
  match fuel with
  | O => λ _ _, None
  | S n => parseAny (ParseExpr_branches (ParseExpr n) n)
  end.

Section Definitions.
Variable fuel : nat.

Definition at_Name : Parser span → Parser Def :=
  at_field Def_Name (λ x d, mkDef x (Def_Params d) (Def_Kind d) (Def_Body d)).
Definition at_Params : Parser (node Param) → Parser Def :=
  at_field Def_Params (λ x d, mkDef (Def_Name d) x (Def_Kind d) (Def_Body d)).
Definition at_Ret : Parser Expr → Parser Def :=
  at_field Def_Body (λ x d, mkDef (Def_Name d) (Def_Params d) (Def_Kind d) x).

Definition set_Kind (k : BodyKind) (d : Def) : Def :=
  mkDef (Def_Name d) (Def_Params d) k (Def_Body d).

Definition Fn : Parser Def :=
  λ d st,
    let name := at_Name lowercase in
    let ps := at_Params (Params fuel) in
    let ret := at_Ret (ParseExpr fuel) in
    match parseAll [name; ps; ret] d st with
    | None => None
    | Some (d, st) =>
        if failed st then Some (d, st)
        else match parseEnd d st with
             | None => None
             | Some (d, st) =>
                 if failed st then Some (d, st)
                 else Some (set_Kind Body_Fn d, st)
             end
    end.

Definition Val : Parser Def :=
  λ d st,
    let name := at_Name lowercase in
    let ret := at_Ret (ParseExpr fuel) in
    match parseAll [name; Assign; ret] d st with
    | None => None
    | Some (d, st) =>
        if failed st then Some (d, st)
        else match parseEnd d st with
             | None => None
             | Some (d, st) =>
                 if failed st then Some (d, st)
                 else Some (set_Kind Body_Val d, st)
             end
    end.

Definition Def_ : Parser (node Def) :=
  λ nodes st,
    let d := mkDef indeterminate_span Null indeterminate_BodyKind
               indeterminate_Expr in
    match parseAny [Fn; Val] d st with
    | None => None
    | Some (d, st) =>
        if failed st then Some (nodes, st)
        else
          let '(uid, st) := newUID st in
          Some (tree_Insert nodes (node_Default uid d), st)
    end.

Definition ParseProgram : Parser (node Def) :=
  let oneDef := Def_ in
  let manyDefs := many fuel oneDef in
  parseAll [soi; manyDefs; eoi].
End Definitions.

(* ===================================================================== *)
(** * [main], up to the end of its front-end part *)
(* ===================================================================== *)

(** Lines written by [debugDef] and [debugParam]. *)
Inductive debug_line :=
| DebugDef (key : Z) (pos : nat) (Kind ret_kind : Z)
| DebugParam (key : Z) (pos : nat).

Definition debugParam (data : unit) (key : Z) (p : Param)
  : M (list debug_line) (unit * Param) :=
  λ out, Ok ((data, p),
             out ++ [DebugParam key (loc_Pos (span_Start (Param_Name p)))]).

Definition debugDef (data : unit) (key : Z) (d : Def)
  : M (list debug_line) (unit * Def) :=
  λ out,
    let out := out ++ [DebugDef key (loc_Pos (span_Start (Def_Name d)))
                         (BodyKind_value (Def_Kind d))
                         (ExprKind (Def_Body d))] in
    match tree_Iter debugParam data (Def_Params d) out with
    | Ok ((data, ps), out) =>
        Ok ((data, mkDef (Def_Name d) ps (Def_Kind d) (Def_Body d)), out)
    | Fault f => Fault f
    end.

(** How the front-end part of [main] ends: with the parse error message
    and exit code 1, or with the program in memory and the debug dump
    written, after which [main] goes on to its JIT example. *)
Inductive frontend_result :=
| ParseError (Ln Col Pos : nat)
| Parsed (Defs : node Def) (out : list debug_line).

(** [main] for the file content [file] (the driver's [fopen] succeeded).
    [None]: out of fuel. *)
Definition main (fuel : nat) (file : string) : option frontend_result :=
  let p_Defs : node Def := Null in
  match ParseProgram fuel p_Defs (mkState (source_Init file) 0) with
  | None => None
  | Some (p_Defs, st) =>
      if failed st then
        Some (ParseError (loc_Ln (st_Loc st)) (loc_Col (st_Loc st))
                         (loc_Pos (st_Loc st)))
      else
        match tree_Iter debugDef tt p_Defs [] with
        | Ok ((_, p_Defs), out) => Some (Parsed p_Defs out)
        | Fault _ => None
        end
  end.

(* ===================================================================== *)
(** * Resolver *)
(* ===================================================================== *)

Inductive Resolution := Resolution_OK | Resolution_NotFound | Resolution_Duplicate.

#[global] Instance Resolution_eq_dec : EqDecision Resolution.
Proof. solve_decision. Defined.

Record Resolver := mkResolver {
  Resolver_Src : Source;
  Resolver_Globals : map;
  Resolver_Locals : map;
  Resolver_Params : map;
  Resolver_State : Resolution;
  Resolver_NameSpan : span;
  Resolver_NameText : cptr
}.

Definition set_Globals (m : map) (r : Resolver) : Resolver :=
  mkResolver (Resolver_Src r) m (Resolver_Locals r) (Resolver_Params r)
    (Resolver_State r) (Resolver_NameSpan r) (Resolver_NameText r).
Definition set_Locals (m : map) (r : Resolver) : Resolver :=
  mkResolver (Resolver_Src r) (Resolver_Globals r) m (Resolver_Params r)
    (Resolver_State r) (Resolver_NameSpan r) (Resolver_NameText r).
Definition set_Params (m : map) (r : Resolver) : Resolver :=
  mkResolver (Resolver_Src r) (Resolver_Globals r) (Resolver_Locals r) m
    (Resolver_State r) (Resolver_NameSpan r) (Resolver_NameText r).

(** The three assignments that record an error. *)
Definition set_error (st : Resolution) (sp : span) (text : cptr)
    (r : Resolver) : Resolver :=
  mkResolver (Resolver_Src r) (Resolver_Globals r) (Resolver_Locals r)
    (Resolver_Params r) st sp text.

(** [Resolver_Init] writes [Src], [Globals], [State] and [NameText] of the
    struct it is given; the other members keep what the memory held. *)
Definition Resolver_Init (r : Resolver) (s : Source) : Resolver :=
  mkResolver s (map_Default (Resolver_Globals r)) (Resolver_Locals r)
    (Resolver_Params r) Resolution_OK (Resolver_NameSpan r) None.

Definition Resolver_Free (r : Resolver) : M Heap Resolver :=
  g ← map_Free (Resolver_Globals r);
  free (Resolver_NameText r);;
  mret (set_Globals g r).

Definition is_OK (r : Resolver) : bool :=
  bool_decide (Resolver_State r = Resolution_OK).

(** [slice_Iter(data, s, f)]: [f] on every element, first to last. *)
Definition slice_Iter {S D E} (f : D → E → M S (D * E))
  : D → list E → M S (D * list E) :=
  fix go data s :=
    match s with
    | [] => mret (data, [])
    | elem :: rest =>
        '(data, elem) ← f data elem;
        '(data, rest) ← go data rest;
        mret (data, elem :: rest)
    end.

Definition Resolver_validateLocal (r : Resolver) (key : Z) (p : Param)
  : M Heap (Resolver * Param) :=
  if negb (is_OK r) then mret (r, p)
  else
    nameText ← source_Text (Resolver_Src r) (Param_Name p);
    '(existed, m) ← map_Set (Resolver_Params r) nameText key;
    let r := set_Params m r in
    if existed : bool then
      mret (set_error Resolution_Duplicate (Param_Name p) nameText r, p)
    else mret (r, p).

Definition Resolver_insertLocal (r : Resolver) (key : Z) (p : Param)
  : M Heap (Resolver * Param) :=
  if negb (is_OK r) then mret (r, p)
  else
    nameText ← source_Text (Resolver_Src r) (Param_Name p);
    '(existed, m) ← map_Set (Resolver_Locals r) nameText key;
    let r := set_Locals m r in
    (if existed : bool then free nameText else mret tt);;
    mret (r, p).

Definition Resolver_insertLocals (r : Resolver) (params : node Param)
  : M Heap Resolver :=
  let r := set_Params (map_Default (Resolver_Params r)) r in
  '(r, _) ← tree_Iter Resolver_validateLocal r params;
  if negb (is_OK r) then mret r
  else
    let r := set_Locals (map_Default (Resolver_Locals r)) r in
    '(locals, ps) ← map_Merge (Resolver_Locals r) (Resolver_Params r);
    let r := set_Params ps (set_Locals locals r) in
    '(r, _) ← tree_Iter Resolver_insertLocal r params;
    mret r.

(** [Resolver_Expr]: returns the resolver and the expression as rewritten
    in place.  The arguments of an application go through [slice_Iter]
    with [Resolver_resolveArg], which is [Resolver_Expr] itself. *)
Fixpoint Resolver_Expr (r : Resolver) (e : Expr) : M Heap (Resolver * Expr) :=
  match e with
  | Expr_App f args =>
      '(r, f) ← Resolver_Expr r f;
      if negb (is_OK r) then mret (r, Expr_App f args)
      else
        '(r, args) ← slice_Iter Resolver_Expr r args;
        mret (r, Expr_App f args)
  | Expr_Ite i t e =>
      '(r, i) ← Resolver_Expr r i;
      if negb (is_OK r) then mret (r, Expr_Ite i t e)
      else
        '(r, t) ← Resolver_Expr r t;
        if negb (is_OK r) then mret (r, Expr_Ite i t e)
        else
          '(r, e) ← Resolver_Expr r e;
          mret (r, Expr_Ite i t e)
  | Expr_Lam params body =>
      r ← Resolver_insertLocals r params;
      if negb (is_OK r) then mret (r, Expr_Lam params body)
      else
        '(r, body) ← Resolver_Expr r body;
        mret (r, Expr_Lam params body)
  | Expr_Unresolved sp =>
      nameText ← source_Text (Resolver_Src r) sp;
      inLocals ← map_Get (Resolver_Locals r) nameText;
      found ← match inLocals with
              | Some id => mret (Some id)
              | None => map_Get (Resolver_Globals r) nameText
              end;
      match found with
      | Some id => free nameText;; mret (r, Expr_Resolved id)
      | None => mret (set_error Resolution_NotFound sp nameText r,
                      Expr_Unresolved sp)
      end
  | Expr_Num _ | Expr_Unit | Expr_False | Expr_True => mret (r, e)
  | Expr_Resolved _ => raise Panic
  end.

Definition Resolver_resolveArg (data : Resolver) (arg : Expr)
  : M Heap (Resolver * Expr) := Resolver_Expr data arg.

Definition Resolver_insertGlobal (r : Resolver) (key : Z) (d : Def)
  : M Heap (Resolver * Def) :=
  if negb (is_OK r) then mret (r, d)
  else
    name_text ← source_Text (Resolver_Src r) (Def_Name d);
    '(existed, g) ← map_Set (Resolver_Globals r) name_text key;
    let r := set_Globals g r in
    if existed : bool then
      mret (set_error Resolution_Duplicate (Def_Name d) name_text r, d)
    else
      r ← Resolver_insertLocals r (Def_Params d);
      if negb (is_OK r) then mret (r, d)
      else
        '(r, body) ← Resolver_Expr r (Def_Body d);
        locals ← map_Free (Resolver_Locals r);
        mret (set_Locals locals r,
              mkDef (Def_Name d) (Def_Params d) (Def_Kind d) body).

Definition Resolver_Program (r : Resolver) (p_Defs : node Def)
  : M Heap (Resolver * node Def) :=
  tree_Iter Resolver_insertGlobal r p_Defs.

(** The pipeline of the specification, put together from the functions of
    the source: [ParseProgram], then [Resolver_Init] on a struct whose
    memory holds [r0], then [Resolver_Program].  [main] does not contain
    it.  [None]: out of fuel; [Some None]: parse error. *)
Definition parse_and_resolve (fuel : nat) (file : string) (r0 : Resolver)
  : option (option (Res ((Resolver * node Def) * Heap))) :=
  match ParseProgram fuel Null (mkState (source_Init file) 0) with
  | None => None
  | Some (defs, st) =>
      if failed st then Some None
      else Some (Some (Resolver_Program (Resolver_Init r0 (st_Src st)) defs
                         heap_empty))
  end.

(** Memory of a [struct Resolver] before [Resolver_Init]: the three [Cap]
    members hold [cap] (8 is what an earlier [map_Default] leaves behind,
    0 is zeroed memory); nothing else in it is read before it is written. *)
Definition Resolver_memory (cap : nat) : Resolver :=
  mkResolver (source_Init EmptyString) (mkMap None 0 cap) (mkMap None 0 cap)
    (mkMap None 0 cap) Resolution_OK indeterminate_span None.

(** What a caller reads after [Resolver_Program]: the state, the span and
    the text of the name. *)
Definition report (r : Resolver) (h : Heap)
  : Resolution * span * option string :=
  (Resolver_State r, Resolver_NameSpan r,
   match Resolver_NameText r with
   | Some p => cells h !! p
   | None => None
   end).

(* ===================================================================== *)
(** * Observations used in the statements *)
(* ===================================================================== *)

(** No node of the expression is a [ResolvedReference]. *)
Fixpoint no_Resolved (e : Expr) : bool :=
  match e with
  | Expr_App f args => no_Resolved f && forallb no_Resolved args
  | Expr_Ite i t e => no_Resolved i && no_Resolved t && no_Resolved e
  | Expr_Lam _ body => no_Resolved body
  | Expr_Resolved _ => false
  | _ => true
  end.

(** No node of the expression is an [UnresolvedReference]. *)
Fixpoint no_Unresolved (e : Expr) : bool :=
  match e with
  | Expr_App f args => no_Unresolved f && forallb no_Unresolved args
  | Expr_Ite i t e => no_Unresolved i && no_Unresolved t && no_Unresolved e
  | Expr_Lam _ body => no_Unresolved body
  | Expr_Unresolved _ => false
  | _ => true
  end.

(** The bodies of the definitions of a program, in registry order. *)
Definition bodies (defs : node Def) : list Expr :=
  Def_Body <$> (inorder defs).*2.

Definition nl : string := String "010" EmptyString.

(** A span on line 1 from offset [a] to offset [b]. *)
Definition span1 (a b : nat) : span :=
  mkSpan (mkLoc a 1 (S a)) (mkLoc b 1 (S b)).

(** What the pipeline leaves: the report and the bodies, or the fault. *)
Definition outcome (x : option (option (Res ((Resolver * node Def) * Heap))))
  : option (Res ((Resolution * span * option string) * list Expr)) :=
  match x with
  | Some (Some (Ok ((r, d), h))) => Some (Ok (report r h, bodies d))
  | Some (Some (Fault f)) => Some (Fault f)
  | _ => None
  end.

(** A table filled by [map_Set] calls, each with a newly allocated key
    text, starting from [map_Default] on memory that holds [m0]. *)
Fixpoint set_all (m : map) (kvs : list (string * Z)) : M Heap map :=
  match kvs with
  | [] => mret m
  | (k, v) :: rest =>
      p ← alloc_str k;
      '(_, m) ← map_Set m p v;
      set_all m rest
  end.

Definition get_text (m : map) (k : string) : M Heap (option Z) :=
  p ← alloc_str k; map_Get m p.

Definition result_of {S A} (r : Res (A * S)) : Res A :=
  match r with
  | Ok (a, _) => Ok a
  | Fault f => Fault f
  end.

(** The bucket [map_hash] selects for a key text. *)
Definition bucket_index (t : string) (cap : nat) : nat :=
  Z.to_nat (hash_value t `mod` Z.of_nat cap).

(** [attempts l ps a st a' st']: the branches [ps] are run one after the
    other, the first on [(a, st)]; each starts at position [l], each
    fails, and after each the cursor is put back to [l] with
    [source_Back]; [(a', st')] is what the branch after them is given. *)
Inductive attempts {A} (l : loc)
  : list (Parser A) → A → State → A → State → Prop :=
| attempts_nil a st : attempts l [] a st a st
| attempts_cons p ps a st a1 st1 a' st' :
    st_Loc st = l →
    p a st = Some (a1, st1) →
    failed st1 = true →
    attempts l ps a1 (on_Src (λ s, source_Back s l) st1) a' st' →
    attempts l (p :: ps) a st a' st'.

(** A parser keeps an invariant of its output slot, whether it succeeds
    or fails. *)
Definition preserves {A} (I : A → Prop) (p : Parser A) : Prop :=
  ∀ a st a' st', I a → p a st = Some (a', st') → I a'.

(** Invariants used for the parser: no [ResolvedReference] in the slot. *)
Definition unresolved_only (e : Expr) : Prop := no_Resolved e = true.
Definition App_unresolved_only (f : App) : Prop :=
  unresolved_only (App_F f) ∧ Forall unresolved_only (App_Args f).
Definition Ite_unresolved_only (f : Ite) : Prop :=
  unresolved_only (Ite_i f) ∧ unresolved_only (Ite_t f)
  ∧ unresolved_only (Ite_e f).
Definition Lambda_unresolved_only (f : Lambda) : Prop :=
  unresolved_only (Lambda_Body f).
Definition Def_unresolved_only (d : Def) : Prop :=
  unresolved_only (Def_Body d).
Definition Program_unresolved_only (defs : node Def) : Prop :=
  Forall (λ e, Def_unresolved_only e.2) (inorder defs).

(** ** Abstract view of a table *)

(** An entry read in heap [h]: its key text with the key pointer and the
    value; nothing when the key is NULL or its text is not allocated. *)
Definition abs_entry (h : Heap) (e : entry) : option (string * (nat * Z)) :=
  p ← entry_Key e; t ← cells h !! p; Some (t, (p, entry_Val e)).

(** All entries of a table, bucket after bucket. *)
Definition entries (m : map) : list entry :=
  match map_Buckets m with
  | Some bs => concat bs
  | None => []
  end.

(** The bindings of a table, key texts read in heap [h]: text to key
    pointer and value. *)
Definition content (h : Heap) (m : map) : gmap string (nat * Z) :=
  list_to_map (omap (abs_entry h) (entries m)).

(** Every entry sits in the bucket that [map_hash] selects for its text. *)
Definition placed (h : Heap) (cap : nat) (bs : list (list entry)) : Prop :=
  ∀ i c e, bs !! i = Some c → e ∈ c →
    ∃ p t, entry_Key e = Some p ∧ cells h !! p = Some t
           ∧ bucket_index t cap = i.

(** A table in the state the operations expect: a bucket array of at least
    [Cap] slots, every entry with a live key text and in its bucket, no
    key text twice. *)
Definition buckets_wf (h : Heap) (cap : nat) (bs : list (list entry)) : Prop :=
  cap ≠ 0%nat ∧ (cap ≤ length bs)%nat ∧ placed h cap bs
  ∧ NoDup ((omap (abs_entry h) (concat bs)).*1).

Definition map_wf (h : Heap) (m : map) : Prop :=
  ∃ bs, map_Buckets m = Some bs ∧ buckets_wf h (map_Cap m) bs.

(** The key pointers a table holds. *)
Definition key_pointers (m : map) : list nat :=
  omap entry_Key (entries m).

(** What one [map_Set] does to the bindings: the value is the new one;
    the key pointer is the one already stored when the text was bound, and
    the one passed in otherwise. *)
Definition ins_abs (c : gmap string (nat * Z)) (x : string * (nat * Z))
  : gmap string (nat * Z) :=
  <[x.1 := (match c !! x.1 with Some (q, _) => q | None => x.2.1 end, x.2.2)]> c.

(** [buckets_wf] as a test that can be run on a concrete table. *)
Definition wf_check (h : Heap) (m : map) : bool :=
  match map_Buckets m with
  | None => false
  | Some bs =>
      bool_decide (map_Cap m ≠ 0%nat)
      && bool_decide (map_Cap m ≤ length bs)%nat
      && forallb (λ ic : nat * list entry,
                    forallb (λ e, match abs_entry h e with
                                  | Some (t, _) =>
                                      bool_decide (bucket_index t (map_Cap m) = ic.1)
                                  | None => false
                                  end) ic.2)
                 (imap pair bs)
      && bool_decide (NoDup ((omap (abs_entry h) (concat bs)).*1))
  end.

(** Two concrete tables in one heap: [dst] binds "a" and "b", [src]
    binds "a" and "c"; every entry has its own copy of the key text. *)
Definition example_merge_input : Res ((map * map) * Heap) :=
  (a1 ← alloc_str "a"; b1 ← alloc_str "b";
   a2 ← alloc_str "a"; c2 ← alloc_str "c";
   '(_, dst) ← map_Set (map_Default (mkMap None 0 8)) a1 1;
   '(_, dst) ← map_Set dst b1 2;
   '(_, src) ← map_Set (map_Default (mkMap None 0 8)) a2 10;
   '(_, src) ← map_Set src c2 30;
   mret (dst, src)) heap_empty.

Definition example_dst : map :=
  match example_merge_input with
  | Ok ((dst, _), _) => dst
  | Fault _ => mkMap None 0 0
  end.
Definition example_src : map :=
  match example_merge_input with
  | Ok ((_, src), _) => src
  | Fault _ => mkMap None 0 0
  end.
Definition example_heap : Heap :=
  match example_merge_input with
  | Ok (_, h) => h
  | Fault _ => heap_empty
  end.

(** Two tables in one heap where nothing is moved: [dst] binds "a" and
    "b", [src] binds "a" only. *)
Definition example_collision_input : Res ((map * map) * Heap) :=
  (a1 ← alloc_str "a"; b1 ← alloc_str "b"; a2 ← alloc_str "a";
   '(_, dst) ← map_Set (map_Default (mkMap None 0 8)) a1 1;
   '(_, dst) ← map_Set dst b1 2;
   '(_, src) ← map_Set (map_Default (mkMap None 0 8)) a2 10;
   mret (dst, src)) heap_empty.

Definition example_collision_dst : map :=
  match example_collision_input with
  | Ok ((dst, _), _) => dst
  | Fault _ => mkMap None 0 0
  end.
Definition example_collision_src : map :=
  match example_collision_input with
  | Ok ((_, src), _) => src
  | Fault _ => mkMap None 0 0
  end.
Definition example_collision_heap : Heap :=
  match example_collision_input with
  | Ok (_, h) => h
  | Fault _ => heap_empty
  end.

(** A text without NUL: what a block holds is then the C string that
    [strcmp] reads. *)
Definition nul_free (t : string) : Prop := c_str t = t.

(** Every block of the heap holds a C string: no byte before the end of
    the block is NUL. *)
Definition heap_c_strings (h : Heap) : Prop :=
  ∀ p t, cells h !! p = Some t → nul_free t.

(** [heap_c_strings] as a test that can be run on a concrete heap. *)
Definition c_strings_check (h : Heap) : bool :=
  forallb (λ kt : nat * string, String.eqb (c_str kt.2) kt.2)
          (map_to_list (cells h)).

(** The heap as the program keeps it: addresses at and above [next] are
    not allocated, and every block holds a C string. *)
Definition heap_ok (h : Heap) : Prop :=
  (∀ p, (next h ≤ p)%nat → cells h !! p = None) ∧ heap_c_strings h.

(** [h'] is [h] with some blocks freed. *)
Definition heap_sub (h' h : Heap) : Prop :=
  ∀ q s, cells h' !! q = Some s → cells h !! q = Some s.

(** The bindings a sequence of [set] calls should leave. *)
Definition bindings_of (kvs : list (string * Z)) : gmap string Z :=
  foldl (λ c kv, <[kv.1 := kv.2]> c) ∅ kvs.

(** Two cursors over the same file with the same atomic and
    newline-sensitive flags. *)
Definition same_mode (s s' : Source) : Prop :=
  src_File s' = src_File s ∧ src_Atom s' = src_Atom s
  ∧ src_NewlineSensitive s' = src_NewlineSensitive s.

(** A parser that hands the cursor back in the mode it got it in, whether
    it succeeds or fails. *)
Definition keeps_mode {A} (p : Parser A) : Prop :=
  ∀ a st a' st', p a st = Some (a', st') → same_mode (st_Src st) (st_Src st').

(** [q] returns whatever [p] returns: [p] may only run out of fuel
    earlier. *)
Definition extends {A} (p q : Parser A) : Prop :=
  ∀ a st r, p a st = Some r → q a st = Some r.

(** ** Resolution of programs without parameters, stated on names *)

(** The name [source_Text] yields for a span of the file [f]; [None] when
    it returns NULL or does not return. *)
Definition span_text (f : string) (sp : span) : option string :=
  let size := span_size sp in
  if ptrdiff_max <? size then None
  else
    let n := to_int size in
    let count := Z.to_nat (n - 1) in
    let text := fgets_from (string_drop (loc_Pos (span_Start sp)) f) count in
    if decide (n ≤ 0 ∨ (text = EmptyString ∧ count ≠ 0%nat)) then None
    else Some (c_str text).

(** What resolution should make of an expression in which no lambda has
    parameters, when the names in [G] are the definitions seen so far:
    every reference becomes the identifier its name is bound to.  [None]
    when a name is not in [G], a lambda has parameters, or the tree already
    holds a resolved reference. *)
Fixpoint resolve_abs (f : string) (G : gmap string Z) (e : Expr)
  : option Expr :=
  match e with
  | Expr_App fn args =>
      fn' ← resolve_abs f G fn;
      args' ← mapM (resolve_abs f G) args;
      Some (Expr_App fn' args')
  | Expr_Ite i t e =>
      i' ← resolve_abs f G i;
      t' ← resolve_abs f G t;
      e' ← resolve_abs f G e;
      Some (Expr_Ite i' t' e')
  | Expr_Lam Null body =>
      body' ← resolve_abs f G body;
      Some (Expr_Lam Null body')
  | Expr_Lam _ _ => None
  | Expr_Unresolved sp =>
      t ← span_text f sp;
      id ← G !! t;
      Some (Expr_Resolved id)
  | Expr_Resolved _ => None
  | _ => Some e
  end.

(** The same for the definitions of a program, in registry order: each
    name must be new, is visible in its own body and in the definitions
    after it, and no definition has parameters. *)
Fixpoint resolve_defs (f : string) (G : gmap string Z) (ds : list (Z * Def))
  : option (list (Z * Def) * gmap string Z) :=
  match ds with
  | [] => Some ([], G)
  | (key, d) :: rest =>
      match Def_Params d with
      | Null =>
          t ← span_text f (Def_Name d);
          match G !! t with
          | Some _ => None
          | None =>
              body ← resolve_abs f (<[t := key]> G) (Def_Body d);
              '(rest', G') ← resolve_defs f (<[t := key]> G) rest;
              Some ((key, mkDef (Def_Name d) (Def_Params d) (Def_Kind d) body)
                      :: rest', G')
          end
      | _ => None
      end
  end.

(** The resolver between two steps of a run without error: state OK, the
    file it reads, a well-formed Globals table binding exactly [G], a
    heap whose blocks hold C strings, and [Cap] members of Locals and
    Params left at 8 or more. *)
Definition globals_ok (f : string) (G : gmap string Z) (r : Resolver)
    (h : Heap) : Prop :=
  Resolver_State r = Resolution_OK
  ∧ src_File (Resolver_Src r) = f
  ∧ map_wf h (Resolver_Globals r)
  ∧ snd <$> content h (Resolver_Globals r) = G
  ∧ heap_ok h
  ∧ (8 ≤ map_Cap (Resolver_Locals r))%nat
  ∧ (8 ≤ map_Cap (Resolver_Params r))%nat.

(** Locals as [map_Default] leaves it and as it stays where nothing has
    parameters. *)
Definition locals_empty (r : Resolver) : Prop :=
  ∃ n, (8 ≤ n)%nat ∧ Resolver_Locals r = mkMap (Some (replicate n [])) 0 8.

(* ===================================================================== *)
(** * The registry tree: balance, and reads through child pointers *)
(* ===================================================================== *)

(** The keys of a tree, left to right. *)
Definition keys {A} (t : node A) : list Z := (inorder t).*1.

(** The stored [Height] members are right and sibling heights differ by
    at most one. *)
Fixpoint avl {A} (t : node A) : Prop :=
  match t with
  | Null => True
  | Node l _ h _ r =>
      avl l ∧ avl r
      ∧ h = Z.max (node_height l) (node_height r) + 1
      ∧ -1 ≤ node_height l - node_height r ≤ 1
  end.

(** [n->Key] with the read through NULL made visible. *)
Definition node_Key_checked {A} (n : node A) : option Z :=
  match n with
  | Null => None
  | Node _ k _ _ _ => Some k
  end.

(** [node_rightRotate] reads [x->Left] and then [y->Right]; [None] when
    [x] or [y] is NULL. *)
Definition node_rightRotate_checked {A} (x : node A) : option (node A) :=
  match x with
  | Node (Node _ _ _ _ _) _ _ _ _ => Some (node_rightRotate x)
  | _ => None
  end.

Definition node_leftRotate_checked {A} (x : node A) : option (node A) :=
  match x with
  | Node _ _ _ _ (Node _ _ _ _ _) => Some (node_leftRotate x)
  | _ => None
  end.

(** [b && test(child->Key)]: the child is read only when [b] holds. *)
Definition and_child_Key {A} (b : bool) (child : node A) (test : Z → bool)
  : option bool :=
  if b then test <$> node_Key_checked child else Some false.

(** [tree_rebalance] with every read through a child pointer checked, in
    the order of the source. *)
Definition tree_rebalance_checked {A} (root : node A) (okey : Z)
  : option (node A) :=
  match root with
  | Null => None
  | Node l k _ a r =>
      let root := Node l k (Z.max (node_height l) (node_height r) + 1) a r in
      let balance := node_balance root in
      c ← and_child_Key (1 <? balance) l (λ lk, okey <? lk);
      if c : bool then node_rightRotate_checked root
      else
        c ← and_child_Key (balance <? -1) r (λ rk, rk <? okey);
        if c : bool then node_leftRotate_checked root
        else
          c ← and_child_Key (1 <? balance) l (λ lk, lk <? okey);
          if c : bool then
            l' ← node_leftRotate_checked l;
            node_rightRotate_checked (Node l' k (node_height root) a r)
          else
            c ← and_child_Key (balance <? -1) r (λ rk, okey <? rk);
            if c : bool then
              r' ← node_rightRotate_checked r;
              node_leftRotate_checked (Node l k (node_height root) a r')
            else Some root
  end.

(** [tree_Insert] with the reads checked: [None] where the C code would
    read through NULL. *)
Fixpoint tree_Insert_checked {A} (root other : node A) : option (node A) :=
  match root with
  | Null => Some other
  | Node l k h a r =>
      okey ← node_Key_checked other;
      if okey <? k then
        l' ← tree_Insert_checked l other;
        tree_rebalance_checked (Node l' k h a r) okey
      else if k <? okey then
        r' ← tree_Insert_checked r other;
        tree_rebalance_checked (Node l k h a r') okey
      else Some root
  end.

(** How a tree that became one level higher looks from the key that was
    inserted: the side the key went to is the higher one, or the tree is
    the new leaf. *)
Definition grew_towards {A} (t : node A) (k : Z) : Prop :=
  match t with
  | Null => False
  | Node l k' _ _ r =>
      (k < k' → node_height l = node_height r + 1)
      ∧ (k' < k → node_height r = node_height l + 1)
      ∧ (k = k' → node_height l = 0 ∧ node_height r = 0)
  end.

(** A registry of three entries, used to instantiate the statements
    below. *)
Definition example_registry : node string :=
  Node (Node Null 2 1 "b" Null) 5 2 "e" (Node Null 8 1 "h" Null).

(* ===================================================================== *)
(** * Growable array: [struct slice] *)
(* ===================================================================== *)

(** [struct slice] for elements of type [E]; [ElemSize] is the size of [E]
    and offsets are counted in elements.  [Data] is the allocated block,
    one slot per element it has room for, or [None] for NULL; a slot is
    [None] until [slice_Append] copies an element into it. *)
Record slice (E : Type) := mkSlice {
  slice_Data : option (list (option E));
  slice_Size : nat;
  slice_Cap : nat
}.
Arguments mkSlice {E} _ _ _.
Arguments slice_Data {E} _.
Arguments slice_Size {E} _.
Arguments slice_Cap {E} _.

Definition slice_Init {E} : slice E := mkSlice (Some (replicate 4 None)) 0 4.

(** [reallocate(p, n)] with [n] counted in elements.  [realloc(NULL, n)]
    allocates; [realloc(p, 0)] frees [p] and returns NULL, which
    [reallocate] turns into a panic; otherwise the content is kept up to
    the smaller of the two sizes. *)
Definition reallocate {E} (p : option (list (option E))) (n : nat)
  : Res (option (list (option E))) :=
  match p, n with
  | Some _, O => Fault Panic
  | Some d, _ => Ok (Some (take n d ++ replicate (n - length d) None))
  | None, _ => Ok (Some (replicate n None))
  end.

(** [slice_Append]: double the block when it is full, copy the element to
    slot [Size], count it. *)
Definition slice_Append {E} (s : slice E) (value : E) : Res (slice E) :=
  match (if decide (slice_Size s = slice_Cap s) then
           match reallocate (slice_Data s) (slice_Cap s * 2) with
           | Ok d => Ok (mkSlice d (slice_Size s) (slice_Cap s * 2))
           | Fault f => Fault f
           end
         else Ok s) with
  | Fault f => Fault f
  | Ok s =>
      match slice_Data s with
      | None => Fault NullDeref
      | Some d =>
          if decide (slice_Size s < length d)%nat then
            Ok (mkSlice (Some (<[slice_Size s := Some value]> d))
                  (S (slice_Size s)) (slice_Cap s))
          else Fault OutOfBounds
      end
  end.

Definition slice_Free {E} (s : slice E) : slice E := mkSlice None 0 0.

(** The slots [slice_Iter] walks: the first [Size] of the block. *)
Definition slice_elems {E} (s : slice E) : list (option E) :=
  match slice_Data s with
  | Some d => take (slice_Size s) d
  | None => []
  end.

(** [slice_Append] of one element after the other. *)
Fixpoint slice_Append_all {E} (s : slice E) (xs : list E) : Res (slice E) :=
  match xs with
  | [] => Ok s
  | x :: rest =>
      match slice_Append s x with
      | Ok s => slice_Append_all s rest
      | Fault f => Fault f
      end
  end.

(** A slice as [slice_Init] and [slice_Append] leave it: a block of [Cap]
    slots, [Cap] not zero, at most [Cap] elements. *)
Definition slice_wf {E} (s : slice E) : Prop :=
  ∃ d, slice_Data s = Some d ∧ length d = slice_Cap s
       ∧ (slice_Size s ≤ slice_Cap s)%nat ∧ (0 < slice_Cap s)%nat.

(* ===================================================================== *)
(** * Collector: [struct object], [struct gc] *)
(* ===================================================================== *)

Inductive objectKind := object_Num.

(** [Next] is the address of the next object of the list of all objects,
    [None] for NULL. *)
Record object := mkObject {
  object_Kind : objectKind;
  object_Marked : bool;
  object_Next : option nat
}.

(** The objects allocated with [new (struct object)].  Addresses are
    never reused. *)
Record ObjHeap := mkObjHeap { objs : gmap nat object; next_obj : nat }.

(** [struct gc].  [Stack] is the array of 256 pointers.  [Reachable] and
    [Max] are [size_t] members that the code decrements and doubles; they
    are kept as [Z] with the wrap-around written out. *)
Record gc := mkGc {
  gc_Stack : list (option nat);
  gc_StackSize : nat;
  gc_Reachable : Z;
  gc_Max : Z;
  gc_Root : option nat
}.

(** How a function that may call [exit] ends. *)
Inductive Exit (A : Type) :=
| Returns (a : A)
| Exits (code : Z) (out : string)
| Undefined (f : fault).
Arguments Returns {A} a.
Arguments Exits {A} code out.
Arguments Undefined {A} f.

Definition object_Init (kind : objectKind) (next : option nat) : object :=
  mkObject kind false next.

Definition object_Mark (o : option nat) : M ObjHeap unit :=
  λ h, match o with
       | None => Fault NullDeref
       | Some a =>
           match objs h !! a with
           | None => Fault UseAfterFree
           | Some ob =>
               if object_Marked ob then Ok (tt, h)
               else Ok (tt, mkObjHeap
                              (<[a := mkObject (object_Kind ob) true
                                        (object_Next ob)]> (objs h))
                              (next_obj h))
           end
       end.

(** [gc_Default] writes every member but the array. *)
Definition gc_Default (c : gc) : gc := mkGc (gc_Stack c) 0 0 8 None.

Definition gc_Push (vm : gc) (value : option nat) : Exit gc :=
  if decide (256 ≤ gc_StackSize vm)%nat then Exits 1 ("Stack overflow" ++ nl)
  else if decide (gc_StackSize vm < length (gc_Stack vm))%nat then
    Returns (mkGc (<[gc_StackSize vm := value]> (gc_Stack vm))
               (S (gc_StackSize vm)) (gc_Reachable vm) (gc_Max vm)
               (gc_Root vm))
  else Undefined OutOfBounds.

(** [gc_Pop] reads [Stack[StackSize]] and decrements afterwards. *)
Definition gc_Pop (vm : gc) : Exit (gc * option nat) :=
  if decide (gc_StackSize vm = 0)%nat then Exits 1 ("Stack overflow" ++ nl)
  else match gc_Stack vm !! gc_StackSize vm with
       | None => Undefined OutOfBounds
       | Some ret =>
           Returns (mkGc (gc_Stack vm) (gc_StackSize vm - 1)
                      (gc_Reachable vm) (gc_Max vm) (gc_Root vm), ret)
       end.

(** The [for] loop of [gc_Mark] over the indices [ixs]. *)
Fixpoint gc_Mark_loop (ixs : list nat) (vm : gc) : M ObjHeap unit :=
  match ixs with
  | [] => mret tt
  | i :: rest =>
      match gc_Stack vm !! i with
      | None => raise OutOfBounds
      | Some o => object_Mark o;; gc_Mark_loop rest vm
      end
  end.

Definition gc_Mark (vm : gc) : M ObjHeap unit :=
  gc_Mark_loop (seq 0 (gc_StackSize vm)) vm.

(** What [struct object **object] of [gc_Sweep] points at: [vm->Root] or
    the [Next] member of an object. *)
Inductive slot := RootSlot | NextSlot (a : nat).

Definition read_slot (object : slot) (vm : gc) (h : ObjHeap)
  : Res (option nat) :=
  match object with
  | RootSlot => Ok (gc_Root vm)
  | NextSlot a => match objs h !! a with
                  | Some ob => Ok (object_Next ob)
                  | None => Fault UseAfterFree
                  end
  end.

Definition write_slot (object : slot) (v : option nat) (vm : gc) (h : ObjHeap)
  : Res (gc * ObjHeap) :=
  match object with
  | RootSlot =>
      Ok (mkGc (gc_Stack vm) (gc_StackSize vm) (gc_Reachable vm) (gc_Max vm) v,
          h)
  | NextSlot a =>
      match objs h !! a with
      | Some ob =>
          Ok (vm, mkObjHeap (<[a := mkObject (object_Kind ob)
                                      (object_Marked ob) v]> (objs h))
                    (next_obj h))
      | None => Fault UseAfterFree
      end
  end.

Definition set_Reachable (n : Z) (vm : gc) : gc :=
  mkGc (gc_Stack vm) (gc_StackSize vm) n (gc_Max vm) (gc_Root vm).
Definition set_Max (n : Z) (vm : gc) : gc :=
  mkGc (gc_Stack vm) (gc_StackSize vm) (gc_Reachable vm) n (gc_Root vm).
Definition set_StackSize (n : nat) (vm : gc) : gc :=
  mkGc (gc_Stack vm) n (gc_Reachable vm) (gc_Max vm) (gc_Root vm).

(** The [while] loop of [gc_Sweep]; one unit of fuel per turn. *)
Fixpoint gc_Sweep_loop (fuel : nat) (object : slot) (vm : gc) (h : ObjHeap)
  : option (Res (gc * ObjHeap)) :=
  match fuel with
  | O => None
  | S n =>
      match read_slot object vm h with
      | Fault f => Some (Fault f)
      | Ok None => Some (Ok (vm, h))
      | Ok (Some a) =>
          match objs h !! a with
          | None => Some (Fault UseAfterFree)
          | Some ob =>
              if object_Marked ob then
                gc_Sweep_loop n (NextSlot a) vm
                  (mkObjHeap (<[a := mkObject (object_Kind ob) false
                                        (object_Next ob)]> (objs h))
                     (next_obj h))
              else
                match write_slot object (object_Next ob) vm h with
                | Fault f => Some (Fault f)
                | Ok (vm, h) =>
                    gc_Sweep_loop n object
                      (set_Reachable ((gc_Reachable vm - 1) `mod` size_t_max)
                         vm)
                      (mkObjHeap (delete a (objs h)) (next_obj h))
                end
          end
      end
  end.

Definition gc_Sweep (fuel : nat) (vm : gc) (h : ObjHeap)
  : option (Res (gc * ObjHeap)) :=
  gc_Sweep_loop fuel RootSlot vm h.

Definition gc_Run (fuel : nat) (vm : gc) (h : ObjHeap)
  : option (Res (gc * ObjHeap)) :=
  match gc_Mark vm h with
  | Fault f => Some (Fault f)
  | Ok (_, h) =>
      match gc_Sweep fuel vm h with
      | Some (Ok (vm, h)) =>
          Some (Ok (set_Max (if gc_Reachable vm =? 0 then 8
                             else (gc_Reachable vm * 2) `mod` size_t_max) vm,
                    h))
      | r => r
      end
  end.

(** [gc_NewObject]: the state afterwards and the address returned. *)
Definition gc_NewObject (fuel : nat) (vm : gc) (kind : objectKind)
    (h : ObjHeap) : option (Res ((gc * option nat) * ObjHeap)) :=
  match (if gc_Reachable vm =? gc_Max vm then gc_Run fuel vm h
         else Some (Ok (vm, h))) with
  | None => None
  | Some (Fault f) => Some (Fault f)
  | Some (Ok (vm, h)) =>
      let o := next_obj h in
      Some (Ok ((mkGc (gc_Stack vm) (gc_StackSize vm)
                   ((gc_Reachable vm + 1) `mod` size_t_max) (gc_Max vm)
                   (Some o),
                 Some o),
                mkObjHeap (<[o := object_Init kind (gc_Root vm)]> (objs h))
                  (S o)))
  end.

Definition gc_Free (fuel : nat) (vm : gc) (h : ObjHeap)
  : option (Res (gc * ObjHeap)) :=
  gc_Run fuel (set_StackSize 0 vm) h.

(** ** The state the collector works on *)

(** [l] is the list of all objects: the addresses met from [root] along
    [Next], up to NULL. *)
Fixpoint obj_list (h : gmap nat object) (root : option nat) (l : list nat)
  : Prop :=
  match l with
  | [] => root = None
  | a :: rest =>
      root = Some a
      ∧ ∃ ob, h !! a = Some ob ∧ obj_list h (object_Next ob) rest
  end.

(** The address is in one of the first [StackSize] slots of the stack. *)
Definition on_stack (vm : gc) (a : nat) : Prop :=
  Some a ∈ take (gc_StackSize vm) (gc_Stack vm).

(** The collector between two calls: [Root] heads the list [l] of all
    objects, none of them is marked, [Reachable] is their number, the
    stack holds at most 256 pointers, each to an object of the list, and
    addresses from [next_obj] on are not allocated. *)
Definition gc_wf (vm : gc) (h : ObjHeap) (l : list nat) : Prop :=
  obj_list (objs h) (gc_Root vm) l
  ∧ (∀ a ob, a ∈ l → objs h !! a = Some ob → object_Marked ob = false)
  ∧ gc_Reachable vm = Z.of_nat (length l)
  ∧ Z.of_nat (length l) < size_t_max
  ∧ length (gc_Stack vm) = 256%nat
  ∧ (gc_StackSize vm ≤ 256)%nat
  ∧ (∀ o, o ∈ take (gc_StackSize vm) (gc_Stack vm) → ∃ a, o = Some a ∧ a ∈ l)
  ∧ (∀ p, (next_obj h ≤ p)%nat → objs h !! p = None).

(** The mark of the object at [a]; no mark where there is no object. *)
Definition is_marked (h : gmap nat object) (a : nat) : bool :=
  match h !! a with
  | Some ob => object_Marked ob
  | None => false
  end.

#[global] Instance on_stack_dec vm a : Decision (on_stack vm a).
Proof. unfold on_stack. apply _. Defined.

(** What [gc_Mark] does to the object at [x] when the stack holds the
    pointers [os]: it is marked when one of them is its address. *)
Definition marked_from (os : list (option nat)) (x : nat) (ob : object)
  : object :=
  mkObject (object_Kind ob)
    (object_Marked ob || bool_decide (Some x ∈ os)) (object_Next ob).

(** A collector with two objects, the older one referenced from the
    stack; used to instantiate the statements about the collector. *)
Definition example_objects : ObjHeap :=
  mkObjHeap (<[1%nat := mkObject object_Num false (Some 0%nat)]>
               (<[0%nat := mkObject object_Num false None]> ∅)) 2.

Definition example_gc : gc :=
  mkGc (Some 0%nat :: replicate 255 None) 1 2 8 (Some 1%nat).

(* ===================================================================== *)
(** * Relations kept by every parser *)
(* ===================================================================== *)

(** Every run of the parser relates the state it is given to the state it
    returns, whether it succeeds or fails. *)
Definition respects {A} (R : State → State → Prop) (p : Parser A) : Prop :=
  ∀ a st a' st', p a st = Some (a', st') → R st st'.

(** A relation that holds across each primitive step of the engine:
    eating a byte, writing a flag, going back to the position of the state
    on the left, drawing a UID. *)
Record step_closed (R : State → State → Prop) : Prop := mkStepClosed {
  sc_refl : ∀ st, R st st;
  sc_trans : ∀ st1 st2 st3, R st1 st2 → R st2 st3 → R st1 st3;
  sc_Eat : ∀ st c, R st (on_Src (λ s, source_Eat s c) st);
  sc_Failed : ∀ st b, R st (on_Src (set_Failed b) st);
  sc_Atom : ∀ st b, R st (on_Src (set_Atom b) st);
  sc_NewlineSensitive : ∀ st b, R st (on_Src (set_NewlineSensitive b) st);
  sc_Back : ∀ st st',
    R st st' → R st (on_Src (λ s, source_Back s (st_Loc st)) st');
  sc_newUID : ∀ st, R st (newUID st).2
}.

(** The cursor does not end before the position it started from. *)
Definition pos_le (st st' : State) : Prop :=
  (loc_Pos (st_Loc st) ≤ loc_Pos (st_Loc st'))%nat.

(** [loc] after the first [n] bytes of [f], counted from [l] with
    [loc_NextLine] for a newline and [loc_NextColumn] for any other
    byte. *)
Definition advance (l : loc) (a : ascii) : loc :=
  if Ascii.eqb a "010" then loc_NextLine l else loc_NextColumn l.

Fixpoint loc_from (l : loc) (f : string) (n : nat) : loc :=
  match n, f with
  | S n', String a rest => loc_from (advance l a) rest n'
  | _, _ => l
  end.

Definition loc_at (f : string) (n : nat) : loc := loc_from loc_Default f n.

(** The cursor is inside the file, with the line and column that counting
    from the start of the file gives for its position. *)
Definition loc_ok (s : Source) : Prop :=
  (loc_Pos (src_Loc s) ≤ String.length (src_File s))%nat
  ∧ src_Loc s = loc_at (src_File s) (loc_Pos (src_Loc s)).

Definition loc_kept (st st' : State) : Prop :=
  src_File (st_Src st') = src_File (st_Src st)
  ∧ (loc_ok (st_Src st) → loc_ok (st_Src st')).

(** The number of newlines among the first [n] bytes of [f]. *)
Fixpoint newlines (f : string) (n : nat) : nat :=
  match n, f with
  | S n', String a rest =>
      ((if Ascii.eqb a "010" then 1 else 0) + newlines rest n')%nat
  | _, _ => 0%nat
  end.

(** Where the name of a definition starts in the file. *)
Definition name_pos (d : Def) : nat := loc_Pos (span_Start (Def_Name d)).

(** The registry while [ParseProgram] runs: it was built from the empty
    tree by inserting the entries [es] one by one; the names of their
    definitions start at ascending positions, each before the cursor. *)
Definition registry_built (es : list (Z * Def)) (nodes : node Def)
    (st : State) : Prop :=
  nodes = tree_of_entries es
  ∧ StronglySorted lt (name_pos <$> es.*2)
  ∧ (∀ d, d ∈ es.*2 → (name_pos d < loc_Pos (st_Loc st))%nat).

(** A parser that leaves the name of the definition alone. *)
Definition keeps_Name (p : Parser Def) : Prop :=
  ∀ d st d' st', p d st = Some (d', st') → Def_Name d' = Def_Name d.

(** Cursors for the examples: in the middle of a line, and at the
    start of a file. *)
Definition example_cursor_at_if : State :=
  mkState (set_Loc (mkLoc 4 1 5) (source_Init "k = if c then 1 else 2")) 0.

Definition example_cursor_at_name : State :=
  mkState (source_Init "is_zero(n) n") 0.

(** The lines of a registry of parameters and of a registry of
    definitions, in the order of the in-order walk: one line for each
    definition, followed by one line for each of its parameters. *)
Definition dump_params (ps : node Param) : list debug_line :=
  flat_map (λ e, [DebugParam e.1 (loc_Pos (span_Start (Param_Name e.2)))])
    (inorder ps).

Definition dump (defs : node Def) : list debug_line :=
  flat_map (λ e, DebugDef e.1 (name_pos e.2) (BodyKind_value (Def_Kind e.2))
                   (ExprKind (Def_Body e.2))
                 :: dump_params (Def_Params e.2))
    (inorder defs).

(* ===================================================================== *)
(** * Theorems *)
(* ===================================================================== *)

Section TreeFacts.
Context {A : Type}.
Implicit Types (t l r : node A) (k : Z) (a : A).

Lemma inorder_rightRotate t : inorder (node_rightRotate t) = inorder t.
Proof.
  destruct t as [|[|yl yk yh ya z] xk xh xa xr]; simpl; try done.
  by rewrite <- app_assoc.
Qed.

Lemma inorder_leftRotate t : inorder (node_leftRotate t) = inorder t.
Proof.
  destruct t as [|xl xk xh xa [|z yk yh ya yr]]; simpl; try done.
  by rewrite <- app_assoc.
Qed.

Lemma inorder_rebalance t k : inorder (tree_rebalance t k) = inorder t.
Proof.
  destruct t as [|l k0 h a r]; [done|].
  unfold tree_rebalance.
  repeat case_match;
    rewrite ?inorder_rightRotate, ?inorder_leftRotate; simpl;
    rewrite ?inorder_rightRotate, ?inorder_leftRotate; done.
Qed.

(** Inserting a fresh node whose key is above every key of the tree
    appends it to the in-order sequence, whatever rotations happen. *)
Lemma inorder_insert_max t k a :
  Forall (λ e, e.1 < k) (inorder t) →
  inorder (tree_Insert t (node_Default k a)) = inorder t ++ [(k, a)].
Proof.
  induction t as [|l IHl k0 h a0 r IHr]; intros Hall; [done|].
  simpl in Hall. apply Forall_app in Hall as [Hl Hr].
  apply Forall_cons in Hr as [Hk Hr]. simpl in Hk.
  cbn [tree_Insert node_Default node_Key].
  destruct (Z.ltb_spec k k0); [lia|].
  destruct (Z.ltb_spec k0 k); [|lia].
  rewrite inorder_rebalance. simpl. rewrite IHr by done.
  by rewrite <- app_assoc.
Qed.

Lemma tree_Iter_visit {S} t (seen : list (Z * A)) (s : S) :
  tree_Iter visit seen t s = Ok ((seen ++ inorder t, t), s).
Proof.
  revert seen s. induction t as [|l IHl k h a r IHr]; intros seen s.
  - simpl. by rewrite app_nil_r.
  - cbn [tree_Iter]. unfold mbind, M_bind, bind.
    rewrite IHl. unfold visit at 1. unfold mret, M_ret, ret.
    rewrite IHr. simpl. by rewrite <- !app_assoc.
Qed.

Lemma inorder_tree_of_entries_from t (es : list (Z * A)) :
  StronglySorted Z.lt ((inorder t).*1 ++ es.*1) →
  inorder (fold_left (λ t e, tree_Insert t (node_Default e.1 e.2)) es t)
  = inorder t ++ es.
Proof.
  revert t. induction es as [|[k a] es IH]; intros t Hs.
  - simpl. by rewrite app_nil_r.
  - simpl. rewrite IH.
    + rewrite inorder_insert_max; [by rewrite <- app_assoc|].
      simpl in Hs. clear IH.
      induction (inorder t) as [|e l IHl]; [constructor|].
      simpl in Hs. apply StronglySorted_inv in Hs as [Hs Hhd].
      constructor; [|by apply IHl].
      rewrite Forall_app in Hhd. destruct Hhd as [_ Hhd].
      by apply Forall_cons in Hhd as [? _].
    + rewrite inorder_insert_max.
      * rewrite fmap_app. simpl. by rewrite <- app_assoc.
      * simpl in Hs. clear IH.
        induction (inorder t) as [|e l IHl]; [constructor|].
        simpl in Hs. apply StronglySorted_inv in Hs as [Hs Hhd].
        constructor; [|by apply IHl].
        rewrite Forall_app in Hhd. destruct Hhd as [_ Hhd].
        by apply Forall_cons in Hhd as [? _].
Qed.

(** C5.  When entries are inserted with [tree_Insert] in the order their
    keys were assigned, and the keys are strictly increasing (as the UID
    counter makes them), the in-order walk [tree_Iter] visits the entries
    in exactly that order, and the visited key sequence is strictly
    increasing; the rotations done during insertion do not matter. *)
Theorem tree_Iter_visits_in_assignment_order
    {S} (es : list (Z * A)) (s : S) :
  StronglySorted Z.lt (es.*1) →
  ∃ seen, tree_Iter visit [] (tree_of_entries es) s
          = Ok ((seen, tree_of_entries es), s)
          ∧ seen = es
          ∧ StronglySorted Z.lt (seen.*1).
Proof.
  intros Hs. exists es. rewrite tree_Iter_visit. simpl.
  unfold tree_of_entries. rewrite inorder_tree_of_entries_from; done.
Qed.
End TreeFacts.

(** Seven entries in key order: the insertions rotate the tree four times
    and the walk still returns them in the order of insertion. *)
Lemma tree_Iter_visits_in_assignment_order_witness :
  StronglySorted Z.lt ([(1, "a"); (2, "b"); (3, "c"); (4, "d"); (5, "e");
                         (6, "f"); (7, "g")].*1 : list Z)
  ∧ ∃ seen, tree_Iter visit []
              (tree_of_entries [(1, "a"); (2, "b"); (3, "c"); (4, "d");
                                (5, "e"); (6, "f"); (7, "g")]) tt
            = Ok ((seen, tree_of_entries [(1, "a"); (2, "b"); (3, "c");
                                          (4, "d"); (5, "e"); (6, "f");
                                          (7, "g")]), tt)
            ∧ seen = [(1, "a"); (2, "b"); (3, "c"); (4, "d"); (5, "e");
                      (6, "f"); (7, "g")]
            ∧ StronglySorted Z.lt (seen.*1).
Proof.
  assert (Hs : StronglySorted Z.lt
                 ([(1, "a"); (2, "b"); (3, "c"); (4, "d"); (5, "e");
                   (6, "f"); (7, "g")].*1 : list Z)).
  { simpl. repeat (constructor; [|repeat constructor; lia]). constructor. }
  split; [exact Hs|].
  exact (tree_Iter_visits_in_assignment_order
           [(1, "a"); (2, "b"); (3, "c"); (4, "d"); (5, "e"); (6, "f");
            (7, "g")] tt Hs).
Defined.




(* ===================================================================== *)
(** ** The hash of the symbol table *)
(* ===================================================================== *)

Lemma map_hash_live p t cap h :
  cells h !! p = Some t → cap ≠ 0%nat →
  map_hash (Some p) cap h = Ok (bucket_index t cap, h).
Proof.
  intros Hp Hc. unfold map_hash, mbind, M_bind, bind, load. rewrite Hp.
  by destruct (decide (cap = 0%nat)).
Qed.

(** C4.  The bucket index computed by [map_hash] is decided by the first
    byte of the key alone: two keys with the same first byte get the same
    index at every capacity.  For the keys "ab" and "ac" at capacity 8 the
    code yields bucket 0 for both, where the base-31 polynomial over all
    bytes yields 1 and 2. *)
Theorem map_hash_reads_first_byte_only :
  (∀ a s1 s2 cap, bucket_index (String a s1) cap = bucket_index (String a s2) cap)
  ∧ result_of ((p ← alloc_str "ab"; map_hash p 8) heap_empty) = Ok 0%nat
  ∧ result_of ((p ← alloc_str "ac"; map_hash p 8) heap_empty) = Ok 0%nat
  ∧ spec_hash "ab" 8 = 1%nat
  ∧ spec_hash "ac" 8 = 2%nat.
Proof. split; [done|]. repeat split; vm_compute; reflexivity. Qed.

(* ===================================================================== *)
(** ** Initialisation of a table *)
(* ===================================================================== *)

(** C10.  [map_Default] allocates as many slots as the [Cap] member held
    before the call and then sets [Cap] to 8.  On zeroed memory (a first
    initialisation) the array has no slot, and the first [map_Set] or
    [map_Get] indexes outside it; on a table used before, whose [Cap] had
    grown to 16, the array has 16 slots for a [Cap] of 8. *)
Theorem map_Default_allocates_from_stale_Cap :
  (∀ m, map_Buckets (map_Default m) = Some (replicate (map_Cap m) [])
        ∧ map_Cap (map_Default m) = 8%nat)
  ∧ (∃ bs, map_Buckets (map_Default (mkMap None 0 0)) = Some bs
           ∧ length bs = 0%nat)
  ∧ (∃ bs, map_Buckets (map_Default (mkMap None 9 16)) = Some bs
           ∧ length bs = 16%nat)
  ∧ result_of ((p ← alloc_str "x"; map_Set (map_Default (mkMap None 0 0)) p 1)
                 heap_empty) = Fault OutOfBounds
  ∧ result_of ((p ← alloc_str "x"; map_Get (map_Default (mkMap None 0 0)) p)
                 heap_empty) = Fault OutOfBounds.
Proof.
  split; [done|]. split; [by eexists|]. split; [by eexists|].
  split; vm_compute; reflexivity.
Qed.

(** C6.  On a table that [map_Default] initialised over zeroed memory a
    single [set] already fails: the bucket access is outside the array, so
    no later [get] returns the value.  The same calls on a table whose
    memory held a [Cap] of 8 return the last value set. *)
Theorem set_get_on_fresh_table_out_of_bounds :
  result_of ((m ← set_all (map_Default (mkMap None 0 0)) [("k", 1); ("k", 2)];
              get_text m "k") heap_empty) = Fault OutOfBounds
  ∧ result_of ((m ← set_all (map_Default (mkMap None 0 8)) [("k", 1); ("k", 2)];
                get_text m "k") heap_empty) = Ok (Some 2).
Proof. split; vm_compute; reflexivity. Qed.

(* ===================================================================== *)
(** ** The resolver on concrete programs *)
(* ===================================================================== *)

(** C2.  In [k = k(a, k, b)] the callee resolves, the argument [a] is not
    found, and the walk goes on through the remaining arguments: the
    second argument [k] is rewritten to a resolved reference although the
    state is already [NotFound], and the error left in the resolver is the
    one of [b], the last argument, not of [a].  The conditional of
    [k = if a then k else b] shows the guarded path: after [a] fails,
    neither branch is touched and the error of [a] is kept. *)
Theorem Resolver_resolveArg_runs_after_failure :
  outcome (parse_and_resolve 10 ("k = k(a, k, b)" +:+ nl) (Resolver_memory 8))
  = Some (Ok ((Resolution_NotFound, span1 12 13, Some "b"),
              [Expr_App (Expr_Resolved 1)
                 [Expr_Unresolved (span1 6 7); Expr_Resolved 1;
                  Expr_Unresolved (span1 12 13)]]))
  ∧ outcome (parse_and_resolve 10 ("k = if a then k else b" +:+ nl)
               (Resolver_memory 8))
    = Some (Ok ((Resolution_NotFound, span1 7 8, Some "a"),
                [Expr_Ite (Expr_Unresolved (span1 7 8))
                   (Expr_Unresolved (span1 14 15))
                   (Expr_Unresolved (span1 21 22))])).
Proof. split; vm_compute; reflexivity. Qed.

(** C8.  Entering the lambda of [k = (x) => x] does not produce a Locals
    table holding [x]: [map_Merge] frees the key text it has just handed
    to Locals, and the [map_Set] of [Resolver_insertLocal] compares
    against the freed text.  The size of the arrays left by earlier use
    (8 or 16 slots) does not matter. *)
Theorem Resolver_lambda_parameter_use_after_free :
  outcome (parse_and_resolve 10 ("k = (x) => x" +:+ nl) (Resolver_memory 8))
  = Some (Fault UseAfterFree)
  ∧ outcome (parse_and_resolve 10 ("k = (x) => x" +:+ nl) (Resolver_memory 16))
    = Some (Fault UseAfterFree).
Proof. split; vm_compute; reflexivity. Qed.

(** C9.  The program [id(x) x] has no duplicate and no missing name, and
    the resolver does not end in state OK: it reads a freed key text while
    installing the parameter.  On zeroed resolver memory even [k = 1]
    fails, with a bucket access outside the array. *)
Theorem Resolver_Program_faults_on_valid_program :
  outcome (parse_and_resolve 10 ("id(x) x" +:+ nl) (Resolver_memory 8))
  = Some (Fault UseAfterFree)
  ∧ outcome (parse_and_resolve 10 ("id(x) x" +:+ nl) (Resolver_memory 16))
    = Some (Fault UseAfterFree)
  ∧ outcome (parse_and_resolve 10 ("k = 1" +:+ nl) (Resolver_memory 0))
    = Some (Fault OutOfBounds).
Proof. repeat split; vm_compute; reflexivity. Qed.

(* ===================================================================== *)
(** ** [main] *)
(* ===================================================================== *)

(** C1, as stated, fails: for the file [k = x] the front-end part of
    [main] ends successfully and the program it leaves still holds the
    unresolved reference [x]; no semantic error is reported. *)
Lemma main_leaves_unresolved_reference :
  main 10 ("k = x" +:+ nl)
  = Some (Parsed (node_Default 1 (mkDef (span1 0 1) Null Body_Val
                                    (Expr_Unresolved (span1 4 5))))
                 [DebugDef 1 0 2 8])
  ∧ forallb no_Unresolved
      (bodies (node_Default 1 (mkDef (span1 0 1) Null Body_Val
                                 (Expr_Unresolved (span1 4 5))))) = false.
Proof. split; vm_compute; reflexivity. Qed.

(** C3, as stated, fails: with ["a" ↦ 1] in [dst] and ["a" ↦ 2] in [src],
    after [map_Merge] the key ["a"] of [dst] is bound to 2. *)
Lemma map_Merge_overwrites_dst_value :
  result_of ((a1 ← alloc_str "a"; a2 ← alloc_str "a";
              '(_, dst) ← map_Set (map_Default (mkMap None 0 8)) a1 1;
              '(_, src) ← map_Set (map_Default (mkMap None 0 8)) a2 2;
              before ← map_Get dst a1;
              '(dst, _) ← map_Merge dst src;
              after ← map_Get dst a1;
              mret (before, after)) heap_empty)
  = Ok (Some 1, Some 2).
Proof. vm_compute. reflexivity. Qed.

(* ===================================================================== *)
(** ** Alternation *)
(* ===================================================================== *)

Section Alternation.
Context {A : Type}.
Implicit Types (ps pre post : list (Parser A)) (p : Parser A).

Lemma st_Loc_Back st l : st_Loc (on_Src (λ s, source_Back s l) st) = l.
Proof. done. Qed.

Lemma failed_Back st l : failed (on_Src (λ s, source_Back s l) st) = false.
Proof. done. Qed.

Lemma attempts_end l pre a st a' st' :
  attempts l pre a st a' st' → st_Loc st = l →
  st_Loc st' = l ∧ (pre ≠ [] → failed st' = false).
Proof.
  induction 1 as [|p ps a st a1 st1 a' st' Hl Hp Hf Hrest IH]; [done|].
  intros _. destruct (IH (st_Loc_Back _ _)) as [IHl IHf].
  split; [done|]. intros _.
  destruct ps as [|q ps]; [|by apply IHf].
  inversion Hrest; subst. apply failed_Back.
Qed.

Lemma parseAny_loop_sound l ps a st r :
  st_Loc st = l →
  parseAny_loop l ps a st = Some r →
  (∃ pre p post a_in st_in,
      ps = pre ++ p :: post ∧ attempts l pre a st a_in st_in
      ∧ p a_in st_in = Some r ∧ failed r.2 = false)
  ∨ (∃ a_in st_in,
      attempts l ps a st a_in st_in
      ∧ r = (a_in, on_Src (set_Failed true) st_in)).
Proof.
  revert a st. induction ps as [|p ps IH]; intros a st Hl Hrun.
  - right. exists a, st. simpl in Hrun. split; [constructor|congruence].
  - simpl in Hrun. destruct (p a st) as [[a1 st1]|] eqn:Hp; [|done].
    destruct (failed st1) eqn:Hf; simpl in Hrun.
    + destruct (IH _ _ (st_Loc_Back st1 l) Hrun)
        as [(pre & q & post & ai & si & -> & Hatt & Hq & Hok)
           |(ai & si & Hatt & ->)].
      * left. exists (p :: pre), q, post, ai, si.
        split; [done|]. split; [|done]. by econstructor.
      * right. exists ai, si. split; [|done]. by econstructor.
    + left. exists [], p, ps, a, st. injection Hrun as <-.
      split; [done|]. split; [constructor|]. by rewrite Hp.
Qed.

Lemma parseAny_loop_first_success l pre p post a st a_in st_in r :
  attempts l pre a st a_in st_in →
  p a_in st_in = Some r → failed r.2 = false →
  parseAny_loop l (pre ++ p :: post) a st = Some r.
Proof.
  intros Hatt Hp Hok.
  induction Hatt as [a st|q qs a st a1 st1 a' st' Hl Hq Hf Hrest IH].
  - simpl. rewrite Hp. destruct r as [a' st']. simpl in Hok.
    by rewrite Hok.
  - simpl. rewrite Hq, Hf. simpl. by apply IH.
Qed.

Lemma parseAny_loop_all_fail l ps a st a_in st_in :
  attempts l ps a st a_in st_in →
  parseAny_loop l ps a st = Some (a_in, on_Src (set_Failed true) st_in).
Proof.
  induction 1 as [a st|q qs a st a1 st1 a' st' Hl Hq Hf Hrest IH].
  - done.
  - simpl. rewrite Hq, Hf. simpl. exact IH.
Qed.

(** C7.  [parseAny] returns [r] exactly in one of two ways.  Either some
    branch [p] of the list succeeds with [r], every branch declared
    before it was run in declared order and failed, each of them (and
    [p] itself) started at the position saved on entry, and after each
    failure the cursor was put back to that position with the failed
    flag cleared.  Or every branch was run that way and failed, and [r]
    carries the cursor at the saved position with the failed flag set. *)
Theorem parseAny_ordered_choice ps a st r :
  parseAny ps a st = Some r ↔
  (∃ pre p post a_in st_in,
      ps = pre ++ p :: post
      ∧ attempts (st_Loc st) pre a st a_in st_in
      ∧ st_Loc st_in = st_Loc st
      ∧ (pre ≠ [] → failed st_in = false)
      ∧ p a_in st_in = Some r
      ∧ failed r.2 = false)
  ∨ (∃ a_in st_in,
      attempts (st_Loc st) ps a st a_in st_in
      ∧ r = (a_in, on_Src (set_Failed true) st_in)
      ∧ st_Loc r.2 = st_Loc st
      ∧ failed r.2 = true).
Proof.
  unfold parseAny. split.
  - intros Hrun.
    destruct (parseAny_loop_sound _ _ _ _ _ eq_refl Hrun)
      as [(pre & p & post & ai & si & -> & Hatt & Hp & Hok)
         |(ai & si & Hatt & ->)].
    + left. exists pre, p, post, ai, si.
      destruct (attempts_end _ _ _ _ _ _ Hatt eq_refl) as [? ?]. done.
    + right. exists ai, si.
      destruct (attempts_end _ _ _ _ _ _ Hatt eq_refl) as [Hl _].
      repeat split; done.
  - intros [(pre & p & post & ai & si & -> & Hatt & _ & _ & Hp & Hok)
           |(ai & si & Hatt & -> & _)].
    + by eapply parseAny_loop_first_success.
    + by apply parseAny_loop_all_fail.
Qed.
End Alternation.

(** [parseAny [True_; False_; LParen]] on the text ["(x"]: the first two
    branches consume nothing they keep, the third succeeds from offset 0. *)
Lemma parseAny_ordered_choice_witness :
  parseAny [True_; False_; LParen] tt (mkState (source_Init "(x") 0)
  = Some (tt, mkState (mkSource (mkLoc 1 1 2) "(x" false false false) 0)
  ∧ ((∃ pre p post a_in st_in,
        [True_; False_; LParen] = pre ++ p :: post
        ∧ attempts loc_Default pre tt (mkState (source_Init "(x") 0) a_in st_in
        ∧ st_Loc st_in = loc_Default
        ∧ (pre ≠ [] → failed st_in = false)
        ∧ p a_in st_in
          = Some (tt, mkState (mkSource (mkLoc 1 1 2) "(x" false false false) 0)
        ∧ failed (mkState (mkSource (mkLoc 1 1 2) "(x" false false false) 0)
          = false)
     ∨ (∃ a_in st_in,
        attempts loc_Default [True_; False_; LParen] tt
          (mkState (source_Init "(x") 0) a_in st_in
        ∧ (tt, mkState (mkSource (mkLoc 1 1 2) "(x" false false false) 0)
          = (a_in, on_Src (set_Failed true) st_in)
        ∧ st_Loc (mkState (mkSource (mkLoc 1 1 2) "(x" false false false) 0)
          = loc_Default
        ∧ failed (mkState (mkSource (mkLoc 1 1 2) "(x" false false false) 0)
          = true)).
Proof.
  assert (Hrun : parseAny [True_; False_; LParen] tt
                   (mkState (source_Init "(x") 0)
                 = Some (tt, mkState (mkSource (mkLoc 1 1 2) "(x" false false
                                        false) 0))
    by (vm_compute; reflexivity).
  split; [exact Hrun|].
  exact (proj1 (parseAny_ordered_choice [True_; False_; LParen] tt
                  (mkState (source_Init "(x") 0) _) Hrun).
Defined.

(* ===================================================================== *)
(** ** The parser never builds a resolved reference *)
(* ===================================================================== *)

Section Preservation.
Context {A : Type} (I : A → Prop).
Implicit Types (p : Parser A) (ps : list (Parser A)).

Lemma preserves_keep p :
  (∀ a st a' st', p a st = Some (a', st') → a' = a) → preserves I p.
Proof. intros Hk a st a' st' Ha Hp. by rewrite (Hk _ _ _ _ Hp). Qed.

Lemma preserves_word w : preserves I (word w).
Proof. apply preserves_keep. intros a st a' st' [= <- _]. done. Qed.

Lemma preserves_soi : preserves I soi.
Proof. apply preserves_keep. intros a st a' st' [= <- _]. done. Qed.

Lemma preserves_eoi : preserves I eoi.
Proof. apply preserves_keep. intros a st a' st' [= <- _]. done. Qed.

Lemma preserves_range from to : preserves I (range from to).
Proof.
  apply preserves_keep. intros a st a' st'. unfold range.
  case_match; intros [= <- _]; done.
Qed.

Lemma preserves_parseAll ps : Forall (preserves I) ps → preserves I (parseAll ps).
Proof.
  induction 1 as [|p ps Hp Hps IH]; intros a st a' st' Ha; simpl.
  - by intros [= <- _].
  - destruct (p a st) as [[a1 st1]|] eqn:E; [|done].
    specialize (Hp _ _ _ _ Ha E).
    destruct (failed st1); [by intros [= <- _]|].
    by apply IH.
Qed.

Lemma preserves_parseAny_loop l ps :
  Forall (preserves I) ps → preserves I (parseAny_loop l ps).
Proof.
  induction 1 as [|p ps Hp Hps IH]; intros a st a' st' Ha; simpl.
  - by intros [= <- _].
  - destruct (p a st) as [[a1 st1]|] eqn:E; [|done].
    specialize (Hp _ _ _ _ Ha E).
    destruct (failed st1); simpl; [by apply IH|by intros [= <- _]].
Qed.

Lemma preserves_parseAny ps : Forall (preserves I) ps → preserves I (parseAny ps).
Proof. intros H a st. by apply preserves_parseAny_loop. Qed.

Lemma preserves_many fuel p : preserves I p → preserves I (many fuel p).
Proof.
  intros Hp. induction fuel as [|n IH]; intros a st a' st' Ha; simpl; [done|].
  destruct (p a st) as [[a1 st1]|] eqn:E; [|done].
  specialize (Hp _ _ _ _ Ha E).
  destruct (failed st1); [by intros [= <- _]|]. by apply IH.
Qed.

Lemma preserves_option p : preserves I p → preserves I (option_ p).
Proof.
  intros Hp a st a' st' Ha. unfold option_.
  destruct (p a st) as [[a1 st1]|] eqn:E; [|done].
  specialize (Hp _ _ _ _ Ha E).
  destruct (failed st1); by intros [= <- _].
Qed.

Lemma preserves_parseAtom p : preserves I p → preserves I (parseAtom p).
Proof.
  intros Hp a st a' st' Ha. unfold parseAtom.
  destruct (p a _) as [[a1 st1]|] eqn:E; [|done].
  specialize (Hp _ _ _ _ Ha E). by intros [= <- _].
Qed.

Lemma preserves_parseEnd : preserves I parseEnd.
Proof.
  intros a st a' st' Ha. unfold parseEnd.
  destruct (End_ a _) as [[a1 st1]|] eqn:E; [|done].
  intros [= <- _]. revert E. unfold End_, any.
  apply preserves_parseAny; [|done].
  repeat constructor; apply preserves_word.
Qed.

Lemma preserves_at_field {B} (J : B → Prop) (get : A → B) (set : B → A → A)
    (q : Parser B) :
  (∀ a, I a → J (get a)) → (∀ b a, J b → I a → I (set b a)) →
  preserves J q → preserves I (at_field get set q).
Proof.
  intros Hget Hset Hq a st a' st' Ha. unfold at_field.
  destruct (q (get a) st) as [[b st1]|] eqn:E; [|done].
  intros [= <- _]. apply Hset; [|done]. eapply Hq; [|exact E]. by apply Hget.
Qed.
End Preservation.

(** A parser pointed at the name or the parameters of a definition leaves
    the body alone. *)
Lemma preserves_at_Name (q : Parser span) : preserves Def_unresolved_only (at_Name q).
Proof.
  intros d st d' st' Hd. unfold at_Name, at_field.
  destruct (q _ st) as [[b st1]|]; [|done]. by intros [= <- _].
Qed.

Lemma preserves_at_Params (q : Parser (node Param)) :
  preserves Def_unresolved_only (at_Params q).
Proof.
  intros d st d' st' Hd. unfold at_Params, at_field.
  destruct (q _ st) as [[b st1]|]; [|done]. by intros [= <- _].
Qed.

Lemma Forall_inorder_rebalance {A} (P : Z * A → Prop) (t : node A) k :
  Forall P (inorder t) → Forall P (inorder (tree_rebalance t k)).
Proof. by rewrite inorder_rebalance. Qed.

Lemma Forall_inorder_Insert {A} (P : Z * A → Prop) (t : node A) k a :
  Forall P (inorder t) → P (k, a) →
  Forall P (inorder (tree_Insert t (node_Default k a))).
Proof.
  intros Ht Hk. induction t as [|l IHl k0 h a0 r IHr].
  - by constructor.
  - simpl in Ht. apply Forall_app in Ht as [Hl Hr].
    apply Forall_cons in Hr as [H0 Hr].
    cbn [tree_Insert node_Default node_Key].
    destruct (k <? k0); [|destruct (k0 <? k)].
    + apply Forall_inorder_rebalance. cbn [inorder].
      apply Forall_app. split; [by apply IHl|by constructor].
    + apply Forall_inorder_rebalance. cbn [inorder].
      apply Forall_app. split; [done|]. constructor; [done|by apply IHr].
    + cbn [inorder]. apply Forall_app. split; [done|by constructor].
Qed.

(** Split [Forall (preserves I) [p1; ...; pn]] into one goal per parser
    and close the goals about words. *)
Ltac preserves_each :=
  repeat first [ apply List.Forall_nil | apply List.Forall_cons ];
  try apply preserves_word.

Section GrammarFacts.
Variable (Expr_ : Parser Expr) (fuel : nat).
Hypothesis Expr_ok : preserves unresolved_only Expr_.

Lemma preserves_Arg : preserves (Forall unresolved_only) (Arg Expr_).
Proof.
  intros sl st sl' st' Hsl. unfold Arg.
  destruct (Expr_ _ st) as [[a st1]|] eqn:E; [|done].
  assert (unresolved_only a) by (eapply Expr_ok; [|exact E]; done).
  destruct (failed st1); intros [= <- _]; [done|].
  apply Forall_app. split; [done|by constructor].
Qed.

Lemma preserves_Args : preserves (Forall unresolved_only) (Args Expr_ fuel).
Proof.
  unfold Args, all. cbv zeta. apply preserves_parseAny. preserves_each.
  - apply preserves_parseAll. preserves_each.
  - apply preserves_parseAll. preserves_each.
    + apply preserves_Arg.
    + apply preserves_many, preserves_parseAll. preserves_each.
      apply preserves_Arg.
Qed.

Lemma preserves_Expr_ref : preserves unresolved_only Expr_ref.
Proof.
  intros e st e' st' He. unfold Expr_ref.
  destruct (parseLowercase _ st) as [[sp st1]|]; [|done].
  destruct (failed st1); by intros [= <- _].
Qed.

Lemma preserves_Expr_paren : preserves unresolved_only (Expr_paren Expr_).
Proof.
  unfold Expr_paren. apply preserves_parseAll. preserves_each. exact Expr_ok.
Qed.

Lemma preserves_Expr_app : preserves unresolved_only (Expr_app Expr_ fuel).
Proof.
  intros e st e' st' He. unfold Expr_app. cbv zeta.
  match goal with |- context [parseAll ?ps ?fr st] =>
    destruct (parseAll ps fr st) as [[app st1]|] eqn:E; [|done];
    assert (Happ : App_unresolved_only app)
  end.
  { revert E. apply preserves_parseAll; [|by split]. preserves_each.
    - unfold any. apply preserves_parseAny. preserves_each.
      + apply (preserves_at_field _ unresolved_only);
          [by intros ? [? ?] | by intros ?? ? [? ?]; split
          | apply preserves_Expr_ref].
      + apply (preserves_at_field _ unresolved_only);
          [by intros ? [? ?] | by intros ?? ? [? ?]; split
          | apply preserves_Expr_paren].
    - apply (preserves_at_field _ (Forall unresolved_only));
        [by intros ? [? ?] | by intros ?? ? [? ?]; split
        | apply preserves_Args]. }
  destruct (failed st1); intros [= <- _]; [done|].
  destruct Happ as [HF HA]. unfold unresolved_only in *. simpl.
  rewrite HF. simpl. apply forallb_forall. intros x Hx.
  rewrite Forall_forall in HA. apply HA. by apply list_elem_of_In.
Qed.

Lemma preserves_Expr_ite : preserves unresolved_only (Expr_ite Expr_).
Proof.
  intros e st e' st' He. unfold Expr_ite. cbv zeta.
  match goal with |- context [parseAll ?ps ?fr st] =>
    destruct (parseAll ps fr st) as [[ite st1]|] eqn:E; [|done];
    assert (Hite : Ite_unresolved_only ite)
  end.
  { revert E. apply preserves_parseAll; [|by repeat split].
    preserves_each;
      (apply (preserves_at_field _ unresolved_only);
       [ by intros ? (? & ? & ?)
       | by intros ?? ? (? & ? & ?); repeat split
       | exact Expr_ok ]). }
  destruct (failed st1); intros [= <- _]; [done|].
  destruct Hite as (Hi & Ht & Hel). unfold unresolved_only in *. simpl.
  by rewrite Hi, Ht, Hel.
Qed.

Lemma preserves_Expr_lambda : preserves unresolved_only (Expr_lambda Expr_ fuel).
Proof.
  intros e st e' st' He. unfold Expr_lambda. cbv zeta.
  match goal with |- context [parseAll ?ps ?fr st] =>
    destruct (parseAll ps fr st) as [[lam st1]|] eqn:E; [|done];
    assert (Hlam : Lambda_unresolved_only lam)
  end.
  { revert E. apply preserves_parseAll; [|done]. preserves_each.
    - intros a s0 a' s0' Ha. unfold at_field.
      destruct (Params _ _ _) as [[b s1]|]; [|done]. by intros [= <- _].
    - apply (preserves_at_field _ unresolved_only); [done|done|exact Expr_ok]. }
  destruct (failed st1); by intros [= <- _].
Qed.

Lemma preserves_Expr_number : preserves unresolved_only (Expr_number fuel).
Proof.
  intros e st e' st' He. unfold Expr_number.
  destruct (Number _ _ st) as [[sp st1]|]; [|done].
  destruct (failed st1); by intros [= <- _].
Qed.

Lemma preserves_Expr_const (w : Parser Expr) k :
  preserves unresolved_only w → unresolved_only k →
  preserves unresolved_only (Expr_const w k).
Proof.
  intros Hw Hk e st e' st' He. unfold Expr_const.
  destruct (w e st) as [[e1 st1]|] eqn:E; [|done].
  specialize (Hw _ _ _ _ He E).
  destruct (failed st1); by intros [= <- _].
Qed.

Lemma preserves_ParseExpr_branches :
  Forall (preserves unresolved_only) (ParseExpr_branches Expr_ fuel).
Proof.
  unfold ParseExpr_branches. preserves_each.
  - apply preserves_Expr_app.
  - apply preserves_Expr_ite.
  - apply preserves_Expr_lambda.
  - apply preserves_Expr_number.
  - apply preserves_Expr_const; [apply preserves_word|done].
  - apply preserves_Expr_const; [apply preserves_word|done].
  - apply preserves_Expr_const; [apply preserves_word|done].
  - apply preserves_Expr_ref.
  - apply preserves_Expr_paren.
Qed.
End GrammarFacts.

Lemma preserves_ParseExpr fuel : preserves unresolved_only (ParseExpr fuel).
Proof.
  induction fuel as [|n IH]; [by intros ? ? ? ? ? ?|].
  simpl. apply preserves_parseAny. by apply preserves_ParseExpr_branches.
Qed.

Lemma preserves_Fn fuel : preserves Def_unresolved_only (Fn fuel).
Proof.
  intros d st d' st' Hd. unfold Fn. cbv zeta.
  match goal with |- context [parseAll ?ps d st] =>
    destruct (parseAll ps d st) as [[d1 st1]|] eqn:E; [|done];
    assert (Hd1 : Def_unresolved_only d1)
  end.
  { revert E. apply preserves_parseAll; [|done]. preserves_each.
    - apply preserves_at_Name.
    - apply preserves_at_Params.
    - apply (preserves_at_field _ unresolved_only);
        [done|done|apply preserves_ParseExpr]. }
  destruct (failed st1); [by intros [= <- _]|].
  destruct (parseEnd d1 st1) as [[d2 st2]|] eqn:E2; [|done].
  assert (Def_unresolved_only d2)
    by (eapply (preserves_parseEnd Def_unresolved_only); [|exact E2]; done).
  destruct (failed st2); by intros [= <- _].
Qed.

Lemma preserves_Val fuel : preserves Def_unresolved_only (Val fuel).
Proof.
  intros d st d' st' Hd. unfold Val. cbv zeta.
  match goal with |- context [parseAll ?ps d st] =>
    destruct (parseAll ps d st) as [[d1 st1]|] eqn:E; [|done];
    assert (Hd1 : Def_unresolved_only d1)
  end.
  { revert E. apply preserves_parseAll; [|done]. preserves_each.
    - apply preserves_at_Name.
    - apply (preserves_at_field _ unresolved_only);
        [done|done|apply preserves_ParseExpr]. }
  destruct (failed st1); [by intros [= <- _]|].
  destruct (parseEnd d1 st1) as [[d2 st2]|] eqn:E2; [|done].
  assert (Def_unresolved_only d2)
    by (eapply (preserves_parseEnd Def_unresolved_only); [|exact E2]; done).
  destruct (failed st2); by intros [= <- _].
Qed.

Lemma preserves_Def fuel : preserves Program_unresolved_only (Def_ fuel).
Proof.
  intros nodes st nodes' st' Hn. unfold Def_. cbv zeta.
  match goal with |- context [parseAny ?ps ?d st] =>
    destruct (parseAny ps d st) as [[d1 st1]|] eqn:E; [|done];
    assert (Hd1 : Def_unresolved_only d1)
  end.
  { revert E. apply preserves_parseAny; [|done]. preserves_each.
    - apply preserves_Fn.
    - apply preserves_Val. }
  destruct (failed st1); [by intros [= <- _]|].
  destruct (newUID st1) as [uid st2]. intros [= <- _].
  by apply Forall_inorder_Insert.
Qed.

Lemma preserves_ParseProgram fuel :
  preserves Program_unresolved_only (ParseProgram fuel).
Proof.
  unfold ParseProgram. cbv zeta. apply preserves_parseAll. preserves_each.
  - apply preserves_soi.
  - apply preserves_many, preserves_Def.
  - apply preserves_eoi.
Qed.

(** A callback that returns the payload it was given leaves the tree as it
    was. *)
Lemma tree_Iter_same_tree {A S D} (f : D → Z → A → M S (D * A)) :
  (∀ d k a s, ∃ d' s', f d k a s = Ok ((d', a), s')) →
  ∀ t d s, ∃ d' s', tree_Iter f d t s = Ok ((d', t), s').
Proof.
  intros Hf. induction t as [|l IHl k h a r IHr]; intros d s.
  - by exists d, s.
  - cbn [tree_Iter]. unfold mbind, M_bind, bind.
    destruct (IHl d s) as (d1 & s1 & ->).
    destruct (Hf d1 k a s1) as (d2 & s2 & ->).
    destruct (IHr d2 s2) as (d3 & s3 & ->).
    by exists d3, s3.
Qed.

Lemma debugDef_same_tree (defs : node Def) out :
  ∃ out', tree_Iter debugDef tt defs out = Ok ((tt, defs), out').
Proof.
  destruct (tree_Iter_same_tree debugDef) with (t := defs) (d := tt) (s := out)
    as ([] & out' & ->); [|by exists out'].
  intros [] k d s. unfold debugDef.
  destruct (tree_Iter_same_tree debugParam) with
    (t := Def_Params d) (d := tt)
    (s := s ++ [DebugDef k (loc_Pos (span_Start (Def_Name d)))
                  (BodyKind_value (Def_Kind d)) (ExprKind (Def_Body d))])
    as ([] & s' & ->).
  - intros [] k' p s'. by eexists tt, _.
  - exists tt, s'. by destruct d.
Qed.

(* ===================================================================== *)
(** ** The symbol table on well-formed tables *)
(* ===================================================================== *)

Ltac munfold := unfold mbind, M_bind, bind, mret, M_ret, ret, raise in *.

Lemma bucket_index_lt t cap : cap ≠ 0%nat → (bucket_index t cap < cap)%nat.
Proof.
  intros Hc. unfold bucket_index.
  pose proof (Z.mod_pos_bound (hash_value t) (Z.of_nat cap)). lia.
Qed.

Lemma strcmp_eq_live p k a b h :
  heap_c_strings h →
  cells h !! p = Some a → cells h !! k = Some b →
  strcmp_eq (Some p) (Some k) h = Ok (bool_decide (a = b), h).
Proof.
  intros Hcs Hp Hk. unfold strcmp_eq, load. munfold. rewrite Hp, Hk.
  by rewrite (Hcs _ _ Hp), (Hcs _ _ Hk).
Qed.

Lemma omap_cons_Some {A B} (f : A → option B) x y l :
  f x = Some y → omap f (x :: l) = y :: omap f l.
Proof. intros H. simpl. by rewrite H. Qed.

Lemma omap_cons_None {A B} (f : A → option B) x l :
  f x = None → omap f (x :: l) = omap f l.
Proof. intros H. simpl. by rewrite H. Qed.

Lemma abs_entry_Some h e t p v :
  abs_entry h e = Some (t, (p, v)) ↔
  entry_Key e = Some p ∧ cells h !! p = Some t ∧ entry_Val e = v.
Proof.
  unfold abs_entry. destruct e as [[q|] w]; simpl.
  - destruct (cells h !! q) as [s|] eqn:E; simpl.
    + split.
      * intros [= <- <- <-]. done.
      * intros ([= <-] & Hq & <-). rewrite E in Hq. by injection Hq as <-.
    + split; [done|]. intros ([= <-] & Hq & _). congruence.
  - split; [done|]. by intros ([=] & _).
Qed.

(** [chain_assign] on a chain of live entries: it fails to find the text
    when no entry has it, and otherwise overwrites the value of the first
    entry that has it. *)
Lemma chain_assign_spec h c k t v :
  heap_c_strings h →
  cells h !! k = Some t →
  Forall (λ e, is_Some (abs_entry h e)) c →
  (chain_assign c (Some k) v h = Ok (None, h)
   ∧ Forall (λ e, fst <$> abs_entry h e ≠ Some t) c)
  ∨ (∃ c1 e0 c2, c = c1 ++ e0 :: c2
       ∧ fst <$> abs_entry h e0 = Some t
       ∧ chain_assign c (Some k) v h
         = Ok (Some (c1 ++ mkEntry (entry_Key e0) v :: c2), h)).
Proof.
  intros Hcs Hk. induction 1 as [|e c [[t' [p w]] He] Hc IH].
  - left. by split.
  - apply abs_entry_Some in He as Habs. destruct Habs as (Hkey & Hp & Hv).
    cbn [chain_assign]. munfold. rewrite Hkey.
    rewrite (strcmp_eq_live _ _ _ _ _ Hcs Hp Hk).
    destruct (decide (t' = t)) as [->|Hne].
    + rewrite bool_decide_eq_true_2 by done.
      right. exists [], e, c. rewrite He, Hkey. done.
    + rewrite bool_decide_eq_false_2 by done.
      destruct IH as [[-> Hall]|(c1 & e0 & c2 & -> & Ht & ->)].
      * left. split; [done|]. constructor; [|done]. rewrite He. simpl.
        congruence.
      * right. by exists (e :: c1), e0, c2.
Qed.

Lemma chain_find_spec h c k t :
  heap_c_strings h →
  cells h !! k = Some t →
  Forall (λ e, is_Some (abs_entry h e)) c →
  NoDup ((omap (abs_entry h) c).*1) →
  chain_find c (Some k) h
  = Ok (snd <$> (list_to_map (omap (abs_entry h) c) : gmap string (nat * Z)) !! t, h).
Proof.
  intros Hcs Hk. induction 1 as [|e c [[t' [p w]] He] Hc IH]; intros Hnd.
  - done.
  - apply abs_entry_Some in He as Habs. destruct Habs as (Hkey & Hp & Hv).
    rewrite (omap_cons_Some _ _ _ _ He) in *. cbn [chain_find]. simpl in Hnd.
    apply NoDup_cons in Hnd as [Hnotin Hnd].
    munfold. rewrite Hkey. rewrite (strcmp_eq_live _ _ _ _ _ Hcs Hp Hk).
    simpl. destruct (decide (t' = t)) as [->|Hne].
    + rewrite bool_decide_eq_true_2 by done.
      by rewrite lookup_insert_eq, Hv.
    + rewrite bool_decide_eq_false_2 by done.
      rewrite lookup_insert_ne by done. by apply IH.
Qed.

Lemma array_get_Some bs i c h :
  bs !! i = Some c → array_get (Some bs) i h = Ok (c, h).
Proof. intros H. unfold array_get. by rewrite H. Qed.

Lemma array_set_Some bs i c h :
  (i < length bs)%nat → array_set (Some bs) i c h = Ok (Some (<[i:=c]> bs), h).
Proof. intros H. unfold array_set. by rewrite decide_True. Qed.

(** Replacing one bucket replaces its part of the entry list. *)
Lemma concat_insert_perm {A} (bs : list (list A)) i c :
  bs !! i = Some c →
  ∃ rest, concat bs ≡ₚ c ++ rest ∧ ∀ c', concat (<[i:=c']> bs) ≡ₚ c' ++ rest.
Proof.
  intros Hi. exists (concat (take i bs) ++ concat (drop (S i) bs)). split.
  - rewrite <- (take_drop_middle bs i c Hi) at 1.
    rewrite concat_app, concat_cons. by rewrite Permutation_app_swap_app.
  - intros c'. rewrite insert_take_drop by (by eapply lookup_lt_Some).
    rewrite concat_app, concat_cons. by rewrite Permutation_app_swap_app.
Qed.

Lemma placed_insert h cap bs i c :
  placed h cap bs →
  (∀ e, e ∈ c → ∃ p t, entry_Key e = Some p ∧ cells h !! p = Some t
                       ∧ bucket_index t cap = i) →
  placed h cap (<[i:=c]> bs).
Proof.
  intros Hpl Hc j cj e Hj He. rewrite list_lookup_insert in Hj.
  case_decide as Hd.
  - destruct Hd as [-> _]. injection Hj as <-. by apply Hc.
  - by eapply Hpl.
Qed.

Lemma placed_keyed h cap bs i c e :
  placed h cap bs → bs !! i = Some c → e ∈ c → is_Some (abs_entry h e).
Proof.
  intros Hpl Hi He. destruct (Hpl _ _ _ Hi He) as (p & t & Hk & Hp & _).
  exists (t, (p, entry_Val e)). by apply abs_entry_Some.
Qed.

Lemma rehash_chain_spec h newCap c : ∀ nb,
  newCap ≠ 0%nat → length nb = newCap → placed h newCap nb →
  Forall (λ e, is_Some (abs_entry h e)) c →
  ∃ nb', rehash_chain c newCap (Some nb) h = Ok (Some nb', h)
         ∧ length nb' = newCap ∧ placed h newCap nb'
         ∧ concat nb' ≡ₚ c ++ concat nb.
Proof.
  induction c as [|e c IH]; intros nb Hcap Hlen Hpl Hall.
  - by exists nb.
  - apply Forall_cons in Hall as [[[t [p w]] He] Hall].
    apply abs_entry_Some in He as (Hkey & Hp & Hv).
    pose proof (bucket_index_lt t newCap Hcap) as Hlt.
    destruct (lookup_lt_is_Some_2 nb (bucket_index t newCap)) as [old Hold];
      [lia|].
    cbn [rehash_chain]. munfold. rewrite Hkey.
    rewrite (map_hash_live _ _ _ _ Hp Hcap).
    rewrite (array_get_Some _ _ _ _ Hold).
    rewrite array_set_Some by lia.
    destruct (IH (<[bucket_index t newCap := e :: old]> nb))
      as (nb' & Hrun & Hlen' & Hpl' & Hperm); try done.
    + by rewrite length_insert.
    + apply placed_insert; [done|]. intros e' He'.
      apply elem_of_cons in He' as [->|He']; [by exists p, t|].
      by eapply Hpl.
    + exists nb'. split; [done|]. split; [done|]. split; [done|].
      rewrite Hperm.
      destruct (concat_insert_perm nb _ _ Hold) as (rest & Hnb & Hins).
      rewrite Hins, Hnb. simpl. symmetry. apply Permutation_middle.
Qed.

Lemma rehash_buckets_spec h m bs newCap :
  map_Buckets m = Some bs → newCap ≠ 0%nat →
  (∀ i c e, bs !! i = Some c → e ∈ c → is_Some (abs_entry h e)) →
  ∀ n s nb,
    (s + n ≤ length bs)%nat → length nb = newCap → placed h newCap nb →
    ∃ nb', rehash_buckets (seq s n) m newCap (Some nb) h = Ok (Some nb', h)
           ∧ length nb' = newCap ∧ placed h newCap nb'
           ∧ concat nb' ≡ₚ concat (take n (drop s bs)) ++ concat nb.
Proof.
  intros Hbs Hcap Hkeyed. induction n as [|n IH]; intros s nb Hle Hlen Hpl.
  - by exists nb.
  - destruct (lookup_lt_is_Some_2 bs s) as [c Hc]; [lia|].
    cbn [seq rehash_buckets]. munfold. rewrite Hbs.
    rewrite (array_get_Some _ _ _ _ Hc).
    destruct (rehash_chain_spec h newCap c nb) as (nb1 & -> & Hlen1 & Hpl1 & Hp1);
      try done.
    { apply Forall_forall. intros e He. by eapply Hkeyed. }
    destruct (IH (S s) nb1) as (nb' & Hrun & Hlen' & Hpl' & Hperm);
      [lia|done|done|].
    exists nb'. split; [done|]. split; [done|].
    split; [done|].
    rewrite Hperm, Hp1. rewrite (drop_S _ _ _ Hc). simpl.
    rewrite <- !app_assoc. apply Permutation_app_swap_app.
Qed.

Lemma elem_of_concat {A} (x : A) (ls : list (list A)) :
  x ∈ concat ls ↔ ∃ l, l ∈ ls ∧ x ∈ l.
Proof.
  rewrite list_elem_of_In, in_concat. split.
  - intros (l & Hl & Hx). exists l. by rewrite !list_elem_of_In.
  - intros (l & Hl & Hx). exists l. by rewrite <- !list_elem_of_In.
Qed.

Lemma concat_replicate_nil {A} n : concat (replicate n ([] : list A)) = [].
Proof. induction n as [|n IH]; [done|]. simpl. exact IH. Qed.

(** Buckets at and above [Cap] hold nothing. *)
Lemma placed_concat_take h cap bs :
  cap ≠ 0%nat → placed h cap bs → concat bs = concat (take cap bs).
Proof.
  intros Hcap Hpl.
  rewrite <- (take_drop cap bs) at 1. rewrite concat_app.
  assert (Hnil : concat (drop cap bs) = []); [|by rewrite Hnil, app_nil_r].
  apply elem_of_nil_inv. intros e He.
  apply elem_of_concat in He as (c & Hc & He).
  apply list_elem_of_lookup in Hc as [i Hi]. rewrite lookup_drop in Hi.
  destruct (Hpl _ _ _ Hi He) as (p & t & _ & _ & Hidx).
  pose proof (bucket_index_lt t cap Hcap). lia.
Qed.

Lemma map_rehash_spec h m :
  map_wf h m →
  ∃ m', map_rehash m h = Ok (m', h) ∧ map_wf h m'
        ∧ entries m' ≡ₚ entries m
        ∧ map_Cap m' = (map_Cap m * 2)%nat ∧ map_Size m' = map_Size m.
Proof.
  intros (bs & Hbs & Hcap & Hlen & Hpl & Hnd).
  unfold map_rehash. munfold.
  destruct (rehash_buckets_spec h m bs (map_Cap m * 2) Hbs) with
    (n := map_Cap m) (s := 0%nat) (nb := replicate (map_Cap m * 2) ([] : list entry))
    as (nb' & -> & Hlen' & Hpl' & Hperm).
  - lia.
  - intros i c e Hi He. by eapply placed_keyed.
  - lia.
  - by rewrite length_replicate.
  - intros i c e Hi He. apply lookup_replicate in Hi as [-> _].
    by apply elem_of_nil in He.
  - assert (Hents : concat nb' ≡ₚ concat bs).
    { rewrite Hperm. rewrite drop_0, <- (placed_concat_take h _ _ Hcap Hpl).
      assert (Hz : concat (replicate (map_Cap m * 2) ([] : list entry)) = []).
      { apply concat_replicate_nil. }
      by rewrite Hz, app_nil_r. }
    eexists. split; [done|]. split; [|split; [|done]].
    + exists nb'. split; [done|]. simpl. split; [lia|]. split; [lia|].
      split; [done|]. by rewrite Hents.
    + unfold entries. simpl. by rewrite Hbs.
Qed.

Lemma wf_NoDup_texts h m : map_wf h m → NoDup ((omap (abs_entry h) (entries m)).*1).
Proof. intros (bs & Hbs & _ & _ & _ & Hnd). unfold entries. by rewrite Hbs. Qed.

Lemma content_perm h m L :
  NoDup ((omap (abs_entry h) (entries m)).*1) → entries m ≡ₚ L →
  content h m = list_to_map (omap (abs_entry h) L).
Proof. intros Hnd Hp. unfold content. apply list_to_map_proper; [done|]. by rewrite Hp. Qed.

(** An entry of a well-formed table with text [t] sits in bucket
    [bucket_index t Cap]. *)
Lemma wf_entry_bucket h cap bs c e t x :
  placed h cap bs → bs !! bucket_index t cap = Some c →
  e ∈ concat bs → abs_entry h e = Some (t, x) → e ∈ c.
Proof.
  intros Hpl Hc He Habs. apply elem_of_concat in He as (cj & Hcj & He).
  apply list_elem_of_lookup in Hcj as [j Hj].
  destruct (Hpl _ _ _ Hj He) as (p & t' & Hk & Hp & Hidx).
  destruct x as [q w]. apply abs_entry_Some in Habs as (Hk' & Hq & _).
  assert (p = q) by congruence. subst q.
  assert (t' = t) by congruence. subst t'.
  rewrite Hidx in Hc. congruence.
Qed.

Lemma map_Get_spec h m k t :
  heap_c_strings h → map_wf h m → cells h !! k = Some t →
  map_Get m (Some k) h = Ok (snd <$> content h m !! t, h).
Proof.
  intros Hcs (bs & Hbs & Hcap & Hlen & Hpl & Hnd) Hk.
  pose proof (bucket_index_lt t _ Hcap) as Hlt.
  destruct (lookup_lt_is_Some_2 bs (bucket_index t (map_Cap m))) as [c Hc];
    [lia|].
  unfold map_Get. munfold. rewrite (map_hash_live _ _ _ _ Hk Hcap), Hbs.
  rewrite (array_get_Some _ _ _ _ Hc).
  destruct (concat_insert_perm bs _ _ Hc) as (rest & Hperm & _).
  assert (Hndc : NoDup ((omap (abs_entry h) c).*1)).
  { rewrite Hperm, omap_app, fmap_app in Hnd. by apply NoDup_app in Hnd as [? _]. }
  rewrite chain_find_spec with (t := t); try done.
  - f_equal. f_equal. f_equal. apply option_eq. intros x.
    unfold content, entries. rewrite Hbs.
    rewrite <- !elem_of_list_to_map by done.
    rewrite !list_elem_of_omap. split.
    + intros (e & He & Habs). exists e. split; [|done].
      apply elem_of_concat. exists c. split; [|done].
      apply list_elem_of_lookup. eauto.
    + intros (e & He & Habs). exists e. split; [|done].
      by eapply wf_entry_bucket.
  - apply Forall_forall. intros e He. by eapply placed_keyed.
Qed.

(** [map_Set] on a well-formed table, at the level of entries: either the
    text is bound, and the value of its entry is overwritten while the
    entry keeps its own key pointer; or it is not, and a new entry with
    the given key pointer is added. *)
Lemma map_Set_entries h m k t v :
  heap_c_strings h → map_wf h m → cells h !! k = Some t →
  ∃ b m', map_Set m (Some k) v h = Ok ((b, m'), h) ∧ map_wf h m'
    ∧ if b : bool then
        ∃ q v0 rest, entries m ≡ₚ mkEntry (Some q) v0 :: rest
                     ∧ entries m' ≡ₚ mkEntry (Some q) v :: rest
                     ∧ cells h !! q = Some t
      else
        entries m' ≡ₚ mkEntry (Some k) v :: entries m
        ∧ t ∉ (omap (abs_entry h) (entries m)).*1.
Proof.
  intros Hcs Hwf Hk. unfold map_Set. munfold.
  assert (∃ m1, (if load_factor_ge_1 (map_Size m) (map_Cap m)
                 then map_rehash m else λ s, Ok (m, s)) h = Ok (m1, h)
                ∧ map_wf h m1 ∧ entries m1 ≡ₚ entries m)
    as (m1 & -> & Hwf1 & Hents1).
  { destruct (load_factor_ge_1 _ _).
    - destruct (map_rehash_spec h m Hwf) as (m1 & ? & ? & ? & _). by exists m1.
    - by exists m. }
  destruct Hwf1 as (bs & Hbs & Hcap & Hlen & Hpl & Hnd).
  pose proof (bucket_index_lt t _ Hcap) as Hlt.
  destruct (lookup_lt_is_Some_2 bs (bucket_index t (map_Cap m1))) as [c Hc];
    [lia|].
  rewrite (map_hash_live _ _ _ _ Hk Hcap), Hbs.
  rewrite (array_get_Some _ _ _ _ Hc).
  destruct (concat_insert_perm bs _ _ Hc) as (rest & Hperm & Hins).
  assert (Hkeyed : Forall (λ e, is_Some (abs_entry h e)) c).
  { apply Forall_forall. intros e He. by eapply placed_keyed. }
  assert (Hents : entries m1 = concat bs) by (unfold entries; by rewrite Hbs).
  destruct (chain_assign_spec h c k t v Hcs Hk Hkeyed)
    as [[-> Hnone]|(c1 & e0 & c2 & -> & Ht & ->)].
  - rewrite array_set_Some by lia.
    exists false. eexists. split; [done|].
    assert (Hnot : t ∉ (omap (abs_entry h) (concat bs)).*1).
    { intros Hin. apply list_elem_of_fmap in Hin as ([t' x] & Heq & Hin).
      simpl in Heq. subst t'.
      apply list_elem_of_omap in Hin as (e & He & Habs).
      pose proof (wf_entry_bucket _ _ _ _ _ _ _ Hpl Hc He Habs) as Hec.
      rewrite Forall_forall in Hnone. specialize (Hnone _ Hec).
      rewrite Habs in Hnone. done. }
    split; [|split].
    + exists (<[bucket_index t (map_Cap m1) := mkEntry (Some k) v :: c]> bs).
      split; [done|]. simpl. split; [done|]. split; [by rewrite length_insert|].
      split.
      * apply placed_insert; [done|]. intros e He.
        apply elem_of_cons in He as [->|He]; [by exists k, t|]. by eapply Hpl.
      * rewrite Hins. simpl.
        assert (Habs : abs_entry h (mkEntry (Some k) v) = Some (t, (k, v)))
          by (by apply abs_entry_Some).
        rewrite Habs. simpl. apply NoDup_cons. split; [|by rewrite <- Hperm].
        by rewrite <- Hperm.
    + unfold entries at 1. simpl. rewrite Hins. simpl.
      by rewrite <- Hperm, <- Hents, Hents1.
    + by rewrite <- Hents1, Hents.
  - rewrite array_set_Some by lia.
    destruct (abs_entry h e0) as [[t' [q v0]]|] eqn:Habs0; [|done].
    simpl in Ht. injection Ht as ->.
    apply abs_entry_Some in Habs0 as Hparts. destruct Hparts as (Hkey0 & Hq & Hv0).
    assert (He0 : e0 = mkEntry (Some q) v0) by (destruct e0; simpl in *; congruence).
    rewrite Hkey0.
    exists true. eexists. split; [done|].
    assert (Habs' : abs_entry h (mkEntry (Some q) v) = Some (t, (q, v)))
      by (by apply abs_entry_Some).
    split.
    + exists (<[bucket_index t (map_Cap m1) := c1 ++ mkEntry (Some q) v :: c2]> bs).
      split; [done|]. simpl. split; [done|]. split; [by rewrite length_insert|].
      split.
      * apply placed_insert; [done|]. intros e He.
        apply elem_of_app in He as [He|He].
        { eapply Hpl; [exact Hc|]. apply elem_of_app. by left. }
        apply elem_of_cons in He as [->|He]; [by exists q, t|].
        eapply Hpl; [exact Hc|]. apply elem_of_app. right. by right.
      * rewrite Hins. rewrite Hperm in Hnd.
        rewrite <- !app_assoc in *. rewrite !omap_app, !fmap_app in *.
        rewrite (omap_cons_Some _ _ _ _ Habs0) in Hnd.
        rewrite (omap_cons_Some _ _ _ _ Habs'). done.
    + exists q, v0, (c1 ++ c2 ++ rest). split; [|split; [|done]].
      * rewrite <- Hents1, Hents, Hperm, He0.
        rewrite <- app_assoc. simpl. symmetry. apply Permutation_middle.
      * unfold entries at 1. simpl. rewrite Hins.
        rewrite <- app_assoc. simpl. symmetry. apply Permutation_middle.
Qed.

Lemma key_pointers_perm m L :
  entries m ≡ₚ L → key_pointers m ≡ₚ omap entry_Key L.
Proof. intros H. unfold key_pointers. by rewrite H. Qed.

(** [map_Set] on a well-formed table, at the level of bindings. *)
Lemma map_Set_content h m k t v :
  heap_c_strings h → map_wf h m → cells h !! k = Some t →
  ∃ b m', map_Set m (Some k) v h = Ok ((b, m'), h) ∧ map_wf h m'
    ∧ b = bool_decide (is_Some (content h m !! t))
    ∧ content h m' = ins_abs (content h m) (t, (k, v))
    ∧ key_pointers m' ≡ₚ (if b then key_pointers m else k :: key_pointers m).
Proof.
  intros Hcs Hwf Hk.
  destruct (map_Set_entries h m k t v Hcs Hwf Hk)
    as (b & m' & Hrun & Hwf' & Hb).
  exists b, m'. split; [done|]. split; [done|].
  pose proof (wf_NoDup_texts _ _ Hwf) as Hnd.
  pose proof (wf_NoDup_texts _ _ Hwf') as Hnd'.
  unfold ins_abs. simpl. destruct b.
  - destruct Hb as (q & v0 & rest & Hm & Hm' & Hq).
    assert (Ha0 : abs_entry h (mkEntry (Some q) v0) = Some (t, (q, v0)))
      by (by apply abs_entry_Some).
    assert (Ha1 : abs_entry h (mkEntry (Some q) v) = Some (t, (q, v)))
      by (by apply abs_entry_Some).
    rewrite (content_perm _ _ _ Hnd Hm), (content_perm _ _ _ Hnd' Hm').
    rewrite (omap_cons_Some _ _ _ _ Ha0), (omap_cons_Some _ _ _ _ Ha1).
    simpl. rewrite lookup_insert_eq. split; [|split].
    + symmetry. apply bool_decide_eq_true_2. by eexists.
    + by rewrite insert_insert_eq.
    + rewrite (key_pointers_perm _ _ Hm), (key_pointers_perm _ _ Hm'). done.
  - destruct Hb as (Hm' & Hnot).
    assert (Ha1 : abs_entry h (mkEntry (Some k) v) = Some (t, (k, v)))
      by (by apply abs_entry_Some).
    assert (Hnone : content h m !! t = None)
      by (by apply not_elem_of_list_to_map).
    rewrite Hnone. split; [|split].
    + symmetry. apply bool_decide_eq_false_2. by intros [? ?].
    + rewrite (content_perm _ _ _ Hnd' Hm').
      by rewrite (omap_cons_Some _ _ _ _ Ha1).
    + by rewrite (key_pointers_perm _ _ Hm').
Qed.

(** Reading a table in another heap that agrees on its key pointers. *)
Lemma abs_entry_frame h h' e :
  (∀ q, entry_Key e = Some q → cells h' !! q = cells h !! q) →
  abs_entry h' e = abs_entry h e.
Proof.
  intros H. unfold abs_entry. destruct (entry_Key e) as [q|]; [|done].
  simpl. by rewrite H.
Qed.

Lemma omap_abs_frame h h' (L : list entry) :
  (∀ q, q ∈ omap entry_Key L → cells h' !! q = cells h !! q) →
  omap (abs_entry h') L = omap (abs_entry h) L.
Proof.
  intros H. induction L as [|e L IH]; [done|].
  assert (He : abs_entry h' e = abs_entry h e).
  { apply abs_entry_frame. intros q Hq. apply H.
    rewrite (omap_cons_Some _ _ _ _ Hq). by left. }
  assert (HL : omap (abs_entry h') L = omap (abs_entry h) L).
  { apply IH. intros q Hq. apply H. simpl.
    destruct (entry_Key e); [by right|done]. }
  destruct (abs_entry h e) as [x|] eqn:E.
  - by rewrite (omap_cons_Some _ _ _ _ He), (omap_cons_Some _ _ _ _ E), HL.
  - by rewrite (omap_cons_None _ _ _ He), (omap_cons_None _ _ _ E), HL.
Qed.

Lemma Forall_keyed_frame h h' (L : list entry) :
  (∀ q, q ∈ omap entry_Key L → cells h' !! q = cells h !! q) →
  Forall (λ e, is_Some (abs_entry h e)) L →
  Forall (λ e, is_Some (abs_entry h' e)) L.
Proof.
  intros H HL. apply Forall_forall. intros e He.
  rewrite Forall_forall in HL. rewrite (abs_entry_frame h h'); [by apply HL|].
  intros q Hq. apply H. apply list_elem_of_omap. by exists e.
Qed.

Lemma map_wf_frame h h' m :
  (∀ q, q ∈ key_pointers m → cells h' !! q = cells h !! q) →
  map_wf h m → map_wf h' m ∧ content h' m = content h m.
Proof.
  intros H (bs & Hbs & Hcap & Hlen & Hpl & Hnd).
  assert (Hents : entries m = concat bs) by (unfold entries; by rewrite Hbs).
  unfold key_pointers in H. rewrite Hents in H.
  split.
  - exists bs. split; [done|]. split; [done|]. split; [done|]. split.
    + intros i c e Hi He. destruct (Hpl _ _ _ Hi He) as (p & t & Hk & Hp & Hidx).
      exists p, t. split; [done|]. split; [|done]. rewrite H; [done|].
      apply list_elem_of_omap. exists e. split; [|done].
      apply elem_of_concat. exists c. split; [|done].
      apply list_elem_of_lookup. eauto.
    + by rewrite (omap_abs_frame h h').
  - unfold content. rewrite Hents. by rewrite (omap_abs_frame h h').
Qed.

Lemma free_live p t h :
  cells h !! p = Some t →
  free (Some p) h = Ok (tt, mkHeap (delete p (cells h)) (next h)).
Proof. intros H. unfold free. by rewrite H. Qed.

(** Entries with distinct live key texts have distinct key pointers. *)
Lemma keyed_pointer_fresh h e (es : list entry) t p v :
  abs_entry h e = Some (t, (p, v)) →
  Forall (λ e, is_Some (abs_entry h e)) es →
  t ∉ (omap (abs_entry h) es).*1 →
  p ∉ omap entry_Key es.
Proof.
  intros He Hes Hnot Hin. apply Hnot.
  apply list_elem_of_omap in Hin as (e' & He' & Hk').
  rewrite Forall_forall in Hes. destruct (Hes _ He') as [[t' [p' v']] Ha'].
  apply abs_entry_Some in He as (_ & Hp & _).
  apply abs_entry_Some in Ha' as Hparts. destruct Hparts as (Hk'' & Hp' & _).
  assert (p' = p) by congruence. subst p'.
  assert (t' = t) by congruence. subst t'.
  apply list_elem_of_fmap. exists (t, (p, v')). split; [done|].
  apply list_elem_of_omap. by exists e'.
Qed.

Lemma ins_abs_is_Some c x t :
  is_Some (c !! t) → is_Some (ins_abs c x !! t).
Proof.
  intros H. unfold ins_abs. destruct (decide (x.1 = t)) as [->|Hne].
  - rewrite lookup_insert_eq. by eexists.
  - by rewrite lookup_insert_ne.
Qed.

(** The loop of [map_Merge] over a list of source entries with live,
    pairwise different key texts whose pointers the destination does not
    hold. *)
Lemma merge_chain_spec es : ∀ h lhs,
  heap_c_strings h →
  map_wf h lhs →
  Forall (λ e, is_Some (abs_entry h e)) es →
  NoDup ((omap (abs_entry h) es).*1) →
  (∀ p, p ∈ omap entry_Key es → p ∉ key_pointers lhs) →
  ∃ lhs' es' h',
    merge_chain lhs es h = Ok ((lhs', es'), h')
    ∧ map_wf h' lhs'
    ∧ content h' lhs' = foldl ins_abs (content h lhs) (omap (abs_entry h) es)
    ∧ (∀ q, q ∉ omap entry_Key es → cells h' !! q = cells h !! q)
    ∧ (∀ q t, cells h' !! q = Some t → cells h !! q = Some t)
    ∧ (∀ q, q ∈ key_pointers lhs' →
            q ∈ key_pointers lhs ∨ q ∈ omap entry_Key es')
    ∧ omap entry_Key es' `sublist_of` omap entry_Key es
    ∧ (∀ q, q ∈ omap entry_Key es' → cells h' !! q = cells h !! q)
    ∧ (∀ e t x, e ∈ es → abs_entry h e = Some (t, x) →
                is_Some (content h lhs !! t) → cells h' !! x.1 = None).
Proof.
  induction es as [|e es IH]; intros h lhs Hcs Hwf Hkeyed Hnd Hdisj.
  - exists lhs, [], h. repeat split; try done.
    + intros q Hq. by left.
    + intros e t x He. by apply elem_of_nil in He.
  - apply Forall_cons in Hkeyed as [[[t [p v]] He] Hkeyed].
    rewrite (omap_cons_Some _ _ _ _ He) in Hnd. simpl in Hnd.
    apply NoDup_cons in Hnd as [Ht Hnd].
    apply abs_entry_Some in He as Hparts. destruct Hparts as (Hkey & Hp & Hv).
    pose proof (keyed_pointer_fresh _ _ _ _ _ _ He Hkeyed Ht) as Hpfresh.
    assert (Hpl : p ∉ key_pointers lhs).
    { apply Hdisj. rewrite (omap_cons_Some _ _ _ _ Hkey). by left. }
    destruct (map_Set_content h lhs p t v Hcs Hwf Hp)
      as (b & lhs1 & Hset & Hwf1 & Hb & Hcont1 & Hkp1).
    set (h1 := if b then mkHeap (delete p (cells h)) (next h) else h).
    set (e1 := if b then mkEntry None v else e).
    assert (Hunfold : merge_chain lhs (e :: es) h
                      = match merge_chain lhs1 es h1 with
                        | Ok ((lhs', es'), h') => Ok ((lhs', e1 :: es'), h')
                        | Fault f => Fault f
                        end).
    { cbn [merge_chain]. munfold. rewrite Hkey, Hv, Hset. unfold e1, h1.
      destruct b.
      - rewrite (free_live _ _ _ Hp).
        by destruct (merge_chain lhs1 es _) as [[[? ?] ?]|].
      - by destruct (merge_chain lhs1 es h) as [[[? ?] ?]|]. }
    assert (Hh1 : ∀ q, q ≠ p → cells h1 !! q = cells h !! q).
    { intros q Hq. unfold h1. destruct b; [|done]. simpl.
      by rewrite lookup_delete_ne. }
    assert (Hsub1 : ∀ q s, cells h1 !! q = Some s → cells h !! q = Some s).
    { intros q s. unfold h1. destruct b; [|done]. simpl.
      intros H. by apply lookup_delete_Some in H as [_ ?]. }
    assert (Hkp1' : ∀ q, q ∈ key_pointers lhs1 →
                         q ∈ key_pointers lhs ∨ (b = false ∧ q = p)).
    { intros q Hq. rewrite Hkp1 in Hq. destruct b; [by left|].
      apply elem_of_cons in Hq as [->|Hq]; [by right|by left]. }
    assert (Hframe1 : ∀ q, q ∈ key_pointers lhs1 → cells h1 !! q = cells h !! q).
    { intros q Hq. destruct (Hkp1' q Hq) as [Hq'|[Hbf ->]].
      - apply Hh1. intros ->. done.
      - unfold h1. by rewrite Hbf. }
    destruct (map_wf_frame h h1 lhs1 Hframe1 Hwf1) as [Hwf1' Hcont1'].
    assert (Hes1 : ∀ q, q ∈ omap entry_Key es → cells h1 !! q = cells h !! q).
    { intros q Hq. apply Hh1. intros ->. done. }
    destruct (IH h1 lhs1) as
        (lhs' & es' & h' & Hrun & Hwf' & Hcont' & HF & HSub & HKP & HSL
         & HLive & HFreed).
    + intros q s Hq. by eapply Hcs, Hsub1.
    + done.
    + by apply (Forall_keyed_frame h h1).
    + by rewrite (omap_abs_frame h h1).
    + intros q Hq Hin. destruct (Hkp1' q Hin) as [Hq'|[_ ->]].
      * eapply Hdisj; [|exact Hq']. simpl. rewrite Hkey. by right.
      * done.
    + exists lhs', (e1 :: es'), h'. split; [by rewrite Hunfold, Hrun|].
      split; [done|]. split.
      { rewrite Hcont', Hcont1', Hcont1, (omap_abs_frame h h1) by done.
        by rewrite (omap_cons_Some _ _ _ _ He). }
      assert (Hkeys : omap entry_Key (e :: es) = p :: omap entry_Key es)
        by (by rewrite (omap_cons_Some _ _ _ _ Hkey)).
      rewrite Hkeys.
      assert (Hkeys1 : omap entry_Key (e1 :: es')
                       = if b then omap entry_Key es'
                         else p :: omap entry_Key es').
      { unfold e1. destruct b; [done|].
        by rewrite (omap_cons_Some _ _ _ _ Hkey). }
      rewrite Hkeys1.
      assert (Hin' : ∀ q, q ∈ omap entry_Key es' → q ∈ omap entry_Key es).
      { intros q Hq. by eapply elem_of_sublist. }
      split; [|split; [|split; [|split; [|split]]]].
      * intros q Hq. apply not_elem_of_cons in Hq as [Hqp Hq].
        rewrite HF by done. by apply Hh1.
      * intros q s Hq. by apply Hsub1, HSub.
      * intros q Hq. destruct (HKP q Hq) as [Hq1|Hq1].
        -- destruct (Hkp1' q Hq1) as [?|[-> ->]]; [by left|].
           right. by left.
        -- right. destruct b; [done|by right].
      * destruct b; [by apply sublist_cons|by apply sublist_skip].
      * intros q Hq.
        assert (Hcase : (b = false ∧ q = p) ∨ q ∈ omap entry_Key es').
        { destruct b; [by right|].
          apply elem_of_cons in Hq as [->|Hq]; [by left|by right]. }
        destruct Hcase as [[Hbf ->]|Hq'].
        -- rewrite HF by done. unfold h1. by rewrite Hbf.
        -- rewrite HLive by done. apply Hes1. by apply Hin'.
      * intros e' t' x He' Ha' Hsome.
        apply elem_of_cons in He' as [->|He'].
        -- rewrite He in Ha'. injection Ha' as <- <-. simpl.
           destruct (cells h' !! p) as [s|] eqn:E; [|done].
           apply HSub in E. unfold h1 in E.
           rewrite bool_decide_eq_true_2 in Hb by done. subst b. simpl in E.
           by rewrite lookup_delete_eq in E.
        -- eapply HFreed; [exact He'| |].
           ++ rewrite (abs_entry_frame h h1); [exact Ha'|].
              intros q Hq. apply Hes1. apply list_elem_of_omap. by exists e'.
           ++ rewrite Hcont1', Hcont1. by apply ins_abs_is_Some.
Qed.

Lemma merge_chain_app c1 : ∀ c2 lhs h,
  merge_chain lhs (c1 ++ c2) h
  = match merge_chain lhs c1 h with
    | Ok ((lhs1, c1'), h1) =>
        match merge_chain lhs1 c2 h1 with
        | Ok ((lhs2, c2'), h2) => Ok ((lhs2, c1' ++ c2'), h2)
        | Fault f => Fault f
        end
    | Fault f => Fault f
    end.
Proof.
  induction c1 as [|e c1 IH]; intros c2 lhs h.
  - simpl. munfold. by destruct (merge_chain lhs c2 h) as [[[? ?] ?]|].
  - rewrite <- app_comm_cons. cbn [merge_chain]. munfold.
    destruct (map_Set lhs _ _ h) as [[[b lhs1] h1]|]; [|done].
    destruct b.
    + destruct (free (entry_Key e) h1) as [[[] h2]|]; [|done].
      rewrite IH.
      destruct (merge_chain lhs1 c1 h2) as [[[lhs2 c1'] h3]|]; [|done].
      by destruct (merge_chain lhs2 c2 h3) as [[[? ?] ?]|].
    + rewrite IH.
      destruct (merge_chain lhs1 c1 h1) as [[[lhs2 c1'] h3]|]; [|done].
      by destruct (merge_chain lhs2 c2 h3) as [[[? ?] ?]|].
Qed.

(** The bucket loop of [map_Merge] is the chain loop on the entries of the
    buckets it covers, taken in order. *)
Lemma merge_buckets_flat sz cap : ∀ n s bs lhs h lhs' es' h',
  (s + n ≤ length bs)%nat →
  merge_chain lhs (concat (take n (drop s bs))) h = Ok ((lhs', es'), h') →
  ∃ bs', merge_buckets (seq s n) lhs (mkMap (Some bs) sz cap) h
         = Ok ((lhs', mkMap (Some bs') sz cap), h')
         ∧ length bs' = length bs
         ∧ take s bs' = take s bs
         ∧ concat (take n (drop s bs')) = es'.
Proof.
  induction n as [|n IH]; intros s bs lhs h lhs' es' h' Hle Hrun.
  - simpl in Hrun. injection Hrun as <- <- <-. by exists bs.
  - destruct (lookup_lt_is_Some_2 bs s) as [c Hc]; [lia|].
    rewrite (drop_S _ _ _ Hc) in Hrun. simpl in Hrun.
    rewrite merge_chain_app in Hrun.
    destruct (merge_chain lhs c h) as [[[lhs1 c'] h1]|] eqn:E1; [|done].
    destruct (merge_chain lhs1 _ h1) as [[[lhs2 r'] h2]|] eqn:E2; [|done].
    injection Hrun as <- <- <-.
    destruct (IH (S s) (<[s:=c']> bs) lhs1 h1 lhs2 r' h2)
      as (bs' & Hrun' & Hlen' & Htake' & Hcat').
    + rewrite length_insert. lia.
    + rewrite drop_insert_lt by lia. exact E2.
    + exists bs'. cbn [seq merge_buckets]. munfold.
      cbn [map_Buckets map_Size map_Cap].
      rewrite (array_get_Some _ _ _ _ Hc), E1.
      rewrite array_set_Some by lia. rewrite Hrun'.
      rewrite length_insert in Hlen'.
      split; [done|]. split; [done|].
      assert (Hs : bs' !! s = Some c').
      { rewrite <- (lookup_take_lt bs' (S s) s) by lia. rewrite Htake'.
        rewrite lookup_take_lt by lia. apply list_lookup_insert_eq. lia. }
      split.
      * assert (Hmin : (s `min` S s = s)%nat) by lia.
        rewrite <- Hmin at 1. rewrite <- take_take, Htake', take_take, Hmin.
        by rewrite take_insert_ge.
      * rewrite (drop_S _ _ _ Hs). simpl. by rewrite Hcat'.
Qed.

Lemma free_chain_app c1 : ∀ c2 h,
  free_chain (c1 ++ c2) h
  = match free_chain c1 h with
    | Ok (_, h1) => free_chain c2 h1
    | Fault f => Fault f
    end.
Proof.
  induction c1 as [|e c1 IH]; intros c2 h; [done|].
  rewrite <- app_comm_cons. cbn [free_chain]. munfold.
  destruct (free (entry_Key e) h) as [[[] h1]|]; [|done]. apply IH.
Qed.

Lemma free_buckets_flat m bs :
  map_Buckets m = Some bs →
  ∀ n s h, (s + n ≤ length bs)%nat →
    free_buckets (seq s n) m h = free_chain (concat (take n (drop s bs))) h.
Proof.
  intros Hbs. induction n as [|n IH]; intros s h Hle; [done|].
  destruct (lookup_lt_is_Some_2 bs s) as [c Hc]; [lia|].
  rewrite (drop_S _ _ _ Hc). simpl. rewrite free_chain_app.
  munfold. rewrite Hbs, (array_get_Some _ _ _ _ Hc).
  destruct (free_chain c h) as [[[] h1]|]; [|done]. apply IH. lia.
Qed.

Lemma free_chain_spec es : ∀ h,
  (∀ q, q ∈ omap entry_Key es → is_Some (cells h !! q)) →
  NoDup (omap entry_Key es) →
  ∃ h', free_chain es h = Ok (tt, h')
        ∧ (∀ q, q ∉ omap entry_Key es → cells h' !! q = cells h !! q)
        ∧ (∀ q, q ∈ omap entry_Key es → cells h' !! q = None).
Proof.
  induction es as [|e es IH]; intros h Hlive Hnd.
  - exists h. split; [done|]. split; [done|]. intros q Hq.
    by apply elem_of_nil in Hq.
  - cbn [free_chain]. munfold. destruct (entry_Key e) as [p|] eqn:Hkey.
    + rewrite (omap_cons_Some _ _ _ _ Hkey) in *.
      apply NoDup_cons in Hnd as [Hp Hnd].
      destruct (Hlive p) as [t Ht]; [by left|].
      rewrite (free_live _ _ _ Ht).
      destruct (IH (mkHeap (delete p (cells h)) (next h)))
        as (h' & -> & Hout & Hin); [|done|].
      * intros q Hq. simpl. rewrite lookup_delete_ne by (by intros ->).
        apply Hlive. by right.
      * exists h'. split; [done|]. split.
        -- intros q Hq. apply not_elem_of_cons in Hq as [Hqp Hq].
           rewrite Hout by done. simpl. by rewrite lookup_delete_ne.
        -- intros q Hq. apply elem_of_cons in Hq as [->|Hq]; [|by apply Hin].
           rewrite Hout by done. simpl. apply lookup_delete_eq.
    + rewrite (omap_cons_None _ _ _ Hkey) in *. simpl.
      apply IH; done.
Qed.

Lemma keyed_NoDup_pointers h (es : list entry) :
  Forall (λ e, is_Some (abs_entry h e)) es →
  NoDup ((omap (abs_entry h) es).*1) →
  NoDup (omap entry_Key es).
Proof.
  induction 1 as [|e es [[t [p v]] He] Hes IH]; intros Hnd; [constructor|].
  rewrite (omap_cons_Some _ _ _ _ He) in Hnd. simpl in Hnd.
  apply NoDup_cons in Hnd as [Ht Hnd].
  apply abs_entry_Some in He as Hparts. destruct Hparts as (Hkey & _ & _).
  rewrite (omap_cons_Some _ _ _ _ Hkey). apply NoDup_cons. split; [|by apply IH].
  by eapply keyed_pointer_fresh.
Qed.

(** Bindings after a run of [map_Set] calls with pairwise different
    texts. *)
Lemma foldl_ins_abs_lookup (L : list (string * (nat * Z))) : ∀ c t,
  NoDup (L.*1) →
  foldl ins_abs c L !! t
  = match (list_to_map L : gmap string (nat * Z)) !! t with
    | Some (p, v) => Some (match c !! t with Some (q, _) => q | None => p end, v)
    | None => c !! t
    end.
Proof.
  induction L as [|[t0 [p0 v0]] L IH]; intros c t Hnd; [done|].
  simpl in Hnd. apply NoDup_cons in Hnd as [Ht0 Hnd].
  simpl. rewrite IH by done. unfold ins_abs at 1 2. simpl.
  destruct (decide (t0 = t)) as [->|Hne].
  - rewrite (not_elem_of_list_to_map_1 L t) by done.
    by rewrite !lookup_insert_eq.
  - by rewrite !lookup_insert_ne by done.
Qed.

Lemma wf_check_sound h m : wf_check h m = true → map_wf h m.
Proof.
  unfold wf_check. destruct (map_Buckets m) as [bs|] eqn:Hbs; [|done].
  rewrite !andb_true_iff, !bool_decide_eq_true.
  intros [[[Hcap Hlen] Hpl] Hnd]. exists bs. split; [done|].
  split; [done|]. split; [done|]. split; [|done].
  intros i c e Hi He. rewrite forallb_forall in Hpl.
  assert (Hin : In (i, c) (imap pair bs)).
  { apply list_elem_of_In, elem_of_lookup_imap. by exists i, c. }
  specialize (Hpl _ Hin). simpl in Hpl. rewrite forallb_forall in Hpl.
  specialize (Hpl e (proj1 (list_elem_of_In _ _) He)).
  destruct (abs_entry h e) as [[t [p v]]|] eqn:Ha; [|done].
  apply bool_decide_eq_true in Hpl. apply abs_entry_Some in Ha as (? & ? & _).
  by exists p, t.
Qed.

Lemma content_lookup_entry h m t p v :
  map_wf h m → content h m !! t = Some (p, v) →
  p ∈ key_pointers m ∧ cells h !! p = Some t
  ∧ ∃ e, e ∈ entries m ∧ abs_entry h e = Some (t, (p, v)).
Proof.
  intros Hwf Hl. unfold content in Hl.
  apply elem_of_list_to_map in Hl; [|by apply wf_NoDup_texts].
  apply list_elem_of_omap in Hl as (e & He & Ha).
  apply abs_entry_Some in Ha as Hparts. destruct Hparts as (Hk & Hp & _).
  split; [|split; [done|by exists e]].
  apply list_elem_of_omap. by exists e.
Qed.

(** [map_Merge] on well-formed tables that share no key pointer: the
    bindings of the destination, which key texts stay allocated, and that
    every key text of the source is freed at the end. *)
Lemma map_Merge_spec h dst src :
  heap_c_strings h →
  map_wf h dst → map_wf h src →
  Forall (λ p, p ∉ key_pointers dst) (key_pointers src) →
  ∃ dst' src' h',
    map_Merge dst src h = Ok ((dst', src'), h')
    ∧ map_Buckets src' = None
    ∧ NoDup ((omap (abs_entry h) (entries dst')).*1)
    ∧ (∀ t, content h dst' !! t
            = match content h src !! t with
              | Some (p, v) =>
                  Some (match content h dst !! t with
                        | Some (q, _) => q
                        | None => p
                        end, v)
              | None => content h dst !! t
              end)
    ∧ (∀ t p v q v0,
          content h src !! t = Some (p, v) →
          content h dst !! t = Some (q, v0) →
          cells h' !! q = Some t ∧ cells h' !! p = None)
    ∧ (∀ t q v0, content h dst !! t = Some (q, v0) → cells h' !! q = Some t)
    ∧ (∀ t p v, content h src !! t = Some (p, v) → cells h' !! p = None)
    ∧ map_wf h dst'
    ∧ heap_sub h' h.
Proof.
  intros Hcs Hwfd Hwfs Hdisj. rewrite Forall_forall in Hdisj.
  pose proof Hwfs as (bs & Hbs & Hcap & Hlen & Hpl & Hnd).
  assert (Hents : entries src = concat bs) by (unfold entries; by rewrite Hbs).
  assert (Hflat : concat (take (map_Cap src) (drop 0 bs)) = entries src).
  { by rewrite drop_0, Hents, <- (placed_concat_take h _ _ Hcap Hpl). }
  assert (Hkeyed : Forall (λ e, is_Some (abs_entry h e)) (entries src)).
  { apply Forall_forall. intros e He. rewrite Hents in He.
    apply elem_of_concat in He as (c & Hc & He).
    apply list_elem_of_lookup in Hc as [i Hi]. by eapply placed_keyed. }
  rewrite <- Hents in Hnd.
  destruct (merge_chain_spec (entries src) h dst Hcs Hwfd Hkeyed Hnd)
    as (lhs' & es' & h1 & Hrun & Hwf1 & Hcont1 & HF & HSub & HKP & HSL
        & HLive & HFreed).
  { intros p Hp Hin. by eapply Hdisj. }
  destruct src as [sbs ssz scap]. simpl in Hbs, Hcap, Hlen, Hpl, Hflat. subst sbs.
  rewrite <- Hflat in Hrun.
  destruct (merge_buckets_flat ssz scap scap 0 bs dst h lhs' es' h1)
    as (bs' & Hloop & Hlen' & _ & Hes'); [lia|done|].
  assert (Hptrs : NoDup (omap entry_Key (entries (mkMap (Some bs) ssz scap))))
    by (by eapply keyed_NoDup_pointers).
  destruct (free_chain_spec es' h1) as (h2 & Hfree & Hout & Hin).
  { intros q Hq. rewrite HLive by done.
    pose proof (elem_of_sublist _ _ _ Hq HSL) as Hq'.
    apply list_elem_of_omap in Hq' as (e & He & Hk).
    rewrite Forall_forall in Hkeyed. destruct (Hkeyed e He) as [[t [p v]] Ha].
    apply abs_entry_Some in Ha as (Hk' & Hp & _).
    assert (p = q) by congruence. subst. by eexists. }
  { by eapply sublist_NoDup. }
  exists lhs', (mkMap None ssz scap), h2.
  assert (Hframe : ∀ q, q ∈ key_pointers lhs' → cells h !! q = cells h1 !! q).
  { intros q Hq. destruct (HKP q Hq) as [Hq'|Hq'].
    - symmetry. apply HF. intros Hin'. by eapply Hdisj.
    - symmetry. by apply HLive. }
  destruct (map_wf_frame h1 h lhs' Hframe Hwf1) as [Hwfh Hconth].
  assert (Hdst_live : ∀ t q v0, content h dst !! t = Some (q, v0) →
                                cells h2 !! q = Some t).
  { intros t q v0 Hl.
    destruct (content_lookup_entry _ _ _ _ _ Hwfd Hl) as (Hq & Hcell & _).
    assert (Hnot : q ∉ omap entry_Key (entries (mkMap (Some bs) ssz scap))).
    { intros Hin'. by eapply Hdisj. }
    rewrite Hout, HF; [done|done|].
    intros Hq'. apply Hnot. by eapply elem_of_sublist. }
  assert (Hcontent : ∀ t, content h lhs' !! t
            = match content h (mkMap (Some bs) ssz scap) !! t with
              | Some (p, v) =>
                  Some (match content h dst !! t with
                        | Some (q, _) => q
                        | None => p
                        end, v)
              | None => content h dst !! t
              end).
  { intros t. rewrite Hconth, Hcont1. by rewrite foldl_ins_abs_lookup. }
  split; [|split; [done|split; [by apply wf_NoDup_texts|
    split; [|split; [|split; [|split; [|split]]]]]]].
  - unfold map_Merge. munfold. cbn [map_Cap]. rewrite Hloop.
    unfold map_Free. munfold. cbn [map_Cap map_Size].
    rewrite (free_buckets_flat _ bs') by (done || lia).
    by rewrite Hes', Hfree.
  - exact Hcontent.
  - intros t p v q v0 Hs Hd. split; [by eapply Hdst_live|].
    destruct (content_lookup_entry _ _ _ _ _ Hwfs Hs) as (_ & _ & e & He & Ha).
    assert (Hfreed : cells h1 !! p = None).
    { eapply (HFreed e t (p, v)); [done|done|]. rewrite Hd. by eexists. }
    destruct (decide (p ∈ omap entry_Key es')) as [Hp|Hp].
    + by apply Hin.
    + by rewrite Hout.
  - exact Hdst_live.
  - intros t p v Hs.
    destruct (content_lookup_entry _ _ _ _ _ Hwfs Hs) as (Hp & _ & e & He & Ha).
    destruct (content h dst !! t) as [[q v0]|] eqn:Hd.
    + assert (Hfreed : cells h1 !! p = None).
      { eapply (HFreed e t (p, v)); [done|done|]. rewrite Hd. by eexists. }
      destruct (decide (p ∈ omap entry_Key es')) as [Hin'|Hin'].
      * by apply Hin.
      * by rewrite Hout.
    + apply Hin. pose proof (Hcontent t) as Hl. rewrite Hs, Hd in Hl.
      destruct (content_lookup_entry _ _ _ _ _ Hwfh Hl) as (Hkp & _ & _).
      destruct (HKP p Hkp) as [Hbad|Hok]; [|done].
      exfalso. by eapply Hdisj.
  - exact Hwfh.
  - intros q s Hq. apply HSub.
    destruct (decide (q ∈ omap entry_Key es')) as [Hq'|Hq'].
    + rewrite Hin in Hq by done. done.
    + by rewrite Hout in Hq.
Qed.


Lemma c_strings_check_sound h : c_strings_check h = true → heap_c_strings h.
Proof.
  unfold c_strings_check. rewrite forallb_forall. intros H p t Hp.
  apply String.eqb_eq. apply (H (p, t)).
  by apply list_elem_of_In, elem_of_map_to_list.
Qed.

Lemma heap_c_strings_sub h' h :
  heap_sub h' h → heap_c_strings h → heap_c_strings h'.
Proof. intros Hsub Hcs q s Hq. eapply Hcs, Hsub, Hq. Qed.

Lemma abs_entry_sub h' h e x :
  heap_sub h' h → abs_entry h' e = Some x → abs_entry h e = Some x.
Proof.
  intros Hsub. destruct x as [t [p v]]. rewrite !abs_entry_Some.
  intros (? & ? & ?). split_and!; [done| |done]. by apply Hsub.
Qed.

Lemma omap_abs_sub h' h (es : list entry) :
  heap_sub h' h →
  (omap (abs_entry h') es).*1 `sublist_of` (omap (abs_entry h) es).*1.
Proof.
  intros Hsub. induction es as [|e es IH]; [done|].
  destruct (abs_entry h' e) as [x|] eqn:E'.
  - rewrite (omap_cons_Some _ _ _ _ E').
    rewrite (omap_cons_Some _ _ _ _ (abs_entry_sub _ _ _ _ Hsub E')).
    simpl. by apply sublist_skip.
  - rewrite (omap_cons_None _ _ _ E').
    destruct (abs_entry h e) as [y|] eqn:E.
    + rewrite (omap_cons_Some _ _ _ _ E). simpl. by apply sublist_cons.
    + by rewrite (omap_cons_None _ _ _ E).
Qed.

(** An entry whose key text is still allocated after some blocks were
    freed is read as before. *)
Lemma content_sub h' h m t p v :
  heap_sub h' h → map_wf h m →
  content h m !! t = Some (p, v) → cells h' !! p = Some t →
  content h' m !! t = Some (p, v).
Proof.
  intros Hsub Hwf Hl Hp.
  destruct (content_lookup_entry _ _ _ _ _ Hwf Hl) as (_ & _ & e & He & Ha).
  unfold content. apply elem_of_list_to_map.
  - apply (sublist_NoDup _ _ (wf_NoDup_texts _ _ Hwf)).
    by apply omap_abs_sub.
  - apply list_elem_of_omap. exists e. split; [done|].
    apply abs_entry_Some in Ha as (Hk & _ & Hv). by apply abs_entry_Some.
Qed.

Lemma key_pointer_content h m q :
  map_wf h m → q ∈ key_pointers m → ∃ t v, content h m !! t = Some (q, v).
Proof.
  intros Hwf Hq. pose proof Hwf as (bs & Hbs & _ & _ & Hpl & _).
  unfold key_pointers in Hq.
  apply list_elem_of_omap in Hq as (e & He & Hk).
  assert (He' : e ∈ concat bs) by (unfold entries in He; by rewrite Hbs in He).
  apply elem_of_concat in He' as (c & Hc & Hec).
  apply list_elem_of_lookup in Hc as [i Hi].
  destruct (Hpl _ _ _ Hi Hec) as (p & t & Hk' & Hp & _).
  assert (p = q) by congruence. subst p.
  exists t, (entry_Val e). unfold content. apply elem_of_list_to_map.
  - by apply wf_NoDup_texts.
  - apply list_elem_of_omap. exists e. split; [done|]. by apply abs_entry_Some.
Qed.

(** The walk of [map_Get] over a chain that holds an entry whose key
    text was freed, for a key with the text that entry had: no entry
    before it can match, so the walk reads a freed block. *)
Lemma chain_find_dangling h' h k t p v : ∀ c e0,
  heap_sub h' h → heap_c_strings h →
  Forall (λ e, is_Some (abs_entry h e)) c →
  NoDup ((omap (abs_entry h) c).*1) →
  cells h' !! k = Some t →
  e0 ∈ c → abs_entry h e0 = Some (t, (p, v)) → cells h' !! p = None →
  chain_find c (Some k) h' = Fault UseAfterFree.
Proof.
  intros c e0 Hsub Hcs Hkeyed. revert e0.
  induction Hkeyed as [|e c [[t' [q w]] He] Hc IH];
    intros e0 Hnd Hk Hin Ha0 Hdead.
  - by apply elem_of_nil in Hin.
  - rewrite (omap_cons_Some _ _ _ _ He) in Hnd. simpl in Hnd.
    apply NoDup_cons in Hnd as [Hnotin Hnd].
    apply abs_entry_Some in He as Hparts. destruct Hparts as (Hkey & Hq & Hv).
    cbn [chain_find]. munfold. rewrite Hkey. unfold strcmp_eq, load. munfold.
    destruct (cells h' !! q) as [s|] eqn:Eq; [|done].
    rewrite Hk. pose proof (Hsub _ _ Eq) as Hq'.
    assert (s = t') by congruence. subst s.
    apply elem_of_cons in Hin as [->|Hin].
    { rewrite He in Ha0. injection Ha0 as <- <- <-. congruence. }
    assert (Hne : t' ≠ t).
    { intros ->. apply Hnotin. apply list_elem_of_fmap.
      exists (t, (p, v)). split; [done|].
      apply list_elem_of_omap. by exists e0. }
    rewrite (Hcs _ _ Hq'), (Hcs _ _ (Hsub _ _ Hk)).
    rewrite bool_decide_eq_false_2 by done.
    by eapply IH.
Qed.

(** C3, amended.  For well-formed tables [dst] and [src] of C strings
    that share no key pointer, [map_Merge] runs without fault and leaves
    [Buckets] of [src] NULL.  Read in the heap after the call: for every
    key of [dst], the entry keeps its key pointer and the text stays
    allocated; its value is the one [src] had for the key when [src]
    bound it (the value of [src] wins), and its old value otherwise.  For
    a key present in both tables the key text of [src] is released.  When
    [dst] bound every key of [src], [dst] is well formed after the call
    and [map_Get] returns the value of [src] for the keys of [src] and
    the old value of [dst] for every other key. *)
Theorem map_Merge_src_value_wins h dst src :
  heap_c_strings h → map_wf h dst → map_wf h src →
  Forall (λ p, p ∉ key_pointers dst) (key_pointers src) →
  ∃ dst' src' h',
    map_Merge dst src h = Ok ((dst', src'), h')
    ∧ map_Buckets src' = None
    ∧ (∀ t q v0,
          content h dst !! t = Some (q, v0) →
          cells h' !! q = Some t
          ∧ content h' dst' !! t
            = Some (q, match content h src !! t with
                       | Some (_, v) => v
                       | None => v0
                       end))
    ∧ (∀ t p v,
          content h src !! t = Some (p, v) → is_Some (content h dst !! t) →
          cells h' !! p = None)
    ∧ ((∀ t, is_Some (content h src !! t) → is_Some (content h dst !! t)) →
       map_wf h' dst'
       ∧ ∀ k t, cells h' !! k = Some t →
           map_Get dst' (Some k) h'
           = Ok (match content h src !! t with
                 | Some (_, v) => Some v
                 | None => snd <$> content h dst !! t
                 end, h')).
Proof.
  intros Hcs Hd Hs Hdisj.
  destruct (map_Merge_spec h dst src Hcs Hd Hs Hdisj)
    as (dst' & src' & h' & Hrun & Hnull & Hnd & Hc & Hcoll & Hlive & Hfreed
        & Hwf' & Hsub).
  exists dst', src', h'. split_and!; [done|done| | |].
  - intros t q v0 Hdst. split; [by eapply Hlive|].
    apply (content_sub h' h); [done|done| |by eapply Hlive].
    rewrite Hc, Hdst. by destruct (content h src !! t) as [[p v]|].
  - intros t p v Hsrc _. by eapply Hfreed.
  - intros Hall.
    assert (Hframe : ∀ q, q ∈ key_pointers dst' → cells h' !! q = cells h !! q).
    { intros q Hq. destruct (key_pointer_content _ _ _ Hwf' Hq) as (t & v & Hl).
      assert (∃ v0, content h dst !! t = Some (q, v0)) as [v0 Hdst].
      { rewrite Hc in Hl. destruct (content h src !! t) as [[p w]|] eqn:Hsrc.
        - destruct (Hall t) as [[q' v0] Hdst]; [by rewrite Hsrc|].
          rewrite Hdst in Hl. injection Hl as <- <-. by exists v0.
        - by exists v. }
      rewrite (Hlive _ _ _ Hdst).
      by destruct (content_lookup_entry _ _ _ _ _ Hd Hdst) as (_ & -> & _). }
    destruct (map_wf_frame h h' dst' Hframe Hwf') as [Hwfh' Hconth'].
    split; [done|]. intros k t Hk.
    rewrite (map_Get_spec h' dst' k t) by
      (done || by eapply heap_c_strings_sub).
    rewrite Hconth', Hc. f_equal. f_equal.
    destruct (content h src !! t) as [[p v]|]; [|done].
    by destruct (content h dst !! t) as [[q v0]|].
Qed.

(** X16.  What [map_Merge] does to a key that only [src] had: [dst] now
    holds the key pointer of [src], and the [map_Free] that ends
    [map_Merge] has freed the text this pointer refers to.  The entry of
    [dst] dangles, and a later [map_Get] with this key text reads the
    freed block. *)
Lemma map_Merge_frees_moved_key h dst src t p v :
  heap_c_strings h → map_wf h dst → map_wf h src →
  Forall (λ p, p ∉ key_pointers dst) (key_pointers src) →
  content h src !! t = Some (p, v) → content h dst !! t = None →
  ∃ dst' src' h',
    map_Merge dst src h = Ok ((dst', src'), h')
    ∧ p ∈ key_pointers dst'
    ∧ cells h' !! p = None
    ∧ ∀ k, cells h' !! k = Some t →
           map_Get dst' (Some k) h' = Fault UseAfterFree.
Proof.
  intros Hcs Hd Hs Hdisj Hsrc Hdst.
  destruct (map_Merge_spec h dst src Hcs Hd Hs Hdisj)
    as (dst' & src' & h' & Hrun & _ & _ & Hc & _ & _ & Hfreed & Hwf' & Hsub).
  assert (Hl : content h dst' !! t = Some (p, v)) by (by rewrite Hc, Hsrc, Hdst).
  destruct (content_lookup_entry _ _ _ _ _ Hwf' Hl) as (Hkp & _ & e & He & Ha).
  pose proof (Hfreed _ _ _ Hsrc) as Hdead.
  exists dst', src', h'. split_and!; [done|done|done|].
  intros k Hk. destruct Hwf' as (bs & Hbs & Hcap & Hlen & Hpl & Hndt).
  pose proof (bucket_index_lt t _ Hcap) as Hlt.
  destruct (lookup_lt_is_Some_2 bs (bucket_index t (map_Cap dst'))) as [c Hc'];
    [lia|].
  unfold map_Get. munfold. rewrite (map_hash_live _ _ _ _ Hk Hcap), Hbs.
  rewrite (array_get_Some _ _ _ _ Hc').
  destruct (concat_insert_perm bs _ _ Hc') as (rest & Hperm & _).
  apply (chain_find_dangling h' h k t p v c e); try done.
  - apply Forall_forall. intros e' He'. by eapply placed_keyed.
  - rewrite Hperm, omap_app, fmap_app in Hndt.
    by apply NoDup_app in Hndt as [? _].
  - eapply wf_entry_bucket; [done|done| |done].
    unfold entries in He. by rewrite Hbs in He.
Qed.

(** The tables of [example_merge_input]: only [src] binds "c". *)
Lemma map_Merge_frees_moved_key_witness :
  heap_c_strings example_heap
  ∧ map_wf example_heap example_dst
  ∧ map_wf example_heap example_src
  ∧ Forall (λ p, p ∉ key_pointers example_dst) (key_pointers example_src)
  ∧ content example_heap example_src !! "c" = Some (3%nat, 30)
  ∧ content example_heap example_dst !! "c" = None
  ∧ ∃ dst' src' h',
      map_Merge example_dst example_src example_heap = Ok ((dst', src'), h')
      ∧ 3%nat ∈ key_pointers dst'
      ∧ cells h' !! 3%nat = None
      ∧ ∀ k, cells h' !! k = Some "c"%string →
             map_Get dst' (Some k) h' = Fault UseAfterFree.
Proof.
  assert (H0 : heap_c_strings example_heap)
    by (apply c_strings_check_sound; vm_compute; reflexivity).
  assert (H1 : map_wf example_heap example_dst)
    by (apply wf_check_sound; vm_compute; reflexivity).
  assert (H2 : map_wf example_heap example_src)
    by (apply wf_check_sound; vm_compute; reflexivity).
  assert (H3 : Forall (λ p, p ∉ key_pointers example_dst)
                 (key_pointers example_src))
    by (apply (bool_decide_unpack _); vm_compute; exact I).
  assert (H4 : content example_heap example_src !! "c" = Some (3%nat, 30))
    by (vm_compute; reflexivity).
  assert (H5 : content example_heap example_dst !! "c" = None)
    by (vm_compute; reflexivity).
  exact (conj H0 (conj H1 (conj H2 (conj H3 (conj H4 (conj H5
           (map_Merge_frees_moved_key example_heap example_dst example_src
              "c" 3 30 H0 H1 H2 H3 H4 H5))))))).
Defined.

(** The tables of [example_collision_input]: [dst] binds "a" and "b",
    [src] binds "a" only; after the merge [map_Get] finds 10, the value
    of [src], under "a". *)
Lemma map_Merge_src_value_wins_witness :
  heap_c_strings example_collision_heap
  ∧ map_wf example_collision_heap example_collision_dst
  ∧ map_wf example_collision_heap example_collision_src
  ∧ Forall (λ p, p ∉ key_pointers example_collision_dst)
      (key_pointers example_collision_src)
  ∧ ∃ dst' src' h',
      map_Merge example_collision_dst example_collision_src
        example_collision_heap = Ok ((dst', src'), h')
      ∧ map_Buckets src' = None
      ∧ (∀ t q v0,
            content example_collision_heap example_collision_dst !! t
            = Some (q, v0) →
            cells h' !! q = Some t
            ∧ content h' dst' !! t
              = Some (q, match content example_collision_heap
                                 example_collision_src !! t with
                         | Some (_, v) => v
                         | None => v0
                         end))
      ∧ (∀ t p v,
            content example_collision_heap example_collision_src !! t
            = Some (p, v) →
            is_Some (content example_collision_heap example_collision_dst !! t) →
            cells h' !! p = None)
      ∧ ((∀ t, is_Some (content example_collision_heap
                          example_collision_src !! t) →
               is_Some (content example_collision_heap
                          example_collision_dst !! t)) →
         map_wf h' dst'
         ∧ ∀ k t, cells h' !! k = Some t →
             map_Get dst' (Some k) h'
             = Ok (match content example_collision_heap
                           example_collision_src !! t with
                   | Some (_, v) => Some v
                   | None => snd <$> content example_collision_heap
                                       example_collision_dst !! t
                   end, h')).
Proof.
  assert (H0 : heap_c_strings example_collision_heap)
    by (apply c_strings_check_sound; vm_compute; reflexivity).
  assert (H1 : map_wf example_collision_heap example_collision_dst)
    by (apply wf_check_sound; vm_compute; reflexivity).
  assert (H2 : map_wf example_collision_heap example_collision_src)
    by (apply wf_check_sound; vm_compute; reflexivity).
  assert (H3 : Forall (λ p, p ∉ key_pointers example_collision_dst)
                 (key_pointers example_collision_src))
    by (apply (bool_decide_unpack _); vm_compute; exact I).
  exact (conj H0 (conj H1 (conj H2 (conj H3
           (map_Merge_src_value_wins example_collision_heap
              example_collision_dst example_collision_src H0 H1 H2 H3))))).
Defined.

(* ===================================================================== *)
(** ** [set] then [get] on a table with a large enough bucket array *)
(* ===================================================================== *)

Lemma wf_pointer_live h m q :
  map_wf h m → q ∈ key_pointers m → is_Some (cells h !! q).
Proof.
  intros (bs & Hbs & _ & _ & Hpl & _) Hq. unfold key_pointers, entries in Hq.
  rewrite Hbs in Hq. apply list_elem_of_omap in Hq as (e & He & Hk).
  apply elem_of_concat in He as (c & Hc & He).
  apply list_elem_of_lookup in Hc as [i Hi].
  destruct (Hpl _ _ _ Hi He) as (p & t & Hk' & Hp & _).
  assert (p = q) by congruence. subst. by eexists.
Qed.

Lemma alloc_str_spec s h :
  heap_ok h → nul_free s →
  ∃ h', alloc_str s h = Ok (Some (next h), h')
        ∧ heap_ok h' ∧ cells h' !! next h = Some s
        ∧ ∀ q, is_Some (cells h !! q) → cells h' !! q = cells h !! q.
Proof.
  intros [Hok Hcs] Hs. eexists. split; [done|]. simpl. split; [|split].
  - split.
    + intros p Hp. simpl in *. rewrite lookup_insert_ne by lia. apply Hok. lia.
    + intros p t. simpl. destruct (decide (p = next h)) as [->|Hne].
      * rewrite lookup_insert_eq. by intros [= <-].
      * rewrite lookup_insert_ne by done. apply Hcs.
  - apply lookup_insert_eq.
  - intros q [t Hq]. rewrite lookup_insert_ne; [done|].
    intros <-. rewrite Hok in Hq by lia. done.
Qed.

Lemma c_str_nul_free s : nul_free (c_str s).
Proof.
  unfold nul_free. induction s as [|a s IH]; [done|]. simpl.
  destruct (Ascii.eqb a zero) eqn:E; [done|]. simpl. by rewrite E, IH.
Qed.

Lemma map_Default_wf h m0 :
  (8 ≤ map_Cap m0)%nat →
  map_wf h (map_Default m0) ∧ content h (map_Default m0) = ∅.
Proof.
  intros Hcap. unfold content, entries. simpl.
  rewrite concat_replicate_nil. split; [|done].
  exists (replicate (map_Cap m0) []). split; [done|]. simpl.
  split; [done|]. split; [by rewrite length_replicate|]. split.
  - intros i c e Hi He. apply lookup_replicate in Hi as [-> _].
    by apply elem_of_nil in He.
  - rewrite concat_replicate_nil. constructor.
Qed.

Lemma set_all_spec kvs : ∀ h m,
  heap_ok h → map_wf h m → Forall (λ kv, nul_free kv.1) kvs →
  ∃ m' h', set_all m kvs h = Ok (m', h') ∧ heap_ok h' ∧ map_wf h' m'
           ∧ snd <$> content h' m'
             = foldl (λ c kv, <[kv.1 := kv.2]> c) (snd <$> content h m) kvs.
Proof.
  induction kvs as [|[k v] kvs IH]; intros h m Hok Hwf Hnf.
  - by exists m, h.
  - apply List.Forall_cons_iff in Hnf as [Hk0 Hnf]. simpl in Hk0.
    destruct (alloc_str_spec k h Hok Hk0) as (h1 & Hal & Hok1 & Hk & Hkeep).
    destruct (map_wf_frame h h1 m) as [Hwf1 Hc1]; [|done|].
    { intros q Hq. apply Hkeep. by eapply wf_pointer_live. }
    destruct (map_Set_content h1 m (next h) k v (proj2 Hok1) Hwf1 Hk)
      as (b & m2 & Hset & Hwf2 & _ & Hc2 & _).
    destruct (IH h1 m2 Hok1 Hwf2 Hnf) as (m' & h' & Hrun & Hok' & Hwf' & Hc').
    exists m', h'. split; [|split; [done|split; [done|]]].
    + cbn [set_all]. munfold. by rewrite Hal, Hset.
    + rewrite Hc', Hc2, Hc1. simpl. unfold ins_abs. simpl.
      by rewrite fmap_insert.
Qed.

Lemma get_text_spec h m k :
  heap_ok h → map_wf h m → nul_free k →
  result_of (get_text m k h) = Ok ((snd <$> content h m) !! k).
Proof.
  intros Hok Hwf Hk0.
  destruct (alloc_str_spec k h Hok Hk0) as (h1 & Hal & Hok1 & Hk & Hkeep).
  destruct (map_wf_frame h h1 m) as [Hwf1 Hc1]; [|done|].
  { intros q Hq. apply Hkeep. by eapply wf_pointer_live. }
  unfold get_text. munfold. rewrite Hal.
  rewrite (map_Get_spec h1 m (next h) k (proj2 Hok1) Hwf1 Hk). simpl.
  by rewrite Hc1, lookup_fmap.
Qed.

(** X17.  On a table initialised over memory whose [Cap] member held at
    least 8, in a heap of C strings, any sequence of [set] calls, each
    with a newly allocated key text without NUL, followed by a [get]
    returns the value of the last [set] for the key, and nothing for a
    key never set; rehashing on the way changes no binding. *)
Theorem map_Get_after_Sets m0 kvs k h :
  (8 ≤ map_Cap m0)%nat → heap_ok h →
  Forall (λ kv, nul_free kv.1) kvs → nul_free k →
  result_of ((m ← set_all (map_Default m0) kvs; get_text m k) h)
  = Ok (bindings_of kvs !! k).
Proof.
  intros Hcap Hok Hkvs Hk. destruct (map_Default_wf h m0 Hcap) as [Hwf Hc].
  destruct (set_all_spec kvs h _ Hok Hwf Hkvs)
    as (m' & h' & Hrun & Hok' & Hwf' & Hc').
  munfold. rewrite Hrun. rewrite (get_text_spec h' m' k Hok' Hwf' Hk).
  rewrite Hc', Hc. by rewrite fmap_empty.
Qed.

Lemma heap_ok_empty : heap_ok heap_empty.
Proof. split; [intros p _; apply lookup_empty|]. intros p t. by simpl. Qed.

Lemma map_Get_after_Sets_witness :
  (8 ≤ map_Cap (mkMap None 0 8))%nat ∧ heap_ok heap_empty
  ∧ Forall (λ kv : string * Z, nul_free kv.1) [("k", 1); ("j", 5); ("k", 2)]
  ∧ nul_free "k"
  ∧ result_of ((m ← set_all (map_Default (mkMap None 0 8))
                      [("k", 1); ("j", 5); ("k", 2)];
                get_text m "k") heap_empty)
    = Ok (bindings_of [("k", 1); ("j", 5); ("k", 2)] !! "k").
Proof.
  assert (H1 : (8 ≤ map_Cap (mkMap None 0 8))%nat) by (simpl; lia).
  assert (H2 : heap_ok heap_empty) by apply heap_ok_empty.
  assert (H3 : Forall (λ kv : string * Z, nul_free kv.1)
                 [("k", 1); ("j", 5); ("k", 2)])
    by (repeat constructor).
  assert (H4 : nul_free "k") by reflexivity.
  exact (conj H1 (conj H2 (conj H3 (conj H4
           (map_Get_after_Sets _ _ _ _ H1 H2 H3 H4))))).
Defined.

(* ===================================================================== *)
(** ** Every parser of the grammar keeps the mode of the cursor *)
(* ===================================================================== *)

Lemma same_mode_refl s : same_mode s s.
Proof. done. Qed.

Lemma same_mode_trans s1 s2 s3 :
  same_mode s1 s2 → same_mode s2 s3 → same_mode s1 s3.
Proof.
  intros (? & ? & ?) (? & ? & ?). repeat split; congruence.
Qed.

Lemma source_Eat_mode s c : same_mode s (source_Eat s c).
Proof.
  unfold source_Eat, source_Next.
  destruct (source_Peek s <? 0); [by destruct (-1 =? c)|].
  destruct (source_Peek s =? 10); by destruct (source_Peek s =? c).
Qed.

Lemma skipSpaces_loop_mode n : ∀ s, same_mode s (skipSpaces_loop n s).
Proof.
  induction n as [|n IH]; intros s; [done|]. simpl.
  destruct (_ || _); [done|].
  eapply same_mode_trans; [apply source_Eat_mode|apply IH].
Qed.

Lemma source_SkipSpaces_mode s : same_mode s (source_SkipSpaces s).
Proof. apply skipSpaces_loop_mode. Qed.

Lemma word_loop_mode w : ∀ s, same_mode s (word_loop w s).
Proof.
  induction w as [|c w IH]; intros s; [done|]. simpl.
  destruct (src_Failed _); [apply source_Eat_mode|].
  eapply same_mode_trans; [apply source_Eat_mode|apply IH].
Qed.

Lemma lowercase_loop_mode n : ∀ s, same_mode s (lowercase_loop n s).
Proof.
  induction n as [|n IH]; intros s; [done|]. simpl.
  destruct (_ && _); [done|].
  eapply same_mode_trans; [apply source_Eat_mode|apply IH].
Qed.

Section Mode.
Context {A : Type}.
Implicit Types (p : Parser A) (ps : list (Parser A)).

Lemma keeps_mode_word w : keeps_mode (word (A:=A) w).
Proof. intros a st a' st' [= _ <-]. apply word_loop_mode. Qed.

Lemma keeps_mode_soi : keeps_mode (soi (A:=A)).
Proof. intros a st a' st' [= _ <-]. by case_decide. Qed.

Lemma keeps_mode_eoi : keeps_mode (eoi (A:=A)).
Proof. intros a st a' st' [= _ <-]. by case_decide. Qed.

Lemma keeps_mode_range from to : keeps_mode (range (A:=A) from to).
Proof.
  intros a st a' st'. unfold range.
  case_match; intros [= _ <-]; [done|apply source_Eat_mode].
Qed.

Lemma keeps_mode_parseAll ps : Forall keeps_mode ps → keeps_mode (parseAll ps).
Proof.
  induction 1 as [|p ps Hp Hps IH]; intros a st a' st'; simpl.
  - by intros [= _ <-].
  - destruct (p a st) as [[a1 st1]|] eqn:E; [|done].
    specialize (Hp _ _ _ _ E).
    destruct (failed st1); [by intros [= _ <-]|].
    intros Hrest. apply IH in Hrest.
    eapply same_mode_trans; [exact Hp|].
    eapply same_mode_trans; [|exact Hrest].
    destruct (_ && _); [apply source_SkipSpaces_mode|done].
Qed.

Lemma keeps_mode_parseAny_loop l ps :
  Forall keeps_mode ps → keeps_mode (parseAny_loop l ps).
Proof.
  induction 1 as [|p ps Hp Hps IH]; intros a st a' st'; simpl.
  - by intros [= _ <-].
  - destruct (p a st) as [[a1 st1]|] eqn:E; [|done].
    specialize (Hp _ _ _ _ E).
    destruct (failed st1); simpl; [|by intros [= _ <-]].
    intros Hrest. apply IH in Hrest.
    eapply same_mode_trans; [exact Hp|]. exact Hrest.
Qed.

Lemma keeps_mode_parseAny ps : Forall keeps_mode ps → keeps_mode (parseAny ps).
Proof. intros H a st. by apply keeps_mode_parseAny_loop. Qed.

Lemma keeps_mode_many fuel p : keeps_mode p → keeps_mode (many fuel p).
Proof.
  intros Hp. induction fuel as [|n IH]; intros a st a' st'; simpl; [done|].
  destruct (p a st) as [[a1 st1]|] eqn:E; [|done].
  specialize (Hp _ _ _ _ E).
  destruct (failed st1); [by intros [= _ <-]|].
  intros Hrest. apply IH in Hrest.
  eapply same_mode_trans; [exact Hp|].
  eapply same_mode_trans; [|exact Hrest].
  destruct (negb _); [apply source_SkipSpaces_mode|done].
Qed.

Lemma keeps_mode_option p : keeps_mode p → keeps_mode (option_ p).
Proof.
  intros Hp a st a' st'. unfold option_.
  destruct (p a st) as [[a1 st1]|] eqn:E; [|done].
  specialize (Hp _ _ _ _ E).
  destruct (failed st1); by intros [= _ <-].
Qed.

Lemma keeps_mode_parseAtom p : keeps_mode p → keeps_mode (parseAtom p).
Proof.
  intros Hp a st a' st'. unfold parseAtom.
  destruct (p a _) as [[a1 st1]|] eqn:E; [|done].
  destruct (Hp _ _ _ _ E) as (Hf & _ & Hn). by intros [= _ <-].
Qed.

Lemma keeps_mode_parseEnd : keeps_mode (parseEnd (A:=A)).
Proof.
  intros a st a' st'. unfold parseEnd.
  destruct (End_ a _) as [[a1 st1]|] eqn:E; [|done].
  assert (Hend : keeps_mode (End_ (A:=A))).
  { unfold End_, any. apply keeps_mode_parseAny.
    repeat first [apply List.Forall_nil | apply List.Forall_cons];
      apply keeps_mode_word. }
  destruct (Hend _ _ _ _ E) as (Hf & Ha & _). intros [= _ <-].
  pose proof (source_SkipSpaces_mode
                (set_NewlineSensitive true (st_Src st))) as (Hf' & Ha' & _).
  unfold same_mode.
  cbn [st_Src on_Src src_File src_Atom src_NewlineSensitive
       set_NewlineSensitive] in *.
  repeat split; congruence.
Qed.

Lemma keeps_mode_at_field {B} (get : A → B) (set : B → A → A) (q : Parser B) :
  keeps_mode q → keeps_mode (at_field get set q).
Proof.
  intros Hq a st a' st'. unfold at_field.
  destruct (q (get a) st) as [[b st1]|] eqn:E; [|done].
  intros [= _ <-]. by eapply Hq.
Qed.

(** With branches that keep the mode, the cursor a retry starts from is
    the cursor [parseAny] was entered with, failed flag cleared: the same
    file, position and flags. *)
Lemma attempts_same_cursor l ps a st a' st' :
  Forall keeps_mode ps → attempts l ps a st a' st' → ps ≠ [] →
  st_Src st' = source_Back (st_Src st) l.
Proof.
  intros Hps Hatt. induction Hatt as [|p ps a st a1 st1 a' st' Hl Hp Hf Hrest IH].
  - done.
  - intros _. apply Forall_cons in Hps as [Hkp Hps].
    destruct (Hkp _ _ _ _ Hp) as (HF & HA & HN).
    assert (Hback : st_Src (on_Src (λ s, source_Back s l) st1)
                    = source_Back (st_Src st) l).
    { unfold source_Back, set_Failed, set_Loc. simpl. by rewrite HF, HA, HN. }
    destruct ps as [|q ps].
    + inversion Hrest; subst. exact Hback.
    + rewrite IH by done. by rewrite Hback.
Qed.
End Mode.

Lemma keeps_mode_parseLowercase : keeps_mode parseLowercase.
Proof.
  intros sp st sp' st'. unfold parseLowercase.
  destruct (_ || _); intros [= _ <-]; [done|]. simpl.
  eapply same_mode_trans; [apply source_Eat_mode|apply lowercase_loop_mode].
Qed.

(** Split [Forall keeps_mode [p1; ...; pn]] into one goal per parser and
    close the goals about words. *)
Ltac keeps_mode_each :=
  repeat first [ apply List.Forall_nil | apply List.Forall_cons ];
  try apply keeps_mode_word.

Section GrammarMode.
Variable (Expr_ : Parser Expr) (fuel : nat).
Hypothesis Expr_mode : keeps_mode Expr_.

Lemma keeps_mode_Arg : keeps_mode (Arg Expr_).
Proof.
  intros sl st sl' st'. unfold Arg.
  destruct (Expr_ _ st) as [[a st1]|] eqn:E; [|done].
  specialize (Expr_mode _ _ _ _ E).
  destruct (failed st1); by intros [= _ <-].
Qed.

Lemma keeps_mode_Args : keeps_mode (Args Expr_ fuel).
Proof.
  unfold Args, all. cbv zeta. apply keeps_mode_parseAny. keeps_mode_each.
  - apply keeps_mode_parseAll. keeps_mode_each.
  - apply keeps_mode_parseAll. keeps_mode_each.
    + apply keeps_mode_Arg.
    + apply keeps_mode_many, keeps_mode_parseAll. keeps_mode_each.
      apply keeps_mode_Arg.
Qed.

Lemma keeps_mode_Expr_ref : keeps_mode Expr_ref.
Proof.
  intros e st e' st'. unfold Expr_ref.
  destruct (parseLowercase _ st) as [[sp st1]|] eqn:E; [|done].
  pose proof (keeps_mode_parseLowercase _ _ _ _ E).
  destruct (failed st1); by intros [= _ <-].
Qed.

Lemma keeps_mode_Expr_paren : keeps_mode (Expr_paren Expr_).
Proof.
  unfold Expr_paren. apply keeps_mode_parseAll. keeps_mode_each.
  exact Expr_mode.
Qed.

Lemma keeps_mode_Expr_app : keeps_mode (Expr_app Expr_ fuel).
Proof.
  intros e st e' st'. unfold Expr_app. cbv zeta.
  match goal with |- context [parseAll ?ps ?fr st] =>
    destruct (parseAll ps fr st) as [[app st1]|] eqn:E; [|done];
    assert (Hm : same_mode (st_Src st) (st_Src st1))
  end.
  { revert E. apply keeps_mode_parseAll. keeps_mode_each.
    - unfold any. apply keeps_mode_parseAny. keeps_mode_each.
      + apply keeps_mode_at_field, keeps_mode_Expr_ref.
      + apply keeps_mode_at_field, keeps_mode_Expr_paren.
    - apply keeps_mode_at_field, keeps_mode_Args. }
  destruct (failed st1); by intros [= _ <-].
Qed.

Lemma keeps_mode_Expr_ite : keeps_mode (Expr_ite Expr_).
Proof.
  intros e st e' st'. unfold Expr_ite. cbv zeta.
  match goal with |- context [parseAll ?ps ?fr st] =>
    destruct (parseAll ps fr st) as [[ite st1]|] eqn:E; [|done];
    assert (Hm : same_mode (st_Src st) (st_Src st1))
  end.
  { revert E. apply keeps_mode_parseAll.
    keeps_mode_each; by apply keeps_mode_at_field. }
  destruct (failed st1); by intros [= _ <-].
Qed.

Lemma keeps_mode_Param : keeps_mode Param_.
Proof.
  intros n st n' st'. unfold Param_.
  destruct (parseLowercase _ st) as [[sp st1]|] eqn:E; [|done].
  pose proof (keeps_mode_parseLowercase _ _ _ _ E).
  destruct (failed st1); by intros [= _ <-].
Qed.

Lemma keeps_mode_Params : keeps_mode (Params fuel).
Proof.
  unfold Params, all. cbv zeta. apply keeps_mode_parseAny. keeps_mode_each.
  - apply keeps_mode_parseAll. keeps_mode_each.
  - apply keeps_mode_parseAll. keeps_mode_each.
    + apply keeps_mode_Param.
    + apply keeps_mode_many, keeps_mode_parseAll. keeps_mode_each.
      apply keeps_mode_Param.
Qed.

Lemma keeps_mode_Expr_lambda : keeps_mode (Expr_lambda Expr_ fuel).
Proof.
  intros e st e' st'. unfold Expr_lambda. cbv zeta.
  match goal with |- context [parseAll ?ps ?fr st] =>
    destruct (parseAll ps fr st) as [[lam st1]|] eqn:E; [|done];
    assert (Hm : same_mode (st_Src st) (st_Src st1))
  end.
  { revert E. apply keeps_mode_parseAll. keeps_mode_each.
    - apply keeps_mode_at_field, keeps_mode_Params.
    - by apply keeps_mode_at_field. }
  destruct (failed st1); by intros [= _ <-].
Qed.

Lemma keeps_mode_decimalDigits : keeps_mode (decimalDigits fuel).
Proof.
  intros sp st sp' st'. unfold decimalDigits. cbv zeta.
  match goal with |- context [parseAll ?ps sp st] =>
    destruct (parseAll ps sp st) as [[sp1 st1]|] eqn:E; [|done];
    assert (Hm : same_mode (st_Src st) (st_Src st1))
  end.
  { revert E. apply keeps_mode_parseAll. keeps_mode_each.
    - apply keeps_mode_range.
    - apply keeps_mode_many, keeps_mode_parseAll. keeps_mode_each.
      + apply keeps_mode_option, keeps_mode_word.
      + apply keeps_mode_range. }
  destruct (failed st1); by intros [= _ <-].
Qed.

Lemma keeps_mode_Expr_number : keeps_mode (Expr_number fuel).
Proof.
  intros e st e' st'. unfold Expr_number, Number, decimalNumber.
  destruct (parseAtom _ _ st) as [[sp st1]|] eqn:E; [|done].
  pose proof (keeps_mode_parseAtom _ keeps_mode_decimalDigits _ _ _ _ E).
  destruct (failed st1); by intros [= _ <-].
Qed.

Lemma keeps_mode_Expr_const (w : Parser Expr) k :
  keeps_mode w → keeps_mode (Expr_const w k).
Proof.
  intros Hw e st e' st'. unfold Expr_const.
  destruct (w e st) as [[e1 st1]|] eqn:E; [|done].
  specialize (Hw _ _ _ _ E).
  destruct (failed st1); by intros [= _ <-].
Qed.

Lemma keeps_mode_ParseExpr_branches :
  Forall keeps_mode (ParseExpr_branches Expr_ fuel).
Proof.
  unfold ParseExpr_branches. keeps_mode_each.
  - apply keeps_mode_Expr_app.
  - apply keeps_mode_Expr_ite.
  - apply keeps_mode_Expr_lambda.
  - apply keeps_mode_Expr_number.
  - apply keeps_mode_Expr_const, keeps_mode_word.
  - apply keeps_mode_Expr_const, keeps_mode_word.
  - apply keeps_mode_Expr_const, keeps_mode_word.
  - apply keeps_mode_Expr_ref.
  - apply keeps_mode_Expr_paren.
Qed.
End GrammarMode.

Lemma keeps_mode_ParseExpr fuel : keeps_mode (ParseExpr fuel).
Proof.
  induction fuel as [|n IH]; [by intros ? ? ? ? ?|].
  simpl. apply keeps_mode_parseAny. by apply keeps_mode_ParseExpr_branches.
Qed.

(** In [ParseExpr] every alternative after the first starts from exactly
    the cursor [ParseExpr] was entered with, failed flag cleared. *)
Lemma ParseExpr_retries_from_entry_cursor n pre a st a' st' :
  pre ≠ [] →
  (∃ post, ParseExpr_branches (ParseExpr n) n = pre ++ post) →
  attempts (st_Loc st) pre a st a' st' →
  st_Src st' = source_Back (st_Src st) (st_Loc st).
Proof.
  intros Hne [post Hsplit] Hatt. eapply attempts_same_cursor; [|exact Hatt|done].
  pose proof (keeps_mode_ParseExpr_branches _ n (keeps_mode_ParseExpr n)) as Hall.
  rewrite Hsplit in Hall. by apply Forall_app in Hall as [? _].
Qed.

(* ===================================================================== *)
(** ** The bounds of the bounded loops are enough *)
(* ===================================================================== *)

Lemma char_succ_range c : -128 ≤ c ≤ 127 → -128 ≤ char_succ c ≤ 127.
Proof. unfold char_succ. intros H. destruct (Z.ltb_spec 127 (c + 1)); lia. Qed.

(** Steps of the loop of [map_hash] before [c] is 0. *)
Lemma map_hash_loop_steps n : ∀ m c h,
  -128 ≤ c ≤ 127 →
  (Z.to_nat ((- c) `mod` 256) ≤ n)%nat → (Z.to_nat ((- c) `mod` 256) ≤ m)%nat →
  map_hash_loop n c h = map_hash_loop m c h.
Proof.
  induction n as [|n IH]; intros m c h Hc Hn Hm.
  - assert (c = 0) as -> by (revert Hn; Z.div_mod_to_equations; lia).
    by destruct m.
  - destruct m as [|m].
    + assert (c = 0) as -> by (revert Hm; Z.div_mod_to_equations; lia). done.
    + simpl. destruct (Z.eqb_spec c 0) as [->|Hne]; [done|].
      assert (Hs : (- char_succ c) `mod` 256 = (- c) `mod` 256 - 1).
      { unfold char_succ. destruct (Z.ltb_spec 127 (c + 1));
          Z.div_mod_to_equations; lia. }
      apply IH; [by apply char_succ_range| |]; rewrite Hs;
        revert Hn Hm; Z.div_mod_to_equations; lia.
Qed.

(** 256 turns are enough for the loop of [map_hash]: more fuel gives the
    same hash. *)
Lemma map_hash_loop_enough k c h :
  -128 ≤ c ≤ 127 → map_hash_loop (256 + k) c h = map_hash_loop 256 c h.
Proof.
  intros Hc. apply map_hash_loop_steps; [done| |];
    Z.div_mod_to_equations; lia.
Qed.

Lemma string_get_None (f : string) : ∀ n,
  (String.length f ≤ n)%nat → String.get n f = None.
Proof.
  induction f as [|a f IH]; intros n Hn; [done|].
  destruct n as [|n]; simpl in *; [lia|]. apply IH. lia.
Qed.

Lemma source_Peek_at_end s :
  (source_Size s ≤ loc_Pos (src_Loc s))%nat → source_Peek s = -1.
Proof.
  intros H. unfold source_Peek, fgetc_at. by rewrite string_get_None.
Qed.

Lemma source_Eat_advances s c :
  0 ≤ source_Peek s →
  loc_Pos (src_Loc (source_Eat s c)) = S (loc_Pos (src_Loc s))
  ∧ source_Size (source_Eat s c) = source_Size s.
Proof.
  intros H. unfold source_Eat, source_Next.
  destruct (Z.ltb_spec (source_Peek s) 0); [lia|].
  destruct (source_Peek s =? 10); by destruct (source_Peek s =? c).
Qed.

(** The number of bytes left is enough fuel for [source_SkipSpaces]. *)
Lemma skipSpaces_loop_enough n : ∀ s k,
  (source_Size s - loc_Pos (src_Loc s) ≤ n)%nat →
  skipSpaces_loop (n + k) s = skipSpaces_loop n s.
Proof.
  induction n as [|n IH]; intros s k Hn.
  - destruct k as [|k]; [done|]. simpl.
    rewrite source_Peek_at_end by lia. done.
  - simpl. destruct (Z.ltb_spec (source_Peek s) 0) as [|Hpos]; [done|].
    simpl. destruct (_ || _); [done|].
    destruct (source_Eat_advances s (source_Peek s) Hpos) as [Hp Hs].
    apply IH. lia.
Qed.

(** The number of bytes left is enough fuel for the loop of
    [parseLowercase]. *)
Lemma lowercase_loop_enough n : ∀ s k,
  (source_Size s - loc_Pos (src_Loc s) ≤ n)%nat →
  lowercase_loop (n + k) s = lowercase_loop n s.
Proof.
  induction n as [|n IH]; intros s k Hn.
  - destruct k as [|k]; [done|]. simpl.
    rewrite source_Peek_at_end by lia. done.
  - simpl. destruct (_ && _) eqn:Hstop; [done|].
    assert (Hpos : 0 ≤ source_Peek s).
    { apply andb_false_iff in Hstop as [H|H]; apply negb_false_iff in H.
      - unfold is_lower_alpha in H. apply andb_true_iff in H as [H _]. lia.
      - lia. }
    destruct (source_Eat_advances s (source_Peek s) Hpos) as [Hp Hs].
    apply IH. lia.
Qed.

(* ===================================================================== *)
(** ** More fuel never changes a result of the parser *)
(* ===================================================================== *)

Section Fuel.
Context {A : Type}.
Implicit Types (p q : Parser A) (ps qs : list (Parser A)).

Lemma extends_refl p : extends p p.
Proof. by intros a st r. Qed.

Lemma extends_parseAll ps qs :
  Forall2 extends ps qs → extends (parseAll ps) (parseAll qs).
Proof.
  induction 1 as [|p q ps qs Hpq Hrest IH]; intros a st r; [done|]. simpl.
  destruct (p a st) as [[a1 st1]|] eqn:E; [|done].
  rewrite (Hpq _ _ _ E).
  destruct (failed st1); [done|].
  assert (Hnil : bool_decide (ps ≠ []) = bool_decide (qs ≠ [])).
  { by destruct Hrest. }
  rewrite Hnil. apply IH.
Qed.

Lemma extends_parseAny_loop l ps qs :
  Forall2 extends ps qs → extends (parseAny_loop l ps) (parseAny_loop l qs).
Proof.
  induction 1 as [|p q ps qs Hpq Hrest IH]; intros a st r; [done|]. simpl.
  destruct (p a st) as [[a1 st1]|] eqn:E; [|done].
  rewrite (Hpq _ _ _ E).
  destruct (failed st1); simpl; [apply IH|done].
Qed.

Lemma extends_parseAny ps qs :
  Forall2 extends ps qs → extends (parseAny ps) (parseAny qs).
Proof. intros H a st. by apply extends_parseAny_loop. Qed.

Lemma extends_many n : ∀ m p q,
  (n ≤ m)%nat → extends p q → extends (many n p) (many m q).
Proof.
  induction n as [|n IH]; intros m p q Hle Hpq a st r; [done|].
  destruct m as [|m]; [lia|]. simpl.
  destruct (p a st) as [[a1 st1]|] eqn:E; [|done].
  rewrite (Hpq _ _ _ E).
  destruct (failed st1); [done|]. apply IH; [lia|done].
Qed.

Lemma extends_option p q : extends p q → extends (option_ p) (option_ q).
Proof.
  intros Hpq a st r. unfold option_.
  destruct (p a st) as [[a1 st1]|] eqn:E; [|done].
  by rewrite (Hpq _ _ _ E).
Qed.

Lemma extends_parseAtom p q : extends p q → extends (parseAtom p) (parseAtom q).
Proof.
  intros Hpq a st r. unfold parseAtom.
  destruct (p a _) as [[a1 st1]|] eqn:E; [|done].
  by rewrite (Hpq _ _ _ E).
Qed.

Lemma extends_at_field {B} (get : A → B) (set : B → A → A) (p q : Parser B) :
  extends p q → extends (at_field get set p) (at_field get set q).
Proof.
  intros Hpq a st r. unfold at_field.
  destruct (p (get a) st) as [[b st1]|] eqn:E; [|done].
  by rewrite (Hpq _ _ _ E).
Qed.
End Fuel.

(** Split [Forall2 extends [p1; ...] [q1; ...]] into one goal per pair and
    close the goals whose two parsers are the same. *)
Ltac extends_each :=
  repeat first [ apply Forall2_nil_2 | apply Forall2_cons_2 ];
  try apply extends_refl.

Section GrammarFuel.
Variable (Expr1 Expr2 : Parser Expr) (n m : nat).
Hypothesis Expr_le : extends Expr1 Expr2.
Hypothesis fuel_le : (n ≤ m)%nat.

Lemma extends_Arg : extends (Arg Expr1) (Arg Expr2).
Proof.
  intros sl st r. unfold Arg.
  destruct (Expr1 _ st) as [[a st1]|] eqn:E; [|done].
  by rewrite (Expr_le _ _ _ E).
Qed.

Lemma extends_Args : extends (Args Expr1 n) (Args Expr2 m).
Proof.
  unfold Args, all. cbv zeta. apply extends_parseAny. extends_each.
  apply extends_parseAll. extends_each.
  - apply extends_Arg.
  - apply extends_many; [done|]. apply extends_parseAll. extends_each.
    apply extends_Arg.
Qed.

Lemma extends_Expr_paren : extends (Expr_paren Expr1) (Expr_paren Expr2).
Proof. unfold Expr_paren. apply extends_parseAll. by extends_each. Qed.

Lemma extends_Expr_app : extends (Expr_app Expr1 n) (Expr_app Expr2 m).
Proof.
  intros e st r. unfold Expr_app. cbv zeta.
  match goal with |- context [parseAll ?ps ?fr st] =>
    destruct (parseAll ps fr st) as [[app st1]|] eqn:E; [|done]
  end.
  match goal with |- context [parseAll ?qs ?fr st] =>
    assert (Hq : parseAll qs fr st = Some (app, st1)); [|by rewrite Hq]
  end.
  revert E. apply extends_parseAll. extends_each.
  - unfold any. apply extends_parseAny. extends_each.
    apply extends_at_field, extends_Expr_paren.
  - apply extends_at_field, extends_Args.
Qed.

Lemma extends_Expr_ite : extends (Expr_ite Expr1) (Expr_ite Expr2).
Proof.
  intros e st r. unfold Expr_ite. cbv zeta.
  match goal with |- context [parseAll ?ps ?fr st] =>
    destruct (parseAll ps fr st) as [[ite st1]|] eqn:E; [|done]
  end.
  match goal with |- context [parseAll ?qs ?fr st] =>
    assert (Hq : parseAll qs fr st = Some (ite, st1)); [|by rewrite Hq]
  end.
  revert E. apply extends_parseAll. extends_each; by apply extends_at_field.
Qed.

Lemma extends_Params : extends (Params n) (Params m).
Proof.
  unfold Params, all. cbv zeta. apply extends_parseAny. extends_each.
  apply extends_parseAll. extends_each.
  apply extends_many; [done|]. apply extends_refl.
Qed.

Lemma extends_Expr_lambda : extends (Expr_lambda Expr1 n) (Expr_lambda Expr2 m).
Proof.
  intros e st r. unfold Expr_lambda. cbv zeta.
  match goal with |- context [parseAll ?ps ?fr st] =>
    destruct (parseAll ps fr st) as [[lam st1]|] eqn:E; [|done]
  end.
  match goal with |- context [parseAll ?qs ?fr st] =>
    assert (Hq : parseAll qs fr st = Some (lam, st1)); [|by rewrite Hq]
  end.
  revert E. apply extends_parseAll. extends_each.
  - apply extends_at_field, extends_Params.
  - by apply extends_at_field.
Qed.

Lemma extends_decimalDigits : extends (decimalDigits n) (decimalDigits m).
Proof.
  intros sp st r. unfold decimalDigits. cbv zeta.
  match goal with |- context [parseAll ?ps sp st] =>
    destruct (parseAll ps sp st) as [[sp1 st1]|] eqn:E; [|done]
  end.
  match goal with |- context [parseAll ?qs sp st] =>
    assert (Hq : parseAll qs sp st = Some (sp1, st1)); [|by rewrite Hq]
  end.
  revert E. apply extends_parseAll. extends_each.
  apply extends_many; [done|]. apply extends_refl.
Qed.

Lemma extends_Expr_number : extends (Expr_number n) (Expr_number m).
Proof.
  intros e st r. unfold Expr_number, Number, decimalNumber.
  destruct (parseAtom (decimalDigits n) _ st) as [[sp st1]|] eqn:E; [|done].
  by rewrite (extends_parseAtom _ _ extends_decimalDigits _ _ _ E).
Qed.

Lemma extends_ParseExpr_branches :
  Forall2 extends (ParseExpr_branches Expr1 n) (ParseExpr_branches Expr2 m).
Proof.
  unfold ParseExpr_branches. extends_each.
  - apply extends_Expr_app.
  - apply extends_Expr_ite.
  - apply extends_Expr_lambda.
  - apply extends_Expr_number.
  - apply extends_Expr_paren.
Qed.
End GrammarFuel.

Lemma extends_ParseExpr n : ∀ m, (n ≤ m)%nat → extends (ParseExpr n) (ParseExpr m).
Proof.
  induction n as [|n IH]; intros m Hle; [by intros ? ? ?|].
  destruct m as [|m]; [lia|]. simpl. apply extends_parseAny.
  apply extends_ParseExpr_branches; [apply IH|]; lia.
Qed.

Lemma extends_Fn n m : (n ≤ m)%nat → extends (Fn n) (Fn m).
Proof.
  intros Hle d st r. unfold Fn. cbv zeta.
  match goal with |- context [parseAll ?ps d st] =>
    destruct (parseAll ps d st) as [[d1 st1]|] eqn:E; [|done]
  end.
  match goal with |- context [parseAll ?qs d st] =>
    assert (Hq : parseAll qs d st = Some (d1, st1)); [|by rewrite Hq]
  end.
  revert E. apply extends_parseAll. extends_each.
  - by apply extends_at_field, extends_Params.
  - by apply extends_at_field, extends_ParseExpr.
Qed.

Lemma extends_Val n m : (n ≤ m)%nat → extends (Val n) (Val m).
Proof.
  intros Hle d st r. unfold Val. cbv zeta.
  match goal with |- context [parseAll ?ps d st] =>
    destruct (parseAll ps d st) as [[d1 st1]|] eqn:E; [|done]
  end.
  match goal with |- context [parseAll ?qs d st] =>
    assert (Hq : parseAll qs d st = Some (d1, st1)); [|by rewrite Hq]
  end.
  revert E. apply extends_parseAll. extends_each.
  by apply extends_at_field, extends_ParseExpr.
Qed.

Lemma extends_Def n m : (n ≤ m)%nat → extends (Def_ n) (Def_ m).
Proof.
  intros Hle nodes st r. unfold Def_. cbv zeta.
  match goal with |- context [parseAny ?ps ?d st] =>
    destruct (parseAny ps d st) as [[d1 st1]|] eqn:E; [|done]
  end.
  match goal with |- context [parseAny ?qs ?d st] =>
    assert (Hq : parseAny qs d st = Some (d1, st1)); [|by rewrite Hq]
  end.
  revert E. apply extends_parseAny. extends_each.
  - by apply extends_Fn.
  - by apply extends_Val.
Qed.

Lemma extends_ParseProgram n m :
  (n ≤ m)%nat → extends (ParseProgram n) (ParseProgram m).
Proof.
  intros Hle. unfold ParseProgram. cbv zeta. apply extends_parseAll.
  extends_each. apply extends_many; [done|]. by apply extends_Def.
Qed.

(** A result of the front-end part of [main] does not depend on the fuel
    it was computed with. *)
Lemma main_fuel_independent n m file r :
  (n ≤ m)%nat → main n file = Some r → main m file = Some r.
Proof.
  intros Hle. unfold main.
  destruct (ParseProgram n Null _) as [[defs st]|] eqn:E; [|done].
  by rewrite (extends_ParseProgram n m Hle _ _ _ E).
Qed.

(** C1, amended.  For every file that the grammar accepts, that is, on
    which [ParseProgram] returns with the cursor not failed, the front-end
    part of [main] ends successfully, with any fuel that is enough for the
    parse: it reports no error, the program it leaves in memory is the one
    [ParseProgram] built, and no body in it contains a resolved reference;
    every identifier reference is still an [UnresolvedReference].  [main]
    never runs the resolver. *)
Theorem main_leaves_program_unresolved fuel file defs st :
  ParseProgram fuel Null (mkState (source_Init file) 0) = Some (defs, st) →
  failed st = false →
  ∃ out,
    (∀ fuel', (fuel ≤ fuel')%nat → main fuel' file = Some (Parsed defs out))
    ∧ forallb no_Resolved (bodies defs) = true.
Proof.
  intros E Hf. destruct (debugDef_same_tree defs []) as (out & Hout).
  exists out. split.
  - intros fuel' Hle. unfold main.
    rewrite (extends_ParseProgram fuel fuel' Hle _ _ _ E).
    by rewrite Hf, Hout.
  - assert (Hp : Program_unresolved_only defs).
    { eapply preserves_ParseProgram; [|exact E]. constructor. }
    apply forallb_forall. intros e He. apply list_elem_of_In in He.
    unfold bodies in He. apply list_elem_of_fmap in He as (d & -> & Hd).
    apply list_elem_of_fmap in Hd as ([k d'] & -> & Hd).
    unfold Program_unresolved_only in Hp. rewrite Forall_forall in Hp.
    exact (Hp _ Hd).
Qed.

(** The file of the counterexample: accepted, dumped, nothing resolved. *)
Lemma main_leaves_program_unresolved_witness :
  ∃ st,
    ParseProgram 10 Null (mkState (source_Init ("k = x" +:+ nl)) 0)
    = Some (node_Default 1 (mkDef (span1 0 1) Null Body_Val
                              (Expr_Unresolved (span1 4 5))), st)
    ∧ failed st = false
    ∧ ∃ out,
        (∀ fuel', (10 ≤ fuel')%nat →
           main fuel' ("k = x" +:+ nl)
           = Some (Parsed (node_Default 1 (mkDef (span1 0 1) Null Body_Val
                                             (Expr_Unresolved (span1 4 5))))
                          out))
        ∧ forallb no_Resolved
            (bodies (node_Default 1 (mkDef (span1 0 1) Null Body_Val
                                       (Expr_Unresolved (span1 4 5))))) = true.
Proof.
  eexists. split; [vm_compute; reflexivity|]. split; [reflexivity|].
  apply (main_leaves_program_unresolved 10 ("k = x" +:+ nl)
           (node_Default 1 (mkDef (span1 0 1) Null Body_Val
                              (Expr_Unresolved (span1 4 5))))
           (mkState (mkSource (mkLoc 6 2 1) ("k = x" +:+ nl) false false false)
                    1));
    vm_compute; reflexivity.
Defined.

(* ===================================================================== *)
(** ** The resolver on programs without parameters *)
(* ===================================================================== *)

(** Induction on expressions with the arguments of an application. *)
Lemma Expr_nested_ind (P : Expr → Prop) :
  (∀ f args, P f → Forall P args → P (Expr_App f args)) →
  (∀ i t e, P i → P t → P e → P (Expr_Ite i t e)) →
  (∀ ps body, P body → P (Expr_Lam ps body)) →
  (∀ sp, P (Expr_Num sp)) →
  P Expr_Unit → P Expr_False → P Expr_True →
  (∀ sp, P (Expr_Unresolved sp)) →
  (∀ id, P (Expr_Resolved id)) →
  ∀ e, P e.
Proof.
  intros HApp HIte HLam HNum HUnit HFalse HTrue HUn HRes.
  refine (fix IH (e : Expr) : P e :=
            match e with
            | Expr_App f args =>
                HApp f args (IH f)
                  ((fix go (l : list Expr) : Forall P l :=
                      match l with
                      | [] => @List.Forall_nil _ P
                      | a :: l' => @List.Forall_cons _ P a l' (IH a) (go l')
                      end) args)
            | Expr_Ite i t e => HIte i t e (IH i) (IH t) (IH e)
            | Expr_Lam ps body => HLam ps body (IH body)
            | Expr_Num sp => HNum sp
            | Expr_Unit => HUnit
            | Expr_False => HFalse
            | Expr_True => HTrue
            | Expr_Unresolved sp => HUn sp
            | Expr_Resolved id => HRes id
            end).
Qed.

Lemma source_Text_spec s sp t h :
  span_text (src_File s) sp = Some t →
  source_Text s sp h
  = Ok (Some (next h), mkHeap (<[next h := t]> (cells h)) (S (next h))).
Proof.
  unfold span_text, source_Text, alloc_str. munfold. cbv zeta.
  destruct (ptrdiff_max <? span_size sp); [done|].
  case_decide; [done|]. by intros [= <-].
Qed.

Lemma heap_c_strings_insert h p t n :
  heap_c_strings h → nul_free t →
  heap_c_strings (mkHeap (<[p := t]> (cells h)) n).
Proof.
  intros Hcs Ht q s. simpl. destruct (decide (q = p)) as [->|Hne].
  - rewrite lookup_insert_eq. by intros [= <-].
  - rewrite lookup_insert_ne by done. apply Hcs.
Qed.

Lemma span_text_nul_free f sp t : span_text f sp = Some t → nul_free t.
Proof.
  unfold span_text. cbv zeta.
  destruct (ptrdiff_max <? span_size sp); [done|].
  case_decide; [done|]. intros [= <-]. apply c_str_nul_free.
Qed.

Lemma map_Get_empty n p t h :
  (8 ≤ n)%nat → cells h !! p = Some t →
  map_Get (mkMap (Some (replicate n [])) 0 8) (Some p) h = Ok (None, h).
Proof.
  intros Hn Hp. unfold map_Get. munfold. cbn [map_Cap map_Buckets].
  rewrite (map_hash_live _ _ _ _ Hp) by done.
  pose proof (bucket_index_lt t 8 ltac:(done)) as Hlt.
  rewrite (array_get_Some _ _ []); [done|].
  apply lookup_replicate_2. lia.
Qed.

Lemma free_buckets_empty n sz cap h : ∀ k s,
  (s + k ≤ n)%nat →
  free_buckets (seq s k) (mkMap (Some (replicate n [])) sz cap) h = Ok (tt, h).
Proof.
  induction k as [|k IH]; intros s Hle; [done|].
  cbn [seq free_buckets]. munfold. cbn [map_Buckets].
  rewrite (array_get_Some _ _ []) by (apply lookup_replicate_2; lia).
  simpl. apply IH. lia.
Qed.

Lemma map_Free_empty n sz cap h :
  (cap ≤ n)%nat →
  map_Free (mkMap (Some (replicate n [])) sz cap) h = Ok (mkMap None sz cap, h).
Proof.
  intros Hle. unfold map_Free. munfold. cbn [map_Cap map_Size].
  by rewrite free_buckets_empty by lia.
Qed.

Lemma merge_buckets_empty lhs n sz cap h : ∀ k s,
  (s + k ≤ n)%nat →
  merge_buckets (seq s k) lhs (mkMap (Some (replicate n [])) sz cap) h
  = Ok ((lhs, mkMap (Some (replicate n [])) sz cap), h).
Proof.
  induction k as [|k IH]; intros s Hle; [done|].
  cbn [seq merge_buckets]. munfold. cbn [map_Buckets map_Size map_Cap].
  rewrite (array_get_Some _ _ []) by (apply lookup_replicate_2; lia).
  cbn [merge_chain]. munfold.
  rewrite array_set_Some by (rewrite length_replicate; lia).
  rewrite insert_replicate. apply IH. lia.
Qed.

(** Merging a table without entries moves nothing and frees its array. *)
Lemma map_Merge_empty_src lhs n sz cap h :
  (cap ≤ n)%nat →
  map_Merge lhs (mkMap (Some (replicate n [])) sz cap) h
  = Ok ((lhs, mkMap None sz cap), h).
Proof.
  intros Hle. unfold map_Merge. munfold. cbn [map_Cap].
  rewrite merge_buckets_empty by lia. by rewrite map_Free_empty.
Qed.

Lemma globals_ok_heap f G r h h' :
  globals_ok f G r h → cells h' = cells h → (next h ≤ next h')%nat →
  globals_ok f G r h'.
Proof.
  intros (Hst & Hf & Hwf & Hc & [Hok Hcs] & Hl & Hp) Hcells Hnext.
  destruct (map_wf_frame h h' (Resolver_Globals r)) as [Hwf' Hc']; [|done|].
  { intros q _. by rewrite Hcells. }
  repeat split; try done.
  - by rewrite Hc'.
  - intros q Hq. rewrite Hcells. apply Hok. lia.
  - intros q s. rewrite Hcells. apply Hcs.
Qed.

(** Entering a scope without parameters: Params is initialised and freed
    again, Locals is a fresh empty table, the heap is untouched. *)
Lemma Resolver_insertLocals_Null f G r h :
  globals_ok f G r h →
  ∃ r', Resolver_insertLocals r Null h = Ok (r', h)
        ∧ globals_ok f G r' h ∧ locals_empty r'.
Proof.
  intros (Hst & Hf & Hwf & Hc & [Hok Hcs] & Hl & Hp).
  unfold Resolver_insertLocals. cbn [tree_Iter]. munfold.
  assert (Hok1 : is_OK (set_Params (map_Default (Resolver_Params r)) r) = true).
  { unfold is_OK. simpl. by rewrite Hst. }
  rewrite Hok1. cbn [negb].
  cbn [Resolver_Locals Resolver_Params set_Params set_Locals map_Default].
  unfold map_Default at 2.
  rewrite map_Merge_empty_src by done.
  eexists. split; [done|]. split.
  - repeat split; try done.
  - exists (map_Cap (Resolver_Locals r)). by split.
Qed.

Lemma globals_ok_is_OK f G r h : globals_ok f G r h → is_OK r = true.
Proof. intros (Hst & _). unfold is_OK. by rewrite Hst. Qed.

(** A reference whose name is bound in Globals, looked up with an empty
    Locals table: the name text is allocated, found, freed again, and the
    node becomes the resolved reference. *)
Lemma Resolver_Expr_Unresolved f G r h sp t id :
  globals_ok f G r h → locals_empty r →
  span_text f sp = Some t → G !! t = Some id →
  ∃ h', Resolver_Expr r (Expr_Unresolved sp) h = Ok ((r, Expr_Resolved id), h')
        ∧ cells h' = cells h ∧ (next h ≤ next h')%nat.
Proof.
  intros (Hst & Hf & Hwf & Hc & [Hok Hcs] & Hl & Hp) (n & Hn & Hloc) Ht HG.
  set (p := next h).
  set (h1 := mkHeap (<[p := t]> (cells h)) (S p)).
  assert (Hfresh : cells h !! p = None) by (apply Hok; unfold p; lia).
  assert (Hp1 : cells h1 !! p = Some t) by apply lookup_insert_eq.
  destruct (map_wf_frame h h1 (Resolver_Globals r)) as [Hwf1 Hc1]; [|done|].
  { intros q Hq. simpl. rewrite lookup_insert_ne; [done|].
    intros <-. destruct (wf_pointer_live _ _ _ Hwf Hq) as [? Hq'].
    congruence. }
  assert (Hlook : snd <$> content h1 (Resolver_Globals r) !! t = Some id).
  { rewrite Hc1, <- lookup_fmap, Hc. exact HG. }
  assert (Hcs1 : heap_c_strings h1)
    by (apply heap_c_strings_insert; [done|by eapply span_text_nul_free]).
  exists (mkHeap (delete p (cells h1)) (next h1)).
  split; [|split].
  - cbn [Resolver_Expr]. munfold.
    rewrite (source_Text_spec _ _ t) by (by rewrite Hf).
    fold p. fold h1. rewrite Hloc.
    rewrite (map_Get_empty n p t h1 Hn Hp1).
    rewrite (map_Get_spec h1 _ p t Hcs1 Hwf1 Hp1), Hlook.
    by rewrite (free_live p t h1 Hp1).
  - simpl. by apply delete_insert_id.
  - simpl. unfold p. lia.
Qed.

Section ParameterlessExpr.
Variable (f : string) (G : gmap string Z).

(** What the lemma below says of one expression. *)
Let resolves (e : Expr) : Prop :=
  ∀ e' r h,
    globals_ok f G r h → locals_empty r → resolve_abs f G e = Some e' →
    ∃ r' h', Resolver_Expr r e h = Ok ((r', e'), h')
             ∧ globals_ok f G r' h' ∧ locals_empty r'.

Lemma slice_Iter_resolves args :
  Forall resolves args →
  ∀ args' r h,
    globals_ok f G r h → locals_empty r →
    mapM (resolve_abs f G) args = Some args' →
    ∃ r' h', slice_Iter Resolver_Expr r args h = Ok ((r', args'), h')
             ∧ globals_ok f G r' h' ∧ locals_empty r'.
Proof.
  induction 1 as [|a args Ha Hargs IH]; intros args' r h Hg Hl Hm.
  - injection Hm as <-. by exists r, h.
  - cbn [mapM] in Hm. simpl in Hm.
    destruct (resolve_abs f G a) as [a'|] eqn:Ea; [|done]. simpl in Hm.
    destruct (mapM (resolve_abs f G) args) as [rest'|] eqn:Er; [|done].
    injection Hm as <-.
    destruct (Ha a' r h Hg Hl Ea) as (r1 & h1 & Hrun1 & Hg1 & Hl1).
    destruct (IH rest' r1 h1 Hg1 Hl1 eq_refl) as (r2 & h2 & Hrun2 & Hg2 & Hl2).
    exists r2, h2. split; [|done].
    cbn [slice_Iter]. munfold. rewrite Hrun1. by rewrite Hrun2.
Qed.

Lemma Resolver_Expr_parameterless e : resolves e.
Proof.
  induction e as [fn args IHfn IHargs|i t e IHi IHt IHe|ps body IHbody
                 |sp| | | |sp|id] using Expr_nested_ind;
    intros e' r h Hg Hl Hres.
  - cbn [resolve_abs] in Hres.
    destruct (resolve_abs f G fn) as [fn'|] eqn:Efn; [|done]. simpl in Hres.
    destruct (mapM (resolve_abs f G) args) as [args'|] eqn:Eargs; [|done].
    injection Hres as <-.
    destruct (IHfn fn' r h Hg Hl Efn) as (r1 & h1 & Hrun1 & Hg1 & Hl1).
    destruct (slice_Iter_resolves args IHargs args' r1 h1 Hg1 Hl1 Eargs)
      as (r2 & h2 & Hrun2 & Hg2 & Hl2).
    exists r2, h2. split; [|done].
    cbn [Resolver_Expr]. munfold. rewrite Hrun1.
    rewrite (globals_ok_is_OK _ _ _ _ Hg1). cbn [negb].
    by rewrite Hrun2.
  - cbn [resolve_abs] in Hres.
    destruct (resolve_abs f G i) as [i'|] eqn:Ei; [|done]. simpl in Hres.
    destruct (resolve_abs f G t) as [t'|] eqn:Et; [|done]. simpl in Hres.
    destruct (resolve_abs f G e) as [el'|] eqn:Ee; [|done].
    injection Hres as <-.
    destruct (IHi i' r h Hg Hl Ei) as (r1 & h1 & Hrun1 & Hg1 & Hl1).
    destruct (IHt t' r1 h1 Hg1 Hl1 Et) as (r2 & h2 & Hrun2 & Hg2 & Hl2).
    destruct (IHe el' r2 h2 Hg2 Hl2 Ee) as (r3 & h3 & Hrun3 & Hg3 & Hl3).
    exists r3, h3. split; [|done].
    cbn [Resolver_Expr]. munfold. rewrite Hrun1.
    rewrite (globals_ok_is_OK _ _ _ _ Hg1). cbn [negb]. rewrite Hrun2.
    rewrite (globals_ok_is_OK _ _ _ _ Hg2). cbn [negb]. by rewrite Hrun3.
  - destruct ps as [|]; [|done]. cbn [resolve_abs] in Hres.
    destruct (resolve_abs f G body) as [body'|] eqn:Eb; [|done].
    injection Hres as <-.
    destruct (Resolver_insertLocals_Null f G r h Hg) as (r1 & Hrun1 & Hg1 & Hl1).
    destruct (IHbody body' r1 h Hg1 Hl1 Eb) as (r2 & h2 & Hrun2 & Hg2 & Hl2).
    exists r2, h2. split; [|done].
    cbn [Resolver_Expr]. munfold. rewrite Hrun1.
    rewrite (globals_ok_is_OK _ _ _ _ Hg1). cbn [negb]. by rewrite Hrun2.
  - injection Hres as <-. by exists r, h.
  - injection Hres as <-. by exists r, h.
  - injection Hres as <-. by exists r, h.
  - injection Hres as <-. by exists r, h.
  - cbn [resolve_abs] in Hres.
    destruct (span_text f sp) as [t|] eqn:Et; [|done]. simpl in Hres.
    destruct (G !! t) as [id|] eqn:EG; [|done]. injection Hres as <-.
    destruct (Resolver_Expr_Unresolved f G r h sp t id Hg Hl Et EG)
      as (h' & Hrun & Hcells & Hnext).
    exists r, h'. split; [done|]. split; [|done].
    by eapply globals_ok_heap.
  - done.
Qed.
End ParameterlessExpr.

(** One step of [Resolver_Program]: a definition without parameters whose
    name is new and whose body only mentions names defined so far, itself
    included.  The name is bound, the body is resolved, Locals is freed. *)
Lemma Resolver_insertGlobal_parameterless f G r h key d t body' :
  globals_ok f G r h → Def_Params d = Null →
  span_text f (Def_Name d) = Some t → G !! t = None →
  resolve_abs f (<[t := key]> G) (Def_Body d) = Some body' →
  ∃ r' h', Resolver_insertGlobal r key d h
           = Ok ((r', mkDef (Def_Name d) (Def_Params d) (Def_Kind d) body'), h')
           ∧ globals_ok f (<[t := key]> G) r' h'.
Proof.
  intros Hg Hps Ht HG Hbody.
  pose proof (globals_ok_is_OK _ _ _ _ Hg) as HOK.
  destruct Hg as (Hst & Hf & Hwf & Hc & [Hok Hcs] & Hl & Hp).
  set (p := next h).
  set (h1 := mkHeap (<[p := t]> (cells h)) (S p)).
  assert (Hfresh : cells h !! p = None) by (apply Hok; unfold p; lia).
  assert (Hp1 : cells h1 !! p = Some t) by apply lookup_insert_eq.
  destruct (map_wf_frame h h1 (Resolver_Globals r)) as [Hwf1 Hc1]; [|done|].
  { intros q Hq. simpl. rewrite lookup_insert_ne; [done|].
    intros <-. destruct (wf_pointer_live _ _ _ Hwf Hq) as [? Hq'].
    congruence. }
  assert (Hnone : content h1 (Resolver_Globals r) !! t = None).
  { rewrite Hc1. rewrite <- Hc, lookup_fmap in HG.
    by apply fmap_None in HG. }
  assert (Hcs1 : heap_c_strings h1)
    by (apply heap_c_strings_insert; [done|by eapply span_text_nul_free]).
  destruct (map_Set_content h1 _ p t key Hcs1 Hwf1 Hp1)
    as (b & m' & Hset & Hwf' & Hb & Hcont & _).
  rewrite Hnone in Hb. rewrite bool_decide_eq_false_2 in Hb
    by (intros [? ?]; done). subst b.
  unfold ins_abs in Hcont. simpl in Hcont. rewrite Hnone in Hcont.
  assert (Hg1 : globals_ok f (<[t := key]> G) (set_Globals m' r) h1).
  { repeat split; try done.
    - cbn [Resolver_Globals set_Globals].
      rewrite Hcont, fmap_insert. simpl. by rewrite Hc1, Hc.
    - intros q Hq. simpl in *. rewrite lookup_insert_ne by (unfold p; lia).
      apply Hok. unfold p in Hq. lia. }
  destruct (Resolver_insertLocals_Null _ _ _ _ Hg1) as (r2 & Hrun2 & Hg2 & Hl2).
  destruct (Resolver_Expr_parameterless f _ (Def_Body d) body' r2 h1 Hg2 Hl2 Hbody)
    as (r3 & h3 & Hrun3 & Hg3 & (n & Hn & Hloc3)).
  exists (set_Locals (mkMap None 0 8) r3), h3. split.
  - unfold Resolver_insertGlobal. rewrite HOK. cbn [negb]. munfold.
    rewrite (source_Text_spec _ _ t) by (by rewrite Hf).
    fold p. fold h1. rewrite Hset. cbv zeta. rewrite Hps, Hrun2.
    rewrite (globals_ok_is_OK _ _ _ _ Hg2). cbn [negb].
    rewrite Hrun3, Hloc3, map_Free_empty by done. reflexivity.
  - destruct Hg3 as (? & ? & ? & ? & [? ?] & ? & ?). by repeat split.
Qed.

Lemma resolve_defs_app f ds1 : ∀ G ds2,
  resolve_defs f G (ds1 ++ ds2)
  = match resolve_defs f G ds1 with
    | Some (r1, G1) =>
        match resolve_defs f G1 ds2 with
        | Some (r2, G2) => Some (r1 ++ r2, G2)
        | None => None
        end
    | None => None
    end.
Proof.
  induction ds1 as [|[key d] ds1 IH]; intros G ds2.
  - simpl. by destruct (resolve_defs f G ds2) as [[??]|].
  - cbn [resolve_defs app]. destruct (Def_Params d); [|done].
    destruct (span_text f (Def_Name d)) as [t|]; [|done]. simpl.
    destruct (G !! t); [done|].
    destruct (resolve_abs f (<[t:=key]> G) (Def_Body d)) as [b|]; [|done].
    simpl. rewrite IH.
    destruct (resolve_defs f (<[t:=key]> G) ds1) as [[r1 G1]|]; [|done].
    simpl. by destruct (resolve_defs f G1 ds2) as [[??]|].
Qed.

(** The in-order walk of [Resolver_Program] over a registry of such
    definitions. *)
Lemma tree_Iter_insertGlobal_parameterless f (defs : node Def) :
  ∀ G r h ds' G',
    globals_ok f G r h →
    resolve_defs f G (inorder defs) = Some (ds', G') →
    ∃ r' defs' h',
      tree_Iter Resolver_insertGlobal r defs h = Ok ((r', defs'), h')
      ∧ globals_ok f G' r' h' ∧ inorder defs' = ds'.
Proof.
  induction defs as [|l IHl key ht d rt IHr]; intros G r h ds' G' Hg Hres.
  - injection Hres as <- <-. by exists r, Null, h.
  - cbn [inorder] in Hres. rewrite resolve_defs_app in Hres.
    destruct (resolve_defs f G (inorder l)) as [[dl Gl]|] eqn:El; [|done].
    cbn [resolve_defs] in Hres.
    destruct (Def_Params d) eqn:Hps; [|done].
    destruct (span_text f (Def_Name d)) as [t|] eqn:Et; [|done].
    simpl in Hres. destruct (Gl !! t) eqn:EG; [done|].
    destruct (resolve_abs f (<[t:=key]> Gl) (Def_Body d)) as [b|] eqn:Eb;
      [|done].
    simpl in Hres.
    destruct (resolve_defs f (<[t:=key]> Gl) (inorder rt)) as [[dr Gr]|] eqn:Er;
      [|done].
    simpl in Hres. injection Hres as <- <-.
    destruct (IHl _ _ _ _ _ Hg El) as (r1 & l' & h1 & Hrun1 & Hg1 & Hin1).
    destruct (Resolver_insertGlobal_parameterless f Gl r1 h1 key d t b
                Hg1 Hps Et EG Eb) as (r2 & h2 & Hrun2 & Hg2).
    destruct (IHr _ _ _ _ _ Hg2 Er) as (r3 & rt' & h3 & Hrun3 & Hg3 & Hin3).
    eexists r3, _, h3. split; [|split; [exact Hg3|]].
    + cbn [tree_Iter]. munfold. rewrite Hrun1, Hrun2, Hrun3. reflexivity.
    + cbn [inorder]. by rewrite Hin1, Hin3, Hps.
Qed.

Lemma resolve_abs_no_Unresolved f G e :
  ∀ e', resolve_abs f G e = Some e' → no_Unresolved e' = true.
Proof.
  induction e as [fn args IHfn IHargs|i t e IHi IHt IHe|ps body IHbody
                 |sp| | | |sp|id] using Expr_nested_ind;
    intros e' Hres; cbn [resolve_abs] in Hres.
  - destruct (resolve_abs f G fn) as [fn'|]; [|done]. simpl in Hres.
    destruct (mapM (resolve_abs f G) args) as [args'|] eqn:Eargs; [|done].
    injection Hres as <-. cbn [no_Unresolved].
    rewrite (IHfn fn' eq_refl). cbn [andb].
    clear IHfn. revert args' Eargs.
    induction IHargs as [|a args Ha _ IH]; intros args' Eargs.
    + by injection Eargs as <-.
    + cbn [mapM] in Eargs. simpl in Eargs.
      destruct (resolve_abs f G a) as [a'|]; [|done]. simpl in Eargs.
      destruct (mapM (resolve_abs f G) args) as [rest'|]; [|done].
      injection Eargs as <-. cbn [forallb].
      by rewrite (Ha a' eq_refl), (IH rest' eq_refl).
  - destruct (resolve_abs f G i) as [i'|]; [|done]. simpl in Hres.
    destruct (resolve_abs f G t) as [t'|]; [|done]. simpl in Hres.
    destruct (resolve_abs f G e) as [el'|]; [|done].
    injection Hres as <-. cbn [no_Unresolved].
    by rewrite (IHi i' eq_refl), (IHt t' eq_refl), (IHe el' eq_refl).
  - destruct ps; [|done].
    destruct (resolve_abs f G body) as [body'|]; [|done].
    injection Hres as <-. cbn [no_Unresolved]. by apply IHbody.
  - by injection Hres as <-.
  - by injection Hres as <-.
  - by injection Hres as <-.
  - by injection Hres as <-.
  - destruct (span_text f sp) as [t|]; [|done]. simpl in Hres.
    destruct (G !! t); [|done]. by injection Hres as <-.
  - done.
Qed.

Lemma resolve_defs_no_Unresolved f ds : ∀ G ds' G',
  resolve_defs f G ds = Some (ds', G') →
  forallb no_Unresolved (Def_Body <$> ds'.*2) = true.
Proof.
  induction ds as [|[key d] ds IH]; intros G ds' G' Hres.
  - by injection Hres as <- <-.
  - cbn [resolve_defs] in Hres. destruct (Def_Params d); [|done].
    destruct (span_text f (Def_Name d)) as [t|]; [|done]. simpl in Hres.
    destruct (G !! t); [done|].
    destruct (resolve_abs f (<[t:=key]> G) (Def_Body d)) as [b|] eqn:Eb;
      [|done].
    simpl in Hres.
    destruct (resolve_defs f (<[t:=key]> G) ds) as [[rest Gr]|] eqn:Er;
      [|done].
    simpl in Hres. injection Hres as <- <-.
    cbn [fmap list_fmap forallb snd Def_Body].
    rewrite (resolve_abs_no_Unresolved _ _ _ _ Eb). cbn [andb].
    exact (IH _ _ _ Er).
Qed.

(** X18.  On a registry of definitions without parameters, in which no
    lambda has parameters either, every span one for which [source_Text]
    yields a text, each name new and each body mentioning
    only names defined up to and including its own, started on a struct
    whose three [Cap] members hold 8 or more, [Resolver_Program] returns,
    the state is OK, every reference has become the resolved reference to
    the identifier of its definition and no unresolved reference is
    left. *)
Theorem Resolver_Program_parameterless r0 src defs ds' G' :
  (8 ≤ map_Cap (Resolver_Globals r0))%nat →
  (8 ≤ map_Cap (Resolver_Locals r0))%nat →
  (8 ≤ map_Cap (Resolver_Params r0))%nat →
  resolve_defs (src_File src) ∅ (inorder defs) = Some (ds', G') →
  ∃ r' defs' h',
    Resolver_Program (Resolver_Init r0 src) defs heap_empty
    = Ok ((r', defs'), h')
    ∧ Resolver_State r' = Resolution_OK
    ∧ inorder defs' = ds'
    ∧ forallb no_Unresolved (bodies defs') = true.
Proof.
  intros HG HL HP Hres.
  assert (Hg : globals_ok (src_File src) ∅ (Resolver_Init r0 src) heap_empty).
  { destruct (map_Default_wf heap_empty (Resolver_Globals r0) HG) as [Hwf Hc].
    repeat split; try done.
    cbn [Resolver_Globals Resolver_Init]. rewrite Hc. apply fmap_empty. }
  destruct (tree_Iter_insertGlobal_parameterless _ defs _ _ _ _ _ Hg Hres)
    as (r' & defs' & h' & Hrun & Hg' & Hin).
  exists r', defs', h'. split; [exact Hrun|]. split; [apply Hg'|].
  split; [done|]. unfold bodies. rewrite Hin.
  by eapply resolve_defs_no_Unresolved.
Qed.

(** The theorem at the registry parsed from two definitions, the second
    referring to the first. *)
Lemma Resolver_Program_parameterless_witness :
  ∃ defs st,
    ParseProgram 20 Null
      (mkState (source_Init ("k = 1" ++ nl ++ "j = k" ++ nl)) 0)
    = Some (defs, st)
    ∧ failed st = false
    ∧ ∃ r' defs' h',
        Resolver_Program (Resolver_Init (Resolver_memory 8) (st_Src st)) defs
          heap_empty = Ok ((r', defs'), h')
        ∧ Resolver_State r' = Resolution_OK
        ∧ forallb no_Unresolved (bodies defs') = true.
Proof.
  eexists _, _. split; [vm_compute; reflexivity|]. split; [reflexivity|].
  edestruct (Resolver_Program_parameterless (Resolver_memory 8))
    as (r' & defs' & h' & Hrun & Hst & _ & Hb);
    [| | | |exists r', defs', h'; split; [exact Hrun|split; [exact Hst|exact Hb]]].
  - simpl. lia.
  - simpl. lia.
  - simpl. lia.
  - vm_compute. reflexivity.
Defined.

(* ===================================================================== *)
(** ** The registry is a balanced search tree *)
(* ===================================================================== *)

Section TreeBalance.
Context {A : Type}.
Implicit Types (t l r : node A) (k : Z) (a : A).

Lemma avl_height_nonneg t : avl t → 0 ≤ node_height t.
Proof.
  induction t as [|l IHl k h a r IHr]; simpl; [lia|].
  intros (Hl & Hr & -> & _). specialize (IHl Hl). specialize (IHr Hr). lia.
Qed.

Lemma avl_height_0 t : avl t → node_height t = 0 → t = Null.
Proof.
  destruct t as [|l k h a r]; [done|]. simpl.
  intros (Hl & Hr & -> & _) H.
  pose proof (avl_height_nonneg _ Hl). pose proof (avl_height_nonneg _ Hr). lia.
Qed.

(** The way back up after an insertion into the left subtree. *)
Lemma tree_rebalance_left l' k h a r okey hl :
  avl l' → avl r → okey < k →
  -1 ≤ hl - node_height r ≤ 1 →
  (node_height l' = hl ∨ (node_height l' = hl + 1 ∧ grew_towards l' okey)) →
  let t := Node l' k h a r in
  let h0 := Z.max hl (node_height r) + 1 in
  avl (tree_rebalance t okey)
  ∧ tree_rebalance_checked t okey = Some (tree_rebalance t okey)
  ∧ inorder (tree_rebalance t okey) = inorder t
  ∧ (node_height (tree_rebalance t okey) = h0
     ∨ (node_height (tree_rebalance t okey) = h0 + 1
        ∧ grew_towards (tree_rebalance t okey) okey)).
Proof.
  intros Hl Hr Hk Hb Hgrow. cbv zeta.
  pose proof (avl_height_nonneg _ Hl) as Hl0.
  pose proof (avl_height_nonneg _ Hr) as Hr0.
  assert (Hinv : inorder (tree_rebalance (Node l' k h a r) okey)
                 = inorder (Node l' k h a r)) by apply inorder_rebalance.
  revert Hinv.
  unfold tree_rebalance, tree_rebalance_checked, and_child_Key.
  cbn [node_balance node_height].
  destruct (Z.ltb_spec 1 (node_height l' - node_height r)) as [Hhi|Hlo].
  - (* the left subtree is two levels higher: it grew *)
    destruct Hgrow as [?|[Hh Hg]]; [lia|].
    destruct l' as [|ll kl hl' al lr]; [done|].
    cbn [node_Key node_Key_checked fmap option_fmap option_map mbind option_bind andb].
    destruct Hl as (Hll & Hlr & -> & Hbl). cbn [node_height] in *.
    destruct Hg as (Hg1 & Hg2 & Hg3).
    pose proof (avl_height_nonneg _ Hll). pose proof (avl_height_nonneg _ Hlr).
    destruct (Z.ltb_spec okey kl) as [Hlt|Hge].
    + (* left-left: one right rotation *)
      intros Hinv. specialize (Hg1 Hlt).
      cbn [node_rightRotate node_rightRotate_checked node_height avl].
      split_and!; try done; lia.
    + destruct (Z.ltb_spec (node_height ll `max` node_height lr + 1
                            - node_height r) (-1)); [lia|].
      cbn [andb]. cbn [mbind option_bind].
      destruct (Z.ltb_spec kl okey) as [Hgt|Hle].
      * (* left-right: left rotation below, right rotation above *)
        specialize (Hg2 Hgt).
        destruct lr as [|lrl klr hlr alr lrr]; [simpl in *; lia|].
        destruct Hlr as (Hlrl & Hlrr & -> & Hblr). cbn [node_height] in *.
        pose proof (avl_height_nonneg _ Hlrl). pose proof (avl_height_nonneg _ Hlrr).
        intros Hinv.
        cbn [node_leftRotate node_leftRotate_checked node_rightRotate
             node_rightRotate_checked node_height avl mbind option_bind].
        split_and!; try done; lia.
      * assert (okey = kl) as Heq by lia. specialize (Hg3 Heq). lia.
  - (* no rotation *)
    cbn [andb mbind option_bind].
    destruct (Z.ltb_spec (node_height l' - node_height r) (-1)); [lia|].
    cbn [andb mbind option_bind]. intros _.
    cbn [avl node_height inorder].
    split_and!; try done; try lia.
    destruct Hgrow as [Hh|[Hh Hg]].
    + left. lia.
    + destruct (decide (hl < node_height r)).
      * left. lia.
      * right. split; [lia|]. cbn [grew_towards node_height].
        split_and!; lia.
Qed.

(** The way back up after an insertion into the right subtree. *)
Lemma tree_rebalance_right l k h a r' okey hr :
  avl l → avl r' → k < okey →
  -1 ≤ node_height l - hr ≤ 1 →
  (node_height r' = hr ∨ (node_height r' = hr + 1 ∧ grew_towards r' okey)) →
  let t := Node l k h a r' in
  let h0 := Z.max (node_height l) hr + 1 in
  avl (tree_rebalance t okey)
  ∧ tree_rebalance_checked t okey = Some (tree_rebalance t okey)
  ∧ (node_height (tree_rebalance t okey) = h0
     ∨ (node_height (tree_rebalance t okey) = h0 + 1
        ∧ grew_towards (tree_rebalance t okey) okey)).
Proof.
  intros Hl Hr Hk Hb Hgrow. cbv zeta.
  pose proof (avl_height_nonneg _ Hl) as Hl0.
  pose proof (avl_height_nonneg _ Hr) as Hr0.
  unfold tree_rebalance, tree_rebalance_checked, and_child_Key.
  cbn [node_balance node_height].
  destruct (Z.ltb_spec 1 (node_height l - node_height r')); [lia|].
  cbn [andb mbind option_bind].
  destruct (Z.ltb_spec (node_height l - node_height r') (-1)) as [Hhi|Hlo].
  - destruct Hgrow as [?|[Hh Hg]]; [lia|].
    destruct r' as [|rl kr hr' ar rr]; [done|].
    cbn [node_Key node_Key_checked fmap option_fmap option_map mbind option_bind andb].
    destruct Hr as (Hrl & Hrr & -> & Hbr). cbn [node_height] in *.
    destruct Hg as (Hg1 & Hg2 & Hg3).
    pose proof (avl_height_nonneg _ Hrl). pose proof (avl_height_nonneg _ Hrr).
    destruct (Z.ltb_spec kr okey) as [Hgt|Hle].
    + specialize (Hg2 Hgt).
      cbn [node_leftRotate node_leftRotate_checked node_height avl].
      split_and!; try done; lia.
    + destruct (Z.ltb_spec okey kr) as [Hlt|Hge].
      * specialize (Hg1 Hlt).
        destruct rl as [|rll krl hrl arl rlr]; [simpl in *; lia|].
        destruct Hrl as (Hrll & Hrlr & -> & Hbrl). cbn [node_height] in *.
        pose proof (avl_height_nonneg _ Hrll). pose proof (avl_height_nonneg _ Hrlr).
        cbn [node_leftRotate node_leftRotate_checked node_rightRotate
             node_rightRotate_checked node_height avl mbind option_bind].
        split_and!; try done; lia.
      * assert (okey = kr) as Heq by lia. specialize (Hg3 Heq). lia.
  - cbn [andb mbind option_bind avl node_height].
    split_and!; try done; try lia.
    destruct Hgrow as [Hh|[Hh Hg]].
    + left. lia.
    + destruct (decide (hr < node_height l)).
      * left. lia.
      * right. split; [lia|]. cbn [grew_towards node_height].
        split_and!; lia.
Qed.

(** Insertion of a fresh entry into a balanced tree. *)
Lemma tree_Insert_balanced t k a :
  avl t →
  let t' := tree_Insert t (node_Default k a) in
  avl t'
  ∧ tree_Insert_checked t (node_Default k a) = Some t'
  ∧ (node_height t' = node_height t
     ∨ (node_height t' = node_height t + 1 ∧ grew_towards t' k)).
Proof.
  cbv zeta. induction t as [|l IHl k0 h0 a0 r IHr]; intros Havl.
  - simpl. split_and!; try done; lia.
  - destruct Havl as (Hl & Hr & Hh & Hb).
    cbn [tree_Insert tree_Insert_checked node_Default node_Key
         node_Key_checked mbind option_bind].
    destruct (Z.ltb_spec k k0) as [Hlt|Hge].
    + destruct (IHl Hl) as (Hal & -> & Hgrow). cbn [mbind option_bind].
      destruct (tree_rebalance_left _ k0 h0 a0 r k (node_height l)
                  Hal Hr Hlt Hb Hgrow) as (H1 & H2 & _ & H3).
      cbn [node_height]. rewrite Hh. done.
    + destruct (Z.ltb_spec k0 k) as [Hgt|Hle].
      * destruct (IHr Hr) as (Har & -> & Hgrow). cbn [mbind option_bind].
        destruct (tree_rebalance_right l k0 h0 a0 _ k (node_height r)
                    Hl Har Hgt Hb Hgrow) as (H1 & H2 & H3).
        cbn [node_height]. rewrite Hh. done.
      * split_and!; try done. by left.
Qed.
End TreeBalance.

Section TreeOrder.
Context {A : Type}.
Implicit Types (t l r : node A) (k : Z) (a : A).

Lemma keys_Node l k h a r : keys (Node l k h a r) = keys l ++ k :: keys r.
Proof. unfold keys. simpl. by rewrite fmap_app. Qed.

Lemma sorted_keys_Node l k h a r :
  StronglySorted Z.lt (keys (Node l k h a r)) ↔
  StronglySorted Z.lt (keys l) ∧ StronglySorted Z.lt (keys r)
  ∧ (∀ x, x ∈ keys l → x < k) ∧ (∀ x, x ∈ keys r → k < x).
Proof.
  rewrite keys_Node, StronglySorted_app, StronglySorted_cons, Forall_forall.
  split.
  - intros (H1 & H2 & H3 & H4). split_and!; try done.
    intros x Hx. apply H1; [done|]. by left.
  - intros (H1 & H2 & H3 & H4). split_and!; try done.
    intros x1 x2 Hx1 [->|Hx2]%elem_of_cons; [by apply H3|].
    specialize (H3 _ Hx1). specialize (H4 _ Hx2). lia.
Qed.

Lemma elem_of_keys t x : x ∈ keys t ↔ ∃ a, (x, a) ∈ inorder t.
Proof.
  unfold keys. rewrite list_elem_of_fmap. split.
  - intros ([x' a] & -> & H). by exists a.
  - intros [a H]. by exists (x, a).
Qed.

Lemma tree_Insert_entries t k a :
  StronglySorted Z.lt (keys t) →
  let t' := tree_Insert t (node_Default k a) in
  StronglySorted Z.lt (keys t')
  ∧ (∀ e, e ∈ inorder t' ↔ e ∈ inorder t ∨ (e = (k, a) ∧ k ∉ keys t)).
Proof.
  cbv zeta. induction t as [|l IHl k0 h0 a0 r IHr]; intros Hs.
  - simpl. split; [repeat constructor|].
    intros e. rewrite list_elem_of_singleton. unfold keys. simpl.
    split; [intros ->; right; split; [done|apply not_elem_of_nil]|].
    intros [H|[-> _]]; [by apply elem_of_nil in H|done].
  - apply sorted_keys_Node in Hs as (Hsl & Hsr & Hlt & Hgt).
    cbn [tree_Insert node_Default node_Key].
    destruct (Z.ltb_spec k k0) as [Hk|Hk].
    + destruct (IHl Hsl) as [Hs' Hin].
      set (l' := tree_Insert l (node_Default k a)) in *.
      assert (Hkeys : ∀ x, x ∈ keys l' → x < k0).
      { intros x [b Hx]%elem_of_keys. apply Hin in Hx as [Hx|[[= -> ->] _]];
          [|done]. apply Hlt, elem_of_keys. by exists b. }
      split.
      * unfold keys. rewrite inorder_rebalance. fold (keys (Node l' k0 h0 a0 r)).
        by apply sorted_keys_Node.
      * intros e. rewrite inorder_rebalance. cbn [inorder].
        rewrite !elem_of_app, !elem_of_cons, Hin, keys_Node, elem_of_app,
          elem_of_cons.
        split; [|intros [[?|[?|?]]|[-> Hn]]; tauto].
        intros [[?|[-> Hn]]|[?|?]]; try tauto.
        right. split; [done|]. intros [?|[->|Hr]]; [done|lia|].
        specialize (Hgt _ Hr). lia.
    + destruct (Z.ltb_spec k0 k) as [Hk'|Hk'].
      * destruct (IHr Hsr) as [Hs' Hin].
        set (r' := tree_Insert r (node_Default k a)) in *.
        assert (Hkeys : ∀ x, x ∈ keys r' → k0 < x).
        { intros x [b Hx]%elem_of_keys. apply Hin in Hx as [Hx|[[= -> ->] _]];
            [|done]. apply Hgt, elem_of_keys. by exists b. }
        split.
        -- unfold keys. rewrite inorder_rebalance.
           fold (keys (Node l k0 h0 a0 r')). by apply sorted_keys_Node.
        -- intros e. rewrite inorder_rebalance. cbn [inorder].
           rewrite !elem_of_app, !elem_of_cons, Hin, keys_Node, elem_of_app,
             elem_of_cons.
           split; [|intros [[?|[?|?]]|[-> Hn]]; tauto].
           intros [?|[?|[?|[-> Hn]]]]; try tauto.
           right. split; [done|]. intros [Hl|[->|?]]; [|lia|done].
           specialize (Hlt _ Hl). lia.
      * assert (k = k0) as -> by lia. split; [by apply sorted_keys_Node|].
        intros e. split; [by left|]. intros [?|[_ Hn]]; [done|].
        exfalso. apply Hn. rewrite keys_Node, elem_of_app, elem_of_cons. tauto.
Qed.
End TreeOrder.

Section TreeShape.
Context {A : Type}.
Implicit Types (t l r : node A) (k : Z) (a : A).

Lemma tree_rebalance_balanced l k h a r okey :
  avl (Node l k h a r) → tree_rebalance (Node l k h a r) okey = Node l k h a r.
Proof.
  intros (_ & _ & -> & Hb). unfold tree_rebalance. cbn [node_balance node_height].
  destruct (Z.ltb_spec 1 (node_height l - node_height r)); [lia|].
  destruct (Z.ltb_spec (node_height l - node_height r) (-1)); [lia|]. done.
Qed.

Lemma tree_Insert_present t k a :
  avl t → StronglySorted Z.lt (keys t) → k ∈ keys t →
  tree_Insert t (node_Default k a) = t.
Proof.
  induction t as [|l IHl k0 h0 a0 r IHr]; intros Havl Hs Hin.
  - by apply elem_of_nil in Hin.
  - pose proof Havl as (Hl & Hr & _).
    apply sorted_keys_Node in Hs as (Hsl & Hsr & Hlt & Hgt).
    rewrite keys_Node, elem_of_app, elem_of_cons in Hin.
    cbn [tree_Insert node_Default node_Key].
    destruct (Z.ltb_spec k k0) as [Hk|Hk].
    + rewrite IHl; [by apply tree_rebalance_balanced|done..|].
      destruct Hin as [?|[->|Hin]]; [done|lia|]. specialize (Hgt _ Hin). lia.
    + destruct (Z.ltb_spec k0 k) as [Hk'|Hk']; [|done].
      rewrite IHr; [by apply tree_rebalance_balanced|done..|].
      destruct Hin as [Hin|[->|?]]; [|lia|done]. specialize (Hlt _ Hin). lia.
Qed.

Lemma avl_height_log t :
  avl t → 2 ^ (node_height t / 2) ≤ Z.of_nat (length (inorder t)) + 1.
Proof.
  induction t as [|l IHl k h a r IHr]; intros Havl.
  - cbn [node_height inorder length]. rewrite Z.div_0_l by lia. done.
  - destruct Havl as (Hl & Hr & -> & Hb). specialize (IHl Hl). specialize (IHr Hr).
    pose proof (avl_height_nonneg _ Hl). pose proof (avl_height_nonneg _ Hr).
    cbn [node_height inorder]. rewrite length_app. cbn [length].
    set (m := Z.min (node_height l) (node_height r)).
    assert (Hm : 2 ^ (m / 2) ≤ 2 ^ (node_height l / 2)
                 ∧ 2 ^ (m / 2) ≤ 2 ^ (node_height r / 2)).
    { split; apply Z.pow_le_mono_r; try lia; apply Z.div_le_mono; lia. }
    assert (Hup : 2 ^ ((node_height l `max` node_height r + 1) / 2)
                  ≤ 2 ^ (m / 2 + 1)).
    { apply Z.pow_le_mono_r; [lia|].
      replace (m / 2 + 1) with ((m + 1 * 2) / 2) by (rewrite Z.div_add; lia).
      apply Z.div_le_mono; lia. }
    rewrite Z.pow_add_r in Hup by (try apply Z.div_pos; lia). lia.
Qed.

Lemma tree_of_entries_from (es : list (Z * A)) : ∀ t,
  avl t → StronglySorted Z.lt (keys t) →
  let t' := fold_left (λ t e, tree_Insert t (node_Default e.1 e.2)) es t in
  avl t' ∧ StronglySorted Z.lt (keys t')
  ∧ (∀ x, x ∈ keys t' ↔ x ∈ keys t ∨ x ∈ es.*1).
Proof.
  cbv zeta. induction es as [|[k a] es IH]; intros t Havl Hs.
  - simpl. split_and!; try done. intros x. rewrite elem_of_nil. tauto.
  - cbn [fold_left fst snd].
    destruct (tree_Insert_balanced t k a Havl) as (Havl' & _).
    destruct (tree_Insert_entries t k a Hs) as (Hs' & Hin).
    destruct (IH _ Havl' Hs') as (H1 & H2 & H3).
    split_and!; try done.
    intros x. rewrite H3. cbn [fmap list_fmap fst]. rewrite elem_of_cons.
    rewrite !elem_of_keys. split.
    + intros [[b Hb]|?]; [|tauto].
      apply Hin in Hb as [?|[[= -> ->] _]]; [left; by exists b|tauto].
    + intros [[b Hb]|[->|?]]; [left; exists b; apply Hin; by left| |tauto].
      destruct (decide (k ∈ keys t)) as [[b Hb]%elem_of_keys|Hn].
      * left. exists b. apply Hin. by left.
      * left. exists a. apply Hin. by right.
Qed.
End TreeShape.

Lemma example_registry_avl : avl example_registry.
Proof. unfold example_registry. cbn [avl node_height]. repeat split; lia. Defined.

Lemma example_registry_sorted : StronglySorted Z.lt (keys example_registry).
Proof. unfold keys. simpl. repeat constructor. Defined.

(** X1.  [tree_Insert] on a balanced tree keeps the search order for any
    key, not only for the largest: when the keys of the tree are strictly
    ascending from left to right, they still are afterwards; the keys are
    the old ones and the new one; every entry already there stays, and
    the new entry is there exactly when its key was not. *)
Theorem tree_Insert_keeps_search_order {A} (t : node A) k a :
  avl t → StronglySorted Z.lt (keys t) →
  let t' := tree_Insert t (node_Default k a) in
  StronglySorted Z.lt (keys t')
  ∧ (∀ x, x ∈ keys t' ↔ x = k ∨ x ∈ keys t)
  ∧ (∀ e, e ∈ inorder t' ↔ e ∈ inorder t ∨ (e = (k, a) ∧ k ∉ keys t)).
Proof.
  intros _ Hs. destruct (tree_Insert_entries t k a Hs) as [Hs' Hin].
  cbv zeta. split_and!; try done.
  intros x. rewrite !elem_of_keys. split.
  - intros [b Hb]. apply Hin in Hb as [?|[[= -> ->] _]]; [right; by exists b|by left].
  - intros [->|[b Hb]]; [|exists b; apply Hin; by left].
    destruct (decide (k ∈ keys t)) as [[b Hb]%elem_of_keys|Hn].
    + exists b. apply Hin. by left.
    + exists a. apply Hin. by right.
Qed.

Lemma tree_Insert_keeps_search_order_witness :
  avl example_registry
  ∧ StronglySorted Z.lt (keys example_registry)
  ∧ let t' := tree_Insert example_registry (node_Default 3 "c") in
    StronglySorted Z.lt (keys t')
    ∧ (∀ x, x ∈ keys t' ↔ x = 3 ∨ x ∈ keys example_registry)
    ∧ (∀ e, e ∈ inorder t' ↔
            e ∈ inorder example_registry
            ∨ (e = (3, "c") ∧ 3 ∉ keys example_registry)).
Proof.
  exact (conj example_registry_avl (conj example_registry_sorted
           (tree_Insert_keeps_search_order example_registry 3 "c"
              example_registry_avl example_registry_sorted))).
Defined.

(** X2.  [tree_Insert] of a fresh entry keeps the tree balanced: when
    every stored [Height] is right and sibling heights differ by at most
    one, the same holds afterwards, and the height grows by at most one. *)
Theorem tree_Insert_keeps_balance {A} (t : node A) k a :
  avl t →
  let t' := tree_Insert t (node_Default k a) in
  avl t' ∧ node_height t ≤ node_height t' ≤ node_height t + 1.
Proof.
  intros Havl. destruct (tree_Insert_balanced t k a Havl) as (H1 & _ & H2).
  cbv zeta. split; [done|]. lia.
Qed.

Lemma tree_Insert_keeps_balance_witness :
  avl example_registry
  ∧ let t' := tree_Insert example_registry (node_Default 3 "c") in
    avl t' ∧ node_height example_registry ≤ node_height t'
             ≤ node_height example_registry + 1.
Proof.
  exact (conj example_registry_avl
           (tree_Insert_keeps_balance example_registry 3 "c"
              example_registry_avl)).
Defined.

(** X3.  On a balanced tree [tree_Insert] and the rotations it calls
    never read through a NULL child pointer: the run with every such read
    checked returns, and returns the same tree. *)
Theorem tree_Insert_reads_no_NULL {A} (t : node A) k a :
  avl t →
  tree_Insert_checked t (node_Default k a)
  = Some (tree_Insert t (node_Default k a)).
Proof. intros Havl. by destruct (tree_Insert_balanced t k a Havl) as (_ & H & _). Qed.

Lemma tree_Insert_reads_no_NULL_witness :
  avl example_registry
  ∧ tree_Insert_checked example_registry (node_Default 9 "i")
    = Some (tree_Insert example_registry (node_Default 9 "i")).
Proof.
  exact (conj example_registry_avl
           (tree_Insert_reads_no_NULL example_registry 9 "i"
              example_registry_avl)).
Defined.

(** X4.  Inserting under a key that the tree already holds changes
    nothing: the tree returned is the one passed in, node for node, and
    the new entry is not part of it. *)
Theorem tree_Insert_existing_key_is_dropped {A} (t : node A) k a :
  avl t → StronglySorted Z.lt (keys t) → k ∈ keys t →
  tree_Insert t (node_Default k a) = t.
Proof. apply tree_Insert_present. Qed.

Lemma tree_Insert_existing_key_is_dropped_witness :
  avl example_registry ∧ StronglySorted Z.lt (keys example_registry)
  ∧ 8 ∈ keys example_registry
  ∧ tree_Insert example_registry (node_Default 8 "new") = example_registry.
Proof.
  assert (Hin : 8 ∈ keys example_registry).
  { unfold keys. simpl. do 2 right. left. }
  exact (conj example_registry_avl (conj example_registry_sorted (conj Hin
           (tree_Insert_existing_key_is_dropped example_registry 8 "new"
              example_registry_avl example_registry_sorted Hin)))).
Defined.

(** X5.  Whatever the order in which entries are inserted, with repeated
    keys or without, the registry built from the empty tree is a balanced
    search tree: stored heights are right, siblings differ by at most one
    level, the walk [tree_Iter] visits the keys in strictly ascending
    order, the keys are those inserted, and the height [h] satisfies
    [2^(h/2) <= n + 1] for [n] entries. *)
Theorem tree_of_entries_balanced_search_tree {A S} (es : list (Z * A)) (s : S) :
  let t := tree_of_entries es in
  avl t
  ∧ tree_Iter visit [] t s = Ok ((inorder t, t), s)
  ∧ StronglySorted Z.lt (keys t)
  ∧ (∀ x, x ∈ keys t ↔ x ∈ es.*1)
  ∧ 2 ^ (node_height t / 2) ≤ Z.of_nat (length (inorder t)) + 1.
Proof.
  cbv zeta. unfold tree_of_entries.
  destruct (tree_of_entries_from es Null) as (H1 & H2 & H3);
    [done|constructor|].
  split_and!; try done.
  - by rewrite tree_Iter_visit.
  - intros x. rewrite H3. unfold keys. simpl. rewrite elem_of_nil. tauto.
  - by apply avl_height_log.
Qed.

(* ===================================================================== *)
(** ** The growable array *)
(* ===================================================================== *)

Lemma slice_Append_spec {E} (s : slice E) (v : E) :
  slice_wf s →
  ∃ s', slice_Append s v = Ok s' ∧ slice_wf s'
        ∧ slice_elems s' = slice_elems s ++ [Some v]
        ∧ slice_Size s' = S (slice_Size s)
        ∧ slice_Cap s' = (if decide (slice_Size s = slice_Cap s)
                          then slice_Cap s * 2 else slice_Cap s)%nat.
Proof.
  intros (d & Hd & Hlen & Hle & Hpos). unfold slice_Append, slice_elems.
  destruct (decide (slice_Size s = slice_Cap s)) as [Hfull|Hroom].
  - rewrite Hd. unfold reallocate.
    destruct (slice_Cap s * 2)%nat as [|n] eqn:Hn; [lia|]. rewrite <- Hn.
    cbn [slice_Data slice_Size slice_Cap].
    rewrite take_ge by lia.
    rewrite decide_True by (rewrite length_app, length_replicate; lia).
    eexists. split; [done|]. cbn [slice_Data slice_Size slice_Cap].
    split_and!; try done.
    + eexists. split; [done|]. cbn [slice_Data slice_Size slice_Cap].
      rewrite length_insert, length_app, length_replicate. lia.
    + rewrite insert_app_r_alt by lia.
      replace (slice_Size s - length d)%nat with 0%nat by lia.
      rewrite take_app_ge by lia. rewrite (take_ge d) by lia. f_equal.
      replace (S (slice_Size s) - length d)%nat with 1%nat by lia.
      destruct (slice_Cap s * 2 - length d)%nat eqn:Hr; [lia|]. done.
  - rewrite Hd. rewrite decide_True by lia.
    eexists. split; [done|]. cbn [slice_Data slice_Size slice_Cap].
    split_and!; try done.
    + eexists. split; [done|]. cbn [slice_Data slice_Size slice_Cap].
      rewrite length_insert. lia.
    + assert (Hlt : (slice_Size s < length d)%nat) by lia.
      apply lookup_lt_is_Some in Hlt as [x Hx].
      rewrite (take_S_r _ _ (Some v)) by (apply list_lookup_insert_eq; lia).
      f_equal. by rewrite take_insert_ge by lia.
Qed.

Lemma slice_Init_wf {E} : slice_wf (@slice_Init E).
Proof. exists (replicate 4 None). simpl. split_and!; try done; lia. Qed.

Lemma slice_Append_all_spec {E} (xs : list E) : ∀ s,
  slice_wf s →
  (∃ k, slice_Cap s = 4 * 2 ^ k)%nat →
  (slice_Cap s = 4 ∨ slice_Cap s < 2 * slice_Size s)%nat →
  ∃ s', slice_Append_all s xs = Ok s' ∧ slice_wf s'
        ∧ slice_elems s' = slice_elems s ++ (Some <$> xs)
        ∧ slice_Size s' = (slice_Size s + length xs)%nat
        ∧ (∃ k, slice_Cap s' = 4 * 2 ^ k)%nat
        ∧ (slice_Cap s' = 4 ∨ slice_Cap s' < 2 * slice_Size s')%nat.
Proof.
  induction xs as [|x xs IH]; intros s Hwf Hpow Htight.
  - exists s. simpl. rewrite app_nil_r. split_and!; try done.
  - destruct (slice_Append_spec s x Hwf) as (s1 & Hrun & Hwf1 & Hel & Hsz & Hcap).
    destruct (IH s1 Hwf1) as (s' & Hrun' & Hwf' & Hel' & Hsz' & Hpow' & Htight').
    + destruct Hpow as [k Hk]. rewrite Hcap. case_decide; [|by exists k].
      exists (S k). rewrite Hk. simpl. lia.
    + pose proof Hwf as (_ & _ & _ & Hle & _).
      rewrite Hcap, Hsz. case_decide; lia.
    + exists s'. cbn [slice_Append_all]. rewrite Hrun.
      split_and!; try done.
      * rewrite Hel', Hel, <- app_assoc. done.
      * rewrite Hsz', Hsz. simpl. lia.
Qed.

(** X6.  A slice filled from [slice_Init] by any number of
    [slice_Append] calls never faults and holds exactly the appended
    elements, first to last, in the slots [slice_Iter] walks; [Size]
    counts them, the block has room for them, its capacity is 4 doubled
    some number of times and, once it has grown, less than twice the
    number of elements. *)
Theorem slice_Append_all_round_trip {E} (xs : list E) :
  ∃ s, slice_Append_all slice_Init xs = Ok s
       ∧ slice_elems s = Some <$> xs
       ∧ slice_Size s = length xs
       ∧ (slice_Size s ≤ slice_Cap s)%nat
       ∧ (∃ k, slice_Cap s = 4 * 2 ^ k)%nat
       ∧ (slice_Cap s = 4 ∨ slice_Cap s < 2 * slice_Size s)%nat.
Proof.
  destruct (slice_Append_all_spec xs slice_Init slice_Init_wf)
    as (s & Hrun & Hwf & Hel & Hsz & Hpow & Htight).
  - by exists 0%nat.
  - by left.
  - exists s. destruct Hwf as (_ & _ & _ & Hle & _). split_and!; done.
Qed.

(** X7.  One [slice_Append] on a slice with a block of [Cap] slots,
    [Cap] not zero and [Size <= Cap]: it does not fault, the elements
    already there keep their place, the new one follows them, and the
    capacity doubles exactly when the slice was full. *)
Theorem slice_Append_keeps_elements {E} (s : slice E) (v : E) :
  slice_wf s →
  ∃ s', slice_Append s v = Ok s' ∧ slice_wf s'
        ∧ slice_elems s' = slice_elems s ++ [Some v]
        ∧ slice_Size s' = S (slice_Size s)
        ∧ slice_Cap s' = (if decide (slice_Size s = slice_Cap s)
                          then slice_Cap s * 2 else slice_Cap s)%nat.
Proof. apply slice_Append_spec. Qed.

Lemma slice_Append_keeps_elements_witness :
  slice_wf (mkSlice (Some [Some 7; Some 8; Some 9; Some 10]) 4 4)
  ∧ ∃ s', slice_Append (mkSlice (Some [Some 7; Some 8; Some 9; Some 10]) 4 4) 11
          = Ok s'
          ∧ slice_wf s'
          ∧ slice_elems s'
            = slice_elems (mkSlice (Some [Some 7; Some 8; Some 9; Some 10]) 4 4)
              ++ [Some 11]
          ∧ slice_Size s' = 5%nat
          ∧ slice_Cap s' = (if decide (4 = 4)%nat then 4 * 2 else 4)%nat.
Proof.
  assert (H : slice_wf (mkSlice (Some [Some 7; Some 8; Some 9; Some 10]) 4 4)).
  { eexists. simpl. split_and!; try done; lia. }
  exact (conj H (slice_Append_keeps_elements _ 11 H)).
Defined.

(* ===================================================================== *)
(** ** The collector *)
(* ===================================================================== *)

Lemma filter_ext_in {A} (P Q : A → Prop) `{!∀ x, Decision (P x)}
    `{!∀ x, Decision (Q x)} (l : list A) :
  (∀ x, x ∈ l → (P x ↔ Q x)) → filter P l = filter Q l.
Proof.
  induction l as [|x l IH]; intros Hext; [done|].
  rewrite !filter_cons. rewrite IH by (intros y Hy; apply Hext; by right).
  destruct (decide (P x)) as [HP|HP], (decide (Q x)) as [HQ|HQ]; try done.
  - exfalso. apply HQ, Hext; [by left|done].
  - exfalso. apply HP, Hext; [by left|done].
Qed.

Lemma obj_list_frame h h' root l :
  (∀ a, a ∈ l → h' !! a = h !! a) → obj_list h root l → obj_list h' root l.
Proof.
  revert root. induction l as [|a l IH]; intros root Hfr; [done|].
  intros (-> & ob & Ha & Hl). split; [done|]. exists ob. split.
  - rewrite Hfr; [done|by left].
  - apply IH; [|done]. intros x Hx. apply Hfr. by right.
Qed.

Lemma obj_list_functional h : ∀ l1 l2 root,
  obj_list h root l1 → obj_list h root l2 → l1 = l2.
Proof.
  induction l1 as [|a l1 IH]; intros [|b l2] root; simpl; try done.
  - intros -> (? & _). done.
  - intros (-> & _) ?. done.
  - intros (-> & ob & Ha & H1) ([= <-] & ob' & Ha' & H2).
    assert (ob' = ob) as -> by congruence. f_equal. by eapply IH.
Qed.

Lemma obj_list_suffix h : ∀ l1 a l2 root,
  obj_list h root (l1 ++ a :: l2) → obj_list h (Some a) (a :: l2).
Proof.
  induction l1 as [|b l1 IH]; intros a l2 root; simpl.
  - intros (-> & H). done.
  - intros (-> & ob & _ & H). by eapply IH.
Qed.

Lemma obj_list_NoDup h : ∀ l root, obj_list h root l → NoDup l.
Proof.
  induction l as [|a l IH]; intros root Hl; [constructor|].
  pose proof Hl as (-> & ob & Ha & Hrest).
  apply NoDup_cons. split; [|by eapply IH].
  intros (l1 & l2 & ->)%list_elem_of_split.
  pose proof (obj_list_suffix _ _ _ _ _ Hrest) as Hsuf.
  pose proof (obj_list_functional _ _ _ _ Hl Hsuf) as Heq.
  apply (f_equal length) in Heq. simpl in Heq. rewrite length_app in Heq.
  simpl in Heq. lia.
Qed.

Lemma obj_list_live h l root a :
  obj_list h root l → a ∈ l → is_Some (h !! a).
Proof.
  revert root. induction l as [|b l IH]; intros root Hl Ha.
  - by apply elem_of_nil in Ha.
  - destruct Hl as (-> & ob & Hb & Hrest).
    apply elem_of_cons in Ha as [->|Ha]; [by eexists|by eapply IH].
Qed.

(** The sweep from any slot of the list: the objects from there on are
    filtered in place. *)
Lemma gc_Sweep_loop_spec ls : ∀ fuel object vm h cur,
  (length ls < fuel)%nat →
  0 ≤ gc_Reachable vm < size_t_max →
  read_slot object vm h = Ok cur →
  obj_list (objs h) cur ls → NoDup ls →
  (∀ p, object = NextSlot p → p ∉ ls) →
  let kept := filter (λ a, is_marked (objs h) a) ls in
  ∃ vm' h' cur',
    gc_Sweep_loop fuel object vm h = Some (Ok (vm', h'))
    ∧ read_slot object vm' h' = Ok cur'
    ∧ obj_list (objs h') cur' kept
    ∧ (∀ a, a ∈ kept →
         ∃ ob nx, objs h !! a = Some ob
                  ∧ objs h' !! a = Some (mkObject (object_Kind ob) false nx))
    ∧ (∀ a, a ∈ ls → a ∉ kept → objs h' !! a = None)
    ∧ (∀ a, a ∉ ls → object ≠ NextSlot a → objs h' !! a = objs h !! a)
    ∧ (∀ p ob, object = NextSlot p → objs h !! p = Some ob →
         objs h' !! p
         = Some (mkObject (object_Kind ob) (object_Marked ob) cur'))
    ∧ next_obj h' = next_obj h
    ∧ gc_Stack vm' = gc_Stack vm ∧ gc_StackSize vm' = gc_StackSize vm
    ∧ gc_Max vm' = gc_Max vm
    ∧ (object ≠ RootSlot → gc_Root vm' = gc_Root vm)
    ∧ gc_Reachable vm'
      = (gc_Reachable vm - Z.of_nat (length ls - length kept)) `mod` size_t_max.
Proof.
  induction ls as [|a ls IH]; intros fuel object vm h cur Hfuel Hr Hread Hl Hnd Hp.
  - simpl in Hl. subst cur. destruct fuel as [|fuel]; [simpl in Hfuel; lia|].
    exists vm, h, None. cbn [gc_Sweep_loop]. rewrite Hread.
    cbn [filter list_filter length]. split_and!; try done.
    + intros a Ha. by apply elem_of_nil in Ha.
    + intros p ob -> Hob. unfold read_slot in Hread. rewrite Hob in Hread.
      injection Hread as Hnx. destruct ob. simpl in *. by subst.
    + rewrite Z.sub_0_r, Z.mod_small; done.
  - destruct Hl as (-> & ob & Ha & Hrest).
    apply NoDup_cons in Hnd as [Hnotin Hnd].
    destruct fuel as [|fuel]; [simpl in Hfuel; lia|].
    cbn [gc_Sweep_loop]. rewrite Hread, Ha.
    assert (Hma : is_marked (objs h) a = object_Marked ob)
      by (unfold is_marked; by rewrite Ha).
    cbv zeta. rewrite filter_cons, Hma.
    destruct (object_Marked ob) eqn:Hm.
    + (* marked: the mark is cleared, the object stays *)
      set (h1 := mkObjHeap (<[a := mkObject (object_Kind ob) false
                                      (object_Next ob)]> (objs h))
                   (next_obj h)).
      destruct (IH fuel (NextSlot a) vm h1 (object_Next ob))
        as (vm' & h' & cur' & Hrun & Hread' & Hl' & Hkept & Hdrop & Hfr
            & Hown & Hnext & Hst & Hsz & Hmax & Hroot & Hreach).
      { simpl in Hfuel. lia. }
      { done. }
      { unfold read_slot, h1. simpl. by rewrite lookup_insert_eq. }
      { apply (obj_list_frame (objs h)); [|done].
        intros x Hx. unfold h1. simpl. rewrite lookup_insert_ne; [done|].
        by intros <-. }
      { done. }
      { by intros p [= <-]. }
      assert (Hfilt : filter (λ x, is_marked (objs h1) x) ls
                      = filter (λ x, is_marked (objs h) x) ls).
      { apply filter_ext_in. intros x Hx. unfold is_marked, h1. simpl.
        rewrite lookup_insert_ne; [done|]. by intros <-. }
      rewrite Hfilt in *.
      assert (Ha' : objs h' !! a
                    = Some (mkObject (object_Kind ob) false cur')).
      { apply (Hown a (mkObject (object_Kind ob) false (object_Next ob)));
          [done|]. unfold h1. simpl. by rewrite lookup_insert_eq. }
      assert (Hfr' : ∀ x, x ∉ a :: ls → objs h' !! x = objs h !! x).
      { intros x Hx. apply not_elem_of_cons in Hx as [Hxa Hx].
        rewrite Hfr; [|done|by intros [= ->]].
        unfold h1. simpl. by rewrite lookup_insert_ne. }
      exists vm', h', (Some a). rewrite decide_True by done.
      split_and!; try done.
      * destruct object as [|p]; simpl; [by rewrite Hroot|].
        assert (p ∉ a :: ls) as Hpl by (by apply Hp).
        rewrite Hfr' by done. exact Hread.
      * split; [done|]. exists (mkObject (object_Kind ob) false cur').
        split; [done|]. done.
      * intros x [->|Hx]%elem_of_cons; [by exists ob, cur'|].
        destruct (Hkept x Hx) as (obx & nx & Hobx & Hobx').
        exists obx, nx. split; [|done]. unfold h1 in Hobx. simpl in Hobx.
        rewrite lookup_insert_ne in Hobx; [done|].
        intros <-. apply Hnotin. by apply list_elem_of_filter in Hx as [_ ?].
      * intros x [->|Hx]%elem_of_cons Hnk.
        -- exfalso. apply Hnk. by left.
        -- apply Hdrop; [done|]. intros ?. apply Hnk. by right.
      * intros x Hx _. by apply Hfr'.
      * intros p obp -> Hobp.
        assert (p ∉ a :: ls) as Hpl by (by apply Hp).
        rewrite Hfr' by done. rewrite Hobp.
        unfold read_slot in Hread. rewrite Hobp in Hread.
        injection Hread as Hnx. destruct obp. simpl in *. by subst.
      * intros Ho. rewrite Hroot; done.
    + (* not marked: unlinked and freed *)
      rewrite decide_False by (by intros []).
      assert (Hw : ∃ vm1 h1, write_slot object (object_Next ob) vm h
                             = Ok (vm1, h1)
                   ∧ read_slot object vm1 h1 = Ok (object_Next ob)
                   ∧ (∀ x, object ≠ NextSlot x → objs h1 !! x = objs h !! x)
                   ∧ (∀ p obp, object = NextSlot p → objs h !! p = Some obp →
                        objs h1 !! p
                        = Some (mkObject (object_Kind obp) (object_Marked obp)
                                  (object_Next ob)))
                   ∧ next_obj h1 = next_obj h
                   ∧ gc_Stack vm1 = gc_Stack vm
                   ∧ gc_StackSize vm1 = gc_StackSize vm
                   ∧ gc_Max vm1 = gc_Max vm
                   ∧ gc_Reachable vm1 = gc_Reachable vm
                   ∧ (object ≠ RootSlot → gc_Root vm1 = gc_Root vm)).
      { destruct object as [|p]; simpl.
        - eexists _, _. split; [done|]. simpl. split_and!; done.
        - simpl in Hread. destruct (objs h !! p) as [obp|] eqn:Hobp; [|done].
          eexists _, _. split; [done|]. simpl. rewrite lookup_insert_eq.
          split_and!; try done.
          + intros x Hx. rewrite lookup_insert_ne; [done|]. by intros <-.
          + intros q obq [= <-] Hq. rewrite lookup_insert_eq. congruence. }
      destruct Hw as (vm1 & h1 & Hw & Hread1 & Hfr1 & Hown1 & Hnext1 & Hst1
                      & Hsz1 & Hmax1 & Hreach1 & Hroot1).
      rewrite Hw.
      set (vm2 := set_Reachable ((gc_Reachable vm1 - 1) `mod` size_t_max) vm1).
      set (h2 := mkObjHeap (delete a (objs h1)) (next_obj h1)).
      assert (Hpa : ∀ p, object = NextSlot p → p ≠ a).
      { intros p Hop ->. apply (Hp a Hop). by left. }
      assert (Hh2 : ∀ x, x ≠ a → object ≠ NextSlot x →
                         objs h2 !! x = objs h !! x).
      { intros x Hxa Hox. unfold h2. simpl.
        rewrite lookup_delete_ne by done. by apply Hfr1. }
      destruct (IH fuel object vm2 h2 (object_Next ob))
        as (vm' & h' & cur' & Hrun & Hread' & Hl' & Hkept & Hdrop & Hfr
            & Hown & Hnext & Hst & Hsz & Hmax & Hroot & Hreach).
      { simpl in Hfuel. lia. }
      { unfold vm2. simpl. apply Z.mod_pos_bound. done. }
      { destruct object as [|p]; simpl in *; [done|].
        rewrite lookup_delete_ne by (intros <-; by apply (Hpa a)). exact Hread1. }
      { apply (obj_list_frame (objs h)); [|done].
        intros x Hx. apply Hh2; [by intros ->|].
        intros ->. apply (Hp x eq_refl). by right. }
      { done. }
      { intros p Hop Hin. apply (Hp p Hop). by right. }
      assert (Hfilt : filter (λ x, is_marked (objs h2) x) ls
                      = filter (λ x, is_marked (objs h) x) ls).
      { apply filter_ext_in. intros x Hx. unfold is_marked.
        rewrite Hh2; [done|by intros ->|].
        intros ->. apply (Hp x eq_refl). by right. }
      rewrite Hfilt in *.
      exists vm', h', cur'. split_and!; try done.
      * intros x Hx. destruct (Hkept x Hx) as (obx & nx & Hobx & Hobx').
        exists obx, nx. split; [|done]. rewrite <- Hh2; [done| |].
        -- intros ->. apply Hnotin. by apply list_elem_of_filter in Hx as [_ ?].
        -- intros ->. apply (Hp x eq_refl). right.
           by apply list_elem_of_filter in Hx as [_ ?].
      * intros x [->|Hx]%elem_of_cons Hnk; [|by apply Hdrop].
        rewrite Hfr; [|done|]. { unfold h2. simpl. apply lookup_delete_eq. }
        intros ->. apply (Hp _ eq_refl). by left.
      * intros x Hx Hox. apply not_elem_of_cons in Hx as [Hxa Hx].
        rewrite Hfr by done. by apply Hh2.
      * intros p obp -> Hobp. apply (Hown p (mkObject (object_Kind obp)
                                              (object_Marked obp)
                                              (object_Next ob))); [done|].
        unfold h2. simpl. rewrite lookup_delete_ne by (intros <-; by apply (Hpa a)).
        by apply Hown1.
      * by rewrite Hnext.
      * by rewrite Hst.
      * by rewrite Hsz.
      * by rewrite Hmax.
      * intros Ho. rewrite Hroot by done. unfold vm2. simpl. by apply Hroot1.
      * rewrite Hreach. unfold vm2. simpl. rewrite Hreach1.
        pose proof (length_filter (λ x, is_marked (objs h) x) ls).
        rewrite Zminus_mod_idemp_l. f_equal. cbn [length]. lia.
Qed.

Lemma obj_list_same_Next h h' root l :
  (∀ a, a ∈ l → object_Next <$> h' !! a = object_Next <$> h !! a) →
  obj_list h root l → obj_list h' root l.
Proof.
  revert root. induction l as [|a l IH]; intros root Hfr; [done|].
  intros (-> & ob & Ha & Hl). split; [done|].
  assert (Hnx : object_Next <$> h' !! a = Some (object_Next ob)).
  { rewrite Hfr by (by left). by rewrite Ha. }
  destruct (h' !! a) as [ob'|]; [|done]. injection Hnx as Hnx.
  exists ob'. split; [done|]. rewrite Hnx.
  apply IH; [|done]. intros x Hx. apply Hfr. by right.
Qed.

Lemma gc_Mark_loop_spec vm ixs os :
  Forall2 (λ i o, gc_Stack vm !! i = Some o) ixs os →
  ∀ h,
    (∀ o, o ∈ os → ∃ a, o = Some a ∧ is_Some (objs h !! a)) →
    ∃ h', gc_Mark_loop ixs vm h = Ok (tt, h')
          ∧ next_obj h' = next_obj h
          ∧ ∀ x, objs h' !! x = marked_from os x <$> objs h !! x.
Proof.
  induction 1 as [|i o ixs os Hi _ IH]; intros h Hlive.
  - exists h. split; [done|]. split; [done|]. intros x.
    destruct (objs h !! x) as [[k m n]|]; [|done].
    unfold marked_from. cbn [fmap option_fmap option_map object_Kind
                             object_Marked object_Next].
    rewrite bool_decide_eq_false_2 by apply not_elem_of_nil.
    by rewrite orb_false_r.
  - destruct (Hlive o) as (a & -> & [ob Ha]); [by left|].
    cbn [gc_Mark_loop]. rewrite Hi. munfold. unfold object_Mark. rewrite Ha.
    set (h1 := if object_Marked ob then h
               else mkObjHeap (<[a := mkObject (object_Kind ob) true
                                         (object_Next ob)]> (objs h))
                      (next_obj h)).
    assert (Hh1 : ∀ x, objs h1 !! x
                       = marked_from [Some a] x <$> objs h !! x).
    { intros x. unfold h1, marked_from.
      destruct (decide (x = a)) as [->|Hx].
      - rewrite bool_decide_eq_true_2 by (by left). rewrite Ha. simpl.
        destruct (object_Marked ob) eqn:Hm; simpl.
        + rewrite Ha. destruct ob. simpl in *. by subst.
        + by rewrite lookup_insert_eq.
      - rewrite bool_decide_eq_false_2
          by (rewrite list_elem_of_singleton; congruence).
        assert (objs (if object_Marked ob then h
                      else mkObjHeap (<[a := mkObject (object_Kind ob) true
                                                (object_Next ob)]> (objs h))
                             (next_obj h)) !! x = objs h !! x) as ->.
        { destruct (object_Marked ob); [done|]. simpl.
          by rewrite lookup_insert_ne. }
        destruct (objs h !! x) as [[k m n]|]; [|done]. simpl.
        by rewrite orb_false_r. }
    destruct (IH h1) as (h' & Hrun & Hnext & Hobj).
    { intros o Ho. destruct (Hlive o) as (b & -> & [obb Hb]); [by right|].
      exists b. split; [done|]. rewrite Hh1, Hb. by eexists. }
    exists h'. split; [|split].
    + destruct (object_Marked ob); exact Hrun.
    + rewrite Hnext. unfold h1. by destruct (object_Marked ob).
    + intros x. rewrite Hobj, Hh1.
      destruct (objs h !! x) as [[k m n]|]; [|done]. simpl.
      unfold marked_from. simpl. f_equal. f_equal.
      rewrite <- orb_assoc. f_equal.
      destruct (decide (Some x ∈ os)) as [Hin|Hin].
      * rewrite (bool_decide_eq_true_2 _ Hin), orb_true_r.
        symmetry. apply bool_decide_eq_true_2. by right.
      * rewrite (bool_decide_eq_false_2 _ Hin), orb_false_r.
        apply bool_decide_ext. rewrite list_elem_of_singleton, elem_of_cons.
        tauto.
Qed.

Lemma Forall2_seq_take {A} (l : list A) n :
  (n ≤ length l)%nat →
  Forall2 (λ i o, l !! i = Some o) (seq 0 n) (take n l).
Proof.
  intros Hn. apply Forall2_same_length_lookup. split.
  - rewrite length_seq, length_take. lia.
  - intros i j o Hj Ho. apply lookup_seq in Hj as [-> _]. simpl.
    apply lookup_take_Some in Ho as [Ho _]. done.
Qed.

Lemma marked_from_off_stack os x ob :
  Some x ∉ os → marked_from os x ob = ob.
Proof.
  intros Hx. unfold marked_from. rewrite (bool_decide_eq_false_2 _ Hx).
  rewrite orb_false_r. by destruct ob.
Qed.

(** One collection on a state between two calls. *)
Lemma gc_Run_spec vm h l fuel :
  gc_wf vm h l → (length l < fuel)%nat →
  let kept := filter (on_stack vm) l in
  ∃ vm' h',
    gc_Run fuel vm h = Some (Ok (vm', h'))
    ∧ gc_wf vm' h' kept
    ∧ (∀ a, a ∈ l → a ∉ kept → objs h' !! a = None)
    ∧ (∀ a, a ∈ kept →
         object_Kind <$> objs h' !! a = object_Kind <$> objs h !! a)
    ∧ (∀ a, a ∉ l → objs h' !! a = objs h !! a)
    ∧ next_obj h' = next_obj h
    ∧ gc_Stack vm' = gc_Stack vm ∧ gc_StackSize vm' = gc_StackSize vm
    ∧ gc_Max vm' = (if Z.of_nat (length kept) =? 0 then 8
                    else (Z.of_nat (length kept) * 2) `mod` size_t_max).
Proof.
  intros (Hl & Hun & Hreach & Hbound & Hlen & Hsz & Hstack & Hfresh) Hfuel.
  cbv zeta. set (os := take (gc_StackSize vm) (gc_Stack vm)) in *.
  destruct (gc_Mark_loop_spec vm (seq 0 (gc_StackSize vm)) os) with (h := h)
    as (h1 & Hmark & Hnext1 & Hobj1).
  { apply Forall2_seq_take. lia. }
  { intros o Ho. destruct (Hstack o Ho) as (a & -> & Ha).
    exists a. split; [done|]. by eapply obj_list_live. }
  assert (Hl1 : obj_list (objs h1) (gc_Root vm) l).
  { apply (obj_list_same_Next (objs h)); [|done].
    intros a _. rewrite Hobj1. by destruct (objs h !! a). }
  assert (Hkeep : filter (λ a, is_marked (objs h1) a) l
                  = filter (on_stack vm) l).
  { apply filter_ext_in. intros x Hx. unfold is_marked. rewrite Hobj1.
    destruct (obj_list_live _ _ _ _ Hl Hx) as [ob Hob]. rewrite Hob. simpl.
    rewrite (Hun x ob Hx Hob). simpl. unfold on_stack. fold os.
    by rewrite bool_decide_spec. }
  destruct (gc_Sweep_loop_spec l fuel RootSlot vm h1 (gc_Root vm))
    as (vm' & h' & cur' & Hrun & Hread' & Hl' & Hkept & Hdrop & Hfr & _
        & Hnext & Hst & Hssz & Hmax & _ & Hreach');
    [done|lia|done|done|by eapply obj_list_NoDup|done|].
  rewrite Hkeep in *. simpl in Hread'. injection Hread' as <-.
  set (kept := filter (on_stack vm) l) in *.
  pose proof (length_filter (on_stack vm) l) as Hle. fold kept in Hle.
  assert (Hreach'' : gc_Reachable vm' = Z.of_nat (length kept)).
  { rewrite Hreach', Hreach. rewrite Z.mod_small; lia. }
  eexists _, h'. split.
  { unfold gc_Run, gc_Mark. rewrite Hmark. unfold gc_Sweep. rewrite Hrun.
    reflexivity. }
  cbn [gc_Stack gc_StackSize gc_Max gc_Root gc_Reachable set_Max].
  rewrite Hreach''. split_and!; try done.
  - split_and!; cbn [gc_Stack gc_StackSize gc_Max gc_Root gc_Reachable set_Max];
      try done; try lia.
    + intros a ob Ha Hob. destruct (Hkept a Ha) as (ob0 & nx & _ & Hob').
      rewrite Hob' in Hob. by injection Hob as <-.
    + by rewrite Hst.
    + rewrite Hst, Hssz. intros o Ho. destruct (Hstack o Ho) as (a & -> & Ha).
      exists a. split; [done|]. apply list_elem_of_filter. done.
    + intros p Hp. rewrite Hnext, Hnext1 in Hp.
      rewrite Hfr; [|intros Hin|done].
      * rewrite Hobj1, (Hfresh p Hp). done.
      * destruct (obj_list_live _ _ _ _ Hl Hin) as [? Hlive].
        by rewrite (Hfresh p Hp) in Hlive.
  - intros a Ha. destruct (Hkept a Ha) as (ob0 & nx & Hob0 & Hob').
    rewrite Hob'. rewrite Hobj1 in Hob0.
    destruct (objs h !! a) as [ob|]; [|done]. simpl in *.
    injection Hob0 as <-. done.
  - intros a Ha. rewrite Hfr by done. rewrite Hobj1.
    destruct (objs h !! a) as [ob|] eqn:Hob; [|done]. simpl.
    rewrite marked_from_off_stack; [done|].
    intros Hin. destruct (Hstack _ Hin) as (b & [= <-] & Hb). done.
  - by rewrite Hnext.
Qed.

Lemma obj_list_head h root l : obj_list h root l → root = head l.
Proof. destruct l; simpl; [done|]. by intros [-> _]. Qed.

(** The allocation at the end of [gc_NewObject]. *)
Lemma gc_wf_alloc vm h l kind :
  gc_wf vm h l → Z.of_nat (length l) + 1 < size_t_max →
  gc_wf (mkGc (gc_Stack vm) (gc_StackSize vm)
           ((gc_Reachable vm + 1) `mod` size_t_max) (gc_Max vm)
           (Some (next_obj h)))
        (mkObjHeap (<[next_obj h := object_Init kind (gc_Root vm)]> (objs h))
           (S (next_obj h)))
        (next_obj h :: l).
Proof.
  intros (Hl & Hun & Hreach & Hbound & Hlen & Hsz & Hstack & Hfresh) Hroom.
  assert (Hnew : next_obj h ∉ l).
  { intros Hin. destruct (obj_list_live _ _ _ _ Hl Hin) as [? Hlive].
    rewrite Hfresh in Hlive by lia. done. }
  split_and!; cbn [gc_Stack gc_StackSize gc_Max gc_Root gc_Reachable objs
                   next_obj]; try done.
  - split; [done|]. eexists. split; [apply lookup_insert_eq|].
    cbn [object_Init object_Next].
    apply (obj_list_frame (objs h)); [|done].
    intros a Ha. rewrite lookup_insert_ne; [done|]. by intros <-.
  - intros a ob [->|Ha]%elem_of_cons.
    + rewrite lookup_insert_eq. by intros [= <-].
    + rewrite lookup_insert_ne by (by intros <-). by apply Hun.
  - rewrite Hreach, Z.mod_small; cbn [length]; lia.
  - cbn [length]. lia.
  - intros o Ho. destruct (Hstack o Ho) as (a & -> & Ha).
    exists a. split; [done|]. by right.
  - intros p Hp. rewrite lookup_insert_ne by lia. apply Hfresh. lia.
Qed.

Lemma gc_NewObject_spec vm h l fuel kind :
  gc_wf vm h l → (length l < fuel)%nat →
  Z.of_nat (length l) + 1 < size_t_max →
  let l0 := if gc_Reachable vm =? gc_Max vm then filter (on_stack vm) l
            else l in
  ∃ vm' h',
    gc_NewObject fuel vm kind h = Some (Ok ((vm', Some (next_obj h)), h'))
    ∧ gc_wf vm' h' (next_obj h :: l0)
    ∧ objs h !! next_obj h = None
    ∧ objs h' !! next_obj h = Some (mkObject kind false (head l0))
    ∧ (∀ a, a ∈ l → a ∉ l0 → objs h' !! a = None)
    ∧ gc_Stack vm' = gc_Stack vm ∧ gc_StackSize vm' = gc_StackSize vm
    ∧ (gc_Reachable vm ≤ gc_Max vm → Z.of_nat (length l) * 2 < size_t_max →
       gc_Reachable vm' ≤ gc_Max vm').
Proof.
  intros Hwf Hfuel Hroom. cbv zeta. unfold gc_NewObject.
  pose proof Hwf as (Hl & _ & Hreach & _ & _ & _ & _ & Hfresh).
  pose proof (length_filter (on_stack vm) l) as Hle.
  destruct (gc_Reachable vm =? gc_Max vm) eqn:Hfull.
  - destruct (gc_Run_spec vm h l fuel Hwf Hfuel)
      as (vm1 & h1 & Hrun & Hwf1 & Hdrop & _ & _ & Hnext & Hst & Hsz & Hmax).
    rewrite Hrun. rewrite <- Hnext.
    pose proof Hwf1 as (Hl1 & _ & Hreach1 & _).
    eexists _, _. split; [reflexivity|].
    split_and!; cbn [gc_Stack gc_StackSize gc_Max gc_Root gc_Reachable objs];
      try done.
    + apply gc_wf_alloc; [done|lia].
    + apply Hfresh. lia.
    + rewrite lookup_insert_eq. unfold object_Init. f_equal. f_equal.
      by eapply obj_list_head.
    + intros a Ha Hna. rewrite lookup_insert_ne; [by apply Hdrop|].
      intros <-. destruct (obj_list_live _ _ _ _ Hl Ha) as [? Hlive].
      rewrite Hfresh in Hlive by lia. done.
    + intros _ Hdouble. rewrite Hmax, Hreach1.
      rewrite Z.mod_small by lia.
      destruct (Z.eqb_spec (Z.of_nat (length (filter (on_stack vm) l))) 0)
        as [->|]; [|rewrite Z.mod_small by lia]; lia.
  - eexists _, _. split; [reflexivity|].
    split_and!; cbn [gc_Stack gc_StackSize gc_Max gc_Root gc_Reachable objs];
      try done.
    + by apply gc_wf_alloc.
    + apply Hfresh. lia.
    + rewrite lookup_insert_eq. unfold object_Init. f_equal. f_equal.
      by eapply obj_list_head.
    + intros Hmax _. apply Z.eqb_neq in Hfull.
      rewrite Hreach in *. rewrite Z.mod_small by lia. lia.
Qed.

Lemma filter_on_stack_empty vm l :
  gc_StackSize vm = 0%nat → filter (on_stack vm) l = [].
Proof.
  intros Hz. induction l as [|a l IH]; [done|].
  rewrite filter_cons_False; [done|].
  unfold on_stack. rewrite Hz. simpl. apply not_elem_of_nil.
Qed.

Lemma gc_Free_spec vm h l fuel :
  gc_wf vm h l → (length l < fuel)%nat →
  ∃ vm' h',
    gc_Free fuel vm h = Some (Ok (vm', h'))
    ∧ gc_wf vm' h' []
    ∧ gc_Root vm' = None ∧ gc_Reachable vm' = 0 ∧ gc_Max vm' = 8
    ∧ gc_StackSize vm' = 0%nat
    ∧ (∀ a, a ∈ l → objs h' !! a = None)
    ∧ (∀ a, a ∉ l → objs h' !! a = objs h !! a).
Proof.
  intros (Hl & Hun & Hreach & Hbound & Hlen & Hsz & Hstack & Hfresh) Hfuel.
  destruct (gc_Run_spec (set_StackSize 0 vm) h l fuel)
    as (vm' & h' & Hrun & Hwf' & Hdrop & _ & Hfr & _ & _ & Hsz' & Hmax);
    [|done|].
  { split_and!; cbn [gc_Stack gc_StackSize gc_Max gc_Root gc_Reachable
                     set_StackSize]; try done; try lia.
    intros o Ho. by apply elem_of_nil in Ho. }
  rewrite filter_on_stack_empty in * by done.
  exists vm', h'. pose proof Hwf' as (Hl' & _ & Hreach' & _).
  split_and!; try done.
  intros a Ha. apply Hdrop; [done|]. apply not_elem_of_nil.
Qed.

Lemma example_gc_wf : gc_wf example_gc example_objects [1; 0]%nat.
Proof.
  unfold gc_wf, example_gc, example_objects.
  cbn [gc_Stack gc_StackSize gc_Max gc_Root gc_Reachable objs next_obj].
  split_and!.
  - split; [done|]. eexists. split; [by rewrite lookup_insert_eq|].
    cbn [object_Next obj_list]. split; [done|]. eexists.
    split; [rewrite lookup_insert_ne by done; by rewrite lookup_insert_eq|].
    done.
  - intros a ob [->|[->|Ha]%elem_of_cons]%elem_of_cons.
    + rewrite lookup_insert_eq. by intros [= <-].
    + rewrite lookup_insert_ne by done. rewrite lookup_insert_eq.
      by intros [= <-].
    + by apply elem_of_nil in Ha.
  - done.
  - done.
  - done.
  - lia.
  - intros o [->|Ho]%elem_of_cons; [|by apply elem_of_nil in Ho].
    exists 0%nat. split; [done|]. right. left.
  - intros p Hp. rewrite !lookup_insert_ne by lia. apply lookup_empty.
Qed.

(** X8.  One collection ([gc_Run]) on a collector in the state the
    other operations leave it in: it returns; the objects referenced from
    the first [StackSize] slots of the stack stay, in their order, with
    their kind and unmarked; every other object of the list is freed;
    nothing outside the list is touched; [Reachable] is the number of
    objects kept and [Max] becomes twice that, or 8 when none is kept. *)
Theorem gc_Run_keeps_the_stack_objects vm h l fuel :
  gc_wf vm h l → (length l < fuel)%nat →
  let kept := filter (on_stack vm) l in
  ∃ vm' h',
    gc_Run fuel vm h = Some (Ok (vm', h'))
    ∧ gc_wf vm' h' kept
    ∧ (∀ a, a ∈ l → ¬ on_stack vm a → objs h' !! a = None)
    ∧ (∀ a, a ∈ l → on_stack vm a →
         object_Kind <$> objs h' !! a = object_Kind <$> objs h !! a)
    ∧ (∀ a, a ∉ l → objs h' !! a = objs h !! a)
    ∧ gc_Stack vm' = gc_Stack vm ∧ gc_StackSize vm' = gc_StackSize vm
    ∧ gc_Reachable vm' = Z.of_nat (length kept)
    ∧ gc_Max vm' = (if Z.of_nat (length kept) =? 0 then 8
                    else (Z.of_nat (length kept) * 2) `mod` size_t_max).
Proof.
  intros Hwf Hfuel. cbv zeta.
  destruct (gc_Run_spec vm h l fuel Hwf Hfuel)
    as (vm' & h' & Hrun & Hwf' & Hdrop & Hkind & Hfr & _ & Hst & Hsz & Hmax).
  exists vm', h'. pose proof Hwf' as (_ & _ & Hreach & _).
  split_and!; try done.
  - intros a Ha Hoff. apply Hdrop; [done|].
    rewrite list_elem_of_filter. tauto.
  - intros a Ha Hon. apply Hkind. by apply list_elem_of_filter.
Qed.

Lemma gc_Run_keeps_the_stack_objects_witness :
  gc_wf example_gc example_objects [1; 0]%nat ∧ (2 < 3)%nat
  ∧ ∃ vm' h',
      gc_Run 3 example_gc example_objects = Some (Ok (vm', h'))
      ∧ gc_wf vm' h' (filter (on_stack example_gc) [1; 0]%nat)
      ∧ (∀ a, a ∈ [1; 0]%nat → ¬ on_stack example_gc a → objs h' !! a = None)
      ∧ (∀ a, a ∈ [1; 0]%nat → on_stack example_gc a →
           object_Kind <$> objs h' !! a
           = object_Kind <$> objs example_objects !! a)
      ∧ (∀ a, a ∉ [1; 0]%nat → objs h' !! a = objs example_objects !! a)
      ∧ gc_Stack vm' = gc_Stack example_gc
      ∧ gc_StackSize vm' = gc_StackSize example_gc
      ∧ gc_Reachable vm'
        = Z.of_nat (length (filter (on_stack example_gc) [1; 0]%nat))
      ∧ gc_Max vm'
        = (if Z.of_nat (length (filter (on_stack example_gc) [1; 0]%nat)) =? 0
           then 8
           else (Z.of_nat (length (filter (on_stack example_gc) [1; 0]%nat))
                 * 2) `mod` size_t_max).
Proof.
  assert (Hfuel : (2 < 3)%nat) by lia.
  exact (conj example_gc_wf (conj Hfuel
           (gc_Run_keeps_the_stack_objects example_gc example_objects
              [1; 0]%nat 3 example_gc_wf Hfuel))).
Defined.

(** X9.  [gc_NewObject] on such a collector, with room for one more
    object in [size_t]: it returns a new address; the object there has
    the kind asked for, is unmarked and heads the list, in front of the
    old objects, or of those referenced from the stack when [Reachable]
    had reached [Max] and a collection ran first; the collector is again
    in a state between two calls, and [Reachable <= Max] is kept. *)
Theorem gc_NewObject_heads_the_list vm h l fuel kind :
  gc_wf vm h l → (length l < fuel)%nat →
  Z.of_nat (length l) * 2 < size_t_max →
  gc_Reachable vm ≤ gc_Max vm →
  let l0 := if gc_Reachable vm =? gc_Max vm then filter (on_stack vm) l
            else l in
  ∃ vm' h',
    gc_NewObject fuel vm kind h = Some (Ok ((vm', Some (next_obj h)), h'))
    ∧ objs h !! next_obj h = None
    ∧ objs h' !! next_obj h = Some (mkObject kind false (head l0))
    ∧ gc_wf vm' h' (next_obj h :: l0)
    ∧ (∀ a, a ∈ l → a ∉ l0 → objs h' !! a = None)
    ∧ gc_Stack vm' = gc_Stack vm ∧ gc_StackSize vm' = gc_StackSize vm
    ∧ gc_Reachable vm' ≤ gc_Max vm'.
Proof.
  intros Hwf Hfuel Hdouble Hmax. cbv zeta.
  pose proof Hwf as (_ & _ & Hreach & _).
  destruct (gc_NewObject_spec vm h l fuel kind Hwf Hfuel)
    as (vm' & h' & Hrun & Hwf' & Hnew & Hnew' & Hdrop & Hst & Hsz & Hle).
  { assert (1 < size_t_max) by done. lia. }
  exists vm', h'. split_and!; try done. by apply Hle.
Qed.

Lemma gc_NewObject_heads_the_list_witness :
  gc_wf example_gc example_objects [1; 0]%nat ∧ (2 < 3)%nat
  ∧ Z.of_nat 2 * 2 < size_t_max
  ∧ gc_Reachable example_gc ≤ gc_Max example_gc
  ∧ ∃ vm' h',
      gc_NewObject 3 example_gc object_Num example_objects
      = Some (Ok ((vm', Some 2%nat), h'))
      ∧ objs example_objects !! 2%nat = None
      ∧ objs h' !! 2%nat = Some (mkObject object_Num false (Some 1%nat))
      ∧ gc_wf vm' h' [2; 1; 0]%nat
      ∧ (∀ a, a ∈ [1; 0]%nat → a ∉ [1; 0]%nat → objs h' !! a = None)
      ∧ gc_Stack vm' = gc_Stack example_gc
      ∧ gc_StackSize vm' = gc_StackSize example_gc
      ∧ gc_Reachable vm' ≤ gc_Max vm'.
Proof.
  assert (Hfuel : (2 < 3)%nat) by lia.
  assert (Hdouble : Z.of_nat 2 * 2 < size_t_max) by done.
  assert (Hmax : gc_Reachable example_gc ≤ gc_Max example_gc)
    by (simpl; lia).
  exact (conj example_gc_wf (conj Hfuel (conj Hdouble (conj Hmax
           (gc_NewObject_heads_the_list example_gc example_objects [1; 0]%nat
              3 object_Num example_gc_wf Hfuel Hdouble Hmax))))).
Defined.

(** X10.  [gc_Free] on such a collector frees every object of the
    list, whether the stack referenced it or not, touches nothing else,
    and leaves an empty collector: no root, an empty stack,
    [Reachable = 0], [Max = 8]. *)
Theorem gc_Free_frees_every_object vm h l fuel :
  gc_wf vm h l → (length l < fuel)%nat →
  ∃ vm' h',
    gc_Free fuel vm h = Some (Ok (vm', h'))
    ∧ (∀ a, a ∈ l → objs h' !! a = None)
    ∧ (∀ a, a ∉ l → objs h' !! a = objs h !! a)
    ∧ gc_Root vm' = None ∧ gc_StackSize vm' = 0%nat
    ∧ gc_Reachable vm' = 0 ∧ gc_Max vm' = 8.
Proof.
  intros Hwf Hfuel.
  destruct (gc_Free_spec vm h l fuel Hwf Hfuel)
    as (vm' & h' & Hrun & _ & Hroot & Hreach & Hmax & Hsz & Hdrop & Hfr).
  exists vm', h'. split_and!; done.
Qed.

Lemma gc_Free_frees_every_object_witness :
  gc_wf example_gc example_objects [1; 0]%nat ∧ (2 < 3)%nat
  ∧ ∃ vm' h',
      gc_Free 3 example_gc example_objects = Some (Ok (vm', h'))
      ∧ (∀ a, a ∈ [1; 0]%nat → objs h' !! a = None)
      ∧ (∀ a, a ∉ [1; 0]%nat → objs h' !! a = objs example_objects !! a)
      ∧ gc_Root vm' = None ∧ gc_StackSize vm' = 0%nat
      ∧ gc_Reachable vm' = 0 ∧ gc_Max vm' = 8.
Proof.
  assert (Hfuel : (2 < 3)%nat) by lia.
  exact (conj example_gc_wf (conj Hfuel
           (gc_Free_frees_every_object example_gc example_objects [1; 0]%nat
              3 example_gc_wf Hfuel))).
Defined.

(** X11.  [gc_Pop] does not undo [gc_Push]: it reads the slot at index
    [StackSize], one above the value pushed last.  After a push onto a
    stack of [n < 256] pointers the value sits in slot [n], and the pop
    that follows returns what slot [n + 1] held before the push; with
    [n = 255] that slot is outside the array. *)
Theorem gc_Pop_reads_above_the_top vm v :
  length (gc_Stack vm) = 256%nat → (gc_StackSize vm < 256)%nat →
  ∃ vm1,
    gc_Push vm v = Returns vm1
    ∧ gc_Stack vm1 !! gc_StackSize vm = Some v
    ∧ gc_Pop vm1
      = match gc_Stack vm !! S (gc_StackSize vm) with
        | Some x => Returns (set_StackSize (gc_StackSize vm) vm1, x)
        | None => Undefined OutOfBounds
        end
    ∧ (gc_StackSize vm = 255%nat ↔ gc_Stack vm !! S (gc_StackSize vm) = None).
Proof.
  intros Hlen Hn. unfold gc_Push.
  rewrite decide_False by lia. rewrite decide_True by lia.
  eexists. split; [done|].
  unfold gc_Pop. cbn [gc_Stack gc_StackSize gc_Reachable gc_Max gc_Root].
  rewrite decide_False by lia.
  split_and!.
  - apply list_lookup_insert_eq. lia.
  - rewrite list_lookup_insert_ne by lia.
    destruct (gc_Stack vm !! S (gc_StackSize vm)); [|done].
    unfold set_StackSize. simpl. by rewrite Nat.sub_0_r.
  - rewrite lookup_ge_None. lia.
Qed.

Lemma gc_Pop_reads_above_the_top_witness :
  length (gc_Stack example_gc) = 256%nat ∧ (gc_StackSize example_gc < 256)%nat
  ∧ ∃ vm1,
      gc_Push example_gc (Some 1%nat) = Returns vm1
      ∧ gc_Stack vm1 !! gc_StackSize example_gc = Some (Some 1%nat)
      ∧ gc_Pop vm1
        = match gc_Stack example_gc !! S (gc_StackSize example_gc) with
          | Some x => Returns (set_StackSize (gc_StackSize example_gc) vm1, x)
          | None => Undefined OutOfBounds
          end
      ∧ (gc_StackSize example_gc = 255%nat
         ↔ gc_Stack example_gc !! S (gc_StackSize example_gc) = None).
Proof.
  assert (Hlen : length (gc_Stack example_gc) = 256%nat) by reflexivity.
  assert (Hn : (gc_StackSize example_gc < 256)%nat) by (simpl; lia).
  exact (conj Hlen (conj Hn
           (gc_Pop_reads_above_the_top example_gc (Some 1%nat) Hlen Hn))).
Defined.

(* ===================================================================== *)
(** ** The symbol table on well-formed tables *)
(* ===================================================================== *)

(** [Size] and [Cap] after [map_Set], read off any run that returns. *)
Lemma map_Set_Size_Cap m key v h b m' h' :
  map_Set m key v h = Ok ((b, m'), h') →
  map_Size m' = (if b then map_Size m else S (map_Size m))
  ∧ map_Cap m' = (if load_factor_ge_1 (map_Size m) (map_Cap m)
                  then map_Cap m * 2 else map_Cap m)%nat.
Proof.
  unfold map_Set. munfold.
  assert (Hpre : ∀ r, (if load_factor_ge_1 (map_Size m) (map_Cap m)
                       then map_rehash m else λ s, Ok (m, s)) h = r →
            match r with
            | Ok (m1, _) =>
                map_Size m1 = map_Size m
                ∧ map_Cap m1 = (if load_factor_ge_1 (map_Size m) (map_Cap m)
                                then map_Cap m * 2 else map_Cap m)%nat
            | Fault _ => True
            end).
  { intros r <-. destruct (load_factor_ge_1 _ _); [|done].
    unfold map_rehash. munfold.
    by destruct (rehash_buckets _ _ _ _ h) as [[??]|]. }
  specialize (Hpre _ eq_refl).
  destruct ((if load_factor_ge_1 (map_Size m) (map_Cap m)
             then map_rehash m else λ s, Ok (m, s)) h) as [[m1 h1]|]; [|done].
  destruct Hpre as [Hsz Hcap].
  destruct (map_hash key (map_Cap m1) h1) as [[i h2]|]; [|done].
  destruct (array_get (map_Buckets m1) i h2) as [[c h3]|]; [|done].
  destruct (chain_assign c key v h3) as [[[c'|] h4]|]; [| |done].
  - destruct (array_set (map_Buckets m1) i c' h4) as [[bs h5]|]; [|done].
    intros [= <- <- <-]. simpl. by rewrite Hsz, Hcap.
  - destruct (array_set (map_Buckets m1) i _ h4) as [[bs h5]|]; [|done].
    intros [= <- <- <-]. simpl. by rewrite Hsz, Hcap.
Qed.

Lemma map_Free_spec h m :
  map_wf h m →
  ∃ h', map_Free m h = Ok (mkMap None (map_Size m) (map_Cap m), h')
        ∧ (∀ q, q ∈ key_pointers m → cells h' !! q = None)
        ∧ (∀ q, q ∉ key_pointers m → cells h' !! q = cells h !! q).
Proof.
  intros Hwf. pose proof Hwf as (bs & Hbs & Hcap & Hlen & Hpl & Hnd).
  assert (Hents : entries m = concat bs) by (unfold entries; by rewrite Hbs).
  assert (Hflat : concat (take (map_Cap m) (drop 0 bs)) = entries m).
  { by rewrite drop_0, Hents, <- (placed_concat_take h _ _ Hcap Hpl). }
  assert (Hkeyed : Forall (λ e, is_Some (abs_entry h e)) (entries m)).
  { apply Forall_forall. intros e He. rewrite Hents in He.
    apply elem_of_concat in He as (c & Hc & He).
    apply list_elem_of_lookup in Hc as [i Hi]. by eapply placed_keyed. }
  rewrite <- Hents in Hnd.
  destruct (free_chain_spec (entries m) h) as (h' & Hfree & Hout & Hin).
  { intros q Hq. by eapply wf_pointer_live. }
  { by eapply keyed_NoDup_pointers. }
  exists h'. split; [|done].
  unfold map_Free. munfold.
  rewrite (free_buckets_flat m bs Hbs) by lia. by rewrite Hflat, Hfree.
Qed.

(** X12.  [map_Get] on a well-formed table in a heap of C strings, with
    a key whose text is [t]: it returns the value bound to [t] when the
    table binds it, and not-found otherwise; it compares texts, so any
    pointer to an equal text finds the binding; the table and the heap
    are left as they were. *)
Theorem map_Get_reads_the_binding h m k t :
  heap_c_strings h → map_wf h m → cells h !! k = Some t →
  ∃ r, map_Get m (Some k) h = Ok (r, h)
       ∧ (∀ v, r = Some v ↔ ∃ p, content h m !! t = Some (p, v))
       ∧ (r = None ↔ content h m !! t = None).
Proof.
  intros Hcs Hwf Hk. rewrite (map_Get_spec h m k t Hcs Hwf Hk).
  eexists. split; [done|]. destruct (content h m !! t) as [[p v0]|]; simpl.
  - split; [|done]. intros v. split.
    + intros [= <-]. by exists p.
    + by intros (q & [= _ <-]).
  - split; [|done]. intros v. split; [done|]. by intros (? & ?).
Qed.

Lemma map_Get_reads_the_binding_witness :
  heap_c_strings example_heap
  ∧ map_wf example_heap example_dst ∧ cells example_heap !! 2%nat = Some "a"
  ∧ ∃ r, map_Get example_dst (Some 2%nat) example_heap = Ok (r, example_heap)
         ∧ (∀ v, r = Some v
                 ↔ ∃ p, content example_heap example_dst !! "a" = Some (p, v))
         ∧ (r = None ↔ content example_heap example_dst !! "a" = None).
Proof.
  assert (H0 : heap_c_strings example_heap)
    by (apply c_strings_check_sound; vm_compute; reflexivity).
  assert (H1 : map_wf example_heap example_dst)
    by (apply wf_check_sound; vm_compute; reflexivity).
  assert (H2 : cells example_heap !! 2%nat = Some "a")
    by (vm_compute; reflexivity).
  exact (conj H0 (conj H1 (conj H2
           (map_Get_reads_the_binding example_heap example_dst 2 "a"
              H0 H1 H2)))).
Defined.

(** X13.  [map_Set] on a well-formed table in a heap of C strings, with
    a key whose text is
    [t]: it does not fault and leaves the heap as it was; it returns true
    exactly when [t] was bound; afterwards [t] is bound to the new value,
    every other binding is as before, and [map_Get] with the same key
    returns the new value.  [Size] grows by one for a new key only, [Cap]
    doubles exactly when the table was full on entry, [Size] keeps
    counting the entries and never gets above [Cap]. *)
Theorem map_Set_binds_the_key h m k t v :
  heap_c_strings h → map_wf h m → cells h !! k = Some t →
  ∃ b m',
    map_Set m (Some k) v h = Ok ((b, m'), h)
    ∧ map_wf h m'
    ∧ (b = true ↔ is_Some (content h m !! t))
    ∧ snd <$> content h m' = <[t := v]> (snd <$> content h m)
    ∧ map_Get m' (Some k) h = Ok (Some v, h)
    ∧ map_Size m' = (if b then map_Size m else S (map_Size m))
    ∧ map_Cap m' = (if load_factor_ge_1 (map_Size m) (map_Cap m)
                    then map_Cap m * 2 else map_Cap m)%nat
    ∧ (length (entries m) = map_Size m → length (entries m') = map_Size m')
    ∧ ((map_Size m ≤ map_Cap m)%nat → (map_Size m' ≤ map_Cap m')%nat).
Proof.
  intros Hcs Hwf Hk.
  destruct (map_Set_content h m k t v Hcs Hwf Hk)
    as (b & m' & Hrun & Hwf' & Hb & Hcont & _).
  destruct (map_Set_entries h m k t v Hcs Hwf Hk)
    as (b2 & m2 & Hrun2 & _ & Hents).
  rewrite Hrun in Hrun2. injection Hrun2 as <- <-.
  destruct (map_Set_Size_Cap _ _ _ _ _ _ _ Hrun) as [Hsz Hcap].
  exists b, m'. split_and!; try done.
  - rewrite Hb. by rewrite bool_decide_eq_true.
  - rewrite Hcont. unfold ins_abs. by rewrite fmap_insert.
  - rewrite (map_Get_spec h m' k t Hcs Hwf' Hk), Hcont. unfold ins_abs. simpl.
    by rewrite lookup_insert_eq.
  - intros Hlen. rewrite Hsz. destruct b.
    + destruct Hents as (q & v0 & rest & H1 & H2 & _).
      by rewrite H2, <- Hlen, H1.
    + destruct Hents as [H1 _]. rewrite H1. simpl. by rewrite Hlen.
  - intros Hle. rewrite Hsz, Hcap. destruct Hwf as (_ & _ & Hnz & _).
    unfold load_factor_ge_1. rewrite decide_False by done.
    destruct (bool_decide (map_Cap m ≤ map_Size m)%nat) eqn:E;
      [apply bool_decide_eq_true in E|apply bool_decide_eq_false in E];
      clear Hb Hents; destruct b; lia.
Qed.

Lemma map_Set_binds_the_key_witness :
  heap_c_strings example_heap
  ∧ map_wf example_heap example_dst ∧ cells example_heap !! 3%nat = Some "c"
  ∧ ∃ b m',
      map_Set example_dst (Some 3%nat) 7 example_heap
      = Ok ((b, m'), example_heap)
      ∧ map_wf example_heap m'
      ∧ (b = true ↔ is_Some (content example_heap example_dst !! "c"))
      ∧ snd <$> content example_heap m'
        = <["c" := 7]> (snd <$> content example_heap example_dst)
      ∧ map_Get m' (Some 3%nat) example_heap = Ok (Some 7, example_heap)
      ∧ map_Size m' = (if b then map_Size example_dst
                       else S (map_Size example_dst))
      ∧ map_Cap m' = (if load_factor_ge_1 (map_Size example_dst)
                                          (map_Cap example_dst)
                      then map_Cap example_dst * 2
                      else map_Cap example_dst)%nat
      ∧ (length (entries example_dst) = map_Size example_dst →
         length (entries m') = map_Size m')
      ∧ ((map_Size example_dst ≤ map_Cap example_dst)%nat →
         (map_Size m' ≤ map_Cap m')%nat).
Proof.
  assert (H0 : heap_c_strings example_heap)
    by (apply c_strings_check_sound; vm_compute; reflexivity).
  assert (H1 : map_wf example_heap example_dst)
    by (apply wf_check_sound; vm_compute; reflexivity).
  assert (H2 : cells example_heap !! 3%nat = Some "c")
    by (vm_compute; reflexivity).
  exact (conj H0 (conj H1 (conj H2
           (map_Set_binds_the_key example_heap example_dst 3 "c" 7
              H0 H1 H2)))).
Defined.

(** X14.  [map_rehash] on a well-formed table doubles [Cap], keeps
    [Size], and moves every entry to the bucket its key hashes to under
    the new capacity: the table is well formed again and binds the same
    key texts to the same key pointers and values. *)
Theorem map_rehash_keeps_the_bindings h m :
  map_wf h m →
  ∃ m', map_rehash m h = Ok (m', h)
        ∧ map_wf h m'
        ∧ content h m' = content h m
        ∧ map_Cap m' = (map_Cap m * 2)%nat
        ∧ map_Size m' = map_Size m.
Proof.
  intros Hwf.
  destruct (map_rehash_spec h m Hwf) as (m' & Hrun & Hwf' & Hperm & Hcap & Hsz).
  exists m'. split_and!; try done.
  apply content_perm; [by apply wf_NoDup_texts|done].
Qed.

Lemma map_rehash_keeps_the_bindings_witness :
  map_wf example_heap example_dst
  ∧ ∃ m', map_rehash example_dst example_heap = Ok (m', example_heap)
          ∧ map_wf example_heap m'
          ∧ content example_heap m' = content example_heap example_dst
          ∧ map_Cap m' = (map_Cap example_dst * 2)%nat
          ∧ map_Size m' = map_Size example_dst.
Proof.
  assert (H1 : map_wf example_heap example_dst)
    by (apply wf_check_sound; vm_compute; reflexivity).
  exact (conj H1 (map_rehash_keeps_the_bindings example_heap example_dst H1)).
Defined.

(** X15.  [map_Free] on a well-formed table releases the key text of
    every entry, leaves every other block alone and sets [Buckets] to
    NULL while [Cap] keeps its value; a second [map_Free] of the same
    table therefore reads through the NULL array. *)
Theorem map_Free_releases_every_key h m :
  map_wf h m →
  ∃ m' h',
    map_Free m h = Ok (m', h')
    ∧ map_Buckets m' = None ∧ map_Cap m' = map_Cap m
    ∧ (∀ q, q ∈ key_pointers m → cells h' !! q = None)
    ∧ (∀ q, q ∉ key_pointers m → cells h' !! q = cells h !! q)
    ∧ map_Free m' h' = Fault NullDeref.
Proof.
  intros Hwf. destruct (map_Free_spec h m Hwf) as (h' & Hrun & Hin & Hout).
  eexists _, h'. split; [exact Hrun|]. split_and!; try done.
  destruct Hwf as (_ & _ & Hnz & _). unfold map_Free. munfold.
  cbn [map_Cap map_Buckets]. destruct (map_Cap m); done.
Qed.

Lemma map_Free_releases_every_key_witness :
  map_wf example_heap example_dst
  ∧ ∃ m' h',
      map_Free example_dst example_heap = Ok (m', h')
      ∧ map_Buckets m' = None ∧ map_Cap m' = map_Cap example_dst
      ∧ (∀ q, q ∈ key_pointers example_dst → cells h' !! q = None)
      ∧ (∀ q, q ∉ key_pointers example_dst →
              cells h' !! q = cells example_heap !! q)
      ∧ map_Free m' h' = Fault NullDeref.
Proof.
  assert (H1 : map_wf example_heap example_dst)
    by (apply wf_check_sound; vm_compute; reflexivity).
  exact (conj H1 (map_Free_releases_every_key example_heap example_dst H1)).
Defined.

(* ===================================================================== *)
(** ** What the resolver reports *)
(* ===================================================================== *)

(** X19.  Once the state is not OK, [Resolver_Program] changes nothing:
    on any registry it returns the resolver, the registry and the heap it
    was given, so the first error found while walking the definitions is
    the one reported. *)
Theorem Resolver_Program_after_error_is_a_no_op r (defs : node Def) h :
  Resolver_State r ≠ Resolution_OK →
  Resolver_Program r defs h = Ok ((r, defs), h).
Proof.
  intros Hst. unfold Resolver_Program.
  assert (Hno : is_OK r = false) by (unfold is_OK; by rewrite bool_decide_eq_false).
  induction defs as [|l IHl k ht d rt IHr]; [done|].
  cbn [tree_Iter]. munfold. rewrite IHl.
  unfold Resolver_insertGlobal at 1. rewrite Hno. cbn [negb]. munfold.
  by rewrite IHr.
Qed.

Lemma Resolver_Program_after_error_is_a_no_op_witness :
  Resolver_State (set_error Resolution_NotFound (span1 4 5) None
                    (Resolver_memory 8)) ≠ Resolution_OK
  ∧ Resolver_Program
      (set_error Resolution_NotFound (span1 4 5) None (Resolver_memory 8))
      (tree_of_entries [(1, mkDef (span1 0 1) Null Body_Val Expr_Unit);
                        (2, mkDef (span1 6 7) Null Body_Val
                              (Expr_Unresolved (span1 10 11)))])
      heap_empty
    = Ok ((set_error Resolution_NotFound (span1 4 5) None (Resolver_memory 8),
           tree_of_entries [(1, mkDef (span1 0 1) Null Body_Val Expr_Unit);
                            (2, mkDef (span1 6 7) Null Body_Val
                                  (Expr_Unresolved (span1 10 11)))]),
          heap_empty).
Proof.
  assert (H : Resolver_State (set_error Resolution_NotFound (span1 4 5) None
                                (Resolver_memory 8)) ≠ Resolution_OK)
    by done.
  exact (conj H (Resolver_Program_after_error_is_a_no_op _ _ heap_empty H)).
Defined.

Lemma globals_ok_Init r0 src :
  (8 ≤ map_Cap (Resolver_Globals r0))%nat →
  (8 ≤ map_Cap (Resolver_Locals r0))%nat →
  (8 ≤ map_Cap (Resolver_Params r0))%nat →
  globals_ok (src_File src) ∅ (Resolver_Init r0 src) heap_empty.
Proof.
  intros HG HL HP.
  destruct (map_Default_wf heap_empty (Resolver_Globals r0) HG) as [Hwf Hc].
  repeat split; try done.
  cbn [Resolver_Globals Resolver_Init]. rewrite Hc. apply fmap_empty.
Qed.

(** X20.  A definition whose name span yields a text that is already
    bound in Globals: the
    resolver stops with state Duplicate, the span of the later
    definition's name and the text of the name; the definition is left as
    it is.  The [map_Set] that detects the duplicate has by then bound the
    name to the key of the later definition. *)
Theorem Resolver_insertGlobal_reports_duplicate f G r h key d t id :
  globals_ok f G r h →
  span_text f (Def_Name d) = Some t → G !! t = Some id →
  ∃ r' h',
    Resolver_insertGlobal r key d h = Ok ((r', d), h')
    ∧ report r' h' = (Resolution_Duplicate, Def_Name d, Some t)
    ∧ map_wf h' (Resolver_Globals r')
    ∧ snd <$> content h' (Resolver_Globals r') = <[t := key]> G.
Proof.
  intros Hg Ht HG.
  pose proof (globals_ok_is_OK _ _ _ _ Hg) as HOK.
  destruct Hg as (Hst & Hf & Hwf & Hc & [Hok Hcs] & Hl & Hp).
  set (p := next h).
  set (h1 := mkHeap (<[p := t]> (cells h)) (S p)).
  assert (Hfresh : cells h !! p = None) by (apply Hok; unfold p; lia).
  assert (Hp1 : cells h1 !! p = Some t) by apply lookup_insert_eq.
  destruct (map_wf_frame h h1 (Resolver_Globals r)) as [Hwf1 Hc1]; [|done|].
  { intros q Hq. simpl. rewrite lookup_insert_ne; [done|].
    intros <-. destruct (wf_pointer_live _ _ _ Hwf Hq) as [? Hq'].
    congruence. }
  assert (Hbound : is_Some (content h1 (Resolver_Globals r) !! t)).
  { rewrite Hc1. rewrite <- Hc, lookup_fmap in HG.
    destruct (content h (Resolver_Globals r) !! t); [by eexists|done]. }
  assert (Hcs1 : heap_c_strings h1)
    by (apply heap_c_strings_insert; [done|by eapply span_text_nul_free]).
  destruct (map_Set_content h1 _ p t key Hcs1 Hwf1 Hp1)
    as (b & m' & Hset & Hwf' & Hb & Hcont & _).
  rewrite bool_decide_eq_true_2 in Hb by done. subst b.
  eexists _, h1. split; [|split; [|split]].
  - unfold Resolver_insertGlobal. rewrite HOK. cbn [negb]. munfold.
    rewrite (source_Text_spec _ _ t) by (by rewrite Hf).
    fold p. fold h1. rewrite Hset. reflexivity.
  - unfold report. simpl. by rewrite lookup_insert_eq.
  - done.
  - cbn [Resolver_Globals set_error set_Globals].
    rewrite Hcont. unfold ins_abs. rewrite fmap_insert. simpl.
    by rewrite Hc1, Hc.
Qed.

(** The second of two definitions named [k]. *)
Lemma Resolver_insertGlobal_reports_duplicate_witness :
  let f := ("k = 1" ++ nl ++ "k = 2" ++ nl)%string in
  let d := mkDef (mkSpan (mkLoc 6 2 1) (mkLoc 7 2 2)) Null Body_Val
             (Expr_Num (mkSpan (mkLoc 10 2 5) (mkLoc 11 2 6))) in
  ∃ r h,
    globals_ok f (<["k" := 1]> ∅) r h
    ∧ span_text f (Def_Name d) = Some "k"
    ∧ (<["k" := 1]> ∅ : gmap string Z) !! "k" = Some 1
    ∧ ∃ r' h',
        Resolver_insertGlobal r 2 d h = Ok ((r', d), h')
        ∧ report r' h' = (Resolution_Duplicate, Def_Name d, Some "k")
        ∧ map_wf h' (Resolver_Globals r')
        ∧ snd <$> content h' (Resolver_Globals r')
          = <["k" := 2]> (<["k" := 1]> ∅).
Proof.
  cbv zeta.
  destruct (Resolver_insertGlobal_parameterless
              ("k = 1" ++ nl ++ "k = 2" ++ nl)%string ∅
              (Resolver_Init (Resolver_memory 8)
                 (source_Init ("k = 1" ++ nl ++ "k = 2" ++ nl)%string))
              heap_empty 1
              (mkDef (span1 0 1) Null Body_Val (Expr_Num (span1 4 5)))
              "k" (Expr_Num (span1 4 5)))
    as (r & h & _ & Hg); [|done|done|done|done|].
  { apply (globals_ok_Init (Resolver_memory 8)); simpl; lia. }
  assert (Ht : span_text ("k = 1" ++ nl ++ "k = 2" ++ nl)%string
                 (mkSpan (mkLoc 6 2 1) (mkLoc 7 2 2)) = Some "k") by done.
  assert (HG : (<["k" := 1]> ∅ : gmap string Z) !! "k" = Some 1)
    by apply lookup_insert_eq.
  exists r, h.
  exact (conj Hg (conj Ht (conj HG
           (Resolver_insertGlobal_reports_duplicate _ _ r h 2
              (mkDef (mkSpan (mkLoc 6 2 1) (mkLoc 7 2 2)) Null Body_Val
                 (Expr_Num (mkSpan (mkLoc 10 2 5) (mkLoc 11 2 6))))
              "k" 1 Hg Ht HG)))).
Defined.

(** X21.  A reference whose span yields a name that neither table binds
    (Locals empty,
    the name not in Globals): the resolver stops with state NotFound, the
    span of the reference and the text of the name; the reference stays
    unresolved and the Globals table is not changed. *)
Theorem Resolver_Expr_reports_missing_name f G r h sp t :
  globals_ok f G r h → locals_empty r →
  span_text f sp = Some t → G !! t = None →
  ∃ r' h',
    Resolver_Expr r (Expr_Unresolved sp) h = Ok ((r', Expr_Unresolved sp), h')
    ∧ report r' h' = (Resolution_NotFound, sp, Some t)
    ∧ Resolver_Globals r' = Resolver_Globals r
    ∧ map_wf h' (Resolver_Globals r')
    ∧ snd <$> content h' (Resolver_Globals r') = G.
Proof.
  intros (Hst & Hf & Hwf & Hc & [Hok Hcs] & Hl & Hp) (n & Hn & Hloc) Ht HG.
  set (p := next h).
  set (h1 := mkHeap (<[p := t]> (cells h)) (S p)).
  assert (Hfresh : cells h !! p = None) by (apply Hok; unfold p; lia).
  assert (Hp1 : cells h1 !! p = Some t) by apply lookup_insert_eq.
  destruct (map_wf_frame h h1 (Resolver_Globals r)) as [Hwf1 Hc1]; [|done|].
  { intros q Hq. simpl. rewrite lookup_insert_ne; [done|].
    intros <-. destruct (wf_pointer_live _ _ _ Hwf Hq) as [? Hq'].
    congruence. }
  assert (Hlook : snd <$> content h1 (Resolver_Globals r) !! t = None).
  { rewrite Hc1, <- lookup_fmap, Hc. exact HG. }
  assert (Hcs1 : heap_c_strings h1)
    by (apply heap_c_strings_insert; [done|by eapply span_text_nul_free]).
  eexists _, h1. split; [|split; [|split; [|split]]].
  - cbn [Resolver_Expr]. munfold.
    rewrite (source_Text_spec _ _ t) by (by rewrite Hf).
    fold p. fold h1. rewrite Hloc.
    rewrite (map_Get_empty n p t h1 Hn Hp1).
    rewrite (map_Get_spec h1 _ p t Hcs1 Hwf1 Hp1), Hlook. reflexivity.
  - unfold report. simpl. by rewrite lookup_insert_eq.
  - done.
  - done.
  - simpl. by rewrite Hc1.
Qed.

(** The reference [x] in [k = x], before anything is defined. *)
Lemma Resolver_Expr_reports_missing_name_witness :
  ∃ r,
    globals_ok ("k = x" ++ nl)%string ∅ r heap_empty ∧ locals_empty r
    ∧ span_text ("k = x" ++ nl)%string (span1 4 5) = Some "x"
    ∧ (∅ : gmap string Z) !! "x" = None
    ∧ ∃ r' h',
        Resolver_Expr r (Expr_Unresolved (span1 4 5)) heap_empty
        = Ok ((r', Expr_Unresolved (span1 4 5)), h')
        ∧ report r' h' = (Resolution_NotFound, span1 4 5, Some "x")
        ∧ Resolver_Globals r' = Resolver_Globals r
        ∧ map_wf h' (Resolver_Globals r')
        ∧ snd <$> content h' (Resolver_Globals r') = ∅.
Proof.
  destruct (Resolver_insertLocals_Null ("k = x" ++ nl)%string ∅
              (Resolver_Init (Resolver_memory 8) (source_Init ("k = x" ++ nl)%string))
              heap_empty)
    as (r & _ & Hg & Hl).
  { apply (globals_ok_Init (Resolver_memory 8)); simpl; lia. }
  assert (Ht : span_text ("k = x" ++ nl)%string (span1 4 5) = Some "x") by done.
  assert (HG : (∅ : gmap string Z) !! "x" = None) by apply lookup_empty.
  exists r.
  exact (conj Hg (conj Hl (conj Ht (conj HG
           (Resolver_Expr_reports_missing_name _ _ r heap_empty (span1 4 5)
              "x" Hg Hl Ht HG))))).
Defined.

(* ===================================================================== *)
(** ** Relations that every parser of the grammar keeps *)
(* ===================================================================== *)

Section Respects.
Variable R : State → State → Prop.
Hypothesis HR : step_closed R.

Lemma R_steps (f : Source → Source) (g : Source → Source) st :
  R st (on_Src f st) → (∀ st1, R st1 (on_Src g st1)) →
  R st (on_Src (λ s, g (f s)) st).
Proof.
  intros Hf Hg. eapply (sc_trans R HR); [exact Hf|]. apply (Hg (on_Src f st)).
Qed.

Lemma R_skipSpaces_loop n : ∀ st, R st (on_Src (skipSpaces_loop n) st).
Proof.
  induction n as [|n IH]; intros [s u]; [apply (sc_refl R HR)|].
  unfold on_Src. cbn [st_Src st_nextUID skipSpaces_loop].
  destruct (_ || _); [apply (sc_refl R HR)|].
  eapply (sc_trans R HR);
    [apply (sc_Eat R HR (mkState s u) (source_Peek s))|].
  apply (IH (on_Src (λ s0, source_Eat s0 (source_Peek s)) (mkState s u))).
Qed.

Lemma R_SkipSpaces st : R st (on_Src source_SkipSpaces st).
Proof. destruct st as [s u]. apply (R_skipSpaces_loop _ (mkState s u)). Qed.

Lemma R_word_loop w : ∀ st, R st (on_Src (word_loop w) st).
Proof.
  induction w as [|c w IH]; intros [s u]; [apply (sc_refl R HR)|].
  unfold on_Src. cbn [st_Src st_nextUID word_loop].
  pose proof (sc_Eat R HR (mkState s u) (char_of_ascii c)) as Heat.
  destruct (src_Failed _); [exact Heat|].
  eapply (sc_trans R HR); [exact Heat|].
  apply (IH (on_Src (λ s0, source_Eat s0 (char_of_ascii c)) (mkState s u))).
Qed.

Lemma R_lowercase_loop n : ∀ st, R st (on_Src (lowercase_loop n) st).
Proof.
  induction n as [|n IH]; intros [s u]; [apply (sc_refl R HR)|].
  unfold on_Src. cbn [st_Src st_nextUID lowercase_loop].
  destruct (_ && _); [apply (sc_refl R HR)|].
  eapply (sc_trans R HR);
    [apply (sc_Eat R HR (mkState s u) (source_Peek s))|].
  apply (IH (on_Src (λ s0, source_Eat s0 (source_Peek s)) (mkState s u))).
Qed.

Section Engine.
Context {A : Type}.
Implicit Types (p : Parser A) (ps : list (Parser A)).

Lemma respects_word w : respects R (word (A:=A) w).
Proof. intros a st a' st' [= _ <-]. apply R_word_loop. Qed.

Lemma respects_soi : respects R (soi (A:=A)).
Proof.
  intros a st a' st' [= _ <-].
  case_decide; [apply (sc_refl R HR)|apply (sc_Failed R HR)].
Qed.

Lemma respects_eoi : respects R (eoi (A:=A)).
Proof.
  intros a st a' st' [= _ <-].
  case_decide; [apply (sc_refl R HR)|apply (sc_Failed R HR)].
Qed.

Lemma respects_range from to : respects R (range (A:=A) from to).
Proof.
  intros a st a' st'. unfold range.
  case_match; intros [= _ <-]; [apply (sc_Failed R HR)|apply (sc_Eat R HR)].
Qed.

Lemma respects_parseAll ps : Forall (respects R) ps → respects R (parseAll ps).
Proof.
  induction 1 as [|p ps Hp Hps IH]; intros a st a' st'; simpl.
  - intros [= _ <-]. apply (sc_refl R HR).
  - destruct (p a st) as [[a1 st1]|] eqn:E; [|done].
    specialize (Hp _ _ _ _ E).
    destruct (failed st1); [by intros [= _ <-]|].
    intros Hrest. apply IH in Hrest.
    eapply (sc_trans R HR); [exact Hp|].
    eapply (sc_trans R HR); [|exact Hrest].
    destruct (_ && _); [apply R_SkipSpaces|apply (sc_refl R HR)].
Qed.

Lemma respects_parseAny_loop ps :
  Forall (respects R) ps →
  ∀ a st0 st a' st',
    R st0 st → parseAny_loop (st_Loc st0) ps a st = Some (a', st') →
    R st0 st'.
Proof.
  induction 1 as [|p ps Hp Hps IH]; intros a st0 st a' st' H0; simpl.
  - intros [= _ <-]. eapply (sc_trans R HR); [exact H0|apply (sc_Failed R HR)].
  - destruct (p a st) as [[a1 st1]|] eqn:E; [|done].
    specialize (Hp _ _ _ _ E).
    assert (H1 : R st0 st1) by (eapply (sc_trans R HR); eauto).
    destruct (failed st1); simpl; [|by intros [= _ <-]].
    apply IH. by apply (sc_Back R HR).
Qed.

Lemma respects_parseAny ps : Forall (respects R) ps → respects R (parseAny ps).
Proof.
  intros H a st a' st'. unfold parseAny.
  apply respects_parseAny_loop; [done|apply (sc_refl R HR)].
Qed.

Lemma respects_many fuel p : respects R p → respects R (many fuel p).
Proof.
  intros Hp. induction fuel as [|n IH]; intros a st a' st'; simpl; [done|].
  destruct (p a st) as [[a1 st1]|] eqn:E; [|done].
  specialize (Hp _ _ _ _ E).
  destruct (failed st1); [intros [= _ <-]; by apply (sc_Back R HR)|].
  intros Hrest. apply IH in Hrest.
  eapply (sc_trans R HR); [exact Hp|].
  eapply (sc_trans R HR); [|exact Hrest].
  destruct (negb _); [apply R_SkipSpaces|apply (sc_refl R HR)].
Qed.

Lemma respects_option p : respects R p → respects R (option_ p).
Proof.
  intros Hp a st a' st'. unfold option_.
  destruct (p a st) as [[a1 st1]|] eqn:E; [|done].
  specialize (Hp _ _ _ _ E).
  destruct (failed st1); intros [= _ <-]; [by apply (sc_Back R HR)|done].
Qed.

Lemma respects_parseAtom p : respects R p → respects R (parseAtom p).
Proof.
  intros Hp a st a' st'. unfold parseAtom.
  destruct (p a _) as [[a1 st1]|] eqn:E; [|done].
  specialize (Hp _ _ _ _ E). intros [= _ <-].
  eapply (sc_trans R HR); [apply (sc_Atom R HR st true)|].
  eapply (sc_trans R HR); [exact Hp|apply (sc_Atom R HR)].
Qed.

Lemma respects_parseEnd : respects R (parseEnd (A:=A)).
Proof.
  intros a st a' st'. unfold parseEnd.
  destruct (End_ a _) as [[a1 st1]|] eqn:E; [|done].
  assert (Hend : respects R (End_ (A:=A))).
  { unfold End_, any. apply respects_parseAny.
    repeat first [apply List.Forall_nil | apply List.Forall_cons];
      apply respects_word. }
  specialize (Hend _ _ _ _ E). intros [= _ <-].
  eapply (sc_trans R HR); [apply (sc_NewlineSensitive R HR st true)|].
  eapply (sc_trans R HR); [apply R_SkipSpaces|].
  eapply (sc_trans R HR); [exact Hend|apply (sc_NewlineSensitive R HR)].
Qed.

Lemma respects_at_field {B} (get : A → B) (set : B → A → A) (q : Parser B) :
  respects R q → respects R (at_field get set q).
Proof.
  intros Hq a st a' st'. unfold at_field.
  destruct (q (get a) st) as [[b st1]|] eqn:E; [|done].
  intros [= _ <-]. by eapply Hq.
Qed.
End Engine.

Lemma respects_parseLowercase : respects R parseLowercase.
Proof.
  intros sp [s u] sp' st'. unfold parseLowercase.
  cbn [st_Src st_nextUID].
  destruct (_ || _); intros [= _ <-]; [apply (sc_Failed R HR)|].
  eapply (sc_trans R HR);
    [apply (sc_Eat R HR (mkState s u) (source_Peek s))|].
  apply (R_lowercase_loop _
           (on_Src (λ s0, source_Eat s0 (source_Peek s)) (mkState s u))).
Qed.

Section GrammarRespects.
Variable (Expr_ : Parser Expr) (fuel : nat).
Hypothesis Expr_resp : respects R Expr_.

Local Ltac respects_each :=
  repeat first [ apply List.Forall_nil | apply List.Forall_cons ];
  try apply respects_word.

Lemma respects_Arg : respects R (Arg Expr_).
Proof.
  intros sl st sl' st'. unfold Arg.
  destruct (Expr_ _ st) as [[a st1]|] eqn:E; [|done].
  specialize (Expr_resp _ _ _ _ E).
  destruct (failed st1); by intros [= _ <-].
Qed.

Lemma respects_Args : respects R (Args Expr_ fuel).
Proof.
  unfold Args, all. cbv zeta. apply respects_parseAny. respects_each.
  - apply respects_parseAll. respects_each.
  - apply respects_parseAll. respects_each.
    + apply respects_Arg.
    + apply respects_many, respects_parseAll. respects_each.
      apply respects_Arg.
Qed.

Lemma respects_Expr_ref : respects R Expr_ref.
Proof.
  intros e st e' st'. unfold Expr_ref.
  destruct (parseLowercase _ st) as [[sp st1]|] eqn:E; [|done].
  pose proof (respects_parseLowercase _ _ _ _ E).
  destruct (failed st1); by intros [= _ <-].
Qed.

Lemma respects_Expr_paren : respects R (Expr_paren Expr_).
Proof.
  unfold Expr_paren. apply respects_parseAll. respects_each.
  exact Expr_resp.
Qed.

Lemma respects_Expr_app : respects R (Expr_app Expr_ fuel).
Proof.
  intros e st e' st'. unfold Expr_app. cbv zeta.
  match goal with |- context [parseAll ?ps ?fr st] =>
    destruct (parseAll ps fr st) as [[app st1]|] eqn:E; [|done];
    assert (Hm : R st st1)
  end.
  { revert E. apply respects_parseAll. respects_each.
    - unfold any. apply respects_parseAny. respects_each.
      + apply respects_at_field, respects_Expr_ref.
      + apply respects_at_field, respects_Expr_paren.
    - apply respects_at_field, respects_Args. }
  destruct (failed st1); by intros [= _ <-].
Qed.

Lemma respects_Expr_ite : respects R (Expr_ite Expr_).
Proof.
  intros e st e' st'. unfold Expr_ite. cbv zeta.
  match goal with |- context [parseAll ?ps ?fr st] =>
    destruct (parseAll ps fr st) as [[ite st1]|] eqn:E; [|done];
    assert (Hm : R st st1)
  end.
  { revert E. apply respects_parseAll.
    respects_each; by apply respects_at_field. }
  destruct (failed st1); by intros [= _ <-].
Qed.

Lemma respects_Param : respects R Param_.
Proof.
  intros n st n' st'. unfold Param_.
  destruct (parseLowercase _ st) as [[sp st1]|] eqn:E; [|done].
  pose proof (respects_parseLowercase _ _ _ _ E) as H1.
  destruct (failed st1); intros [= _ <-]; [done|].
  eapply (sc_trans R HR); [exact H1|apply (sc_newUID R HR)].
Qed.

Lemma respects_Params : respects R (Params fuel).
Proof.
  unfold Params, all. cbv zeta. apply respects_parseAny. respects_each.
  - apply respects_parseAll. respects_each.
  - apply respects_parseAll. respects_each.
    + apply respects_Param.
    + apply respects_many, respects_parseAll. respects_each.
      apply respects_Param.
Qed.

Lemma respects_Expr_lambda : respects R (Expr_lambda Expr_ fuel).
Proof.
  intros e st e' st'. unfold Expr_lambda. cbv zeta.
  match goal with |- context [parseAll ?ps ?fr st] =>
    destruct (parseAll ps fr st) as [[lam st1]|] eqn:E; [|done];
    assert (Hm : R st st1)
  end.
  { revert E. apply respects_parseAll. respects_each.
    - apply respects_at_field, respects_Params.
    - by apply respects_at_field. }
  destruct (failed st1); by intros [= _ <-].
Qed.

Lemma respects_decimalDigits : respects R (decimalDigits fuel).
Proof.
  intros sp st sp' st'. unfold decimalDigits. cbv zeta.
  match goal with |- context [parseAll ?ps sp st] =>
    destruct (parseAll ps sp st) as [[sp1 st1]|] eqn:E; [|done];
    assert (Hm : R st st1)
  end.
  { revert E. apply respects_parseAll. respects_each.
    - apply respects_range.
    - apply respects_many, respects_parseAll. respects_each.
      + apply respects_option, respects_word.
      + apply respects_range. }
  destruct (failed st1); by intros [= _ <-].
Qed.

Lemma respects_Expr_number : respects R (Expr_number fuel).
Proof.
  intros e st e' st'. unfold Expr_number, Number, decimalNumber.
  destruct (parseAtom _ _ st) as [[sp st1]|] eqn:E; [|done].
  pose proof (respects_parseAtom _ respects_decimalDigits _ _ _ _ E).
  destruct (failed st1); by intros [= _ <-].
Qed.

Lemma respects_Expr_const (w : Parser Expr) k :
  respects R w → respects R (Expr_const w k).
Proof.
  intros Hw e st e' st'. unfold Expr_const.
  destruct (w e st) as [[e1 st1]|] eqn:E; [|done].
  specialize (Hw _ _ _ _ E).
  destruct (failed st1); by intros [= _ <-].
Qed.

Lemma respects_ParseExpr_branches :
  Forall (respects R) (ParseExpr_branches Expr_ fuel).
Proof.
  unfold ParseExpr_branches. respects_each.
  - apply respects_Expr_app.
  - apply respects_Expr_ite.
  - apply respects_Expr_lambda.
  - apply respects_Expr_number.
  - apply respects_Expr_const, respects_word.
  - apply respects_Expr_const, respects_word.
  - apply respects_Expr_const, respects_word.
  - apply respects_Expr_ref.
  - apply respects_Expr_paren.
Qed.
End GrammarRespects.

Lemma respects_ParseExpr fuel : respects R (ParseExpr fuel).
Proof.
  induction fuel as [|n IH]; [by intros ? ? ? ? ?|].
  simpl. apply respects_parseAny. by apply respects_ParseExpr_branches.
Qed.

Lemma respects_Fn fuel : respects R (Fn fuel).
Proof.
  intros d st d' st'. unfold Fn. cbv zeta.
  match goal with |- context [parseAll ?ps d st] =>
    destruct (parseAll ps d st) as [[d1 st1]|] eqn:E; [|done];
    assert (Hm : R st st1)
  end.
  { revert E. apply respects_parseAll.
    repeat first [ apply List.Forall_nil | apply List.Forall_cons ].
    - apply respects_at_field, respects_parseLowercase.
    - apply respects_at_field, respects_Params.
    - apply respects_at_field, respects_ParseExpr. }
  destruct (failed st1); [by intros [= _ <-]|].
  destruct (parseEnd d1 st1) as [[d2 st2]|] eqn:E2; [|done].
  pose proof (respects_parseEnd _ _ _ _ E2) as H2.
  destruct (failed st2); intros [= _ <-]; by eapply (sc_trans R HR).
Qed.

Lemma respects_Val fuel : respects R (Val fuel).
Proof.
  intros d st d' st'. unfold Val. cbv zeta.
  match goal with |- context [parseAll ?ps d st] =>
    destruct (parseAll ps d st) as [[d1 st1]|] eqn:E; [|done];
    assert (Hm : R st st1)
  end.
  { revert E. apply respects_parseAll.
    repeat first [ apply List.Forall_nil | apply List.Forall_cons ].
    - apply respects_at_field, respects_parseLowercase.
    - apply respects_word.
    - apply respects_at_field, respects_ParseExpr. }
  destruct (failed st1); [by intros [= _ <-]|].
  destruct (parseEnd d1 st1) as [[d2 st2]|] eqn:E2; [|done].
  pose proof (respects_parseEnd _ _ _ _ E2) as H2.
  destruct (failed st2); intros [= _ <-]; by eapply (sc_trans R HR).
Qed.

Lemma respects_Fn_or_Val fuel : respects R (parseAny [Fn fuel; Val fuel]).
Proof.
  apply respects_parseAny.
  repeat first [ apply List.Forall_nil | apply List.Forall_cons ];
    [apply respects_Fn|apply respects_Val].
Qed.

Lemma respects_Def fuel : respects R (Def_ fuel).
Proof.
  intros nodes st nodes' st'. unfold Def_. cbv zeta.
  destruct (parseAny _ _ st) as [[d st1]|] eqn:E; [|done].
  pose proof (respects_Fn_or_Val fuel _ _ _ _ E) as H1.
  destruct (failed st1); intros [= _ <-]; [done|].
  eapply (sc_trans R HR); [exact H1|apply (sc_newUID R HR)].
Qed.

Lemma respects_ParseProgram fuel : respects R (ParseProgram fuel).
Proof.
  unfold ParseProgram. cbv zeta. apply respects_parseAll.
  repeat first [ apply List.Forall_nil | apply List.Forall_cons ].
  - apply respects_soi.
  - apply respects_many, respects_Def.
  - apply respects_eoi.
Qed.
End Respects.

(** *** The position, the line and the column *)

Lemma source_Eat_cases s c :
  let s' := source_Eat s c in
  src_File s' = src_File s
  ∧ (src_Loc s' = src_Loc s
     ∨ ∃ a, String.get (loc_Pos (src_Loc s)) (src_File s) = Some a
            ∧ src_Loc s' = advance (src_Loc s) a).
Proof.
  cbv zeta. unfold source_Eat, source_Next, source_Peek, fgetc_at.
  destruct (String.get _ _) as [a|] eqn:Ha.
  - assert (Hrange : 0 ≤ Z.of_nat (nat_of_ascii a) < 256).
    { pose proof (nat_ascii_bounded a). lia. }
    destruct (Z.eqb_spec (Z.of_nat (nat_of_ascii a)) (-1)); [lia|].
    destruct (Z.ltb_spec (to_char (Z.of_nat (nat_of_ascii a))) 0).
    { destruct (-1 =? c); (split; [done|by left]). }
    destruct (Z.eqb_spec (to_char (Z.of_nat (nat_of_ascii a))) 10) as [E|E].
    + assert (a = "010"%char) as ->.
      { unfold to_char in E.
        destruct (128 <=? Z.of_nat (nat_of_ascii a)) eqn:E2; [lia|].
        rewrite <- (ascii_nat_embedding a).
        replace (nat_of_ascii a) with 10%nat by lia. done. }
      destruct (_ =? c); (split; [done|]); right; by exists "010"%char.
    + assert (Ascii.eqb a "010" = false) as Hne.
      { apply Ascii.eqb_neq. intros ->. by apply E. }
      destruct (_ =? c); (split; [done|]); right; exists a;
        (split; [done|]); unfold advance; by rewrite Hne.
  - change (-1 =? -1) with true. cbn [Z.ltb Z.compare].
    destruct (-1 =? c); (split; [done|by left]).
Qed.

Lemma string_get_lt (f : string) : ∀ n a,
  String.get n f = Some a → (n < String.length f)%nat.
Proof.
  induction f as [|b f IH]; intros [|n] a; simpl; try done; try lia.
  intros H. apply IH in H. lia.
Qed.

Lemma loc_from_S (f : string) : ∀ n l a,
  String.get n f = Some a →
  loc_from l f (S n) = advance (loc_from l f n) a.
Proof.
  induction f as [|b f IH]; intros [|n] l a; simpl; try done.
  - intros [= ->]. by destruct f.
  - intros H. by rewrite <- (IH n _ a H).
Qed.

Lemma loc_Pos_advance l a : loc_Pos (advance l a) = S (loc_Pos l).
Proof. unfold advance. by destruct (Ascii.eqb a "010"). Qed.

Lemma pos_le_closed : step_closed pos_le.
Proof.
  split; unfold pos_le, st_Loc; intros; simpl; try done; try lia.
  destruct (source_Eat_cases (st_Src st) c) as (_ & [->|(a & _ & ->)]);
    [done|]. rewrite loc_Pos_advance. lia.
Qed.

Lemma loc_kept_closed : step_closed loc_kept.
Proof.
  split; unfold loc_kept; intros; simpl; try done.
  - destruct H as [H1 H2], H0 as [H3 H4]. split; [congruence|tauto].
  - destruct (source_Eat_cases (st_Src st) c) as (Hf & Hl).
    split; [done|]. intros [Hle Hloc]. unfold loc_ok. rewrite Hf.
    destruct Hl as [->|(a & Ha & ->)]; [done|].
    rewrite loc_Pos_advance. split; [by apply string_get_lt in Ha|].
    rewrite Hloc at 1. unfold loc_at. by rewrite (loc_from_S _ _ _ a).
  - destruct H as [H1 H2]. split; [done|]. intros Hok.
    unfold loc_ok in *. simpl. by rewrite H1.
Qed.

(** *** The byte layer: [source_Peek], [source_Eat], [word],
    [parseLowercase], [source_SkipSpaces] *)

Lemma char_of_ascii_range a : -128 ≤ char_of_ascii a < 128.
Proof.
  unfold char_of_ascii, to_char. pose proof (nat_ascii_bounded a).
  destruct (Z.leb_spec 128 (Z.of_nat (nat_of_ascii a))); lia.
Qed.

Lemma char_of_ascii_inj a b :
  char_of_ascii a = char_of_ascii b → a = b.
Proof.
  unfold char_of_ascii, to_char. intros H.
  pose proof (nat_ascii_bounded a). pose proof (nat_ascii_bounded b).
  rewrite <- (ascii_nat_embedding a), <- (ascii_nat_embedding b). f_equal.
  destruct (Z.leb_spec 128 (Z.of_nat (nat_of_ascii a))),
           (Z.leb_spec 128 (Z.of_nat (nat_of_ascii b))); lia.
Qed.

Lemma source_Peek_get s a :
  String.get (loc_Pos (src_Loc s)) (src_File s) = Some a →
  source_Peek s = char_of_ascii a.
Proof.
  unfold source_Peek, fgetc_at. intros ->.
  pose proof (nat_ascii_bounded a).
  by destruct (Z.eqb_spec (Z.of_nat (nat_of_ascii a)) (-1)); [lia|].
Qed.

Lemma source_Peek_EOF s :
  String.get (loc_Pos (src_Loc s)) (src_File s) = None →
  source_Peek s = -1.
Proof. unfold source_Peek, fgetc_at. by intros ->. Qed.

Lemma char_newline a : char_of_ascii a = 10 → a = "010"%char.
Proof. intros H. by apply char_of_ascii_inj. Qed.

(** [source_Next] on a byte that [char] holds as a non-negative value:
    the byte is returned and the location moves over it. *)
Lemma source_Next_get s a :
  String.get (loc_Pos (src_Loc s)) (src_File s) = Some a →
  0 ≤ char_of_ascii a →
  source_Next s = (char_of_ascii a, set_Loc (advance (src_Loc s) a) s).
Proof.
  intros Ha Hpos. unfold source_Next. rewrite (source_Peek_get s a Ha).
  destruct (Z.ltb_spec (char_of_ascii a) 0); [lia|]. unfold advance.
  destruct (Z.eqb_spec (char_of_ascii a) 10) as [E|E].
  - by rewrite (char_newline a E).
  - destruct (Ascii.eqb a "010") eqn:Ea; [|done].
    apply Ascii.eqb_eq in Ea as ->. by destruct E.
Qed.

(** [source_Next] at the end of the file, or on a byte that [char] holds
    as a negative value: -1, and the cursor stays. *)
Lemma source_Next_stuck s :
  (∀ a, String.get (loc_Pos (src_Loc s)) (src_File s) = Some a →
        char_of_ascii a < 0) →
  source_Next s = (-1, s).
Proof.
  intros H. unfold source_Next.
  destruct (String.get (loc_Pos (src_Loc s)) (src_File s)) as [a|] eqn:Ha.
  - rewrite (source_Peek_get s a Ha). specialize (H a eq_refl).
    by destruct (Z.ltb_spec (char_of_ascii a) 0); [|lia].
  - by rewrite (source_Peek_EOF s Ha).
Qed.

(** [source_Eat] of a byte of a word: it goes through exactly when the
    file has this byte at the cursor. *)
Lemma source_Eat_byte s b :
  0 < char_of_ascii b →
  (String.get (loc_Pos (src_Loc s)) (src_File s) = Some b
   ∧ source_Eat s (char_of_ascii b) = set_Loc (advance (src_Loc s) b) s)
  ∨ (String.get (loc_Pos (src_Loc s)) (src_File s) ≠ Some b
     ∧ src_Failed (source_Eat s (char_of_ascii b)) = true).
Proof.
  intros Hb. unfold source_Eat.
  destruct (String.get (loc_Pos (src_Loc s)) (src_File s)) as [a|] eqn:Ha.
  - destruct (Z.ltb_spec (char_of_ascii a) 0) as [Hneg|Hpos].
    + rewrite source_Next_stuck.
      2:{ intros a'. rewrite Ha. by intros [= <-]. }
      destruct (Z.eqb_spec (-1) (char_of_ascii b)); [lia|].
      right. split; [|done]. intros [= ->]. lia.
    + rewrite (source_Next_get s a Ha Hpos).
      destruct (Z.eqb_spec (char_of_ascii a) (char_of_ascii b)) as [E|E].
      * apply char_of_ascii_inj in E as ->. by left.
      * right. split; [|done]. intros [= ->]. by destruct E.
  - rewrite source_Next_stuck by (intros a'; by rewrite Ha).
    destruct (Z.eqb_spec (-1) (char_of_ascii b)); [lia|].
    by right.
Qed.

Lemma substring_0 (f : string) : ∀ n, substring n 0 f = EmptyString.
Proof. induction f as [|b f IH]; intros [|n]; simpl; done. Qed.

Lemma substring_S (f : string) : ∀ n m,
  substring n (S m) f
  = match String.get n f with
    | Some a => String a (substring (S n) m f)
    | None => EmptyString
    end.
Proof.
  induction f as [|b f IH]; intros [|n] m; simpl; done.
Qed.

Lemma word_loop_spec (w : string) : ∀ s,
  src_Failed s = false →
  Forall (λ c, 0 < char_of_ascii c) (list_ascii_of_string w) →
  (src_Failed (word_loop w s) = false
   ↔ substring (loc_Pos (src_Loc s)) (String.length w) (src_File s) = w)
  ∧ (src_Failed (word_loop w s) = false →
     loc_Pos (src_Loc (word_loop w s))
     = (loc_Pos (src_Loc s) + String.length w)%nat).
Proof.
  induction w as [|b w IH]; intros s Hs Hw.
  - simpl. rewrite substring_0. split; [done|]. intros _. lia.
  - cbn [word_loop String.length]. cbn [list_ascii_of_string] in Hw.
    apply List.Forall_cons_iff in Hw as [Hb Hw]. rewrite substring_S.
    destruct (source_Eat_byte s b Hb) as [[Hget ->]|[Hget Hfail]].
    + rewrite Hget.
      cbn [src_Failed set_Loc]. rewrite Hs.
      destruct (IH (set_Loc (advance (src_Loc s) b) s)) as [Hiff Hpos];
        [done|done|].
      cbn [src_Loc set_Loc src_File] in Hiff, Hpos.
      rewrite loc_Pos_advance in Hiff, Hpos. split.
      * rewrite Hiff. split; [by intros ->|by intros [= ->]].
      * intros H. rewrite (Hpos H). lia.
    + rewrite Hfail. split; [|congruence]. split; [congruence|].
      destruct (String.get _ _); [|done]. intros [= ->]. by destruct Hget.
Qed.

(** X22.  [word] on a cursor that has not failed, for a word of bytes
    between 1 and 127: it leaves the cursor not failed exactly when the
    file holds the word at the position of the cursor, and the position
    is then further by the length of the word. *)
Theorem word_accepts_the_text_at_the_cursor {A} (w : string) (a : A) st :
  failed st = false →
  Forall (λ c, 0 < char_of_ascii c) (list_ascii_of_string w) →
  ∃ st', word w a st = Some (a, st')
    ∧ (failed st' = false
       ↔ substring (loc_Pos (st_Loc st)) (String.length w)
           (src_File (st_Src st)) = w)
    ∧ (failed st' = false →
       loc_Pos (st_Loc st') = (loc_Pos (st_Loc st) + String.length w)%nat).
Proof.
  intros Hs Hw. eexists. split; [reflexivity|].
  exact (word_loop_spec w (st_Src st) Hs Hw).
Qed.

Lemma word_accepts_the_text_at_the_cursor_witness :
  ∃ st', word "if" tt example_cursor_at_if = Some (tt, st')
    ∧ (failed st' = false
       ↔ substring (loc_Pos (st_Loc example_cursor_at_if))
           (String.length "if") (src_File (st_Src example_cursor_at_if))
         = "if"%string)
    ∧ (failed st' = false →
       loc_Pos (st_Loc st')
       = (loc_Pos (st_Loc example_cursor_at_if) + String.length "if")%nat).
Proof.
  refine (word_accepts_the_text_at_the_cursor "if" tt example_cursor_at_if
            eq_refl _).
  repeat constructor.
Defined.

(** A loop that eats bytes while [keep] holds of the byte under the
    cursor, as the loops of [source_SkipSpaces] and [parseLowercase]
    do.  [keep] looks at the flags of the cursor only. *)
Section Scan.
Variable keep : Source → Z → bool.
Variable loop : nat → Source → Source.
Hypothesis loop_0 : ∀ s, loop 0 s = s.
Hypothesis loop_S : ∀ n s,
  loop (S n) s
  = if keep s (source_Peek s) then loop n (source_Eat s (source_Peek s))
    else s.
Hypothesis keep_nonneg : ∀ s c, keep s c = true → 0 ≤ c.
Hypothesis keep_Loc : ∀ s l c, keep (set_Loc l s) c = keep s c.

Lemma scan_spec : ∀ left s,
  (String.length (src_File s) - loc_Pos (src_Loc s) ≤ left)%nat →
  ∃ n l, loop left s = set_Loc l s
    ∧ (n = 0%nat → l = src_Loc s)
    ∧ loc_Pos l = (loc_Pos (src_Loc s) + n)%nat
    ∧ (∀ i, (loc_Pos (src_Loc s) ≤ i < loc_Pos (src_Loc s) + n)%nat →
         ∃ a, String.get i (src_File s) = Some a
              ∧ keep s (char_of_ascii a) = true)
    ∧ (∀ a, String.get (loc_Pos (src_Loc s) + n) (src_File s) = Some a →
         keep s (char_of_ascii a) = false).
Proof.
  induction left as [|left IH]; intros s Hleft.
  - exists 0%nat, (src_Loc s). rewrite loop_0.
    split_and!; [by destruct s|done|lia|intros; lia|].
    intros a. rewrite string_get_None by lia. done.
  - rewrite loop_S.
    destruct (keep s (source_Peek s)) eqn:Hkeep.
    + destruct (String.get (loc_Pos (src_Loc s)) (src_File s)) as [a|] eqn:Ha.
      2:{ rewrite (source_Peek_EOF s Ha) in Hkeep.
          apply keep_nonneg in Hkeep. lia. }
      rewrite (source_Peek_get s a Ha) in *.
      pose proof (keep_nonneg _ _ Hkeep) as Hpos.
      unfold source_Eat. rewrite (source_Next_get s a Ha Hpos).
      rewrite Z.eqb_refl.
      destruct (IH (set_Loc (advance (src_Loc s) a) s))
        as (n & l & Heq & _ & Hl & Hin & Hout).
      { cbn [src_File src_Loc set_Loc]. rewrite loc_Pos_advance.
        apply string_get_lt in Ha. lia. }
      cbn [src_File src_Loc set_Loc] in *. rewrite loc_Pos_advance in *.
      exists (S n), l. split_and!.
      * rewrite Heq. by destruct s.
      * done.
      * lia.
      * intros i Hi. destruct (decide (i = loc_Pos (src_Loc s))) as [->|Hne].
        -- by exists a.
        -- destruct (Hin i) as (a' & Ha' & Hk'); [lia|].
           exists a'. by rewrite keep_Loc in Hk'.
      * intros a'. replace (loc_Pos (src_Loc s) + S n)%nat
          with (S (loc_Pos (src_Loc s)) + n)%nat by lia.
        intros Ha'. specialize (Hout a' Ha'). by rewrite keep_Loc in Hout.
    + exists 0%nat, (src_Loc s).
      split_and!; [by destruct s|done|lia|intros; lia|].
      intros a. rewrite Nat.add_0_r. intros Ha.
      by rewrite (source_Peek_get s a Ha) in Hkeep.
Qed.
End Scan.

(** The bytes of a name after its first letter. *)
Lemma lowercase_loop_spec s :
  ∃ n l,
    lowercase_loop (source_Size s - loc_Pos (src_Loc s)) s = set_Loc l s
    ∧ (n = 0%nat → l = src_Loc s)
    ∧ loc_Pos l = (loc_Pos (src_Loc s) + n)%nat
    ∧ (∀ i, (loc_Pos (src_Loc s) ≤ i < loc_Pos (src_Loc s) + n)%nat →
         ∃ a, String.get i (src_File s) = Some a
              ∧ is_lower_alpha (char_of_ascii a)
                || (char_of_ascii a =? 95) = true)
    ∧ (∀ a, String.get (loc_Pos (src_Loc s) + n) (src_File s) = Some a →
         is_lower_alpha (char_of_ascii a) || (char_of_ascii a =? 95) = false).
Proof.
  apply (scan_spec (λ _ c, is_lower_alpha c || (c =? 95)) lowercase_loop);
    try done.
  - intros n s'. cbn [lowercase_loop]. cbv zeta.
    rewrite <- negb_orb. by destruct (_ || _).
  - intros _ c. unfold is_lower_alpha. lia.
Qed.

(** X23.  [parseLowercase] on a cursor that has not failed: it fails
    exactly when the byte under the cursor is not a lowercase letter (or
    the file has ended); otherwise the span starts at the cursor and ends
    where the cursor is left, and it covers the longest run of lowercase
    letters and underscores that starts there. *)
Theorem parseLowercase_takes_the_longest_name sp st :
  failed st = false →
  ∃ sp' st', parseLowercase sp st = Some (sp', st')
    ∧ src_File (st_Src st') = src_File (st_Src st)
    ∧ (failed st' = false
       ↔ ∃ a, String.get (loc_Pos (st_Loc st)) (src_File (st_Src st)) = Some a
              ∧ is_lower_alpha (char_of_ascii a) = true)
    ∧ (failed st' = false →
       span_Start sp' = st_Loc st ∧ span_End sp' = st_Loc st'
       ∧ (loc_Pos (st_Loc st) < loc_Pos (st_Loc st'))%nat
       ∧ (∀ i, (loc_Pos (st_Loc st) ≤ i < loc_Pos (st_Loc st'))%nat →
            ∃ a, String.get i (src_File (st_Src st)) = Some a
                 ∧ is_lower_alpha (char_of_ascii a)
                   || (char_of_ascii a =? 95) = true)
       ∧ (∀ a, String.get (loc_Pos (st_Loc st')) (src_File (st_Src st))
               = Some a →
            is_lower_alpha (char_of_ascii a)
            || (char_of_ascii a =? 95) = false)).
Proof.
  intros Hs. destruct st as [s u]. unfold failed, st_Loc in *.
  cbn [st_Src] in *. unfold parseLowercase. cbn [st_Src st_nextUID].
  destruct (String.get (loc_Pos (src_Loc s)) (src_File s)) as [a|] eqn:Ha.
  - rewrite (source_Peek_get s a Ha).
    destruct (Z.ltb_spec (char_of_ascii a) 0) as [Hneg|Hpos].
    { eexists _, _. split; [reflexivity|]. cbn.
      split_and!; [done| |done]. split; [done|].
      intros (a' & [= <-] & Hl). unfold is_lower_alpha in Hl. lia. }
    destruct (is_lower_alpha (char_of_ascii a)) eqn:Hlow; cbn [orb negb].
    2:{ eexists _, _. split; [reflexivity|]. cbn.
        split_and!; [done| |done]. split; [done|].
        intros (a' & [= <-] & Hl). congruence. }
    assert (Heat : source_Eat s (char_of_ascii a)
                   = set_Loc (advance (src_Loc s) a) s).
    { unfold source_Eat. rewrite (source_Next_get s a Ha Hpos).
      by rewrite Z.eqb_refl. }
    cbv zeta. rewrite Heat.
    destruct (lowercase_loop_spec (set_Loc (advance (src_Loc s) a) s))
      as (n & l & Heq & _ & Hl & Hin & Hout).
    rewrite Heq.
    cbn [src_File src_Loc set_Loc] in *. rewrite loc_Pos_advance in *. eexists _, _. split; [reflexivity|].
    cbn [st_Src src_File src_Loc src_Failed set_Loc span_Start span_End].
    split_and!; [done| |].
    + rewrite Hs. split; [|done]. intros _. by exists a.
    + intros _. split_and!; [done|done|lia| |].
      * intros i Hi. destruct (decide (i = loc_Pos (src_Loc s))) as [->|Hne].
        -- exists a. by rewrite Hlow.
        -- apply Hin. lia.
      * intros a'. rewrite Hl. apply Hout.
  - rewrite (source_Peek_EOF s Ha). cbn.
    eexists _, _. split; [reflexivity|]. cbn.
    split_and!; [done| |done]. split; [done|]. by intros (a' & [=] & _).
Qed.

Lemma parseLowercase_takes_the_longest_name_witness :
  failed example_cursor_at_name = false
  ∧ ∃ sp' st',
      parseLowercase indeterminate_span example_cursor_at_name
      = Some (sp', st')
      ∧ failed st' = false
      ∧ loc_Pos (span_Start sp') = 0%nat ∧ loc_Pos (span_End sp') = 7%nat.
Proof.
  split; [reflexivity|].
  destruct (parseLowercase_takes_the_longest_name indeterminate_span
              example_cursor_at_name eq_refl)
    as (sp' & st' & Heq & _).
  exists sp', st'. split; [exact Heq|].
  vm_compute in Heq. injection Heq as <- <-. vm_compute. done.
Defined.

(** X24.  [source_SkipSpaces] changes the location only: the cursor moves
    over white-space bytes and stops at the end of the file or at the
    first byte that is not white space; when the cursor is sensitive to
    newlines it also stops at a newline.  It does not set [Failed]. *)
Theorem source_SkipSpaces_stops_at_first_non_space s :
  ∃ n l, source_SkipSpaces s = set_Loc l s
    ∧ loc_Pos l = (loc_Pos (src_Loc s) + n)%nat
    ∧ (∀ i, (loc_Pos (src_Loc s) ≤ i < loc_Pos (src_Loc s) + n)%nat →
         ∃ a, String.get i (src_File s) = Some a
              ∧ isspace (char_of_ascii a) = true
              ∧ (src_NewlineSensitive s = true → a ≠ "010"%char))
    ∧ (∀ a, String.get (loc_Pos (src_Loc s) + n) (src_File s) = Some a →
         isspace (char_of_ascii a) = false
         ∨ (src_NewlineSensitive s = true ∧ a = "010"%char)).
Proof.
  destruct (scan_spec
    (λ s c, negb ((c <? 0) || (src_NewlineSensitive s && (c =? 10))
                  || negb (isspace c)))
    skipSpaces_loop) with (left := (source_Size s - loc_Pos (src_Loc s))%nat)
    (s := s) as (n & l & Heq & _ & Hl & Hin & Hout); try done.
  - intros n s'. cbn [skipSpaces_loop]. cbv zeta. by destruct (_ || _).
  - intros s' c. destruct (Z.ltb_spec c 0); [done|]. lia.
  - exists n, l. split_and!; [done|done| |].
    + intros i Hi. destruct (Hin i Hi) as (a & Ha & Hk). exists a.
      split; [done|]. apply negb_true_iff in Hk.
      apply orb_false_iff in Hk as [Hk Hsp].
      apply orb_false_iff in Hk as [_ Hnl].
      apply negb_false_iff in Hsp. split; [done|]. intros Hsens ->.
      by rewrite Hsens in Hnl.
    + intros a Ha. specialize (Hout a Ha). apply negb_false_iff in Hout.
      apply orb_true_iff in Hout as [Hout|Hsp].
      * apply orb_true_iff in Hout as [Hneg|Hnl].
        -- left. unfold isspace. destruct (Z.ltb_spec (char_of_ascii a) 0);
             [|done]. lia.
        -- apply andb_true_iff in Hnl as [Hsens Hnl]. right. split; [done|].
           apply char_newline. lia.
      * left. by apply negb_true_iff in Hsp.
Qed.

(** *** [many] and the end of [ParseProgram] *)

Lemma source_SkipSpaces_Failed s :
  src_Failed (source_SkipSpaces s) = src_Failed s.
Proof.
  destruct (scan_spec
    (λ s c, negb ((c <? 0) || (src_NewlineSensitive s && (c =? 10))
                  || negb (isspace c)))
    skipSpaces_loop) with (left := (source_Size s - loc_Pos (src_Loc s))%nat)
    (s := s) as (n & l & Heq & _); try done.
  - intros n s'. cbn [skipSpaces_loop]. cbv zeta. by destruct (_ || _).
  - intros s' c. destruct (Z.ltb_spec c 0); [done|]. lia.
  - unfold source_SkipSpaces. by rewrite Heq.
Qed.

(** X25.  [many] returns only from a failed attempt of the repeated
    parser: the cursor is then not failed and is back at the location
    where that attempt started, and the output is the one the failed
    attempt left. *)
Theorem many_returns_after_a_failed_attempt {A} fuel (p : Parser A) :
  ∀ a st a' st',
  many fuel p a st = Some (a', st') →
  failed st' = false
  ∧ ∃ a0 st0 st1,
      p a0 st0 = Some (a', st1) ∧ failed st1 = true
      ∧ st' = on_Src (λ s, source_Back s (st_Loc st0)) st1.
Proof.
  induction fuel as [|n IH]; intros a st a' st'; [done|].
  cbn [many]. cbv zeta.
  destruct (p a st) as [[a1 st1]|] eqn:E; [|done].
  destruct (failed st1) eqn:Hf; [|by apply IH].
  intros [= <- <-]. split; [done|]. by exists a, st, st1.
Qed.

Lemma many_returns_after_a_failed_attempt_witness :
  ∃ st',
    many 5 (word ",") tt example_cursor_at_name = Some (tt, st')
    ∧ failed st' = false
    ∧ ∃ a0 st0 st1,
        word "," a0 st0 = Some (tt, st1) ∧ failed st1 = true
        ∧ st' = on_Src (λ s, source_Back s (st_Loc st0)) st1.
Proof.
  eexists. split; [vm_compute; reflexivity|].
  refine (many_returns_after_a_failed_attempt 5 (word ",") tt
            example_cursor_at_name tt _ _).
  vm_compute. reflexivity.
Defined.

(** X26.  [many] has no other way out: around a parser that does not
    fail, such as one wrapped in [option], the loop never ends, whatever
    the file holds. *)
Theorem many_of_unfailing_parser_never_returns {A} (p : Parser A) :
  (∀ a st, failed st = false →
           ∃ a' st', p a st = Some (a', st') ∧ failed st' = false) →
  ∀ fuel a st, failed st = false → many fuel p a st = None.
Proof.
  intros Hp. induction fuel as [|n IH]; intros a st Hs; [done|].
  cbn [many]. cbv zeta. destruct (Hp a st Hs) as (a1 & st1 & -> & Hf).
  rewrite Hf. apply IH. destruct (negb _); [|done].
  unfold failed, on_Src. cbn [st_Src]. by rewrite source_SkipSpaces_Failed.
Qed.

Lemma many_of_unfailing_parser_never_returns_witness :
  many 100 (option_ (word ",")) tt example_cursor_at_name = None.
Proof.
  refine (many_of_unfailing_parser_never_returns (option_ (word ",")) _
            100 tt example_cursor_at_name eq_refl).
  intros a st _. unfold option_, word. cbv zeta.
  destruct (failed (on_Src (word_loop ",") st)) eqn:Hf;
    eexists _, _; (split; [reflexivity|]); [reflexivity|exact Hf].
Defined.

(** X29.  When [ParseProgram] returns with the cursor not failed, it
    started at position 0 and the cursor is at the end of the file:
    nothing of the file is left unread. *)
Theorem ParseProgram_accepts_only_the_whole_file fuel nodes st0 defs st :
  ParseProgram fuel nodes st0 = Some (defs, st) → failed st = false →
  loc_Pos (st_Loc st0) = 0%nat
  ∧ loc_Pos (st_Loc st) = String.length (src_File (st_Src st0)).
Proof.
  unfold ParseProgram. cbv zeta. cbn [parseAll]. unfold soi at 1.
  destruct (decide (loc_Pos (st_Loc st0) = 0%nat)) as [H0|H0].
  2:{ change (failed (on_Src (set_Failed true) st0)) with true.
      by intros [= <- <-]. }
  destruct (failed st0) eqn:Hf0; [intros [= <- <-]; congruence|].
  match goal with |- context [many fuel _ nodes ?s] =>
    destruct (many fuel (Def_ fuel) nodes s) as [[n2 st2]|] eqn:E2; [|done];
    assert (Hfile2 : src_File (st_Src st2) = src_File (st_Src st0))
  end.
  { apply (respects_many loc_kept loc_kept_closed _ _
             (respects_Def loc_kept loc_kept_closed fuel)) in E2 as [-> _].
    destruct (negb (src_Atom (st_Src st0)) && _); [|done].
    apply (R_SkipSpaces loc_kept loc_kept_closed). }
  destruct (failed st2) eqn:Hf2; [intros [= <- <-]; congruence|].
  match goal with |- context [eoi n2 ?s] =>
    assert (Hfile3 : src_File (st_Src s) = src_File (st_Src st0));
    [|generalize dependent s; intros st3 Hfile3]
  end.
  { destruct (negb (src_Atom (st_Src st2)) && _); [|done].
    rewrite <- Hfile2. apply (R_SkipSpaces loc_kept loc_kept_closed). }
  unfold eoi, source_Size.
  destruct (decide (loc_Pos (st_Loc st3) = _)) as [Hend|Hend].
  - destruct (failed st3) eqn:Hf3.
    + intros [= <- <-]. congruence.
    + cbn [andb negb bool_decide]. rewrite andb_false_r.
      intros [= <- <-] _. split; [done|]. by rewrite Hend, Hfile3.
  - change (failed (on_Src (set_Failed true) st3)) with true.
    intros [= <- <-]. done.
Qed.

Lemma ParseProgram_accepts_only_the_whole_file_witness :
  ∃ defs st,
    ParseProgram 20 Null (mkState (source_Init ("k = 1" ++ nl)%string) 0)
    = Some (defs, st)
    ∧ failed st = false
    ∧ loc_Pos (st_Loc (mkState (source_Init ("k = 1" ++ nl)%string) 0)) = 0%nat
    ∧ loc_Pos (st_Loc st)
      = String.length
          (src_File (st_Src (mkState (source_Init ("k = 1" ++ nl)%string) 0))).
Proof.
  eexists _, _. split; [vm_compute; reflexivity|]. split; [reflexivity|].
  eapply (ParseProgram_accepts_only_the_whole_file 20 Null
            (mkState (source_Init ("k = 1" ++ nl)%string) 0));
    vm_compute; reflexivity.
Defined.

(** *** What [main] writes *)

Lemma tree_Iter_lines {A L} (f : unit → Z → A → M (list L) (unit * A))
    (g : Z → A → list L) :
  (∀ d k a out, f d k a out = Ok ((tt, a), out ++ g k a)) →
  ∀ t d out,
    tree_Iter f d t out
    = Ok ((tt, t), out ++ flat_map (λ e, g e.1 e.2) (inorder t)).
Proof.
  intros Hf. induction t as [|l IHl k h a r IHr]; intros [] out.
  - simpl. by rewrite app_nil_r.
  - cbn [tree_Iter]. unfold mbind, M_bind, bind.
    rewrite IHl, Hf. unfold mret, M_ret, ret. rewrite IHr.
    cbn [inorder]. rewrite flat_map_app. cbn [flat_map fst snd].
    by rewrite <- !app_assoc.
Qed.

Lemma debugDef_lines (defs : node Def) out :
  tree_Iter debugDef tt defs out = Ok ((tt, defs), out ++ dump defs).
Proof.
  apply (tree_Iter_lines debugDef
           (λ k d, DebugDef k (name_pos d) (BodyKind_value (Def_Kind d))
                     (ExprKind (Def_Body d))
                   :: dump_params (Def_Params d))).
  intros [] k d out'. unfold debugDef.
  rewrite (tree_Iter_lines debugParam
             (λ k p, [DebugParam k (loc_Pos (span_Start (Param_Name p)))]));
    [|by intros []].
  destruct d. cbn. by rewrite <- app_assoc.
Qed.

(** *** The location reported with a parse error *)

Lemma newlines_S (f : string) : ∀ n a,
  String.get n f = Some a →
  newlines f (S n)
  = (newlines f n + (if Ascii.eqb a "010" then 1 else 0))%nat.
Proof.
  induction f as [|b f IH]; intros [|n] a; simpl; try done.
  - intros [= ->]. destruct f; simpl; lia.
  - intros H. pose proof (IH n a H) as IH'. simpl in IH'. rewrite IH'. lia.
Qed.

Lemma string_get_is_Some (f : string) : ∀ n,
  (n < String.length f)%nat → is_Some (String.get n f).
Proof.
  induction f as [|b f IH]; intros [|n]; simpl; try lia; [by eexists|].
  intros H. apply IH. lia.
Qed.

(** What counting with [loc_NextLine] and [loc_NextColumn] amounts to. *)
Lemma loc_at_spec f n :
  (n ≤ String.length f)%nat →
  loc_Pos (loc_at f n) = n
  ∧ loc_Ln (loc_at f n) = S (newlines f n)
  ∧ ∃ k, loc_Col (loc_at f n) = S k ∧ (k ≤ n)%nat
         ∧ (∀ i, (n - k ≤ i < n)%nat → String.get i f ≠ Some "010"%char)
         ∧ ((k < n)%nat → String.get (n - k - 1) f = Some "010"%char).
Proof.
  induction n as [|n IH]; intros Hn.
  - unfold loc_at. destruct f; simpl; (split_and!; [done..|]);
      exists 0%nat; (split_and!; [done|lia|intros; lia|intros; lia]).
  - destruct (string_get_is_Some f n) as [a Ha]; [lia|].
    destruct IH as (Hpos & Hln & k & Hcol & Hk & Hnone & Hnl); [lia|].
    unfold loc_at in *. rewrite (loc_from_S f n _ a Ha).
    rewrite (newlines_S f n a Ha). unfold advance.
    destruct (Ascii.eqb a "010") eqn:Ea.
    + apply Ascii.eqb_eq in Ea as ->. simpl. rewrite Hpos, Hln.
      split_and!; [done|lia|]. exists 0%nat.
      split_and!; [done|lia|intros; lia|].
      intros _. by replace (S n - 0 - 1)%nat with n by lia.
    + apply Ascii.eqb_neq in Ea. simpl. rewrite Hpos, Hln, Hcol.
      split_and!; [done|lia|]. exists (S k).
      split_and!; [done|lia| |].
      * intros i Hi. destruct (decide (i = n)) as [->|Hin].
        -- rewrite Ha. congruence.
        -- apply Hnone. lia.
      * intros Hlt. replace (S n - S k - 1)%nat with (n - k - 1)%nat by lia.
        apply Hnl. lia.
Qed.

Lemma source_Init_loc_ok file : loc_ok (source_Init file).
Proof.
  unfold loc_ok, source_Init, loc_at. simpl. split; [lia|]. by destruct file.
Qed.

(** X27.  The location in the parse error message of [main] is
    consistent: the position is inside the file, the line is one more
    than the number of newlines before the position, and the column is
    one more than the number of bytes between the last newline before the
    position (or the start of the file) and the position. *)
Theorem main_ParseError_location fuel file Ln Col Pos :
  main fuel file = Some (ParseError Ln Col Pos) →
  (Pos ≤ String.length file)%nat
  ∧ Ln = S (newlines file Pos)
  ∧ ∃ k, Col = S k ∧ (k ≤ Pos)%nat
         ∧ (∀ i, (Pos - k ≤ i < Pos)%nat →
                 String.get i file ≠ Some "010"%char)
         ∧ ((k < Pos)%nat → String.get (Pos - k - 1) file = Some "010"%char).
Proof.
  unfold main.
  destruct (ParseProgram fuel Null _) as [[defs st]|] eqn:E; [|done].
  destruct (respects_ParseProgram loc_kept loc_kept_closed fuel _ _ _ _ E)
    as [Hfile Hok].
  destruct (Hok (source_Init_loc_ok file)) as [Hle Hloc].
  simpl in Hfile. rewrite Hfile in Hle, Hloc.
  destruct (failed st).
  - intros [= <- <- <-]. unfold st_Loc.
    set (P := loc_Pos (src_Loc (st_Src st))) in *.
    destruct (loc_at_spec file P Hle) as (Hp & Hl & Hc).
    rewrite Hloc. done.
  - by destruct (tree_Iter _ _ _ _) as [[[? ?] ?]|].
Qed.

Lemma main_ParseError_location_witness :
  main 20 ("k = 1" ++ nl ++ "j = = 2" ++ nl)%string
  = Some (ParseError 2 1 6)
  ∧ (6 ≤ String.length ("k = 1" ++ nl ++ "j = = 2" ++ nl)%string)%nat
  ∧ 2%nat = S (newlines ("k = 1" ++ nl ++ "j = = 2" ++ nl)%string 6)
  ∧ ∃ k, 1%nat = S k ∧ (k ≤ 6)%nat
         ∧ (∀ i, (6 - k ≤ i < 6)%nat →
                 String.get i ("k = 1" ++ nl ++ "j = = 2" ++ nl)%string
                 ≠ Some "010"%char)
         ∧ ((k < 6)%nat →
            String.get (6 - k - 1) ("k = 1" ++ nl ++ "j = = 2" ++ nl)%string
            = Some "010"%char).
Proof.
  assert (H : main 20 ("k = 1" ++ nl ++ "j = = 2" ++ nl)%string
              = Some (ParseError 2 1 6)) by (vm_compute; reflexivity).
  exact (conj H (main_ParseError_location 20 _ 2 1 6 H)).
Defined.

(** *** The registry lists the definitions in the order of the file *)

Lemma parseLowercase_success sp st sp' st' :
  parseLowercase sp st = Some (sp', st') → failed st' = false →
  span_Start sp' = st_Loc st
  ∧ (loc_Pos (st_Loc st) < loc_Pos (st_Loc st'))%nat.
Proof.
  destruct st as [s u]. unfold parseLowercase. cbn [st_Src st_nextUID].
  destruct (Z.ltb_spec (source_Peek s) 0) as [Hneg|Hpos]; cbn [orb].
  { by intros [= _ <-]. }
  destruct (negb _); [by intros [= _ <-]|].
  intros [= <- <-] _. split; [done|].
  destruct (source_Eat_advances s (source_Peek s) Hpos) as [Hadv _].
  pose proof (R_lowercase_loop pos_le pos_le_closed
                (source_Size (source_Eat s (source_Peek s))
                 - loc_Pos (src_Loc (source_Eat s (source_Peek s))))
                (mkState (source_Eat s (source_Peek s)) u)) as Hle.
  unfold pos_le, st_Loc in *. simpl in *. lia.
Qed.

Lemma keeps_Name_parseAll ps : Forall keeps_Name ps → keeps_Name (parseAll ps).
Proof.
  induction 1 as [|p ps Hp Hps IH]; intros d st d' st'; simpl.
  - by intros [= <- _].
  - destruct (p d st) as [[d1 st1]|] eqn:E; [|done].
    specialize (Hp _ _ _ _ E).
    destruct (failed st1); [by intros [= <- _]|].
    intros Hrest. apply IH in Hrest. congruence.
Qed.

Lemma keeps_Name_at_Params q : keeps_Name (at_Params q).
Proof.
  intros d st d' st'. unfold at_Params, at_field.
  destruct (q _ st) as [[b st1]|]; [|done]. by intros [= <- _].
Qed.

Lemma keeps_Name_at_Ret q : keeps_Name (at_Ret q).
Proof.
  intros d st d' st'. unfold at_Ret, at_field.
  destruct (q _ st) as [[b st1]|]; [|done]. by intros [= <- _].
Qed.

Lemma keeps_Name_word w : keeps_Name (word w).
Proof. by intros d st d' st' [= <- _]. Qed.

Lemma keeps_Name_parseEnd : keeps_Name parseEnd.
Proof.
  intros d st d' st' H.
  by apply (preserves_parseEnd (λ x, Def_Name x = Def_Name d) _ _ _ _ eq_refl H).
Qed.

(** A rule that starts with the name: when it succeeds, the name starts
    where the rule started and the cursor has moved on. *)
Lemma named_rule_success rest d st d' st' :
  Forall keeps_Name rest → Forall (respects pos_le) rest →
  parseAll (at_Name lowercase :: rest) d st = Some (d', st') →
  failed st' = false →
  name_pos d' = loc_Pos (st_Loc st)
  ∧ (loc_Pos (st_Loc st) < loc_Pos (st_Loc st'))%nat.
Proof.
  intros Hkeep Hpos. cbn [parseAll].
  unfold at_Name at 1, at_field, lowercase.
  destruct (parseLowercase (Def_Name d) st) as [[sp st1]|] eqn:E; [|done].
  destruct (failed st1) eqn:Hf1; [intros [= _ <-]; congruence|].
  destruct (parseLowercase_success _ _ _ _ E Hf1) as [Hstart Hadv].
  intros Hrest Hok.
  pose proof (keeps_Name_parseAll rest Hkeep _ _ _ _ Hrest) as Hname.
  pose proof (respects_parseAll pos_le pos_le_closed rest Hpos _ _ _ _ Hrest)
    as Hle.
  assert (Hskip : (loc_Pos (st_Loc st1) ≤ loc_Pos (st_Loc st'))%nat).
  { revert Hle. destruct (_ && _); unfold pos_le; [|done].
    pose proof (R_SkipSpaces pos_le pos_le_closed st1). unfold pos_le in *.
    lia. }
  unfold name_pos. rewrite Hname. simpl. rewrite Hstart. split; [done|lia].
Qed.

Lemma Fn_success fuel d st d' st' :
  Fn fuel d st = Some (d', st') → failed st' = false →
  name_pos d' = loc_Pos (st_Loc st)
  ∧ (loc_Pos (st_Loc st) < loc_Pos (st_Loc st'))%nat.
Proof.
  unfold Fn. cbv zeta.
  match goal with |- context [parseAll ?ps d st] =>
    destruct (parseAll ps d st) as [[d1 st1]|] eqn:E; [|done]
  end.
  destruct (failed st1) eqn:Hf1; [intros [= _ <-]; congruence|].
  apply named_rule_success in E as [Hn Hp]; [|
    repeat first [apply List.Forall_nil | apply List.Forall_cons];
      [apply keeps_Name_at_Params|apply keeps_Name_at_Ret]|
    repeat first [apply List.Forall_nil | apply List.Forall_cons];
      [apply respects_at_field, respects_Params, pos_le_closed
      |apply respects_at_field, respects_ParseExpr, pos_le_closed]|done].
  destruct (parseEnd d1 st1) as [[d2 st2]|] eqn:E2; [|done].
  pose proof (keeps_Name_parseEnd _ _ _ _ E2) as Hn2.
  pose proof (respects_parseEnd pos_le pos_le_closed _ _ _ _ E2) as Hp2.
  unfold pos_le, name_pos in *.
  destruct (failed st2) eqn:Hf2; intros [= <- <-] Hok; [congruence|]. simpl.
  rewrite Hn2. split; [done|lia].
Qed.

Lemma Val_success fuel d st d' st' :
  Val fuel d st = Some (d', st') → failed st' = false →
  name_pos d' = loc_Pos (st_Loc st)
  ∧ (loc_Pos (st_Loc st) < loc_Pos (st_Loc st'))%nat.
Proof.
  unfold Val. cbv zeta.
  match goal with |- context [parseAll ?ps d st] =>
    destruct (parseAll ps d st) as [[d1 st1]|] eqn:E; [|done]
  end.
  destruct (failed st1) eqn:Hf1; [intros [= _ <-]; congruence|].
  apply named_rule_success in E as [Hn Hp]; [|
    repeat first [apply List.Forall_nil | apply List.Forall_cons];
      [apply keeps_Name_word|apply keeps_Name_at_Ret]|
    repeat first [apply List.Forall_nil | apply List.Forall_cons];
      [apply respects_word, pos_le_closed
      |apply respects_at_field, respects_ParseExpr, pos_le_closed]|done].
  destruct (parseEnd d1 st1) as [[d2 st2]|] eqn:E2; [|done].
  pose proof (keeps_Name_parseEnd _ _ _ _ E2) as Hn2.
  pose proof (respects_parseEnd pos_le pos_le_closed _ _ _ _ E2) as Hp2.
  unfold pos_le, name_pos in *.
  destruct (failed st2) eqn:Hf2; intros [= <- <-] Hok; [congruence|]. simpl.
  rewrite Hn2. split; [done|lia].
Qed.

Lemma Fn_or_Val_success fuel d st d' st' :
  parseAny [Fn fuel; Val fuel] d st = Some (d', st') → failed st' = false →
  name_pos d' = loc_Pos (st_Loc st)
  ∧ (loc_Pos (st_Loc st) < loc_Pos (st_Loc st'))%nat.
Proof.
  unfold parseAny. cbn [parseAny_loop].
  destruct (Fn fuel d st) as [[d1 st1]|] eqn:E1; [|done].
  destruct (failed st1) eqn:Hf1; cbn [negb].
  - destruct (Val fuel d1 _) as [[d2 st2]|] eqn:E2; [|done].
    destruct (failed st2) eqn:Hf2; cbn [negb].
    + by intros [= _ <-].
    + intros [= <- <-] _.
      destruct (Val_success _ _ _ _ _ E2 Hf2) as [Hn Hp].
      by rewrite st_Loc_Back in Hn, Hp.
  - intros [= <- <-] _. by apply (Fn_success _ _ _ _ _ E1).
Qed.

Lemma registry_built_mono es nodes st st' :
  registry_built es nodes st → pos_le st st' → registry_built es nodes st'.
Proof.
  intros (Hn & Hs & Hp) Hl. unfold pos_le in Hl. split_and!; [done|done|].
  intros d Hin. specialize (Hp d Hin). lia.
Qed.

Lemma Def_step fuel es nodes st nodes' st' :
  registry_built es nodes st →
  Def_ fuel nodes st = Some (nodes', st') →
  (failed st' = true → nodes' = nodes)
  ∧ ∃ es', registry_built es' nodes' st'.
Proof.
  intros Hreg. unfold Def_. cbv zeta.
  destruct (parseAny _ _ st) as [[d st1]|] eqn:E; [|done].
  pose proof (respects_Fn_or_Val pos_le pos_le_closed fuel _ _ _ _ E) as Hl.
  destruct (failed st1) eqn:Hf.
  { intros [= <- <-]. split; [done|]. exists es.
    by eapply registry_built_mono. }
  intros [= <- <-]. split; [simpl; unfold failed; simpl; fold (failed st1);
                            congruence|].
  destruct (Fn_or_Val_success _ _ _ _ _ E Hf) as [Hname Hadv].
  destruct Hreg as (Hn & Hs & Hp). unfold pos_le in Hl.
  exists (es ++ [(to_int (st_nextUID st1 + 1), d)]).
  unfold registry_built, st_Loc in *. cbn [newUID fst snd st_Src].
  rewrite !fmap_app. cbn [fmap list_fmap fst snd]. split_and!.
  - rewrite Hn. unfold tree_of_entries. by rewrite fold_left_app.
  - apply StronglySorted_app. split_and!; [|done|repeat constructor].
    intros x1 x2 Hx1 ->%list_elem_of_singleton.
    apply list_elem_of_fmap in Hx1 as (d1 & -> & Hd1).
    specialize (Hp d1 Hd1). lia.
  - intros d1 [Hd1| ->%list_elem_of_singleton]%elem_of_app.
    + specialize (Hp d1 Hd1). lia.
    + lia.
Qed.

Lemma many_Def_built fuel n : ∀ es nodes st nodes' st',
  registry_built es nodes st →
  many n (Def_ fuel) nodes st = Some (nodes', st') →
  ∃ es', registry_built es' nodes' st'.
Proof.
  induction n as [|n IH]; intros es nodes st nodes' st' Hreg; [done|].
  cbn [many]. cbv zeta.
  destruct (Def_ fuel nodes st) as [[nodes1 st1]|] eqn:E; [|done].
  destruct (Def_step _ _ _ _ _ _ Hreg E) as [Hsame [es1 Hreg1]].
  destruct (failed st1) eqn:Hf.
  - intros [= <- <-]. rewrite (Hsame eq_refl). exists es.
    eapply registry_built_mono; [exact Hreg|].
    unfold pos_le. by rewrite st_Loc_Back.
  - apply (IH es1). destruct (negb _); [|done].
    eapply registry_built_mono; [exact Hreg1|].
    apply (R_SkipSpaces pos_le pos_le_closed).
Qed.

Lemma ParseProgram_registry_built fuel st0 defs st :
  ParseProgram fuel Null st0 = Some (defs, st) →
  ∃ es, registry_built es defs st.
Proof.
  unfold ParseProgram. cbv zeta. cbn [parseAll].
  assert (H0 : ∀ st1, registry_built [] Null st1).
  { intros st1. split_and!; [done|constructor|].
    intros ? Hd. by apply elem_of_nil in Hd. }
  destruct (soi Null st0) as [[n1 st1]|] eqn:E1; [|done].
  injection E1 as <- _.
  destruct (failed st1).
  { intros [= <- <-]. by exists []. }
  match goal with |- context [many fuel _ Null ?s] =>
    destruct (many fuel (Def_ fuel) Null s) as [[n2 st2]|] eqn:E2; [|done]
  end.
  destruct (many_Def_built _ _ _ _ _ _ _ (H0 _) E2) as [es Hreg2].
  destruct (failed st2).
  { intros [= <- <-]. by exists es. }
  match goal with |- context [eoi n2 ?s] =>
    destruct (eoi n2 s) as [[n3 st3]|] eqn:E3; [|done];
    pose proof (respects_eoi pos_le pos_le_closed _ _ _ _ E3) as Hp3;
    assert (Hreg3 : registry_built es n2 s)
  end.
  { destruct (negb (src_Atom (st_Src st2)) && _); [|done].
    eapply registry_built_mono; [exact Hreg2|].
    apply (R_SkipSpaces pos_le pos_le_closed). }
  assert (n3 = n2) as -> by (by injection E3 as <- _).
  assert (Hreg4 : registry_built es n2 st3)
    by (by eapply registry_built_mono).
  destruct (failed st3); intros [= <- <-]; exists es; [done|].
  destruct (negb (src_Atom (st_Src st3)) && _); [|done].
  eapply registry_built_mono; [exact Hreg4|].
  apply (R_SkipSpaces pos_le pos_le_closed).
Qed.

Lemma tree_of_entries_sorted {A} (es : list (Z * A)) :
  avl (tree_of_entries es) ∧ StronglySorted Z.lt (keys (tree_of_entries es)).
Proof.
  unfold tree_of_entries.
  destruct (tree_of_entries_from es Null) as (H1 & H2 & _);
    [done|constructor|]. by split.
Qed.



(** X30.  When the front-end part of [main] ends successfully, what it
    has written is one line for each definition of the registry, each
    followed by one line for each parameter of that definition; the
    definitions come in the order of the in-order walk, which is the
    order of ascending keys. *)
Theorem main_dumps_the_definitions_in_key_order fuel file defs out :
  main fuel file = Some (Parsed defs out) →
  out = dump defs ∧ StronglySorted Z.lt (keys defs).
Proof.
  unfold main. cbv zeta.
  destruct (ParseProgram fuel Null _) as [[defs0 st]|] eqn:E; [|done].
  destruct (failed st); [done|].
  rewrite debugDef_lines. intros [= <- <-]. split; [done|].
  destruct (ParseProgram_registry_built _ _ _ _ E) as (es & -> & _).
  apply tree_of_entries_sorted.
Qed.

Lemma main_dumps_the_definitions_in_key_order_witness :
  ∃ defs out,
    main 20 ("k = 1" ++ nl ++ "id(x) x" ++ nl)%string
    = Some (Parsed defs out)
    ∧ out = [DebugDef 1 0 2 4; DebugDef 3 6 1 8; DebugParam 2 9]
    ∧ out = dump defs
    ∧ StronglySorted Z.lt (keys defs).
Proof.
  eexists _, _. split; [vm_compute; reflexivity|]. split; [reflexivity|].
  apply (main_dumps_the_definitions_in_key_order 20
           ("k = 1" ++ nl ++ "id(x) x" ++ nl)%string).
  vm_compute. reflexivity.
Defined.
